(* ===== verification/_CoqProject ===== *)
-Q . S2P
Prelude.v
Async.v
Protocol.v
Request.v
ClientData.v
Connection.v
ClientTask.v
ClientInvariant.v
Demo.v
ClientTheorems.v
TimedTask.v
Tls.v
ClientSystem.v
ClientSystemTheorems.v
ClientApi.v
AudioCache.v
AudioCacheTheorems.v
AudioCacheConcurrent.v
SyncHook.v
AudioCacheDemo.v
Utf8.v
Ndef.v
NdefTheorems.v
Mfrc522.v
Mfrc522Theorems.v
NfcReader.v
Mfrc522Init.v
NfcSystem.v
NfcSystemTheorems.v
Playback.v
UnitTests.v
