(* ===== verification/Prelude.v ===== *)
(** * Bloop client framework: a verification development

    ** The program

    The framework (Rust, src/src/) gives applications a client of the Bloop wire
    protocol. A [BloopClient] handle (client.rs) puts commands into a bounded
    channel; one background task per client owns the connection, serves the
    commands one at a time, pings or reconnects on a timer, and publishes a
    status watch. A connection attempt (connection.rs) looks the host up, opens
    TCP and TLS (tls.rs), negotiates the protocol version, authenticates, and
    may run an on-connect hook on a [Session]. Responses are decoded and routed
    by request.rs. audio_cache.rs keeps downloaded audio on disk, fed by a handle
    or a session. nfc/ reads tags: mfrc522.rs drives the reader chip and serves
    requests on a thread, ndef.rs parses what a tag stores.

    ** Files

    - Prelude: results, computations that may panic ([Comp]), machine integers,
      slices, tactics, the hint database [bloop].
    - Async: the monad of the async code. A computation runs against a clock, an
      arbitrary outside and a trace of events, under the deadline of the enclosing
      [tokio::time::timeout]; [wp] and the classes [Timely], [Emits], [Within] are
      its program logic, [Keeps] frames what a computation does to the world.
    - Protocol: the crate bloop-protocol as type classes, its laws, and a concrete
      instance (module [Toy]).
    - Request: [decode_response] (request.rs).
    - ClientData: configuration, status, the network interface [Net], events, and
      the discipline of a stream ([link]).
    - Connection: [connect] and its stages, [Connection], [Session] (connection.rs).
    - ClientTask: tokio's interval as a class with laws, and [ClientTask] with all
      its handlers and its loop (client.rs).
    - ClientInvariant: the invariant of the task, the contract of hooks, the
      abstract status machine, and the proof that every turn respects them.
    - Demo: a scripted server to run the model against.
    - ClientTheorems: what the task guarantees.
    - TimedTask: the loop of the task in time, with the ticker's interval.
    - Tls: [create_connector] (tls.rs).
    - ClientSystem, ClientSystemTheorems: builder, operations of a handle, and the
      system of all callers, the channel and the task as a step relation.
    - ClientApi: the operations of a handle as computations in time, and the
      graceful-shutdown subsystem.
    - AudioCache, AudioCacheTheorems: the cache (audio_cache.rs) on a file system
      described by laws, and its guarantees.
    - AudioCacheConcurrent: any number of [ensure] calls and pruning loops on one
      directory as a step relation, and that the code takes its steps.
    - SyncHook: session and handle as audio providers, the hook that syncs the
      cache, and the connection task with that hook.
    - AudioCacheDemo: an executable disk, and the cache theorems applied on it.
    - Utf8, Ndef, NdefTheorems: UTF-8 validity and NDEF parsing (nfc/ndef.rs).
    - Mfrc522, Mfrc522Theorems: the adapter and serving loop (nfc/mfrc522.rs).
    - Mfrc522Init: bringing the hardware up, and the reader thread.
    - NfcReader: the operations of a handle to a backend (nfc/mod.rs).
    - NfcSystem, NfcSystemTheorems: all operations, the bounded channel and the
      backend, poll by poll, as a step relation.
    - Playback: audio playback and its cancellation (audio.rs).
    - UnitTests: unit tests of the repository, run against these definitions.

    ** Correspondence

    Definitions carry the names of the functions they translate; a comment names
    the Rust item. An async function is a computation of [M]; [.await?] is [let?];
    [select!] is an arbitrary sequence of [Selected] turns. A oneshot sender is a
    number, and its use an event ([EvReply], [EvShutdownAck]); the status watch is
    the [status] field and [EvStatus] its notifications. Bytes are integers below
    256, an [i32] is kept by [as_i32], a [u8] or [usize] operation that overflows
    and an index out of range are [Panic]. What is not in the repository
    (bloop-protocol, the network, rustls, the reader driver, the operating
    system's files and devices, tokio's interval) is a class parameter. The network
    has no laws but that it does not write to the disk: it may delay, fail or
    answer anything; one theorem also uses that [read_frame] refuses a payload over
    the limit it is given ([FrameLimit]). Files may fail or be cut off at any moment.

    The on-connect hook is user code. The theorems on runs of the task assume that
    it meets [HookOk]: it ends at its deadline and only uses its session, which its
    type enforces, and it leaves no exchange unfinished when it returns [Ok], which
    is up to its author. Hooks that pass the errors of their session on do so
    ([run_hook_ok]), as does the hook that syncs the cache.

    ** What is shown

    - The task (ClientTheorems): every sequence of turns completes and keeps the
      invariant; published statuses follow the status machine; commands are
      answered exactly once and in order; a request's outcome, a configure, a
      shutdown, latched credentials and the farewell behave as documented; turns
      are bounded in time; [Connected] is published only after handshake,
      authentication and hook, and a live connection stays one that was
      authenticated with the configuration the task has. A ping interval of zero,
      which the builder accepts, panics the task at its start.
    - Connecting (Connection): credentials are never sent before version 3 is
      accepted, and no frame with more than 1024 bytes of payload is taken meanwhile.
    - The system (ClientSystemTheorems): first-in first-out, exactly once, each
      response to its caller and read in answer to that caller's message, and the
      turns of the task answer everybody who waits; [preload_check] understands
      its answers; certificate verification is off only on request.
    - Time (TimedTask, ClientApi): with the [Delay] behaviour the task chooses, ticks
      are at least a ping interval apart and the loop never sleeps for longer; a shutdown returns within five seconds.
    - The cache (AudioCacheTheorems): no truncated file under a final name at any
      cut, no download of what is cached, what a sync leaves, keeps and reports; files
      it fails to remove stay behind unreported.
    - Its composition with the task (SyncHook): a syncing hook meets the contract
      of hooks, and in every run of the task each cached file is what a server
      answered when asked for it.
    - Its concurrent use (AudioCacheConcurrent): the same in every interleaving of
      calls that share one directory and one counter; every run of the code is a
      run of that machine.
    - Tags (NdefTheorems, Mfrc522Theorems): the record parser equals a reference
      parser and accepts exactly the text records; the TLV parser extracts the
      message for any chunking; the whole read path never panics and returns
      exactly the stored text, within the part of the announced memory the code reads;
      the serving loop answers in order. One theorem and two lemmas pin down inputs
      the parsers mishandle.
    - The reader (Mfrc522Init, NfcSystemTheorems): the backend starts only after the
      whole reset and initialization sequence succeeded; with any number of handles,
      responses are routed to who asked, and given-up waits do not block others.
    - Playback: a cancelled playback ends within one sleep, or never starts.

    ** Bounds

    [poll_card], [poll_removal] and [play_loop] wait for the outside and take fuel;
    the theorems say after how many polls they end, so any larger fuel is enough,
    and that running out means the outside did nothing during all polls.
    Concurrent calls of the cache draw at most 2^64 temp file numbers, as the
    counter is a [u64]. Parsers take the largest [usize] as a parameter; 1024
    suffices for what a tag can deliver. Everything else is structurally
    recursive and total.

    ** Not modelled

    The crate root (lib.rs: declarations and re-exports), [Debug] and log messages,
    and the formatting of errors except the strings a tag read returns. Several
    processes on one cache directory: [TEMP_COUNTER] is per process. Fairness of
    the scheduler: liveness theorems speak of the turns of the task or the backend,
    not of when they are scheduled. *)

From stdpp Require Export base list numbers option gmap strings.

(** ** Results

    [Result A E] is Rust's [Result<A, E>]. *)

Inductive Result (A E : Type) :=
| Ok (a : A)
| Err (e : E).
Arguments Ok {A E} a.
Arguments Err {A E} e.

Definition map_ok {A B E} (f : A → B) (r : Result A E) : Result B E :=
  match r with Ok a => Ok (f a) | Err e => Err e end.

Definition map_err {A E F} (f : E → F) (r : Result A E) : Result A F :=
  match r with Ok a => Ok a | Err e => Err (f e) end.

Definition ok_or {A E} (e : E) (o : option A) : Result A E :=
  match o with Some a => Ok a | None => Err e end.

Definition is_ok {A E} (r : Result A E) : bool :=
  match r with Ok _ => true | Err _ => false end.

#[export] Instance Result_eq_dec {A E} `{EqDecision A, EqDecision E} : EqDecision (Result A E).
Proof. solve_decision. Defined.

(** ** Computations that may panic

    [Comp A E] is a Rust computation returning [Result<A, E>] that may also
    panic: out-of-range indexing, a failed [expect], an arithmetic overflow. *)

Inductive Comp (A E : Type) :=
| Ret (a : A)
| Fail (e : E)
| Panic.
Arguments Ret {A E} a.
Arguments Fail {A E} e.
Arguments Panic {A E}.

Definition comp_bind {A B E} (m : Comp A E) (k : A → Comp B E) : Comp B E :=
  match m with Ret a => k a | Fail e => Fail e | Panic => Panic end.

Declare Scope bloop_scope.
Delimit Scope bloop_scope with bloop.
Open Scope bloop_scope.

Notation "'let!' x ':=' m 'in' k" := (comp_bind m (λ x, k))
  (at level 10, x name, m at level 100, k at level 200) : bloop_scope.

Definition comp_result {A E} (r : Result A E) : Comp A E :=
  match r with Ok a => Ret a | Err e => Fail e end.

(** [data[i]]: panics when out of range. *)
Definition index_at {A E} (l : list A) (i : Z) : Comp A E :=
  if bool_decide (0 ≤ i)%Z then
    match l !! Z.to_nat i with Some x => Ret x | None => Panic end
  else Panic.

(** [l[a..b]] as an [option]: [None] is a panic for indexing and the [None] of [get]. *)
Definition slice {A} (l : list A) (a b : Z) : option (list A) :=
  if bool_decide (0 ≤ a ∧ a ≤ b ∧ b ≤ Z.of_nat (length l))%Z
  then Some (take (Z.to_nat (b - a)) (drop (Z.to_nat a) l))
  else None.

Definition slice_at {A E} (l : list A) (a b : Z) : Comp (list A) E :=
  match slice l a b with Some x => Ret x | None => Panic end.

(** ** Machine integers *)

(** [z as i32]: two's complement truncation. *)
Definition as_i32 (z : Z) : Z := ((z + 2 ^ 31) mod 2 ^ 32 - 2 ^ 31)%Z.

(** A byte, [u8]. *)
Definition is_u8 (z : Z) : Prop := (0 ≤ z < 256)%Z.

#[export] Instance is_u8_dec z : Decision (is_u8 z).
Proof. unfold is_u8; apply _. Defined.

(** [u32::from_be_bytes]. *)
Definition from_be_bytes (l : list Z) : Z :=
  fold_left (λ acc b, acc * 256 + b)%Z l 0%Z.

(** [a + b] on an unsigned type with largest value [max]: panics on overflow. *)
Definition checked_add {E} (max a b : Z) : Comp Z E :=
  if bool_decide (a + b ≤ max)%Z then Ret (a + b)%Z else Panic.

(** ** Automation *)

Create HintDb bloop.

(** Splits the conditionals and matches of the goal and hypotheses. *)
Ltac split_match :=
  match goal with
  | |- context [match ?x with _ => _ end] => destruct x eqn:?
  | H : context [match ?x with _ => _ end] |- _ => destruct x eqn:?
  end.

Ltac case_all := repeat (case_bool_decide || split_match); simplify_eq/=.

Ltac destruct_ands := repeat match goal with
  | H : _ ∧ _ |- _ => destruct H
  | H : ∃ _, _ |- _ => destruct H
  end.

(** ** Shared lemmas *)

Lemma as_i32_small z : (- 2 ^ 31 ≤ z < 2 ^ 31)%Z → as_i32 z = z.
Proof. intros ?. unfold as_i32. rewrite Z.mod_small; lia. Qed.

Lemma checked_add_fits {E} max a b :
  (a + b ≤ max)%Z → checked_add (E:=E) max a b = Ret (a + b)%Z.
Proof. intros ?. unfold checked_add. by rewrite bool_decide_eq_true_2. Qed.

Lemma index_at_lookup {A E} (l : list A) (n : nat) x :
  l !! n = Some x → index_at (E:=E) l (Z.of_nat n) = Ret x.
Proof.
  intros H. unfold index_at. rewrite bool_decide_eq_true_2 by lia.
  by rewrite Nat2Z.id, H.
Qed.

Lemma slice_app {A} (a b c : list A) (i j : Z) :
  i = Z.of_nat (length a) → j = Z.of_nat (length a + length b) →
  slice (a ++ b ++ c) i j = Some b.
Proof.
  intros -> ->. unfold slice.
  rewrite bool_decide_eq_true_2 by (rewrite !length_app; lia).
  rewrite Nat2Z.id, drop_app_length. f_equal.
  replace (Z.to_nat _) with (length b) by lia. apply take_app_length.
Qed.

Lemma slice_Some {A} (l x : list A) (i j : Z) :
  slice l i j = Some x →
  ∃ a c, l = a ++ x ++ c ∧ i = Z.of_nat (length a) ∧ j = Z.of_nat (length a + length x).
Proof.
  unfold slice. intros H. case_bool_decide as Hr; simplify_eq.
  exists (take (Z.to_nat i) l), (drop (Z.to_nat (j - i)) (drop (Z.to_nat i) l)).
  rewrite take_drop, take_drop, !length_take, length_drop. split_and!; [done|lia..].
Qed.

Lemma slice_in_range {A E} (l : list A) (i j : Z) :
  (0 ≤ i ≤ j ∧ j ≤ Z.of_nat (length l))%Z → ∃ x, slice_at (E:=E) l i j = Ret x ∧ slice l i j = Some x.
Proof.
  intros H. unfold slice_at, slice.
  rewrite bool_decide_eq_true_2 by lia. eauto.
Qed.

#[export] Hint Resolve as_i32_small : bloop.
