(* ===== verification/Async.v ===== *)
(** * Asynchronous computations with deadlines

    The monad in which the async functions of the client are written. A
    computation runs against a [World]: a clock, the state of the outside
    (peer, network, timers' environment), and the trace of what the program
    did so far. [tokio::time::timeout] is the only source of cancellation in
    the code, so a computation also receives the deadline of the innermost
    enclosing [timeout]; it answers [None] when that deadline passed while it
    was suspended, which is the moment tokio drops the future.

    Nothing is assumed of the outside: an operation may take any time, answer
    anything, and leave any state behind, cancelled or not. *)

From S2P Require Import Prelude.

Section Async.
Context {E Ev : Type}.

Record World := mkWorld { clock : N; env : E; trace : list Ev }.

Definition M (A : Type) : Type := option N → World → option A * World.

Definition ret {A} (a : A) : M A := λ _ w, (Some a, w).

Definition bind {A B} (m : M A) (k : A → M B) : M B := λ dl w,
  match m dl w with
  | (Some a, w') => k a dl w'
  | (None, w') => (None, w')
  end.

(** A synchronous effect: it cannot be cancelled. *)
Definition emit (ev : Ev) : M unit := λ _ w,
  (Some tt, mkWorld (clock w) (env w) (trace w ++ [ev])).

(** An awaited operation of the outside. [op] sees how much time is left and
    answers with a duration, the state it leaves and a result. The future is
    dropped at the deadline when the operation would end after it. *)
Definition call {A} (log : option A → Ev) (op : option N → E → N * E * A) : M A := λ dl w,
  let '(dur, e, a) := op ((λ d, d - clock w)%N <$> dl) (env w) in
  let finish := (clock w + dur)%N in
  match dl with
  | Some d =>
      if (finish <=? d)%N
      then (Some a, mkWorld finish e (trace w ++ [log (Some a)]))
      else (None, mkWorld (N.max (clock w) d) e (trace w ++ [log None]))
  | None => (Some a, mkWorld finish e (trace w ++ [log (Some a)]))
  end.

(** An awaited operation that leaves no event, such as file I/O. *)
Definition await_op {A} (op : option N → E → N * E * A) : M A := λ dl w,
  let '(dur, e, a) := op ((λ d, d - clock w)%N <$> dl) (env w) in
  let finish := (clock w + dur)%N in
  match dl with
  | Some d =>
      if (finish <=? d)%N then (Some a, mkWorld finish e (trace w))
      else (None, mkWorld (N.max (clock w) d) e (trace w))
  | None => (Some a, mkWorld finish e (trace w))
  end.

(** A synchronous change of the surroundings, such as an atomic counter's. *)
Definition update_env {A} (f : E → A * E) : M A := λ _ w,
  let '(a, e) := f (env w) in (Some a, mkWorld (clock w) e (trace w)).

(** [Instant::now()]. *)
Definition read_clock : M N := λ _ w, (Some (clock w), w).

(** [tokio::time::timeout(d, m).await]; [None] is [Err(Elapsed)]. When an
    enclosing deadline comes first, that one cancels the whole expression. *)
Definition timeout {A} (d : N) (m : M A) : M (option A) := λ dl w,
  let mine := (clock w + d)%N in
  let inner (o : option A) (w' : World) : option (option A) * World := (Some o, w') in
  match dl with
  | Some o =>
      if (o <? mine)%N then
        match m (Some o) w with
        | (Some a, w') => (Some (Some a), w')
        | (None, w') => (None, w')
        end
      else let '(r, w') := m (Some mine) w in inner r w'
  | None => let '(r, w') := m (Some mine) w in inner r w'
  end.

End Async.

Arguments World : clear implicits.
Arguments M : clear implicits.

Notation "'let*' x ':=' m 'in' k" := (bind m (λ x, k))
  (at level 10, x name, m at level 100, k at level 200) : bloop_scope.
Notation "m ';;' k" := (bind m (λ _, k))
  (at level 100, k at level 200, right associativity) : bloop_scope.

(** [m.await?] inside an async function returning [Result<_, F>]. *)
Definition bind_ok {E Ev A B F} (m : M E Ev (Result A F)) (k : A → M E Ev (Result B F)) :
  M E Ev (Result B F) :=
  let* r := m in match r with Ok a => k a | Err e => ret (Err e) end.

Notation "'let?' x ':=' m 'in' k" := (bind_ok m (λ x, k))
  (at level 10, x name, m at level 100, k at level 200) : bloop_scope.

(** [m.await.map_err(f)]. *)
Definition await_map_err {E Ev A F G} (f : F → G) (m : M E Ev (Result A F)) : M E Ev (Result A G) :=
  let* r := m in ret (map_err f r).

(** ** Timeliness

    A computation is [Timely] when the clock never runs backwards, a deadline
    still ahead is never overrun, it is cancelled only under a deadline, and
    what it did is appended to the trace. *)

Class Timely {E Ev A} (m : M E Ev A) : Prop := timely dl w :
  ∀ r w', m dl w = (r, w') →
    (clock w ≤ clock w')%N ∧
    (∀ d, dl = Some d → (clock w ≤ d)%N → (clock w' ≤ d)%N) ∧
    (dl = None → is_Some r) ∧
    (∃ l, trace w' = trace w ++ l).

Section timely.
Context {E Ev : Type}.
Implicit Types w : World E Ev.

#[global] Instance timely_ret {A} (a : A) : Timely (E:=E) (Ev:=Ev) (ret a).
Proof.
  intros dl w r w' [= <- <-]. split_and!; [lia|naive_solver|eauto|].
  exists []. by rewrite app_nil_r.
Qed.

#[global] Instance timely_emit (ev : Ev) : Timely (E:=E) (emit ev).
Proof. intros dl w r w' [= <- <-]. split_and!; simpl; [lia|naive_solver|eauto|eauto]. Qed.

#[global] Instance timely_call {A} (log : option A → Ev) (op : option N → E → N * E * A) :
  Timely (call log op).
Proof.
  intros dl w r w'. unfold call. destruct (op _ _) as [[dur e] a].
  destruct dl as [d|]; [destruct (N.leb_spec (clock w + dur) d)|];
    intros [= <- <-]; simpl; (split_and!; [lia|intros ? [= <-]; lia|intros; eauto; done|eauto])
    || (split_and!; [lia|done|eauto|eauto]).
Qed.

#[global] Instance timely_await_op {A} (op : option N → E → N * E * A) :
  Timely (Ev:=Ev) (await_op op).
Proof.
  intros dl w r w'. unfold await_op. destruct (op _ _) as [[dur e] a].
  destruct dl as [d|]; [destruct (N.leb_spec (clock w + dur) d)|]; intros [= <- <-]; simpl;
    (split_and!; [lia|intros ? [= <-]; lia|intros; eauto; done|exists []; by rewrite app_nil_r])
    || (split_and!; [lia|done|eauto|exists []; by rewrite app_nil_r]).
Qed.

#[global] Instance timely_update_env {A} (f : E → A * E) : Timely (Ev:=Ev) (update_env f).
Proof.
  intros dl w r w'. unfold update_env. destruct (f _) as [a e]. intros [= <- <-].
  split_and!; simpl; [lia|naive_solver|eauto|exists []; by rewrite app_nil_r].
Qed.

#[global] Instance timely_bind {A B} (m : M E Ev A) (k : A → M E Ev B) :
  Timely m → (∀ a, Timely (k a)) → Timely (bind m k).
Proof.
  intros Hm Hk dl w r w'. unfold bind.
  destruct (m dl w) as [[a|] w1] eqn:E1.
  2:{ intros [= <- <-]. destruct (Hm _ _ _ _ E1) as (?&?&Hs&?).
      split_and!; [done..|intros ->; by destruct Hs|done]. }
  intros E2. specialize (Hm _ _ _ _ E1) as (?&Hd&_&[l1 Hl1]).
  specialize (Hk _ _ _ _ _ E2) as (?&Hd2&?&[l2 Hl2]).
  split_and!; [lia|intros d -> ?; apply Hd2; [done|by apply Hd]|done|].
  exists (l1 ++ l2). by rewrite Hl2, Hl1, (assoc_L _).
Qed.

#[global] Instance timely_timeout {A} d (m : M E Ev A) : Timely m → Timely (timeout d m).
Proof.
  intros Hm dl w r w'. unfold timeout.
  assert (∀ o, (clock w ≤ o)%N → ∀ r1 w1, m (Some o) w = (r1, w1) →
    (clock w ≤ clock w1)%N ∧ (clock w1 ≤ o)%N ∧ ∃ l, trace w1 = trace w ++ l) as Hrun.
  { intros o Ho r1 w1 E1. destruct (Hm _ _ _ _ E1) as (?&Hd&_&?).
    split_and!; [done|by apply Hd|done]. }
  destruct dl as [o|]; [destruct (N.ltb_spec o (clock w + d))|].
  - destruct (m (Some o) w) as [r1 w1] eqn:E1.
    destruct (Hm _ _ _ _ E1) as (?&Hd&_&?).
    destruct r1; intros [= <- <-]; (split_and!; [lia|naive_solver|done|done]).
  - destruct (m (Some (clock w + d)%N) w) as [r1 w1] eqn:E1. intros [= <- <-].
    destruct (Hrun (clock w + d)%N ltac:(lia) _ _ E1) as (?&?&?).
    split_and!; [lia|intros ? [= <-]; lia|done|done].
  - destruct (m (Some (clock w + d)%N) w) as [r1 w1] eqn:E1. intros [= <- <-].
    destruct (Hrun (clock w + d)%N ltac:(lia) _ _ E1) as (?&?&?).
    split_and!; [lia|done|eauto|done].
Qed.

#[global] Instance timely_bind_ok {A B F} (m : M E Ev (Result A F)) (k : A → M E Ev (Result B F)) :
  Timely m → (∀ a, Timely (k a)) → Timely (bind_ok m k).
Proof. intros. apply timely_bind; [done|]. intros [a|e]; apply _. Qed.

#[global] Instance timely_await_map_err {A F G} (f : F → G) (m : M E Ev (Result A F)) :
  Timely m → Timely (await_map_err f m).
Proof. intros. apply timely_bind; [done|]. intros a; apply _. Qed.

(** [timeout d m] at top level answers within [d]. *)
Lemma timeout_bound {A} d (m : M E Ev A) `{!Timely m} w r w' :
  timeout d m None w = (r, w') → (clock w ≤ clock w' ≤ clock w + d)%N.
Proof.
  unfold timeout. destruct (m _ w) as [r1 w1] eqn:E1. intros [= <- <-].
  destruct (timely _ _ _ _ E1) as (?&Hd&_). split; [done|]. apply Hd; [done|lia].
Qed.

(** A [Timely] computation without deadline always completes. *)
Lemma timely_completes {A} (m : M E Ev A) `{!Timely m} w :
  ∃ a w', m None w = (Some a, w').
Proof.
  destruct (m None w) as [r w'] eqn:E1.
  destruct (timely _ _ _ _ E1) as (_&_&[a ->]&_); eauto.
Qed.

(** *** Inversion of runs *)

Lemma run_bind {A B} (m : M E Ev A) (k : A → M E Ev B) dl w r w' :
  bind m k dl w = (r, w') →
  (∃ a w1, m dl w = (Some a, w1) ∧ k a dl w1 = (r, w')) ∨
  (m dl w = (None, w') ∧ r = None).
Proof. unfold bind. destruct (m dl w) as [[a|] w1]; [eauto 10|intros [= <- <-]; eauto]. Qed.

Lemma run_bind_ok {A B F} (m : M E Ev (Result A F)) (k : A → M E Ev (Result B F)) dl w r w' :
  bind_ok m k dl w = (r, w') →
  (∃ a w1, m dl w = (Some (Ok a), w1) ∧ k a dl w1 = (r, w')) ∨
  (∃ e, m dl w = (Some (Err e), w') ∧ r = Some (Err e)) ∨
  (m dl w = (None, w') ∧ r = None).
Proof.
  intros [([a|e]&w1&H1&H2)|[H1 ->]]%run_bind; [by eauto 10| |by eauto].
  unfold ret in H2. simplify_eq. eauto 10.
Qed.

Lemma run_await_map_err {A F G} (f : F → G) (m : M E Ev (Result A F)) dl w r w' :
  await_map_err f m dl w = (r, w') →
  (∃ r0, m dl w = (Some r0, w') ∧ r = Some (map_err f r0)) ∨
  (m dl w = (None, w') ∧ r = None).
Proof.
  intros [(r0&w1&H1&H2)|[H1 ->]]%run_bind; [|by eauto].
  unfold ret in H2. simplify_eq. eauto.
Qed.

Lemma run_timeout {A} d (m : M E Ev A) dl w r w' :
  timeout d m dl w = (r, w') →
  (∃ a dl', m dl' w = (Some a, w') ∧ r = Some (Some a)) ∨
  (∃ dl', m dl' w = (None, w') ∧ (r = Some None ∨ r = None)).
Proof.
  unfold timeout. destruct dl as [o|]; [case_match|];
    (destruct (m _ w) as [[a|] w1] eqn:E1); intros [= <- <-]; eauto 10.
Qed.

End timely.

#[export] Hint Extern 5 (Timely (match ?x with _ => _ end)) => destruct x : typeclass_instances.

(** ** Weakest preconditions

    [wp m dl Q C w]: running [m] from [w] under the deadline [dl] ends in a
    result satisfying [Q], or is cancelled in a world satisfying [C]. *)

Definition wp {E Ev A} (m : M E Ev A) (dl : option N) (Q : A → World E Ev → Prop)
    (C : World E Ev → Prop) (w : World E Ev) : Prop :=
  match m dl w with (Some a, w') => Q a w' | (None, w') => C w' end.

Section wp.
Context {E Ev : Type}.
Implicit Types w : World E Ev.
Implicit Types C : World E Ev → Prop.

Lemma wp_ret {A} (a : A) dl (Q : A → World E Ev → Prop) C w : Q a w → wp (ret a) dl Q C w.
Proof. done. Qed.

Lemma wp_emit ev dl (Q : unit → World E Ev → Prop) C w :
  Q tt (mkWorld (clock w) (env w) (trace w ++ [ev])) → wp (emit ev) dl Q C w.
Proof. done. Qed.

Lemma wp_bind {A B} (m : M E Ev A) (k : A → M E Ev B) dl Q C w :
  wp m dl (λ a w', wp (k a) dl Q C w') C w → wp (bind m k) dl Q C w.
Proof. unfold wp, bind. by destruct (m dl w) as [[a|] w']. Qed.

Lemma wp_bind_ok {A B F} (m : M E Ev (Result A F)) (k : A → M E Ev (Result B F)) dl Q C w :
  wp m dl (λ r w', match r with Ok a => wp (k a) dl Q C w' | Err e => Q (Err e) w' end) C w →
  wp (bind_ok m k) dl Q C w.
Proof.
  intros Hm. apply wp_bind. unfold wp in *. destruct (m dl w) as [[[a|e]|] w']; done.
Qed.

Lemma wp_await_map_err {A F G} (f : F → G) (m : M E Ev (Result A F)) dl Q C w :
  wp m dl (λ r w', Q (map_err f r) w') C w → wp (await_map_err f m) dl Q C w.
Proof. intros Hm. apply wp_bind. unfold wp in *. by destruct (m dl w) as [[r|] w']. Qed.

Lemma wp_call {A} (log : option A → Ev) op dl (Q : A → World E Ev → Prop) C w :
  (∀ a clk e, Q a (mkWorld clk e (trace w ++ [log (Some a)]))) →
  (∀ clk e, C (mkWorld clk e (trace w ++ [log None]))) →
  wp (call log op) dl Q C w.
Proof.
  intros HQ HC. unfold wp, call. destruct (op _ _) as [[dur e] a].
  destruct dl as [d|]; [destruct (_ <=? _)%N|]; auto.
Qed.

(** The same with what is known of the operation. *)
Lemma wp_call_op {A} (log : option A → Ev) op dl (Q : A → World E Ev → Prop) C w :
  (∀ o dur e a clk, op o (env w) = (dur, e, a) → Q a (mkWorld clk e (trace w ++ [log (Some a)]))) →
  (∀ clk e, C (mkWorld clk e (trace w ++ [log None]))) →
  wp (call log op) dl Q C w.
Proof.
  intros HQ HC. unfold wp, call. destruct (op _ _) as [[dur e] a] eqn:Hop.
  destruct dl as [d|]; [destruct (_ <=? _)%N|]; eauto.
Qed.

(** [in_time o dur]: an operation of length [dur] ends before its cancellation. *)
Definition in_time (o : option N) (dur : N) : Prop := ∀ d, o = Some d → (dur ≤ d)%N.

Lemma wp_await_op {A} op dl (Q : A → World E Ev → Prop) C w :
  (∀ o dur e a clk, op o (env w) = (dur, e, a) →
    (in_time o dur → Q a (mkWorld clk e (trace w))) ∧ C (mkWorld clk e (trace w))) →
  wp (await_op op) dl Q C w.
Proof.
  intros H. unfold wp, await_op. destruct (op _ _) as [[dur e] a] eqn:Hop.
  destruct dl as [d|]; [destruct (N.leb_spec (clock w + dur) d)|]; simpl in *.
  - eapply H; [done|]. intros ? [= <-]. lia.
  - by eapply H.
  - by eapply H.
Qed.

Lemma wp_update_env {A} (f : E → A * E) dl (Q : A → World E Ev → Prop) C w :
  Q (f (env w)).1 (mkWorld (clock w) (f (env w)).2 (trace w)) → wp (update_env f) dl Q C w.
Proof. unfold wp, update_env. by destruct (f _). Qed.

Lemma wp_timeout {A} d (m : M E Ev A) dl Q C w :
  (∀ dl', wp m dl' (λ a w', Q (Some a) w') (λ w', Q None w' ∧ C w') w) →
  wp (timeout d m) dl Q C w.
Proof.
  intros Hm. unfold wp, timeout in *.
  destruct dl as [o|]; [destruct (_ <? _)%N|].
  - specialize (Hm (Some o)). destruct (m _ w) as [[a|] w']; naive_solver.
  - specialize (Hm (Some (clock w + d)%N)). destruct (m _ w) as [[a|] w']; naive_solver.
  - specialize (Hm (Some (clock w + d)%N)). destruct (m _ w) as [[a|] w']; naive_solver.
Qed.

Lemma wp_mono {A} (m : M E Ev A) dl (Q Q' : A → World E Ev → Prop) C C' w :
  wp m dl Q C w → (∀ a w', Q a w' → Q' a w') → (∀ w', C w' → C' w') → wp m dl Q' C' w.
Proof. unfold wp. destruct (m dl w) as [[a|] w']; auto. Qed.

Lemma wp_and {A} (m : M E Ev A) dl (Q Q' : A → World E Ev → Prop) C C' w :
  wp m dl Q C w → wp m dl Q' C' w → wp m dl (λ a w', Q a w' ∧ Q' a w') (λ w', C w' ∧ C' w') w.
Proof. unfold wp. destruct (m dl w) as [[a|] w']; auto. Qed.

Lemma wp_any {A} (m : M E Ev A) dl w : wp m dl (λ _ _, True) (λ _, True) w.
Proof. unfold wp. by destruct (m dl w) as [[a|] w']. Qed.

Lemma wp_run {A} (m : M E Ev A) dl Q C w a w' :
  m dl w = (Some a, w') → wp m dl Q C w → Q a w'.
Proof. unfold wp. by intros ->. Qed.

End wp.

Lemma wp_final {E Ev A} (m : M E Ev A) dl (R : World E Ev → Prop) w :
  wp m dl (λ _ w', R w') R w → R (m dl w).2.
Proof. unfold wp. by destruct (m dl w) as [[a|] w']. Qed.

(** Proves a goal about the end of the run [H] by a weakest precondition. *)
Ltac by_wp H :=
  match type of H with
  | ?m ?dl ?w = (Some ?a, ?w') =>
      match goal with
      | |- ?G =>
          let G' := eval pattern a, w' in G in
          match G' with
          | ?F _ _ => refine (wp_run m dl F (λ _, True) w a w' H _)
          end
      end
  end.

(** What happened is never undone. *)
Lemma timely_wp {E Ev A} (m : M E Ev A) dl w : Timely m →
  wp m dl (λ _ w', ∃ l, trace w' = trace w ++ l) (λ w', ∃ l, trace w' = trace w ++ l) w.
Proof. intros Hm. unfold wp. destruct (m dl w) as [[a|] w'] eqn:H; by destruct (Hm _ _ _ _ H) as (_ & _ & _ & ?). Qed.

(** ** Which events a computation can emit *)

Class Emits {E Ev A} (Q : Ev → Prop) (m : M E Ev A) : Prop := emits dl w :
  ∀ r w', m dl w = (r, w') → ∃ l, trace w' = trace w ++ l ∧ Forall Q l.

Section emits.
Context {E Ev : Type} (Q : Ev → Prop).

#[global] Instance emits_ret {A} (a : A) : Emits (E:=E) Q (ret a).
Proof. intros dl w r w' [= <- <-]. exists []. by rewrite app_nil_r. Qed.

Lemma emits_emit ev : Q ev → Emits (E:=E) Q (emit ev).
Proof. intros ? dl w r w' [= <- <-]. exists [ev]. by repeat constructor. Qed.

Lemma emits_call {A} (log : option A → Ev) (op : option N → E → N * E * A) :
  (∀ o, Q (log o)) → Emits Q (call log op).
Proof.
  intros HQ dl w r w'. unfold call. destruct (op _ _) as [[dur e] a].
  destruct dl as [d|]; [case_match|]; intros [= <- <-]; simpl; eexists; split; eauto.
Qed.

#[global] Instance emits_await_op {A} (op : option N → E → N * E * A) : Emits Q (await_op op).
Proof.
  intros dl w r w'. unfold await_op. destruct (op _ _) as [[dur e] a].
  destruct dl as [d|]; [case_match|]; intros [= <- <-]; simpl; exists []; by rewrite app_nil_r.
Qed.

#[global] Instance emits_update_env {A} (f : E → A * E) : Emits Q (update_env f).
Proof.
  intros dl w r w'. unfold update_env. destruct (f _) as [a e]. intros [= <- <-].
  exists []. by rewrite app_nil_r.
Qed.

#[global] Instance emits_bind {A B} (m : M E Ev A) (k : A → M E Ev B) :
  Emits Q m → (∀ a, Emits Q (k a)) → Emits Q (bind m k).
Proof.
  intros Hm Hk dl w r w' [(a&w1&H1&H2)|[H1 ->]]%run_bind; [|by eapply Hm].
  destruct (Hm _ _ _ _ H1) as (l1&Ht1&?), (Hk _ _ _ _ _ H2) as (l2&Ht2&?).
  exists (l1 ++ l2). rewrite Ht2, Ht1, (assoc_L _). split; [done|by apply Forall_app].
Qed.

#[global] Instance emits_bind_ok {A B F} (m : M E Ev (Result A F)) (k : A → M E Ev (Result B F)) :
  Emits Q m → (∀ a, Emits Q (k a)) → Emits Q (bind_ok m k).
Proof. intros. apply emits_bind; [done|]. intros [a|e]; apply _. Qed.

#[global] Instance emits_await_map_err {A F G} (f : F → G) (m : M E Ev (Result A F)) :
  Emits Q m → Emits Q (await_map_err f m).
Proof. intros. apply emits_bind; [done|]. intros a; apply _. Qed.

#[global] Instance emits_timeout {A} d (m : M E Ev A) : Emits Q m → Emits Q (timeout d m).
Proof.
  intros Hm dl w r w' [(a&dl'&H1&_)|(dl'&H1&_)]%run_timeout; by eapply Hm.
Qed.

Lemma emits_mono {A} (Q' : Ev → Prop) (m : M E Ev A) :
  Emits Q' m → (∀ ev, Q' ev → Q ev) → Emits Q m.
Proof.
  intros Hm HQ dl w r w' H. destruct (Hm _ _ _ _ H) as (l&?&?).
  exists l. split; [done|]. by eapply Forall_impl.
Qed.

Lemma emits_wp {A} (m : M E Ev A) dl w :
  Emits Q m →
  wp m dl (λ _ w', ∃ l, trace w' = trace w ++ l ∧ Forall Q l)
    (λ w', ∃ l, trace w' = trace w ++ l ∧ Forall Q l) w.
Proof. intros Hm. unfold wp. destruct (m dl w) as [[a|] w'] eqn:H; by eapply Hm. Qed.

End emits.

(** ** Time bounds

    [Within n m]: without a deadline, [m] takes at most [n]. *)

Class Within {E Ev A} (n : N) (m : M E Ev A) : Prop := within w :
  ∀ r w', m None w = (r, w') → (clock w' ≤ clock w + n)%N.

Section within.
Context {E Ev : Type}.

Lemma within_ret {A} n (a : A) : Within (E:=E) (Ev:=Ev) n (ret a).
Proof. intros w r w' [= <- <-]. lia. Qed.

Lemma within_emit n (ev : Ev) : Within (E:=E) n (emit ev).
Proof. intros w r w' [= <- <-]. simpl. lia. Qed.

Lemma within_bind {A B} n1 n2 (m : M E Ev A) (k : A → M E Ev B) :
  Within n1 m → (∀ a, Within n2 (k a)) → Within (n1 + n2) (bind m k).
Proof.
  intros Hm Hk w r w' [(a&w1&H1&H2)|[H1 ->]]%run_bind.
  - specialize (Hm _ _ _ H1). specialize (Hk _ _ _ _ H2). lia.
  - specialize (Hm _ _ _ H1). lia.
Qed.

Lemma within_timeout {A} d (m : M E Ev A) : Timely m → Within d (timeout d m).
Proof. intros Hm w r w' H. by destruct (timeout_bound _ _ _ _ _ H). Qed.

Lemma within_call {A} n (log : option A → Ev) op :
  (∀ o e, (op o e).1.1 ≤ n)%N → Within (E:=E) n (call log op).
Proof.
  intros Hop w r w'. unfold call. specialize (Hop ((λ d, d - clock w)%N <$> None) (env w)).
  destruct (op _ _) as [[dur e] a]. intros [= <- <-]. simpl in *. lia.
Qed.

Lemma within_mono {A} n n' (m : M E Ev A) : Within n m → (n ≤ n')%N → Within n' m.
Proof. intros Hm Hn w r w' H. specialize (Hm _ _ _ H). lia. Qed.

End within.

(** ** What a computation does to the world

    [Keeps R m]: however [m] ends, [R] relates the world before and after. *)

Class Keeps {E Ev A} (R : relation (World E Ev)) (m : M E Ev A) : Prop := keeps dl w :
  ∀ r w', m dl w = (r, w') → R w w'.

Section keeps.
Context {E Ev : Type} (R : relation (World E Ev)) {PO : PreOrder R}.

#[global] Instance keeps_ret {A} (a : A) : Keeps R (ret a).
Proof. by intros dl w r w' [= <- <-]. Qed.

Lemma keeps_emit (ev : Ev) : (∀ w, R w (mkWorld (clock w) (env w) (trace w ++ [ev]))) → Keeps R (emit ev).
Proof. by intros H dl w r w' [= <- <-]. Qed.

Lemma keeps_call {A} (log : option A → Ev) (op : option N → E → N * E * A) :
  (∀ o w clk ev, R w (mkWorld clk (op o (env w)).1.2 (trace w ++ [ev]))) → Keeps R (call log op).
Proof.
  intros Hop dl w r w'. unfold call. specialize (Hop ((λ d, d - clock w)%N <$> dl) w).
  destruct (op _ _) as [[dur e] a]. destruct dl as [d|]; [case_match|]; intros [= <- <-]; apply Hop.
Qed.

Lemma keeps_await_op {A} (op : option N → E → N * E * A) :
  (∀ o w clk, R w (mkWorld clk (op o (env w)).1.2 (trace w))) → Keeps R (await_op op).
Proof.
  intros Hop dl w r w'. unfold await_op. specialize (Hop ((λ d, d - clock w)%N <$> dl) w).
  destruct (op _ _) as [[dur e] a]. destruct dl as [d|]; [case_match|]; intros [= <- <-]; apply Hop.
Qed.

Lemma keeps_update_env {A} (f : E → A * E) :
  (∀ w, R w (mkWorld (clock w) (f (env w)).2 (trace w))) → Keeps R (update_env f).
Proof.
  intros Hf dl w r w'. unfold update_env. specialize (Hf w). destruct (f _) as [a e]. by intros [= <- <-].
Qed.

#[global] Instance keeps_bind {A B} (m : M E Ev A) (k : A → M E Ev B) :
  Keeps R m → (∀ a, Keeps R (k a)) → Keeps R (bind m k).
Proof.
  intros Hm Hk dl w r w' [(a&w1&H1&H2)|[H1 ->]]%run_bind; [|by eapply Hm].
  etrans; [by eapply Hm|by eapply Hk].
Qed.

#[global] Instance keeps_bind_ok {A B F} (m : M E Ev (Result A F)) (k : A → M E Ev (Result B F)) :
  Keeps R m → (∀ a, Keeps R (k a)) → Keeps R (bind_ok m k).
Proof. intros. apply keeps_bind; [done|]. intros [a|e]; apply _. Qed.

#[global] Instance keeps_await_map_err {A F G} (f : F → G) (m : M E Ev (Result A F)) :
  Keeps R m → Keeps R (await_map_err f m).
Proof. intros. apply keeps_bind; [done|]. intros a; apply _. Qed.

#[global] Instance keeps_timeout {A} d (m : M E Ev A) : Keeps R m → Keeps R (timeout d m).
Proof.
  intros Hm dl w r w' [(a&dl'&H1&_)|(dl'&H1&_)]%run_timeout; by eapply Hm.
Qed.

Lemma keeps_wp {A} (m : M E Ev A) dl w :
  Keeps R m → wp m dl (λ _ w', R w w') (λ w', R w w') w.
Proof. intros Hm. unfold wp. destruct (m dl w) as [[a|] w'] eqn:H; by eapply Hm. Qed.

End keeps.

#[export] Hint Extern 5 (Keeps _ (match ?x with _ => _ end)) => destruct x : typeclass_instances.
