(* ===== verification/Protocol.v ===== *)
(** * The wire protocol, as the client uses it

    The crate [bloop-protocol] is not part of the repository. The model takes
    it as a parameter: [Wire] has its opaque types and the observations the
    client makes of them, [Payload] is its trait of messages with an opcode,
    and [Protocol] says that the messages the client names are payloads. The
    message structs are those the client builds by struct literal or reads
    field by field. [PayloadLaws] is what the client relies on, and what its
    unit tests in src/src/request.rs exercise. Module [Toy] is an
    instance used to run the model. *)

From S2P Require Import Prelude.

Class Wire := {
  RawMessage : Type;
  message_type : RawMessage → Z;
  EncodeError : Type;
  FrameError : Type;
  MessageSetError : Type;
  (** [matches!(e, MessageSetError::UnknownOpcode(_))] *)
  is_UnknownOpcode : MessageSetError → bool;
  ErrorResponse : Type;
  ErrorResponse_eq_dec :: EqDecision ErrorResponse;
  is_fatal : ErrorResponse → bool;
  (** The two variants the client matches on. *)
  UnsupportedVersionRange : ErrorResponse;
  InvalidCredentials : ErrorResponse;
  Capabilities : Type;
  Capabilities_eq_dec :: EqDecision Capabilities;
  Capabilities_none : Capabilities;
  NfcUid : Type;
  DataHash : Type;
  Uuid : Type;
  IpAddr : Type
}.

(** ** Messages *)

Section messages.
Context {W : Wire}.

Record AchievementRecord := mkAchievementRecord {
  ar_id : Uuid;
  ar_audio_hash : option DataHash
}.

Record ClientHandshake := mkClientHandshake { min_version : Z; max_version : Z }.
Record ServerHandshake := mkServerHandshake { accepted_version : Z; hs_capabilities : Capabilities }.
Record Authentication := mkAuthentication {
  auth_client_id : string;
  auth_client_secret : string;
  auth_ip_address : IpAddr
}.
Inductive AuthenticationAccepted := mkAuthenticationAccepted.
Inductive Ping := mkPing.
Inductive Pong := mkPong.
Inductive Quit := mkQuit.
Record Bloop := mkBloop { nfc_uid : NfcUid }.
Record BloopAccepted := mkBloopAccepted { accepted_achievements : list AchievementRecord }.
Record RetrieveAudio := mkRetrieveAudio { achievement_id : Uuid }.
Record AudioData := mkAudioData { audio_bytes : list Z }.
Record PreloadCheck := mkPreloadCheck { check_manifest_hash : option DataHash }.
Inductive PreloadMatch := mkPreloadMatch.
Record PreloadMismatch := mkPreloadMismatch {
  mismatch_manifest_hash : DataHash;
  mismatch_achievements : list AchievementRecord
}.

(** The trait [Payload] with [encode_message] and [decode_message]. *)
Class Payload (T : Type) := {
  OPCODE : Z;
  encode_message : T → Result RawMessage EncodeError;
  decode_message : RawMessage → Result T MessageSetError
}.

(** The trait [Request]: a payload paired with the payload that answers it. *)
Class Request (T : Type) := {
  Response : Type;
  request_payload :: Payload T;
  response_payload :: Payload Response
}.

Class Protocol := {
  ErrorResponse_payload :: Payload ErrorResponse;
  ClientHandshake_payload :: Payload ClientHandshake;
  ServerHandshake_payload :: Payload ServerHandshake;
  Authentication_payload :: Payload Authentication;
  AuthenticationAccepted_payload :: Payload AuthenticationAccepted;
  Ping_payload :: Payload Ping;
  Pong_payload :: Payload Pong;
  Quit_payload :: Payload Quit;
  Bloop_payload :: Payload Bloop;
  BloopAccepted_payload :: Payload BloopAccepted;
  RetrieveAudio_payload :: Payload RetrieveAudio;
  AudioData_payload :: Payload AudioData;
  PreloadCheck_payload :: Payload PreloadCheck;
  PreloadMatch_payload :: Payload PreloadMatch;
  PreloadMismatch_payload :: Payload PreloadMismatch
}.

(** What is relied upon: an encoded message carries its opcode and decodes to
    itself, and decoding tells a foreign opcode from a malformed payload. *)
Class PayloadLaws (T : Type) {PT : Payload T} : Prop := {
  encode_opcode (m : T) raw : encode_message m = Ok raw → message_type raw = OPCODE;
  decode_encode (m : T) raw : encode_message m = Ok raw → decode_message raw = Ok m;
  decode_foreign raw : message_type raw ≠ OPCODE →
    ∃ e, decode_message raw = Err e ∧ is_UnknownOpcode e = true;
  decode_own raw e : message_type raw = OPCODE →
    decode_message raw = Err e → is_UnknownOpcode e = false
}.

End messages.

Arguments OPCODE {_} T {_}.

(** ** A concrete protocol *)

Module Toy.

Definition frame : Type := Z * list Z.

#[export] Instance toy_wire : Wire := {|
  RawMessage := frame;
  message_type := fst;
  EncodeError := unit;
  FrameError := unit;
  MessageSetError := option Z;
  is_UnknownOpcode e := bool_decide (is_Some e);
  ErrorResponse := Z;
  is_fatal c := (c <? 10)%Z;
  UnsupportedVersionRange := 1%Z;
  InvalidCredentials := 2%Z;
  Capabilities := Z;
  Capabilities_none := 0%Z;
  NfcUid := Z;
  DataHash := Z;
  Uuid := Z;
  IpAddr := Z
|}.

Definition payload {T} (op : Z) (enc : T → list Z) (dec : list Z → option T) : Payload T := {|
  OPCODE := op;
  encode_message m := Ok (op, enc m);
  decode_message raw :=
    if bool_decide (fst raw = op)
    then match dec (snd raw) with Some m => Ok m | None => Err None end
    else Err (Some (fst raw))
|}.

Definition codes (s : string) : list Z :=
  (λ a, Z.of_N (Ascii.N_of_ascii a)) <$> String.list_ascii_of_string s.

Definition enc_hash (o : option Z) : list Z := match o with Some h => [1; h]%Z | None => [0; 0]%Z end.
Definition dec_hash (t h : Z) : option Z := if (t =? 1)%Z then Some h else None.

Definition enc_records (l : list AchievementRecord) : list Z :=
  l ≫= λ r, ar_id r :: enc_hash (ar_audio_hash r).

Fixpoint dec_records (l : list Z) : option (list AchievementRecord) :=
  match l with
  | [] => Some []
  | i :: t :: h :: rest =>
      rs ← dec_records rest; Some (mkAchievementRecord i (dec_hash t h) :: rs)
  | _ => None
  end.

Definition dec_none {T} (_ : list Z) : option T := None.
Definition dec_unit {T} (x : T) (l : list Z) : option T := if l is [] then Some x else None.

#[export] Instance toy_protocol : Protocol := {|
  ErrorResponse_payload := payload 0 (λ c, [c]) (λ l, if l is [c] then Some c else None);
  ClientHandshake_payload := payload 1 (λ h, [min_version h; max_version h]) dec_none;
  ServerHandshake_payload := payload 2 (λ h, [accepted_version h; hs_capabilities h])
    (λ l, if l is [v; c] then Some (mkServerHandshake v c) else None);
  Authentication_payload := payload 3
    (λ a, codes (auth_client_id a) ++ 0%Z :: codes (auth_client_secret a) ++ [0%Z; auth_ip_address a]) dec_none;
  AuthenticationAccepted_payload := payload 4 (λ _, []) (dec_unit mkAuthenticationAccepted);
  Ping_payload := payload 5 (λ _, []) (dec_unit mkPing);
  Pong_payload := payload 6 (λ _, []) (dec_unit mkPong);
  Quit_payload := payload 7 (λ _, []) (dec_unit mkQuit);
  Bloop_payload := payload 8 (λ b, [nfc_uid b]) (λ l, if l is [u] then Some (mkBloop u) else None);
  BloopAccepted_payload := payload 9 (λ b, enc_records (accepted_achievements b))
    (λ l, mkBloopAccepted <$> dec_records l);
  RetrieveAudio_payload := payload 10 (λ r, [achievement_id r]) (λ l, if l is [u] then Some (mkRetrieveAudio u) else None);
  AudioData_payload := payload 11 (λ a, audio_bytes a) (λ l, Some (mkAudioData l));
  PreloadCheck_payload := payload 12 (λ p, enc_hash (check_manifest_hash p)) dec_none;
  PreloadMatch_payload := payload 13 (λ _, []) (dec_unit mkPreloadMatch);
  PreloadMismatch_payload := payload 14
    (λ m, mismatch_manifest_hash m :: enc_records (mismatch_achievements m))
    (λ l, if l is h :: rest then mkPreloadMismatch h <$> dec_records rest else None)
|}.

Lemma payload_laws {T} op (enc : T → list Z) dec :
  (∀ m, dec (enc m) = Some m) → PayloadLaws T (PT:=payload op enc dec).
Proof.
  intros Hd. split; simpl.
  - by intros m raw [= <-].
  - intros m raw [= <-]. simpl. by rewrite bool_decide_eq_true_2, Hd by done.
  - intros raw Hne. rewrite bool_decide_eq_false_2 by done. by eexists.
  - intros raw e Heq. rewrite bool_decide_eq_true_2 by done.
    destruct (dec _); naive_solver.
Qed.

#[export] Instance pong_laws : PayloadLaws Pong.
Proof. apply payload_laws. by intros []. Qed.

#[export] Instance error_laws : PayloadLaws ErrorResponse.
Proof. by apply payload_laws. Qed.

End Toy.
