(* ===== verification/Request.v ===== *)
(** * Typed requests and their errors (src/src/request.rs) *)

From S2P Require Import Prelude Protocol.

Section request.
Context {W : Wire} {P : Protocol}.

(** [enum RequestError] *)
Inductive RequestError :=
| Disconnected
| Shutdown
| Error (e : ErrorResponse)
| UnexpectedResponse (raw : RawMessage)
| Malformed (e : MessageSetError)
| Encode (e : EncodeError).

(** [fn decode_response<M>(raw) -> Result<M, RequestError>] *)
Definition decode_response (T : Type) {PT : Payload T} (raw : RawMessage) : Result T RequestError :=
  if bool_decide (message_type raw = OPCODE ErrorResponse) then
    match decode_message (T:=ErrorResponse) raw with
    | Ok error => Err (Error error)
    | Err error => Err (Malformed error)
    end
  else
    match decode_message (T:=T) raw with
    | Ok message => Ok message
    | Err error =>
        if is_UnknownOpcode error then Err (UnexpectedResponse raw) else Err (Malformed error)
    end.

(** A response frame is classified by its opcode: an error frame never decodes
    to a success, and a success is a decoding of the frame. *)
Lemma decode_response_Ok (T : Type) {PT : Payload T} raw m :
  decode_response T raw = Ok m ↔
  message_type raw ≠ OPCODE ErrorResponse ∧ decode_message (T:=T) raw = Ok m.
Proof. unfold decode_response. case_all; naive_solver. Qed.

Lemma decode_response_Error (T : Type) {PT : Payload T} raw e :
  decode_response T raw = Err (Error e) ↔
  message_type raw = OPCODE ErrorResponse ∧ decode_message (T:=ErrorResponse) raw = Ok e.
Proof. unfold decode_response. case_all; naive_solver. Qed.

(** C37: the complete classification of a response frame by opcode and payload. *)
Theorem decode_response_classifies (T : Type) {PT : Payload T} `{!PayloadLaws T, !PayloadLaws ErrorResponse} raw :
  OPCODE T ≠ OPCODE ErrorResponse →
  match decode_response T raw with
  | Ok m => message_type raw = OPCODE T ∧ decode_message (T:=T) raw = Ok m
  | Err (Error e) =>
      message_type raw = OPCODE ErrorResponse ∧ decode_message (T:=ErrorResponse) raw = Ok e
  | Err (UnexpectedResponse raw') =>
      raw' = raw ∧ message_type raw ≠ OPCODE T ∧ message_type raw ≠ OPCODE ErrorResponse
  | Err (Malformed e) =>
      is_UnknownOpcode e = false ∧
      (message_type raw = OPCODE T ∧ decode_message (T:=T) raw = Err e ∨
       message_type raw = OPCODE ErrorResponse ∧ decode_message (T:=ErrorResponse) raw = Err e)
  | Err _ => False
  end.
Proof.
  intros Hne. unfold decode_response.
  case_bool_decide as Ht.
  - destruct (decode_message (T:=ErrorResponse) raw) eqn:Ed; [done|].
    split; [exact (decode_own _ _ Ht Ed)|by right].
  - destruct (decide (message_type raw = OPCODE T)) as [Ho|Ho].
    + destruct (decode_message (T:=T) raw) as [m|e] eqn:Ed; [done|].
      rewrite (decode_own _ _ Ho Ed). split; [exact (decode_own _ _ Ho Ed)|by left].
    + destruct (decode_foreign (T:=T) raw Ho) as (e & -> & ->). done.
Qed.

(** A response the server encodes reaches the caller as the value it
    encoded; an error response reaches it as that protocol error. *)
Theorem decode_response_roundtrip (T : Type) {PT : Payload T} `{!PayloadLaws T, !PayloadLaws ErrorResponse} :
  OPCODE T ≠ OPCODE ErrorResponse →
  (∀ (m : T) raw, encode_message m = Ok raw → decode_response T raw = Ok m) ∧
  (∀ (e : ErrorResponse) raw, encode_message e = Ok raw → decode_response T raw = Err (Error e)).
Proof.
  intros Hne. split; intros m raw Henc.
  - apply decode_response_Ok. rewrite (encode_opcode _ _ Henc).
    split; [done|by apply decode_encode].
  - apply decode_response_Error. split; [by eapply encode_opcode|by apply decode_encode].
Qed.

End request.

Import Toy.

Lemma decode_response_classifies_witness :
  decode_response (P:=Toy.toy_protocol) Pong (6%Z, [1%Z]) = Err (Malformed (W:=Toy.toy_wire) None) ∧
  (is_UnknownOpcode (Wire:=Toy.toy_wire) None = false).
Proof.
  split; [reflexivity|].
  exact (proj1 (decode_response_classifies Pong (6%Z, [1%Z]) ltac:(by vm_compute))).
Defined.

Lemma decode_response_roundtrip_witness :
  decode_response (P:=Toy.toy_protocol) Pong (6%Z, []) = Ok mkPong ∧
  decode_response (P:=Toy.toy_protocol) Pong (0%Z, [42%Z]) = Err (Error 42%Z).
Proof.
  destruct (decode_response_roundtrip (P:=Toy.toy_protocol) Pong) as [H1 H2]; [by vm_compute|].
  split; [by apply (H1 mkPong)|by apply (H2 42%Z)].
Defined.
