(* ===== verification/ClientData.v ===== *)
(** * Shared data of the client

    The configuration and status types of src/src/client.rs, the network
    interface the connection code runs on, and the events of a trace. *)

From S2P Require Import Prelude Async Protocol Request.

(** ** Configuration and status *)

Record ConnectionConfig := mkConnectionConfig {
  host : string;
  port : Z;
  client_id : string;
  client_secret : string
}.

Module Status.

Inductive ConnectionStatus {W : Wire} :=
| Unconfigured
| Disconnected
| Connected (capabilities : Capabilities)
| InvalidCredentials
| Shutdown.
Arguments ConnectionStatus : clear implicits.

#[export] Instance ConnectionStatus_eq_dec {W : Wire} : EqDecision (ConnectionStatus W).
Proof. solve_decision. Defined.

End Status.
Export (hints) Status.

Inductive InvalidCredentialsPolicy := Latch | Retry.

#[export] Instance InvalidCredentialsPolicy_eq_dec : EqDecision InvalidCredentialsPolicy.
Proof. solve_decision. Defined.

(** ** The network

    What the connection code awaits: DNS lookup, TCP connect, TLS handshake,
    and the frame I/O of [bloop-protocol] on the resulting stream. An
    operation gets the time left before it is cancelled and the state of the
    outside, and answers with its duration, the state it leaves, and its
    result. There are no laws: the peer may do anything. *)

Class Net (W : Wire) (E : Type) := {
  Stream : Type;
  Stream_eq_dec :: EqDecision Stream;
  SocketAddr : Type;
  TcpStream : Type;
  TlsStream : Type;
  ServerName : Type;
  TlsConnector : Type;
  IoError : Type;
  OnConnectError : Type;
  lookup_host : string → Z → option N → E → N * E * Result (list SocketAddr) IoError;
  tcp_connect : SocketAddr → option N → E → N * E * Result TcpStream IoError;
  local_addr_ip : TcpStream → Result IpAddr IoError;
  server_name : string → option ServerName;
  tls_connect : TlsConnector → ServerName → TcpStream → option N → E → N * E * Result TlsStream IoError;
  (** [TimeoutStream::new] with the given read and write timeouts *)
  timeout_stream : TlsStream → N → N → Stream;
  write_frame : Stream → RawMessage → option N → E → N * E * Result unit FrameError;
  read_frame : Stream → Z → option N → E → N * E * Result RawMessage FrameError
}.
#[global] Hint Mode Net ! - : typeclass_instances.

(** ** Events

    [None] as an outcome marks an operation cancelled at a deadline. [EvOpen]
    marks the creation of a [Connection] and [EvHook] the end of a hook. *)

Section events.
Context {W : Wire} {E : Type} {NE : Net W E}.

Inductive Event :=
| EvLookup (o : option (Result (list SocketAddr) IoError))
| EvTcp (o : option (Result TcpStream IoError))
| EvTls (o : option (Result TlsStream IoError))
| EvOpen (s : Stream)
| EvWrite (s : Stream) (m : RawMessage) (o : option (Result unit FrameError))
| EvRead (s : Stream) (max : Z) (o : option (Result RawMessage FrameError))
| EvHook (s : Stream) (o : option (Result unit OnConnectError))
| EvStatus (st : Status.ConnectionStatus W)
| EvReply (id : N) (r : Result RawMessage RequestError)
| EvShutdownAck (id : N).

(** ** The discipline of a stream

    The protocol is strict request-response: on an [Idle] stream the next
    frame is a request, on an [Awaiting] stream it is the response. An
    operation that fails or is cancelled half-way leaves the stream [Broken]:
    nobody knows how much of a frame went through. *)

Inductive Link := Closed | Idle | Awaiting (m : RawMessage) | Broken.

Definition link_step (s : Stream) (l : Link) (ev : Event) : Link :=
  match ev with
  | EvOpen s' => if bool_decide (s' = s) then Idle else l
  | EvWrite s' m o =>
      if bool_decide (s' = s) then
        match l, o with Idle, Some (Ok _) => Awaiting m | _, _ => Broken end
      else l
  | EvRead s' _ o =>
      if bool_decide (s' = s) then
        match l, o with Awaiting _, Some (Ok _) => Idle | _, _ => Broken end
      else l
  | _ => l
  end.

Definition link (s : Stream) (tr : list Event) : Link := fold_left (link_step s) tr Closed.

Lemma link_app s tr l : link s (tr ++ l) = fold_left (link_step s) l (link s tr).
Proof. apply fold_left_app. Qed.

Lemma link_snoc s tr ev : link s (tr ++ [ev]) = link_step s (link s tr) ev.
Proof. apply link_app. Qed.

End events.

Arguments Event W E {NE}.
Abbreviation Async W E := (M E (Event W E)).
Abbreviation CWorld W E := (World E (Event W E)).
