(* ===== verification/Connection.v ===== *)
(** * Connection establishment and the request primitive (src/src/connection.rs) *)

From S2P Require Import Prelude Async Protocol Request ClientData.

Section connection.
Context {W : Wire} {P : Protocol} {E : Type} {NE : Net W E}.

(** [enum ConnectError] *)
Inductive ConnectError :=
| CE_Resolve (h : string)
| CE_InvalidDnsName (h : string)
| CE_Io (e : IoError)
| CE_Frame (e : FrameError)
| CE_Encode (e : EncodeError)
| CE_Timeout
| CE_UnsupportedVersion (v : Z)
| CE_UnsupportedVersionRange
| CE_Unexpected (e : RequestError).

(** [struct ConnectOptions] *)
Record ConnectOptions := mkConnectOptions { io_timeout : N; opt_max_payload_len : Z }.

(** [struct Connection] *)
Record Connection := mkConnection {
  stream : Stream;
  capabilities : Capabilities;
  max_payload_len : Z
}.

(** [enum ConnectOutcome] *)
Inductive ConnectOutcome :=
| CO_Connected (c : Connection)
| CO_InvalidCredentials.

(** ** [impl Connection] *)

(** [Connection::request_raw] *)
Definition request_raw (c : Connection) (message : RawMessage) : Async W E (Result RawMessage FrameError) :=
  let? _ := call (EvWrite (stream c) message) (write_frame (stream c) message) in
  call (EvRead (stream c) (max_payload_len c)) (read_frame (stream c) (max_payload_len c)).

(** [Connection::ping] *)
Definition ping (c : Connection) : Async W E (Result unit RequestError) :=
  match encode_message mkPing with
  | Err e => ret (Err (Encode e))
  | Ok message =>
      let? raw := await_map_err (λ _, Disconnected) (request_raw c message) in
      ret (map_ok (λ _ : Pong, tt) (decode_response Pong raw))
  end.

(** [Connection::quit] *)
Definition quit (c : Connection) : Async W E unit :=
  match encode_message mkQuit with
  | Ok message =>
      let* _ := call (EvWrite (stream c) message) (write_frame (stream c) message) in
      ret tt
  | Err _ => ret tt
  end.

(** ** [impl Session]: a session borrows its connection *)

(** [Session::request_raw] *)
Definition Session_request_raw (c : Connection) (message : RawMessage) :
  Async W E (Result RawMessage RequestError) :=
  await_map_err (λ _, Disconnected) (request_raw c message).

(** [Session::custom] *)
Definition Session_custom {T} {R : Request T} (c : Connection) (message : T) :
  Async W E (Result Response RequestError) :=
  match encode_message message with
  | Err e => ret (Err (Encode e))
  | Ok m =>
      let? raw := await_map_err (λ _, Disconnected) (request_raw c m) in
      ret (decode_response Response raw)
  end.

(** [Session::retrieve_audio] *)
Definition Session_retrieve_audio (c : Connection) (id : Uuid) :
  Async W E (Result (list Z) RequestError) :=
  match encode_message (mkRetrieveAudio id) with
  | Err e => ret (Err (Encode e))
  | Ok m =>
      let? raw := await_map_err (λ _, Disconnected) (request_raw c m) in
      ret (map_ok audio_bytes (decode_response AudioData raw))
  end.

(** ** Establishing a connection *)

(** [async fn negotiate_version] *)
Definition negotiate_version (c : Connection) : Async W E (Result Capabilities ConnectError) :=
  match encode_message (mkClientHandshake 3 3) with
  | Err e => ret (Err (CE_Encode e))
  | Ok message =>
      let? raw := await_map_err CE_Frame (request_raw c message) in
      ret (match decode_response ServerHandshake raw with
           | Ok handshake =>
               if bool_decide (accepted_version handshake ≠ 3%Z)
               then Err (CE_UnsupportedVersion (accepted_version handshake))
               else Ok (hs_capabilities handshake)
           | Err (Error e as error) =>
               if bool_decide (e = UnsupportedVersionRange)
               then Err CE_UnsupportedVersionRange
               else Err (CE_Unexpected error)
           | Err error => Err (CE_Unexpected error)
           end)
  end.

(** [async fn authenticate] *)
Definition authenticate (c : Connection) (config : ConnectionConfig) (local_ip : IpAddr) :
  Async W E (Result bool ConnectError) :=
  match encode_message (mkAuthentication (client_id config) (client_secret config) local_ip) with
  | Err e => ret (Err (CE_Encode e))
  | Ok message =>
      let? raw := await_map_err CE_Frame (request_raw c message) in
      ret (match decode_response AuthenticationAccepted raw with
           | Ok _ => Ok true
           | Err (Error e as error) =>
               if bool_decide (e = InvalidCredentials)
               then Ok false
               else Err (CE_Unexpected error)
           | Err error => Err (CE_Unexpected error)
           end)
  end.

(** The [async] block of [connect] that runs under [io_timeout]: resolve,
    TCP connect, TLS handshake. *)
Definition dial (config : ConnectionConfig) (connector : TlsConnector) :
  Async W E (Result (TlsStream * IpAddr) ConnectError) :=
  let? addresses :=
    await_map_err (λ _, CE_Resolve (host config))
      (call EvLookup (lookup_host (host config) (port config))) in
  let? address := ret (ok_or (CE_Resolve (host config)) (head addresses)) in
  let? tcp_stream := await_map_err CE_Io (call EvTcp (tcp_connect address)) in
  let? local_ip := ret (map_err CE_Io (local_addr_ip tcp_stream)) in
  let? domain := ret (ok_or (CE_InvalidDnsName (host config)) (server_name (host config))) in
  let? tls_stream := await_map_err CE_Io (call EvTls (tls_connect connector domain tcp_stream)) in
  ret (Ok (tls_stream, local_ip)).

(** [async fn connect] *)
Definition connect (config : ConnectionConfig) (connector : TlsConnector) (options : ConnectOptions) :
  Async W E (Result ConnectOutcome ConnectError) :=
  let? dialled :=
    (let* r := timeout (io_timeout options) (dial config connector) in
     ret (match r with None => Err CE_Timeout | Some r => r end)) in
  let '(tls_stream, local_ip) := dialled in
  let s := timeout_stream tls_stream (io_timeout options) (io_timeout options) in
  let connection := mkConnection s Capabilities_none 1024 in
  let* _ := emit (EvOpen s) in
  let? caps := negotiate_version connection in
  let connection := mkConnection s caps 1024 in
  let? authenticated := authenticate connection config local_ip in
  if (authenticated : bool)
  then ret (Ok (CO_Connected (mkConnection s caps (opt_max_payload_len options))))
  else ret (Ok CO_InvalidCredentials).

(** ** Timeliness *)

#[global] Instance request_raw_timely c m : Timely (request_raw c m).
Proof. unfold request_raw. apply _. Qed.

#[global] Instance ping_timely c : Timely (ping c).
Proof. unfold ping. case_all; apply _. Qed.

#[global] Instance quit_timely c : Timely (quit c).
Proof. unfold quit. case_all; apply _. Qed.

#[global] Instance negotiate_version_timely c : Timely (negotiate_version c).
Proof. unfold negotiate_version. destruct (encode_message _); apply _. Qed.

#[global] Instance authenticate_timely c config ip : Timely (authenticate c config ip).
Proof. unfold authenticate. destruct (encode_message _); apply _. Qed.

#[global] Instance dial_timely config connector : Timely (dial config connector).
Proof. unfold dial. apply _. Qed.

#[global] Instance connect_timely config connector options : Timely (connect config connector options).
Proof.
  unfold connect. apply timely_bind_ok; [apply _|]. intros [tls ip].
  apply timely_bind; [apply _|]. intros _.
  apply timely_bind_ok; [apply _|]. intros caps.
  apply timely_bind_ok; [apply _|]. intros []; apply _.
Qed.

(** ** Events of a connection *)

Definition io_on (s : Stream) (ev : Event W E) : Prop :=
  match ev with EvWrite s' _ _ | EvRead s' _ _ => s' = s | _ => False end.

Definition dial_event (ev : Event W E) : Prop :=
  match ev with EvLookup _ | EvTcp _ | EvTls _ => True | _ => False end.

(** The network events: everything but statuses, replies and hook marks. *)
Definition net_event (ev : Event W E) : Prop :=
  match ev with
  | EvLookup _ | EvTcp _ | EvTls _ | EvOpen _ | EvWrite _ _ _ | EvRead _ _ _ => True
  | _ => False
  end.

Lemma io_on_net s ev : io_on s ev → net_event ev.
Proof. by destruct ev. Qed.

Lemma emits_write Q s m : (∀ o, Q (EvWrite s m o)) → Emits Q (call (EvWrite s m) (write_frame s m)).
Proof. apply emits_call. Qed.

#[global] Instance request_raw_emits c m : Emits (io_on (stream c)) (request_raw c m).
Proof. apply emits_bind_ok; [by apply emits_call|]. intros _. by apply emits_call. Qed.

#[global] Instance ping_emits c : Emits (io_on (stream c)) (ping c).
Proof. unfold ping. destruct (encode_message _); apply _. Qed.

#[global] Instance quit_emits c : Emits (io_on (stream c)) (quit c).
Proof.
  unfold quit. destruct (encode_message _); [|apply _].
  apply emits_bind; [by apply emits_call|apply _].
Qed.

#[global] Instance dial_emits config connector : Emits dial_event (dial config connector).
Proof.
  unfold dial. repeat (apply emits_bind_ok || apply emits_await_map_err || apply emits_ret
    || (by apply emits_call) || intros ?).
Qed.

(** ** The request primitive

    From an idle stream, an exchange that succeeds writes the request, reads
    one frame, and leaves the stream idle; any other outcome breaks it. *)
Lemma wp_request_raw c m dl w :
  link (stream c) (trace w) = Idle →
  wp (request_raw c m) dl
    (λ r w', match r with
      | Ok raw =>
          trace w' = trace w ++ [EvWrite (stream c) m (Some (Ok tt));
                                 EvRead (stream c) (max_payload_len c) (Some (Ok raw))] ∧
          link (stream c) (trace w') = Idle
      | Err _ => link (stream c) (trace w') = Broken
      end)
    (λ w', link (stream c) (trace w') = Broken) w.
Proof.
  intros Hidle.
  assert (∀ l, link (stream c) (trace w ++ l) = fold_left (link_step (stream c)) l Idle) as Hl
    by (intros; by rewrite link_app, Hidle).
  unfold request_raw. apply wp_bind_ok, wp_call; [intros [[]|er] clk e|intros clk e]; simpl.
  - apply wp_call; [intros [raw|er] clk' e'|intros clk' e']; simpl;
      rewrite <-(assoc_L _), Hl; simpl; by rewrite !bool_decide_eq_true_2 by done.
  - rewrite Hl; simpl. by rewrite bool_decide_eq_true_2 by done.
  - rewrite Hl; simpl. by rewrite bool_decide_eq_true_2 by done.
Qed.

(** A ping that succeeds leaves the stream idle. *)
Lemma wp_ping c dl w :
  link (stream c) (trace w) = Idle →
  wp (ping c) dl (λ r w', match r with Ok _ => link (stream c) (trace w') = Idle | Err _ => True end)
    (λ _, True) w.
Proof.
  intros Hidle. unfold ping. destruct (encode_message _); [|done].
  apply wp_bind_ok, wp_await_map_err. eapply wp_mono; [by apply wp_request_raw|..]; [|done].
  intros [raw|e] w' Hr; simpl in *; [|done]. apply wp_ret.
  destruct (decode_response _ _); naive_solver.
Qed.

(** ** Session operations *)

(** A session request that returns a response or a decoding error leaves the
    stream idle; only [Disconnected] may leave it broken. *)
Lemma wp_Session_request_raw c m dl w :
  link (stream c) (trace w) = Idle →
  wp (Session_request_raw c m) dl
    (λ r w', match r with
      | Ok _ => link (stream c) (trace w') = Idle
      | Err e => e = Disconnected ∧ link (stream c) (trace w') = Broken
      end) (λ _, True) w.
Proof.
  intros Hidle. apply wp_await_map_err. eapply wp_mono; [by apply wp_request_raw|..]; [|done].
  intros [raw|e] w'; naive_solver.
Qed.

Lemma wp_Session_custom {T} {R : Request T} c (m : T) dl w :
  link (stream c) (trace w) = Idle →
  wp (Session_custom c m) dl
    (λ r w', r ≠ Err Disconnected → link (stream c) (trace w') = Idle) (λ _, True) w.
Proof.
  intros Hidle. unfold Session_custom. destruct (encode_message m) as [raw|e]; [|by apply wp_ret].
  apply wp_bind_ok, wp_await_map_err. eapply wp_mono; [by apply wp_request_raw|..]; [|done].
  intros [raw'|e] w' Hr; simpl in *; [|naive_solver]. apply wp_ret. naive_solver.
Qed.

#[global] Instance Session_custom_emits {T} {R : Request T} c (m : T) :
  Emits (io_on (stream c)) (Session_custom c m).
Proof. unfold Session_custom. destruct (encode_message m); apply _. Qed.

#[global] Instance Session_custom_timely {T} {R : Request T} c (m : T) :
  Timely (Session_custom c m).
Proof. unfold Session_custom. destruct (encode_message m); apply _. Qed.

Lemma wp_Session_retrieve_audio c id dl w :
  link (stream c) (trace w) = Idle →
  wp (Session_retrieve_audio c id) dl
    (λ r w', r ≠ Err Disconnected → link (stream c) (trace w') = Idle) (λ _, True) w.
Proof.
  intros Hidle. unfold Session_retrieve_audio. destruct (encode_message _) as [raw|e]; [|by apply wp_ret].
  apply wp_bind_ok, wp_await_map_err. eapply wp_mono; [by apply wp_request_raw|..]; [|done].
  intros [raw'|e] w' Hr; simpl in *; [|naive_solver]. apply wp_ret. naive_solver.
Qed.

#[global] Instance Session_retrieve_audio_emits c id :
  Emits (io_on (stream c)) (Session_retrieve_audio c id).
Proof. unfold Session_retrieve_audio. destruct (encode_message _); apply _. Qed.

#[global] Instance Session_retrieve_audio_timely c id : Timely (Session_retrieve_audio c id).
Proof. unfold Session_retrieve_audio. destruct (encode_message _); apply _. Qed.

(** ** What a connection attempt does *)

Definition hello_frame (raw : RawMessage) : Prop := encode_message (mkClientHandshake 3 3) = Ok raw.

Definition auth_frame (config : ConnectionConfig) (ip : IpAddr) (raw : RawMessage) : Prop :=
  encode_message (mkAuthentication (client_id config) (client_secret config) ip) = Ok raw.

(** The events of the two exchanges of a complete attempt on [s]. *)
Definition attempt_events (s : Stream) (hello raw1 auth raw2 : RawMessage) : list (Event W E) :=
  [EvOpen s;
   EvWrite s hello (Some (Ok tt)); EvRead s 1024 (Some (Ok raw1));
   EvWrite s auth (Some (Ok tt)); EvRead s 1024 (Some (Ok raw2))].

(** A complete attempt: version 3 was negotiated and then the credentials of
    [config] were sent, each answered by the frames [raw1] and [raw2]. *)
Definition attempted (config : ConnectionConfig) (tr : list (Event W E)) (w' : CWorld W E)
    (s : Stream) (caps : Capabilities) (raw2 : RawMessage) : Prop :=
  ∃ pre hello raw1 auth ip hs,
    trace w' = tr ++ pre ++ attempt_events s hello raw1 auth raw2 ∧
    Forall dial_event pre ∧ hello_frame hello ∧ auth_frame config ip auth ∧
    decode_response ServerHandshake raw1 = Ok hs ∧ accepted_version hs = 3%Z ∧
    hs_capabilities hs = caps.

Definition connect_post (config : ConnectionConfig) (options : ConnectOptions)
    (tr : list (Event W E)) (r : Result ConnectOutcome ConnectError) (w' : CWorld W E) : Prop :=
  match r with
  | Ok (CO_Connected c) =>
      max_payload_len c = opt_max_payload_len options ∧
      link (stream c) (trace w') = Idle ∧
      ∃ raw2 a, attempted config tr w' (stream c) (capabilities c) raw2 ∧
        decode_response AuthenticationAccepted raw2 = Ok a
  | Ok CO_InvalidCredentials =>
      ∃ s caps raw2, attempted config tr w' s caps raw2 ∧
        decode_response AuthenticationAccepted raw2 = Err (Error InvalidCredentials)
  | Err _ => True
  end.

Lemma wp_negotiate_version c dl w :
  link (stream c) (trace w) = Idle →
  wp (negotiate_version c) dl
    (λ r w', match r with
      | Ok caps => link (stream c) (trace w') = Idle ∧ ∃ hello raw hs,
          hello_frame hello ∧
          trace w' = trace w ++ [EvWrite (stream c) hello (Some (Ok tt));
                                 EvRead (stream c) (max_payload_len c) (Some (Ok raw))] ∧
          decode_response ServerHandshake raw = Ok hs ∧ accepted_version hs = 3%Z ∧
          hs_capabilities hs = caps
      | Err _ => True
      end) (λ _, True) w.
Proof.
  intros Hidle. unfold negotiate_version. destruct (encode_message _) as [hello|e] eqn:Henc; [|done].
  apply wp_bind_ok, wp_await_map_err. eapply wp_mono; [by apply wp_request_raw|..]; [|done].
  intros [raw|e] w' Hr; simpl in *; [|done]. apply wp_ret. destruct Hr as [Ht Hl].
  case_all; naive_solver.
Qed.

Lemma wp_authenticate c config ip dl w :
  link (stream c) (trace w) = Idle →
  wp (authenticate c config ip) dl
    (λ r w', match r with
      | Ok ok => link (stream c) (trace w') = Idle ∧ ∃ auth raw,
          auth_frame config ip auth ∧
          trace w' = trace w ++ [EvWrite (stream c) auth (Some (Ok tt));
                                 EvRead (stream c) (max_payload_len c) (Some (Ok raw))] ∧
          match ok with
          | true => ∃ a, decode_response AuthenticationAccepted raw = Ok a
          | false => decode_response AuthenticationAccepted raw = Err (Error InvalidCredentials)
          end
      | Err _ => True
      end) (λ _, True) w.
Proof.
  intros Hidle. unfold authenticate. destruct (encode_message _) as [auth|e] eqn:Henc; [|done].
  apply wp_bind_ok, wp_await_map_err. eapply wp_mono; [by apply wp_request_raw|..]; [|done].
  intros [raw|e] w' Hr; simpl in *; [|done]. apply wp_ret. destruct Hr as [Ht Hl].
  case_all; eauto 10.
Qed.

(** Running [connect] to an outcome. *)
Lemma wp_connect config connector options dl w :
  wp (connect config connector options) dl (connect_post config options (trace w)) (λ _, True) w.
Proof.
  unfold connect. apply wp_bind_ok, wp_bind, wp_timeout. intros dl'.
  eapply wp_mono; [apply (emits_wp dial_event), _|..]; [|done].
  intros [[tls ip]|e] w1 (pre & Ht1 & Hpre); apply wp_ret; simpl; [|done].
  apply wp_bind, wp_emit, wp_bind_ok.
  set (s := timeout_stream tls _ _).
  eapply wp_mono; [apply wp_negotiate_version|..]; [|intros [caps|e] w2|done]; simpl.
  { rewrite link_snoc. simpl. by rewrite bool_decide_eq_true_2. }
  2: done.
  intros (Hl2 & hello & raw1 & hs & Hh & Ht2 & Hd1 & Hv & Hc). simpl in *.
  apply wp_bind_ok. eapply wp_mono; [by apply wp_authenticate|..]; [|done].
  intros [[]|e] w3; simpl; [..|done];
    intros (Hl3 & auth & raw2 & Ha & Ht3 & Hr); apply wp_ret; simpl in *.
  - destruct Hr as [a Hr]. split_and!; [done..|]. exists raw2, a. split; [|done].
    exists pre, hello, raw1, auth, ip, hs. split_and!; [|done..].
    rewrite Ht3, Ht2, Ht1. unfold attempt_events. by rewrite <-!(assoc_L _).
  - exists s, caps, raw2. split; [|done].
    exists pre, hello, raw1, auth, ip, hs. split_and!; [|done..].
    rewrite Ht3, Ht2, Ht1. unfold attempt_events. by rewrite <-!(assoc_L _).
Qed.

(** [c] was authenticated: on its stream, version 3 was negotiated with the
    capabilities [c] reports, the credentials of [config] were sent, and the server
    accepted them; the stream was not opened anew since. *)
Definition authenticated (config : ConnectionConfig) (c : Connection) (tr : list (Event W E)) : Prop :=
  ∃ l1 hello raw1 auth raw2 l2 ip hs a,
    tr = l1 ++ attempt_events (stream c) hello raw1 auth raw2 ++ l2 ∧
    hello_frame hello ∧ decode_response ServerHandshake raw1 = Ok hs ∧ accepted_version hs = 3%Z ∧
    hs_capabilities hs = capabilities c ∧ auth_frame config ip auth ∧
    decode_response AuthenticationAccepted raw2 = Ok a ∧ EvOpen (stream c) ∉ l2.

Lemma authenticated_app config c tr l :
  authenticated config c tr → EvOpen (stream c) ∉ l → authenticated config c (tr ++ l).
Proof.
  intros (l1 & hello & raw1 & auth & raw2 & l2 & ip & hs & a & -> & H1 & H2 & H3 & H4 & H5 & H6 & H7) Hl.
  exists l1, hello, raw1, auth, raw2, (l2 ++ l), ip, hs, a. rewrite <-!app_assoc. split_and!; try done.
  by apply not_elem_of_app.
Qed.

Lemma io_on_not_open s l : Forall (io_on s) l → EvOpen s ∉ l.
Proof. intros Hl Hin. rewrite Forall_forall in Hl. by apply Hl in Hin. Qed.

Lemma connect_authenticated config options tr c w' :
  connect_post config options tr (Ok (CO_Connected c)) w' → authenticated config c (trace w').
Proof.
  intros (_ & _ & raw2 & a & (pre & hello & raw1 & auth & ip & hs & Ht & _ & ? & ? & ? & ? & ?) & ?).
  exists (tr ++ pre), hello, raw1, auth, raw2, [], ip, hs, a. rewrite app_nil_r, Ht, app_assoc.
  split_and!; try done. apply not_elem_of_nil.
Qed.

(** ** Secrets and limits before authentication *)

(** The frame accepts protocol version 3. *)
Definition accepts_v3 (raw : RawMessage) : bool :=
  match decode_response ServerHandshake raw with
  | Ok hs => bool_decide (accepted_version hs = 3%Z)
  | Err _ => false
  end.

Definition grants (ev : Event W E) : bool :=
  if ev is EvRead _ _ (Some (Ok raw)) then accepts_v3 raw else false.

(** [read_frame] of the protocol crate refuses a frame whose payload is longer than
    the limit it is given. *)
Class FrameLimit := {
  payload_len : RawMessage → Z;
  read_frame_limit s max o (e : E) dur e' raw :
    read_frame s max o e = (dur, e', Ok raw) → (payload_len raw ≤ max)%Z
}.

Context {FL : FrameLimit}.

(** [guarded ok l]: in [l] every read is limited to payloads of 1024 bytes, every
    frame read has such a payload, and a frame other than the handshake is written
    only after ([ok], or in [l]) a frame accepting version 3 was read. *)
Fixpoint guarded (ok : bool) (l : list (Event W E)) : Prop :=
  match l with
  | [] => True
  | ev :: l =>
      match ev with
      | EvWrite _ m _ => hello_frame m ∨ ok = true
      | EvRead _ max o =>
          max = 1024%Z ∧ match o with Some (Ok raw) => (payload_len raw ≤ 1024)%Z | _ => True end
      | _ => True
      end ∧ guarded (ok || grants ev) l
  end.

Lemma guarded_app ok l1 l2 :
  guarded ok (l1 ++ l2) ↔ guarded ok l1 ∧ guarded (ok || existsb grants l1) l2.
Proof.
  revert ok. induction l1 as [|ev l1 IH]; intros ok; simpl.
  - rewrite orb_false_r. naive_solver.
  - rewrite IH, orb_assoc. naive_solver.
Qed.

Lemma guarded_mono ok ok' l : guarded ok l → (ok = true → ok' = true) → guarded ok' l.
Proof.
  revert ok ok'. induction l as [|ev l IH]; intros ok ok'; simpl; [done|].
  intros [Hev Hl] Hok. split; [destruct ev; naive_solver|].
  eapply IH; [done|]. rewrite !orb_true_iff. naive_solver.
Qed.

Lemma guarded_app_2 ok l1 l2 : guarded ok l1 → guarded ok l2 → guarded ok (l1 ++ l2).
Proof.
  intros H1 H2. apply guarded_app. split; [done|]. eapply guarded_mono; [done|].
  by intros ->.
Qed.

Lemma guarded_granted ok l1 l2 :
  guarded ok l1 → existsb grants l1 = true → guarded true l2 → guarded ok (l1 ++ l2).
Proof. intros H1 Hg H2. apply guarded_app. by rewrite Hg, orb_true_r. Qed.

Lemma guarded_dial ok l : Forall dial_event l → guarded ok l.
Proof. intros Hl. revert ok. induction Hl as [|[] l Hev _ IH]; intros ok; simpl; auto; done. Qed.

(** Every way an exchange can end, with its events. *)
Lemma wp_request_guarded ok c m dl w :
  max_payload_len c = 1024%Z → hello_frame m ∨ ok = true →
  wp (request_raw c m) dl
    (λ r w', ∃ l, trace w' = trace w ++ l ∧ guarded ok l ∧
      match r with Ok raw => existsb grants l = accepts_v3 raw | Err _ => True end)
    (λ w', ∃ l, trace w' = trace w ++ l ∧ guarded ok l) w.
Proof.
  intros Hmax Hm. unfold request_raw. apply wp_bind_ok, wp_call; [intros [[]|er] clk e|intros clk e]; simpl.
  - apply wp_call_op; [intros o dur e' [raw|er] clk' Hop|intros clk' e']; simpl; rewrite <-(assoc_L _);
      eexists; (split; [done|]); simpl; rewrite ?orb_false_r; [|naive_solver..].
    apply read_frame_limit in Hop. rewrite Hmax in Hop. naive_solver.
  - eexists; (split; [done|]); simpl; naive_solver.
  - eexists; (split; [done|]); simpl; naive_solver.
Qed.

Lemma wp_negotiate_guarded c dl w :
  max_payload_len c = 1024%Z →
  wp (negotiate_version c) dl
    (λ r w', ∃ l, trace w' = trace w ++ l ∧ guarded false l ∧ (is_ok r = true → existsb grants l = true))
    (λ w', ∃ l, trace w' = trace w ++ l ∧ guarded false l) w.
Proof.
  intros Hmax. unfold negotiate_version. destruct (encode_message _) as [hello|e] eqn:Henc.
  2:{ apply wp_ret. exists []. by rewrite app_nil_r. }
  apply wp_bind_ok, wp_await_map_err.
  eapply wp_mono; [apply (wp_request_guarded false); [done|by left]|..]; [|done].
  intros [raw|e] w' (l & Ht & Hg & Hl); simpl in *; [|by exists l].
  apply wp_ret. exists l. split_and!; [done..|]. rewrite Hl. unfold accepts_v3.
  destruct (decode_response _ raw) as [hs|err]; simpl.
  - case_bool_decide; simpl; [done|]. intros _. apply bool_decide_eq_true_2.
    by destruct (decide (accepted_version hs = 3%Z)).
  - destruct err; simpl; try case_bool_decide; done.
Qed.

(** C22: during a connection attempt, however it ends, credentials are never
    sent before the server accepted protocol version 3, and no frame with a payload
    longer than 1024 bytes is accepted from the server. *)
Theorem connect_guards_credentials config connector options dl (w : CWorld W E) :
  ∃ l, trace (connect config connector options dl w).2 = trace w ++ l ∧ guarded false l.
Proof.
  apply (wp_final _ dl (λ w', ∃ l, trace w' = trace w ++ l ∧ guarded false l)).
  unfold connect. apply wp_bind_ok, wp_bind, wp_timeout. intros dl'.
  eapply wp_mono; [apply (emits_wp dial_event), _|..].
  2:{ intros w1 (l & Ht & Hl). apply (guarded_dial false) in Hl. split; [apply wp_ret|]; eauto. }
  intros [[tls ip]|e] w1 (pre & Ht1 & Hpre); apply wp_ret; apply (guarded_dial false) in Hpre; [|by eauto].
  apply wp_bind, wp_emit, wp_bind_ok. set (s := timeout_stream tls _ _).
  assert (∀ (w2 : CWorld W E) l2, trace w2 = (trace w1 ++ [EvOpen s]) ++ l2 → guarded false l2 →
    ∃ l, trace w2 = trace w ++ l ∧ guarded false l) as Hstep.
  { intros w2 l2 Ht2 Hg2. exists (pre ++ EvOpen s :: l2). rewrite Ht2, Ht1, <-!(assoc_L _).
    split; [done|]. by apply guarded_app_2. }
  eapply wp_mono; [by apply wp_negotiate_guarded|..]; simpl; [|naive_solver].
  intros [caps|e] w2 (l2 & Ht2 & Hg2 & Hok2); [|by eauto].
  apply wp_bind_ok. unfold authenticate. destruct (encode_message _) as [auth|e] eqn:Henc; [|by apply wp_ret; eauto].
  apply wp_bind_ok, wp_await_map_err.
  assert (∀ (w3 : CWorld W E) l3, trace w3 = trace w2 ++ l3 → guarded true l3 →
    ∃ l, trace w3 = trace w ++ l ∧ guarded false l) as Hstep3.
  { intros w3 l3 Ht3 Hg3. apply (Hstep w3 (l2 ++ l3)); [by rewrite Ht3, Ht2, (assoc_L _)|].
    apply guarded_granted; auto. }
  eapply wp_mono; [apply (wp_request_guarded true); [done|by right]|..]; [|naive_solver].
  intros [raw|e] w3 (l3 & Ht3 & Hg3 & _); simpl; [|by eauto].
  apply wp_ret. repeat case_match; try apply wp_ret; eauto.
Qed.

End connection.

Arguments FrameLimit W E {NE}.
