(* ===== verification/ClientTask.v ===== *)
(** * The background connection task (src/src/client.rs, [ClientTask])

    The task owns the connection and the status watch, handles the commands of
    the client handles one at a time, and ticks to ping or reconnect. A
    oneshot sender is identified by a number; [EvReply] and [EvShutdownAck]
    are its [send]. The watch is the [status] field, and [EvStatus] is a
    notification of its receivers. *)

From S2P Require Import Prelude Async Protocol Request ClientData Connection.

(** ** The interval of tokio

    [enum MissedTickBehavior]: when the next tick is due after one that was late. *)
Inductive MissedTickBehavior := Burst | Delay | Skip.

(** [tokio::time::Interval], with its methods [period] and [missed_tick_behavior].
    [interval period now] is [time::interval(period)] called at the time [now];
    [None] is its panic. [due] is when the next tick completes, and [tick now i]
    the interval after a tick that was observed at the time [now]. *)
Class Interval (I : Type) := {
  interval : N → N → option I;
  set_missed_tick_behavior : MissedTickBehavior → I → I;
  tick : N → I → I;
  period : I → N;
  missed_tick_behavior : I → MissedTickBehavior;
  due : I → N
}.

(** [MissedTickBehavior::next_timeout], as documented for each behaviour. *)
Definition next_timeout (b : MissedTickBehavior) (timeout now period : N) : N :=
  match b with
  | Burst => timeout + period
  | Delay => now + period
  | Skip => now + period - (now - timeout) mod period
  end.

(** The documented behaviour: [interval] panics on a period of zero, its first tick
    is due at once and missed ticks are caught up with in a burst. A tick observed
    late by more than five milliseconds counts as missed. *)
Class IntervalLaws (I : Type) {IV : Interval I} : Prop := {
  interval_zero now : interval (I:=I) 0 now = None;
  interval_new p now : (0 < p)%N → ∃ i : I, interval p now = Some i ∧
    period i = p ∧ due i = now ∧ missed_tick_behavior i = Burst;
  set_behavior b (i : I) :
    period (set_missed_tick_behavior b i) = period i ∧ due (set_missed_tick_behavior b i) = due i ∧
    missed_tick_behavior (set_missed_tick_behavior b i) = b;
  tick_keeps now (i : I) :
    period (tick now i) = period i ∧ missed_tick_behavior (tick now i) = missed_tick_behavior i;
  tick_due now (i : I) : (due i ≤ now)%N →
    due (tick now i) =
      if (due i + 5 <? now)%N then next_timeout (missed_tick_behavior i) (due i) now (period i)
      else (due i + period i)%N
}.

Section task.
Context {W : Wire} {P : Protocol} {E : Type} {NE : Net W E}.

(** [enum Command] *)
Inductive Command :=
| Configure (config : option ConnectionConfig)
| CRequest (message : RawMessage) (response : N)
| CShutdown (response : N).

(** [type OnConnectFn]: the hook gets the session of the fresh connection. *)
Definition OnConnectFn : Type := Connection → Async W E (Result unit OnConnectError).

(** [struct ClientTask] *)
Record ClientTask := mkClientTask {
  connector : TlsConnector;
  config : option ConnectionConfig;
  connection : option Connection;
  status : Status.ConnectionStatus W;
  ping_interval : N;
  request_timeout : N;
  options : ConnectOptions;
  invalid_credentials_policy : InvalidCredentialsPolicy;
  on_connect : option OnConnectFn;
  credentials_invalid : bool;
  shutdown : bool
}.

Definition with_config (c : option ConnectionConfig) (t : ClientTask) : ClientTask :=
  mkClientTask (connector t) c (connection t) (status t) (ping_interval t) (request_timeout t)
    (options t) (invalid_credentials_policy t) (on_connect t) (credentials_invalid t) (shutdown t).
Definition with_connection (c : option Connection) (t : ClientTask) : ClientTask :=
  mkClientTask (connector t) (config t) c (status t) (ping_interval t) (request_timeout t)
    (options t) (invalid_credentials_policy t) (on_connect t) (credentials_invalid t) (shutdown t).
Definition with_status (st : Status.ConnectionStatus W) (t : ClientTask) : ClientTask :=
  mkClientTask (connector t) (config t) (connection t) st (ping_interval t) (request_timeout t)
    (options t) (invalid_credentials_policy t) (on_connect t) (credentials_invalid t) (shutdown t).
Definition with_credentials_invalid (b : bool) (t : ClientTask) : ClientTask :=
  mkClientTask (connector t) (config t) (connection t) (status t) (ping_interval t) (request_timeout t)
    (options t) (invalid_credentials_policy t) (on_connect t) b (shutdown t).
Definition with_shutdown (b : bool) (t : ClientTask) : ClientTask :=
  mkClientTask (connector t) (config t) (connection t) (status t) (ping_interval t) (request_timeout t)
    (options t) (invalid_credentials_policy t) (on_connect t) (credentials_invalid t) b.

(** ** [impl ClientTask] *)

(** [ClientTask::set_status]: notifies only when the status changes. *)
Definition set_status (st : Status.ConnectionStatus W) (t : ClientTask) : Async W E ClientTask :=
  if bool_decide (status t = st) then ret t
  else (let* _ := emit (EvStatus st) in ret (with_status st t)).

(** [ClientTask::drop_connection] *)
Definition drop_connection (t : ClientTask) : Async W E ClientTask :=
  set_status Status.Disconnected (with_connection None t).

(** [if let Some(mut connection) = self.connection.take() { connection.quit().await; }] *)
Definition take_and_quit (t : ClientTask) : Async W E ClientTask :=
  match connection t with
  | Some c => let* _ := quit c in ret (with_connection None t)
  | None => ret t
  end.

(** [ClientTask::try_connect] *)
Definition try_connect (t : ClientTask) : Async W E ClientTask :=
  if credentials_invalid t && bool_decide (invalid_credentials_policy t = Latch) then ret t
  else
    match config t with
    | None => ret t
    | Some cfg =>
        let* outcome := timeout (request_timeout t) (connect cfg (connector t) (options t)) in
        match outcome with
        | None => set_status Status.Disconnected t
        | Some (Ok (CO_Connected c)) =>
            let connected :=
              let t := with_credentials_invalid false t in
              let* t := set_status (Status.Connected (capabilities c)) t in
              ret (with_connection (Some c) t) in
            match on_connect t with
            | None => connected
            | Some hook =>
                let* r := timeout (request_timeout t) (hook c) in
                let* _ := emit (EvHook (stream c) r) in
                match r with
                | Some (Ok _) => connected
                | Some (Err _) =>
                    let* _ := quit c in set_status Status.Disconnected t
                | None => set_status Status.Disconnected t
                end
            end
        | Some (Ok CO_InvalidCredentials) =>
            set_status Status.InvalidCredentials (with_credentials_invalid true t)
        | Some (Err _) => set_status Status.Disconnected t
        end
    end.

(** [ClientTask::handle_tick] *)
Definition handle_tick (t : ClientTask) : Async W E ClientTask :=
  if shutdown t then ret t
  else
    match connection t with
    | Some c =>
        let* r := timeout (request_timeout t) (ping c) in
        match r with
        | Some (Ok _) => ret t
        | Some (Err _) => drop_connection t
        | None => drop_connection t
        end
    | None => try_connect t
    end.

(** [ClientTask::handle_command] *)
Definition handle_command (t : ClientTask) (command : Command) : Async W E ClientTask :=
  match command with
  | Configure cfg =>
      if shutdown t then ret t
      else
        let* t := take_and_quit t in
        let t := with_credentials_invalid false t in
        let* t := set_status (if cfg is Some _ then Status.Disconnected else Status.Unconfigured) t in
        ret (with_config cfg t)
  | CRequest message response =>
      if shutdown t then
        let* _ := emit (EvReply response (Err Shutdown)) in ret t
      else
        match connection t with
        | None => let* _ := emit (EvReply response (Err Disconnected)) in ret t
        | Some c =>
            let* r := timeout (request_timeout t) (request_raw c message) in
            match r with
            | Some (Ok raw) =>
                let fatal :=
                  bool_decide (message_type raw = OPCODE ErrorResponse) &&
                  match decode_message (T:=ErrorResponse) raw with
                  | Ok error => is_fatal error
                  | Err _ => false
                  end in
                let* t := (if fatal then drop_connection t else ret t) in
                let* _ := emit (EvReply response (Ok raw)) in ret t
            | Some (Err _) =>
                let* t := drop_connection t in
                let* _ := emit (EvReply response (Err Disconnected)) in ret t
            | None =>
                let* t := drop_connection t in
                let* _ := emit (EvReply response (Err Disconnected)) in ret t
            end
        end
  | CShutdown response =>
      let* t := take_and_quit t in
      let t := with_shutdown true t in
      let* t := set_status Status.Shutdown t in
      let* _ := emit (EvShutdownAck response) in ret t
  end.

(** What one turn of the [select!] loop picks. *)
Inductive Selected := SelCommand (c : Command) | SelTick.

(** One turn of the loop of [ClientTask::run]. *)
Definition handle (t : ClientTask) (sel : Selected) : Async W E ClientTask :=
  match sel with
  | SelCommand c => handle_command t c
  | SelTick => handle_tick t
  end.

(** The loop of [ClientTask::run] for the turns [sels]. *)
Fixpoint run_loop (t : ClientTask) (sels : list Selected) : Async W E ClientTask :=
  match sels with
  | [] => ret t
  | sel :: sels => let* t := handle t sel in run_loop t sels
  end.

(** The ticker set up at the start of [ClientTask::run]; [None] is a panic. *)
Definition start_ticker {I} {IV : Interval I} (t : ClientTask) (now : N) : option I :=
  set_missed_tick_behavior Delay <$> interval (ping_interval t) now.

(** [ClientTask::run]: the ticker, the loop until all handles are gone, then the
    farewell. [None] is a task that panicked. *)
Definition run (I : Type) {IV : Interval I} (t : ClientTask) (sels : list Selected) :
  Async W E (option ClientTask) :=
  let* now := read_clock in
  match start_ticker (I:=I) t now with
  | None => ret None
  | Some _ =>
      let* t := run_loop t sels in
      let* t := take_and_quit t in
      let* t := set_status Status.Shutdown t in
      ret (Some t)
  end.

End task.
