(* ===== verification/ClientInvariant.v ===== *)
(** * Invariants of the connection task

    The status watch is a function of the task's fields, a live connection is
    always between exchanges, the published statuses follow the abstract
    status machine, and every command gets its answer. *)

From S2P Require Import Prelude Async Protocol Request ClientData Connection ClientTask.

(** ** Specification *)

Section spec.
Context {W : Wire} {P : Protocol} {E : Type} {NE : Net W E}.
Implicit Types t : ClientTask.
Implicit Types w : CWorld W E.

(** What the status watch shows is determined by the task's fields. *)
Definition status_ok t : Prop :=
  if shutdown t then connection t = None ∧ status t = Status.Shutdown
  else
    match connection t, config t with
    | Some c, Some _ => status t = Status.Connected (capabilities c) ∧ credentials_invalid t = false
    | Some _, None => False
    | None, None => status t = Status.Unconfigured ∧ credentials_invalid t = false
    | None, Some _ =>
        match invalid_credentials_policy t with
        | Latch => status t = if credentials_invalid t then Status.InvalidCredentials else Status.Disconnected
        | Retry => status t = Status.Disconnected ∨
                   status t = Status.InvalidCredentials ∧ credentials_invalid t = true
        end
    end.

(** A live connection is between two exchanges, is allowed the configured payload
    length, and was authenticated with the current configuration. *)
Definition link_ok t w : Prop := ∀ c, connection t = Some c →
  link (stream c) (trace w) = Idle ∧ max_payload_len c = opt_max_payload_len (options t) ∧
  ∃ cfg, config t = Some cfg ∧ authenticated cfg c (trace w).

Record inv t w : Prop := { inv_status : status_ok t; inv_link : link_ok t w }.

(** The settings no handler changes. *)
Definition same_setup t t' : Prop :=
  connector t' = connector t ∧ ping_interval t' = ping_interval t ∧
  request_timeout t' = request_timeout t ∧ options t' = options t ∧
  invalid_credentials_policy t' = invalid_credentials_policy t ∧ on_connect t' = on_connect t.

(** The contract of an on-connect hook. That it ends when its deadline passes and
    only reaches the stream through its session is so for every future given a
    [Session]. That no exchange is left unfinished when it returns [Ok] is up to
    its author: a hook that gives up waiting for a response and succeeds anyway
    leaves that response to be read by the next request. [run_hook_ok] below shows
    it of all hooks that pass the errors of their session on. *)
Class HookOk (hook : OnConnectFn) : Prop := {
  hook_timely c :: Timely (hook c);
  hook_emits c :: Emits (io_on (stream c)) (hook c);
  hook_idle c dl w : link (stream c) (trace w) = Idle →
    wp (hook c) dl (λ r w', r = Ok tt → link (stream c) (trace w') = Idle) (λ _, True) w
}.

Definition hooks_ok t : Prop := ∀ hook, on_connect t = Some hook → HookOk hook.

(** *** The abstract status machine *)

Definition status_step (pol : InvalidCredentialsPolicy) (s s' : Status.ConnectionStatus W) : Prop :=
  match s, s' with
  | Status.Shutdown, _ => False
  | _, Status.Shutdown => True
  | Status.Unconfigured, Status.Disconnected => True
  | Status.Disconnected, (Status.Unconfigured | Status.Connected _ | Status.InvalidCredentials) => True
  | Status.Connected _, (Status.Unconfigured | Status.Disconnected) => True
  | Status.InvalidCredentials, (Status.Unconfigured | Status.Disconnected) => True
  | Status.InvalidCredentials, Status.Connected _ => pol = Retry
  | _, _ => False
  end.

(** [status_path pol s l s']: the machine goes from [s] to [s'] publishing [l]. *)
Inductive status_path (pol : InvalidCredentialsPolicy) :
  Status.ConnectionStatus W → list (Status.ConnectionStatus W) → Status.ConnectionStatus W → Prop :=
| path_nil s : status_path pol s [] s
| path_cons s s1 l s' : status_step pol s s1 → status_path pol s1 l s' → status_path pol s (s1 :: l) s'.

Definition statuses (l : list (Event W E)) : list (Status.ConnectionStatus W) :=
  omap (λ ev, if ev is EvStatus s then Some s else None) l.

(** *** Answers *)

(** The oneshot senders used in a trace: [Some r] for a request's response,
    [None] for the acknowledgement of a shutdown. *)
Definition answers (l : list (Event W E)) : list (N * option (Result RawMessage RequestError)) :=
  omap (λ ev, match ev with
    | EvReply id r => Some (id, Some r)
    | EvShutdownAck id => Some (id, None)
    | _ => None
    end) l.

Definition answered (sel : Selected) (a : list (N * option (Result RawMessage RequestError))) : Prop :=
  match sel with
  | SelCommand (CRequest _ id) => ∃ r, a = [(id, Some r)]
  | SelCommand (CShutdown id) => a = [(id, None)]
  | SelCommand (Configure _) | SelTick => a = []
  end.

(** A turn of the loop: from [t] in [w] to [t'] in [w']. *)
Record turn (sel : Selected) t w t' w' : Prop := {
  turn_inv : inv t' w';
  turn_setup : same_setup t t';
  turn_trace : ∃ l, trace w' = trace w ++ l ∧
    status_path (invalid_credentials_policy t) (status t) (statuses l) (status t') ∧
    answered sel (answers l)
}.

End spec.

(** ** Proofs *)

Section proofs.
Context {W : Wire} {P : Protocol} {E : Type} {NE : Net W E}.
Implicit Types t : ClientTask.
Implicit Types w : CWorld W E.

Lemma statuses_app (l1 l2 : list (Event W E)) : statuses (l1 ++ l2) = statuses l1 ++ statuses l2.
Proof. apply omap_app. Qed.

Lemma answers_app (l1 l2 : list (Event W E)) : answers (l1 ++ l2) = answers l1 ++ answers l2.
Proof. apply omap_app. Qed.

Lemma net_silent (l : list (Event W E)) : Forall net_event l → statuses l = [] ∧ answers l = [].
Proof. induction 1 as [|[] l Hev _ [IH1 IH2]]; try done; unfold statuses, answers; simpl; auto. Qed.

Lemma status_path_app pol s1 s2 s3 (l1 l2 : list (Status.ConnectionStatus W)) :
  status_path pol s1 l1 s2 → status_path pol s2 l2 s3 → status_path pol s1 (l1 ++ l2) s3.
Proof. induction 1; simpl; eauto using status_path. Qed.

Lemma with_status_id t : with_status (status t) t = t.
Proof. by destruct t. Qed.

(** [set_status]: the field always ends at [st], published only if changed. *)
Lemma wp_set_status st t dl (Q : ClientTask → CWorld W E → Prop) C w :
  (∀ l, l = [] ∧ status t = st ∨ l = [EvStatus st] ∧ status t ≠ st →
    Q (with_status st t) (mkWorld (clock w) (env w) (trace w ++ l))) →
  wp (set_status st t) dl Q C w.
Proof.
  intros HQ. unfold set_status. case_bool_decide as Hst.
  - subst st. apply wp_ret. rewrite <-(with_status_id t) at 1.
    specialize (HQ []). rewrite app_nil_r in HQ. destruct w. auto.
  - apply wp_bind, wp_emit, wp_ret. auto.
Qed.

(** A live connection only sees the events on its own stream. *)
Lemma link_inert (s : Stream) (l : list (Event W E)) tr :
  Forall (λ ev, match ev with EvOpen _ | EvWrite _ _ _ | EvRead _ _ _ => False | _ => True end) l →
  link s (tr ++ l) = link s tr.
Proof.
  intros Hl. rewrite link_app. generalize (link s tr). revert Hl.
  induction 1 as [|[] l Hev _ IH]; intros lk; simpl; auto; done.
Qed.

(** Events that neither publish a status nor answer a command. *)
Definition quiet (l : list (Event W E)) : Prop := statuses l = [] ∧ answers l = [].

Lemma quiet_net l : Forall net_event l → quiet l.
Proof. apply net_silent. Qed.

Lemma quiet_app l1 l2 : quiet l1 → quiet l2 → quiet (l1 ++ l2).
Proof. unfold quiet. rewrite statuses_app, answers_app. intros [-> ->] [-> ->]. done. Qed.

Lemma quiet_hook s o : quiet [EvHook s o].
Proof. done. Qed.

(** The events a [set_status st] adds when the status was [s]. *)
Definition publishes (s st : Status.ConnectionStatus W) (l : list (Event W E)) : Prop :=
  l = [] ∧ s = st ∨ l = [EvStatus st] ∧ s ≠ st.

(** A turn whose quiet part [l] is followed by one [set_status] and then by
    its answers [a]. *)
Lemma turn_publish sel t w t' w' l lp a :
  trace w' = trace w ++ l ++ lp ++ a →
  quiet l → publishes (status t) (status t') lp →
  (status t ≠ status t' → status_step (invalid_credentials_policy t) (status t) (status t')) →
  statuses a = [] → answered sel (answers a) →
  inv t' w' → same_setup t t' → turn sel t w t' w'.
Proof.
  intros Ht [Hs Ha] Hp Hstep Hsa Hans Hi Hset. split; [done..|].
  exists (l ++ lp ++ a). split; [done|].
  rewrite !statuses_app, !answers_app, Hs, Ha, Hsa, app_nil_r. simpl.
  destruct Hp as [[-> Heq]|[-> Hne]]; simpl.
  - rewrite Heq. split; [constructor|done].
  - split; [|done]. econstructor; [by apply Hstep|constructor].
Qed.

(** A turn that leaves the task as it is. *)
Lemma turn_quiet sel t w w' l a :
  trace w' = trace w ++ l ++ a → quiet l → statuses a = [] → answered sel (answers a) →
  inv t w' → turn sel t w t w'.
Proof.
  intros Ht Hq Hsa Hans Hi. eapply (turn_publish _ _ _ _ _ l [] a); try done.
  by left.
Qed.

Lemma inv_no_connection t w : connection t = None → status_ok t → inv t w.
Proof. intros Hc Hs. split; [done|]. intros c Hc'. congruence. Qed.

Lemma connect_net cfg con opts : Emits net_event (connect cfg con opts).
Proof.
  unfold connect. apply emits_bind_ok.
  { apply emits_bind; [|apply _]. apply emits_timeout.
    apply (emits_mono _ dial_event); [apply _|by intros []]. }
  intros [tls ip]. apply emits_bind; [by apply emits_emit|]. intros _.
  assert (∀ c m, Emits net_event (request_raw c m)) as Hraw.
  { intros c m. eapply emits_mono; [apply _|]. intros ev. apply io_on_net. }
  apply emits_bind_ok; [|intros caps; apply emits_bind_ok; [|intros []; apply _]].
  - unfold negotiate_version. destruct (encode_message _); apply _.
  - unfold authenticate. destruct (encode_message _); apply _.
Qed.

(** The state in which [try_connect] runs past its guards. *)
Definition connecting t : Prop :=
  shutdown t = false ∧ connection t = None ∧ is_Some (config t) ∧ status_ok t ∧
  (credentials_invalid t && bool_decide (invalid_credentials_policy t = Latch)) = false.

Lemma connecting_status t : connecting t →
  status t = Status.Disconnected ∨
  status t = Status.InvalidCredentials ∧ invalid_credentials_policy t = Retry.
Proof.
  intros (Hs & Hc & [cfg Hcfg] & Hok & Hg). unfold status_ok in Hok.
  rewrite Hs, Hc, Hcfg in Hok. destruct (invalid_credentials_policy t); [|naive_solver].
  rewrite bool_decide_eq_true_2, andb_true_r in Hg by done. rewrite Hg in Hok. auto.
Qed.

(** Ending an attempt with a status and no connection. *)
Lemma attempt_fails st b t dl w w1 l :
  connecting t → trace w1 = trace w ++ l → quiet l →
  (st = Status.Disconnected ∧ b = credentials_invalid t ∨ st = Status.InvalidCredentials ∧ b = true) →
  wp (set_status st (with_credentials_invalid b t)) dl (turn SelTick t w) (λ _, True) w1.
Proof.
  intros Hconn Ht Hq Hst. pose proof (connecting_status _ Hconn) as Hcur.
  destruct Hconn as (Hs & Hc & [cfg Hcfg] & Hok & Hg).
  apply wp_set_status. intros lp Hlp.
  eapply (turn_publish _ _ _ _ _ l lp []); simpl; try done.
  - rewrite Ht, app_nil_r. by rewrite (assoc_L _).
  - destruct Hst as [[-> _]|[-> _]], Hcur as [->|[-> ->]]; done.
  - apply inv_no_connection; [done|]. unfold status_ok. simpl. rewrite Hs, Hc, Hcfg.
    destruct Hst as [[-> ->]|[-> ->]]; destruct (invalid_credentials_policy t); auto.
    rewrite bool_decide_eq_true_2, andb_true_r in Hg by done. by rewrite Hg.
Qed.

Lemma with_credentials_invalid_id t : with_credentials_invalid (credentials_invalid t) t = t.
Proof. by destruct t. Qed.

Lemma attempt_disconnected t dl w w1 l :
  connecting t → trace w1 = trace w ++ l → quiet l →
  wp (set_status Status.Disconnected t) dl (turn SelTick t w) (λ _, True) w1.
Proof.
  intros. rewrite <-(with_credentials_invalid_id t) at 1. eapply attempt_fails; naive_solver.
Qed.

(** Ending an attempt with a live connection. *)
Lemma attempt_connects c cfg t dl w w1 l :
  connecting t → trace w1 = trace w ++ l → quiet l →
  link (stream c) (trace w1) = Idle → max_payload_len c = opt_max_payload_len (options t) →
  config t = Some cfg → authenticated cfg c (trace w1) →
  wp (let* t := set_status (Status.Connected (capabilities c)) (with_credentials_invalid false t) in
      ret (with_connection (Some c) t)) dl (turn SelTick t w) (λ _, True) w1.
Proof.
  intros Hconn Ht Hq Hl Hmax Hcfg Hauth. pose proof (connecting_status _ Hconn) as Hcur.
  destruct Hconn as (Hs & Hc & _ & Hok & Hg).
  apply wp_bind, wp_set_status. intros lp Hlp. apply wp_ret.
  eapply (turn_publish _ _ _ _ _ l lp []); simpl; try done.
  - rewrite Ht, app_nil_r. by rewrite (assoc_L _).
  - destruct Hcur as [->|[-> ->]]; done.
  - split.
    + unfold status_ok. simpl. by rewrite Hs, Hcfg.
    + intros c' [= <-]. simpl. split_and!; [|done|].
      * rewrite link_inert; [done|]. destruct Hlp as [[-> _]|[-> _]]; by repeat constructor.
      * exists cfg. split; [done|]. apply authenticated_app; [done|]. destruct Hlp as [[-> _]|[-> _]]; set_solver.
Qed.

Lemma net_of_io s (l : list (Event W E)) : Forall (io_on s) l → quiet l.
Proof. intros Hl. apply quiet_net. eapply Forall_impl; [done|]. intros ev. apply io_on_net. Qed.

(** The hook phase of an attempt. *)
Lemma wp_hook_phase hook c cfg t dl w w1 l :
  HookOk hook → connecting t → trace w1 = trace w ++ l → quiet l →
  link (stream c) (trace w1) = Idle → max_payload_len c = opt_max_payload_len (options t) →
  config t = Some cfg → authenticated cfg c (trace w1) →
  wp (let* r := timeout (request_timeout t) (hook c) in
      let* _ := emit (EvHook (stream c) r) in
      match r with
      | Some (Ok _) =>
          let* t := set_status (Status.Connected (capabilities c)) (with_credentials_invalid false t) in
          ret (with_connection (Some c) t)
      | Some (Err _) => let* _ := quit c in set_status Status.Disconnected t
      | None => set_status Status.Disconnected t
      end) dl (turn SelTick t w) (λ _, True) w1.
Proof.
  intros Hhook Hconn Ht Hq Hl Hmax Hcfg Hauth. apply wp_bind, wp_timeout. intros dl'.
  eapply wp_mono; [apply wp_and; [by apply (hook_idle (hook:=hook))|apply (emits_wp (io_on (stream c))), _]|..].
  - intros r w2 [Hidle (lh & Ht2 & Hh)]. apply wp_bind, wp_emit.
    assert (quiet (l ++ lh ++ [EvHook (stream c) (Some r)])) as Hq2.
    { apply quiet_app; [done|]. apply quiet_app; [by eapply net_of_io|apply quiet_hook]. }
    assert (trace w2 ++ [EvHook (stream c) (Some r)] =
      trace w ++ l ++ lh ++ [EvHook (stream c) (Some r)]) as Ht3.
    { by rewrite Ht2, Ht, !(assoc_L _). }
    destruct r as [[]|e].
    + eapply attempt_connects; [done..| |done|done|]; simpl.
      * rewrite link_inert by (by repeat constructor). by apply Hidle.
      * rewrite Ht2, <-(assoc_L _). apply authenticated_app; [done|].
        apply not_elem_of_app. split; [by apply io_on_not_open|set_solver].
    + apply wp_bind. eapply wp_mono; [apply (emits_wp (io_on (stream c))), _|..]; [|done].
      intros _ w3 (lq & Ht4 & Hlq). simpl in Ht4.
      eapply (attempt_disconnected _ _ _ _ ((l ++ lh ++ [EvHook (stream c) (Some (Err e))]) ++ lq)); [done|..].
      * by rewrite Ht4, Ht3, <-!(assoc_L _).
      * apply quiet_app; [done|by eapply net_of_io].
  - intros w2 [_ (lh & Ht2 & Hh)]. split; [|done]. apply wp_bind, wp_emit.
    eapply (attempt_disconnected _ _ _ _ (l ++ lh ++ [EvHook (stream c) None])); [done|..].
    + simpl. by rewrite Ht2, Ht, !(assoc_L _).
    + apply quiet_app; [done|]. apply quiet_app; [by eapply net_of_io|apply quiet_hook].
Qed.

Lemma wp_try_connect t dl w :
  hooks_ok t → shutdown t = false → connection t = None → status_ok t →
  wp (try_connect t) dl (turn SelTick t w) (λ _, True) w.
Proof.
  intros Hhooks Hs Hc Hok. unfold try_connect.
  assert (turn SelTick t w t w) as Hstay.
  { eapply (turn_quiet _ _ _ _ [] []); try done; [by rewrite !app_nil_r|by apply inv_no_connection]. }
  destruct (_ && _) eqn:Hg; [by apply wp_ret|].
  destruct (config t) as [cfg|] eqn:Hcfg; [|by apply wp_ret].
  assert (connecting t) as Hconn by (split_and!; eauto).
  apply wp_bind, wp_timeout. intros dl'.
  eapply wp_mono; [apply wp_and; [apply wp_connect|apply (emits_wp net_event), connect_net]|..].
  - intros r w1 [Hpost (l & Ht & Hl)]. apply quiet_net in Hl.
    destruct r as [[c|]|e]; simpl in Hpost.
    + pose proof (connect_authenticated _ _ _ _ _ Hpost) as Hauth. destruct Hpost as (Hmax & Hidle & _).
      destruct (on_connect t) as [hook|] eqn:Hhk; [|by eapply attempt_connects].
      apply Hhooks in Hhk. by eapply wp_hook_phase.
    + eapply attempt_fails; eauto.
    + by eapply attempt_disconnected.
  - intros w1 [_ (l & Ht & Hl)]. split; [|done]. eapply attempt_disconnected; [done..|]. by apply quiet_net.
Qed.

(** ** Losing and keeping the connection *)

Lemma connected_status t c : status_ok t → connection t = Some c →
  shutdown t = false ∧ is_Some (config t) ∧ status t = Status.Connected (capabilities c) ∧
  credentials_invalid t = false.
Proof.
  unfold status_ok. intros Hok Hc. rewrite Hc in Hok.
  destruct (shutdown t); [naive_solver|]. destruct (config t); naive_solver.
Qed.

Lemma status_ok_dropped t c : status_ok t → connection t = Some c →
  status_ok (with_status Status.Disconnected (with_connection None t)).
Proof.
  intros Hok Hc. destruct (connected_status _ _ Hok Hc) as (Hs & [cfg Hcfg] & Hst & Hci).
  unfold status_ok. simpl. rewrite Hs, Hcfg, Hci. destruct (invalid_credentials_policy t); auto.
Qed.

(** [drop_connection] followed by the answers [a]. *)
Lemma wp_drop_connection sel t c w dl w1 l (Q : ClientTask → CWorld W E → Prop) :
  status_ok t → connection t = Some c → trace w1 = trace w ++ l → quiet l →
  (∀ lp t' w', connection t' = None → status_ok t' → same_setup t t' → shutdown t' = false →
     trace w' = trace w ++ l ++ lp →
     (∀ a w'', trace w'' = trace w' ++ a → statuses a = [] → answered sel (answers a) →
        turn sel t w t' w'') → Q t' w') →
  wp (drop_connection t) dl Q (λ _, True) w1.
Proof.
  intros Hok Hc Ht Hq HQ. destruct (connected_status _ _ Hok Hc) as (Hs & Hcfg & Hst & Hci).
  apply wp_set_status. intros lp Hlp. simpl in Hlp.
  apply (HQ lp); simpl; try done.
  - by eapply status_ok_dropped.
  - by rewrite Ht, (assoc_L _).
  - intros a w'' Ht' Hsa Hans. eapply (turn_publish _ _ _ _ _ l lp a); simpl; try done.
    + by rewrite Ht', Ht, <-!(assoc_L _).
    + intros _. by rewrite Hst.
    + apply inv_no_connection; [done|by eapply status_ok_dropped].
Qed.

Lemma wp_handle_tick t dl w :
  hooks_ok t → inv t w → wp (handle_tick t) dl (turn SelTick t w) (λ _, True) w.
Proof.
  intros Hhooks Hinv. unfold handle_tick.
  destruct (shutdown t) eqn:Hs.
  { apply wp_ret. eapply (turn_quiet _ _ _ _ [] []); try done. by rewrite !app_nil_r. }
  destruct (connection t) as [c|] eqn:Hc; [|apply wp_try_connect; try done; apply Hinv].
  destruct (inv_link _ _ Hinv c Hc) as (Hidle & Hmax & cfg & Hcfg & Hauth).
  apply wp_bind, wp_timeout. intros dl'.
  eapply wp_mono; [apply wp_and; [by apply wp_ping|apply (emits_wp (io_on (stream c))), _]|..].
  - intros [u|e] w1 [Hp (l & Ht & Hl)]; pose proof (io_on_not_open _ _ Hl) as Hno; apply net_of_io in Hl.
    + apply wp_ret. eapply (turn_quiet _ _ _ _ l []); try done; [by rewrite app_nil_r|].
      split; [apply Hinv|]. intros c' Hc'. simplify_eq. split_and!; [done..|].
      exists cfg. split; [done|]. rewrite Ht. by apply authenticated_app.
    + eapply (wp_drop_connection SelTick); [apply Hinv|done..|]. intros lp t' w' _ _ _ _ _ Hturn.
      by apply (Hturn []); [rewrite app_nil_r|..].
  - intros w1 [_ (l & Ht & Hl)]; apply net_of_io in Hl. split; [|done].
    eapply (wp_drop_connection SelTick); [apply Hinv|done..|]. intros lp t' w' _ _ _ _ _ Hturn.
    by apply (Hturn []); [rewrite app_nil_r|..].
Qed.

(** ** Commands *)

(** [take_and_quit] removes the connection and only talks on its stream. *)
Lemma wp_take_and_quit t dl (Q : ClientTask → CWorld W E → Prop) w :
  (∀ w' l, trace w' = trace w ++ l → quiet l → Q (with_connection None t) w') →
  wp (take_and_quit t) dl Q (λ _, True) w.
Proof.
  intros HQ. unfold take_and_quit. destruct (connection t) as [c|] eqn:Hc.
  - apply wp_bind. eapply wp_mono; [apply (emits_wp (io_on (stream c))), _|..]; [|done].
    intros _ w' (l & Ht & Hl). apply wp_ret. eapply HQ; [done|by eapply net_of_io].
  - apply wp_ret. replace t with (with_connection None t) by (by destruct t; simpl in *; subst).
    eapply (HQ _ []); [by rewrite app_nil_r|done].
Qed.

(** Any live status may be reset by a command. *)
Lemma status_step_reset pol (s s' : Status.ConnectionStatus W) :
  s ≠ Status.Shutdown →
  s' = Status.Disconnected ∨ s' = Status.Unconfigured ∨ s' = Status.Shutdown →
  s ≠ s' → status_step pol s s'.
Proof. intros Hs Hs' Hne. destruct s, Hs' as [->|[->| ->]]; simpl; done. Qed.

Lemma not_shutdown t : status_ok t → shutdown t = false → status t ≠ Status.Shutdown.
Proof.
  unfold status_ok. intros Hok Hs. rewrite Hs in Hok.
  destruct (connection t), (config t), (invalid_credentials_policy t), (credentials_invalid t);
    naive_solver congruence.
Qed.

Lemma wp_configure cfg t dl w :
  inv t w → wp (handle_command t (Configure cfg)) dl (turn (SelCommand (Configure cfg)) t w) (λ _, True) w.
Proof.
  intros Hinv. simpl. destruct (shutdown t) eqn:Hs.
  { apply wp_ret. eapply (turn_quiet _ _ _ _ [] []); try done. by rewrite !app_nil_r. }
  apply wp_bind, wp_take_and_quit. intros w1 l Ht Hq.
  apply wp_bind, wp_set_status. intros lp Hlp. apply wp_ret.
  eapply (turn_publish _ _ _ _ _ l lp []); simpl; try done.
  - by rewrite Ht, app_nil_r, (assoc_L _).
  - intros Hne. apply status_step_reset; [..|done].
    + apply not_shutdown; [apply Hinv|done].
    + destruct cfg; auto.
  - apply inv_no_connection; [done|]. unfold status_ok. simpl. rewrite Hs.
    destruct cfg; [|done]. destruct (invalid_credentials_policy t); auto.
Qed.

Lemma wp_shutdown id t dl w :
  inv t w → wp (handle_command t (CShutdown id)) dl (turn (SelCommand (CShutdown id)) t w) (λ _, True) w.
Proof.
  intros Hinv. apply wp_bind, wp_take_and_quit. intros w1 l Ht Hq.
  apply wp_bind, wp_set_status. intros lp Hlp. apply wp_bind, wp_emit, wp_ret.
  eapply (turn_publish _ _ _ _ _ l lp [EvShutdownAck id]); simpl; try done.
  - by rewrite Ht, <-!(assoc_L _).
  - intros Hne. apply status_step_reset; auto.
Qed.

Lemma wp_request m id t dl w :
  inv t w → wp (handle_command t (CRequest m id)) dl (turn (SelCommand (CRequest m id)) t w) (λ _, True) w.
Proof.
  intros Hinv. simpl.
  assert (∀ r w', trace w' = trace w ++ [EvReply id r] → link_ok t w' →
    turn (SelCommand (CRequest m id)) t w t w') as Hreply.
  { intros r w' Ht Hl. eapply (turn_quiet _ _ _ _ [] [EvReply id r]); try done.
    - by eexists.
    - split; [apply Hinv|done]. }
  destruct (shutdown t) eqn:Hs.
  { apply wp_bind, wp_emit, wp_ret. eapply Hreply; [done|]. intros c Hc.
    pose proof (inv_status _ _ Hinv) as Hok. unfold status_ok in Hok. rewrite Hs in Hok. naive_solver. }
  destruct (connection t) as [c|] eqn:Hc.
  2:{ apply wp_bind, wp_emit, wp_ret. eapply Hreply; [done|]. intros c' Hc'. congruence. }
  destruct (inv_link _ _ Hinv c Hc) as (Hidle & Hmax & cfg & Hcfg & Hauth).
  assert (∀ r w1 l, trace w1 = trace w ++ l → quiet l →
    wp (let* t := drop_connection t in let* _ := emit (EvReply id r) in ret t) dl
      (turn (SelCommand (CRequest m id)) t w) (λ _, True) w1) as Hdrop.
  { intros r w1 l Ht Hq. apply wp_bind.
    eapply (wp_drop_connection (SelCommand (CRequest m id))); [apply Hinv|done..|].
    intros lp t' w' _ _ _ _ _ Hturn. apply wp_bind, wp_emit, wp_ret.
    apply (Hturn [EvReply id r]); [done..|by eexists]. }
  apply wp_bind, wp_timeout. intros dl'.
  eapply wp_mono; [apply wp_and; [by apply wp_request_raw|apply (emits_wp (io_on (stream c))), _]|..].
  - intros [raw|e] w1 [Hr (l & Ht & Hl)]; pose proof (io_on_not_open _ _ Hl) as Hno; apply net_of_io in Hl;
      [|by eapply Hdrop].
    destruct (_ && _); [by eapply Hdrop|].
    apply wp_bind, wp_ret, wp_bind, wp_emit, wp_ret.
    eapply (turn_quiet _ _ _ _ l [EvReply id (Ok raw)]); try done.
    + simpl. by rewrite Ht, <-(assoc_L _).
    + by eexists.
    + split; [apply Hinv|]. intros c' Hc'. simplify_eq. split_and!; [|done|].
      * simpl. rewrite link_inert by (by repeat constructor). naive_solver.
      * exists cfg. split; [done|]. simpl. rewrite Ht, <-(assoc_L _). apply authenticated_app; [done|].
        apply not_elem_of_app. split; [done|set_solver].
  - intros w1 [_ (l & Ht & Hl)]; apply net_of_io in Hl. split; [|done]. by eapply Hdrop.
Qed.

(** One turn of the loop. *)
Lemma wp_handle sel t dl w :
  hooks_ok t → inv t w → wp (handle t sel) dl (turn sel t w) (λ _, True) w.
Proof.
  intros Hhooks Hinv. destruct sel as [[cfg|m id|id]|]; simpl handle.
  - by apply wp_configure.
  - by apply wp_request.
  - by apply wp_shutdown.
  - by apply wp_handle_tick.
Qed.

Lemma same_setup_hooks t t' : same_setup t t' → hooks_ok t → hooks_ok t'.
Proof. unfold same_setup, hooks_ok. intros (_&_&_&_&_&->). done. Qed.

Lemma same_setup_trans t1 t2 t3 : same_setup t1 t2 → same_setup t2 t3 → same_setup t1 t3.
Proof. unfold same_setup. naive_solver congruence. Qed.

(** ** Hooks that pass errors on *)

(** A hook that asks its session for one response after the other, each request
    depending on the responses so far, and returns at the first error. *)
Inductive HookProg :=
| HookDone (r : Result unit OnConnectError)
| HookAsk (m : RawMessage) (fail : RequestError → OnConnectError) (k : RawMessage → HookProg).

Fixpoint run_hook (p : HookProg) : OnConnectFn := λ c,
  match p with
  | HookDone r => ret r
  | HookAsk m fail k =>
      let? raw := await_map_err fail (Session_request_raw c m) in run_hook (k raw) c
  end.

Lemma run_hook_timely p c : Timely (run_hook p c).
Proof.
  revert c. induction p as [r|m fail k IH]; intros c; simpl; [apply _|].
  apply timely_bind_ok; [apply timely_await_map_err; unfold Session_request_raw; apply _|by intros raw].
Qed.

Lemma run_hook_emits p c : Emits (io_on (stream c)) (run_hook p c).
Proof.
  revert c. induction p as [r|m fail k IH]; intros c; simpl; [apply _|].
  apply emits_bind_ok; [apply emits_await_map_err; unfold Session_request_raw; apply _|by intros raw].
Qed.

Lemma run_hook_ok p : HookOk (run_hook p).
Proof.
  split; [apply run_hook_timely|apply run_hook_emits|].
  intros c. induction p as [r|m fail k IH]; intros dl w Hl; simpl; [by apply wp_ret|].
  apply wp_bind_ok, wp_await_map_err.
  eapply wp_mono; [by apply wp_Session_request_raw|..]; [|done].
  intros [raw|e] w' Hr; simpl; [|done]. apply IH. by apply Hr.
Qed.

(** ** Totality and time *)

#[global] Instance set_status_timely st t : Timely (set_status st t).
Proof. unfold set_status. case_bool_decide; apply _. Qed.

#[global] Instance take_and_quit_timely t : Timely (take_and_quit t).
Proof. unfold take_and_quit. destruct (connection t); apply _. Qed.

Lemma try_connect_timely t : hooks_ok t → Timely (try_connect t).
Proof.
  intros Hhooks. unfold try_connect. destruct (_ && _); [apply _|].
  destruct (config t) as [cfg|]; [|apply _].
  apply timely_bind; [apply _|]. intros [[[c|]|e]|]; [|apply _..].
  destruct (on_connect t) as [hook|] eqn:Hhk; [|apply _].
  apply Hhooks in Hhk. apply timely_bind; [apply _|]. intros [[|]|]; apply _.
Qed.

Lemma handle_timely sel t : hooks_ok t → Timely (handle t sel).
Proof.
  intros Hhooks. destruct sel as [[cfg|m id|id]|]; simpl.
  - destruct (shutdown t); apply _.
  - destruct (shutdown t); [apply _|]. destruct (connection t); [|apply _].
    apply timely_bind; [apply _|]. intros [[raw|e]|]; [|apply _..].
    apply timely_bind; [destruct (_ && _); apply _|apply _].
  - apply _.
  - unfold handle_tick. destruct (shutdown t); [apply _|].
    destruct (connection t); [|by apply try_connect_timely].
    apply timely_bind; [apply _|]. intros [[|]|]; apply _.
Qed.

End proofs.
