(* ===== verification/Demo.v ===== *)
(** * A concrete network

    A deterministic peer used to run the model: the outside is the list of
    frames the server will send, every operation takes one unit of time and
    only reading can fail, when nothing is left to read or the frame is over the
    limit. *)

From S2P Require Import Prelude Async Protocol Request ClientData Connection ClientTask ClientInvariant.

Import Toy.

Module Demo.

#[export] Instance demo_net : Net toy_wire (list frame) := {|
  Stream := Z;
  SocketAddr := unit;
  TcpStream := unit;
  TlsStream := Z;
  ServerName := string;
  TlsConnector := unit;
  IoError := unit;
  OnConnectError := unit;
  lookup_host _ _ _ e := (1%N, e, Ok [()]);
  tcp_connect _ _ e := (1%N, e, Ok ());
  local_addr_ip _ := Ok 127%Z;
  server_name h := Some h;
  tls_connect _ _ _ _ e := (1%N, e, Ok 7%Z);
  timeout_stream s _ _ := s;
  write_frame _ _ _ e := (1%N, e, Ok ());
  read_frame _ max _ e :=
    match e with
    | [] => (1%N, [], Err ())
    | f :: rest => (1%N, rest, if (Z.of_nat (length f.2) <=? max)%Z then Ok f else Err ())
    end
|}.

#[export] Instance demo_frame_limit : FrameLimit toy_wire (list frame).
Proof.
  refine {| payload_len (f : RawMessage (Wire:=toy_wire)) := Z.of_nat (length (f : frame).2) |}.
  intros s max o [|f rest] dur e' raw; simpl; [done|]. destruct (Z.leb_spec (Z.of_nat (length f.2)) max); naive_solver.
Defined.

Definition cfg : ConnectionConfig := mkConnectionConfig "bloop.example.com" 12345 "client" "secret".

(** Asks the server for the audio of achievement 1 and gives up on any error. *)
Definition audio_hook : OnConnectFn (W:=toy_wire) (NE:=demo_net) := λ c,
  let* r := Session_retrieve_audio c 1%Z in
  ret (match r with Ok _ => Ok tt | Err _ => Err tt end).

Definition task (config : option ConnectionConfig) (pol : InvalidCredentialsPolicy)
    (hook : option OnConnectFn) : ClientTask :=
  mkClientTask (W:=toy_wire) (NE:=demo_net) tt config None
    (if config is Some _ then Status.Disconnected else Status.Unconfigured)
    3 60 (mkConnectOptions 5 16777216) pol hook false false.

Definition world (server : list frame) : CWorld toy_wire (list frame) := mkWorld 0 server [].

(** The frames of a server that accepts the handshake and the credentials. *)
Definition accepting : list frame := [(2, [3; 5]); (4, [])]%Z.

(** The frames of a server that rejects the credentials. *)
Definition rejecting : list frame := [(2, [3; 5]); (0, [2])]%Z.

#[export] Instance audio_hook_ok : HookOk audio_hook.
Proof.
  split.
  - intros c. unfold audio_hook. apply _.
  - intros c. unfold audio_hook. apply _.
  - intros c dl w Hidle. apply wp_bind.
    eapply wp_mono; [by apply wp_Session_retrieve_audio|..]; [|done].
    intros [d|e] w' Hr; apply wp_ret; [|done]. intros _. by apply Hr.
Qed.

(** An attempt against a server that accepts; the frames it sends are short. *)
Lemma connect_guards_credentials_witness :
  ∃ l, trace (connect (W:=toy_wire) (NE:=demo_net) cfg tt (mkConnectOptions 5 16777216) None (world accepting)).2 = [] ++ l ∧
    guarded false l.
Proof. exact (connect_guards_credentials cfg tt (mkConnectOptions 5 16777216) None (world accepting)). Defined.

Lemma task_inv config pol hook server : inv (task config pol hook) (world server).
Proof. apply inv_no_connection; [done|]. destruct config, pol; unfold status_ok; simpl; auto. Qed.

Lemma hooks_none config pol : hooks_ok (task config pol None).
Proof. by intros hook. Qed.

Lemma hooks_audio config pol : hooks_ok (task config pol (Some audio_hook)).
Proof. intros hook [= <-]. apply _. Qed.

End Demo.

(** An interval as plain data: its period, its behaviour and when it is due. *)
Module TickerDemo.

Record ticker := mkTicker { tk_period : N; tk_behavior : MissedTickBehavior; tk_due : N }.

#[export] Instance ticker_interval : Interval ticker := {|
  interval p now := if (p =? 0)%N then None else Some (mkTicker p Burst now);
  set_missed_tick_behavior b i := mkTicker (tk_period i) b (tk_due i);
  tick now i := mkTicker (tk_period i) (tk_behavior i)
    (if (tk_due i + 5 <? now)%N then next_timeout (tk_behavior i) (tk_due i) now (tk_period i)
     else tk_due i + tk_period i)%N;
  period := tk_period;
  missed_tick_behavior := tk_behavior;
  due := tk_due
|}.

#[export] Instance ticker_laws : IntervalLaws ticker.
Proof.
  split; try done. intros p now Hp. simpl. destruct (N.eqb_spec p 0); [lia|]. by eexists.
Qed.

End TickerDemo.
