(* ===== verification/ClientTheorems.v ===== *)
(** * Theorems about the connection task

    What every run of the task guarantees, whatever the server, the network and
    the callers do, with runs against the scripted server as witnesses. *)

From S2P Require Import Prelude Async Protocol Request ClientData Connection ClientTask ClientInvariant Demo.

Section theorems.
Context {W : Wire} {P : Protocol} {E : Type} {NE : Net W E}.
Implicit Types t : ClientTask.
Implicit Types w : CWorld W E.

(** The answers a sequence of turns owes: the sender of each request
    ([true]) and of each shutdown ([false]), in the order received. *)
Definition owed (sels : list Selected) : list (N * bool) :=
  omap (λ sel, match sel with
    | SelCommand (CRequest _ id) => Some (id, true)
    | SelCommand (CShutdown id) => Some (id, false)
    | _ => None
    end) sels.

Definition kinds (a : list (N * option (Result RawMessage RequestError))) : list (N * bool) :=
  (λ '(id, r), (id, bool_decide (is_Some r))) <$> a.

Lemma answered_owed sel a : answered sel a → kinds a = owed [sel].
Proof. destruct sel as [[]|]; simpl; naive_solver. Qed.

(** The whole loop: it completes, and keeps what every turn keeps. *)
Lemma run_loop_turns sels t w :
  hooks_ok t → inv t w →
  ∃ t' w' l, run_loop t sels None w = (Some t', w') ∧ inv t' w' ∧ same_setup t t' ∧
    trace w' = trace w ++ l ∧
    status_path (invalid_credentials_policy t) (status t) (statuses l) (status t') ∧
    kinds (answers l) = owed sels.
Proof.
  revert t w. induction sels as [|sel sels IH]; intros t w Hh Hi; simpl.
  { exists t, w, []. rewrite app_nil_r. split_and!; try done; constructor. }
  destruct (@timely_completes _ _ _ (handle t sel) (handle_timely sel t Hh) w) as (t1 & w1 & Hrun).
  pose proof (wp_run _ _ _ _ _ _ _ Hrun (wp_handle sel t None w Hh Hi)) as [Hi1 Hs1 (l1 & Ht1 & Hp1 & Ha1)].
  destruct (IH t1 w1) as (t' & w' & l2 & Hrun2 & Hi2 & Hs2 & Ht2 & Hp2 & Ha2);
    [by eapply same_setup_hooks|done|].
  exists t', w', (l1 ++ l2). unfold bind. rewrite Hrun. split_and!; try done.
  - by eapply same_setup_trans.
  - by rewrite Ht2, Ht1, (assoc_L _).
  - rewrite statuses_app. eapply status_path_app; [done|].
    assert (invalid_credentials_policy t1 = invalid_credentials_policy t) as <- by apply Hs1. done.
  - rewrite answers_app. unfold kinds in *. rewrite fmap_app, Ha2.
    apply answered_owed in Ha1. unfold kinds in Ha1. rewrite Ha1.
    unfold owed. by rewrite <-omap_app.
Qed.

(** C1: whatever the server, the network and the callers do, every sequence of
    turns of a task whose on-connect hook (if any) meets [HookOk] completes, and
    afterwards the status watch agrees with the task's fields, and a live
    connection carries the configured payload limit, sits between two exchanges,
    and was authenticated: on its stream version 3 was negotiated with the
    capabilities the status shows, and the server accepted the credentials of the
    configuration the task has. *)
Theorem run_loop_keeps_invariant sels t w :
  hooks_ok t → inv t w →
  ∃ t' w', run_loop t sels None w = (Some t', w') ∧ inv t' w'.
Proof.
  intros Hh Hi. destruct (run_loop_turns sels t w Hh Hi) as (t' & w' & l & ? & ? & _). eauto.
Qed.

(** C14: the statuses the watch publishes, for a task whose on-connect hook (if
    any) meets [HookOk], are a path of the abstract status
    machine: nothing leaves [Shutdown], [Connected] is entered only from
    [Disconnected], or from [InvalidCredentials] under the [Retry] policy, and
    [InvalidCredentials] only from [Disconnected]. *)
Theorem run_loop_refines_status_machine sels t w t' w' :
  hooks_ok t → inv t w → run_loop t sels None w = (Some t', w') →
  ∃ l, trace w' = trace w ++ l ∧
    status_path (invalid_credentials_policy t) (status t) (statuses l) (status t').
Proof.
  intros Hh Hi Hrun. destruct (run_loop_turns sels t w Hh Hi) as (t1 & w1 & l & H1 & _ & _ & ? & ? & _).
  rewrite H1 in Hrun. simplify_eq. eauto.
Qed.

(** Every request and every shutdown command is answered exactly once, in
    the order in which the commands were received, and nothing else is. *)
Theorem run_loop_answers_in_order sels t w t' w' :
  hooks_ok t → inv t w → run_loop t sels None w = (Some t', w') →
  ∃ l, trace w' = trace w ++ l ∧ kinds (answers l) = owed sels.
Proof.
  intros Hh Hi Hrun. destruct (run_loop_turns sels t w Hh Hi) as (t1 & w1 & l & H1 & _ & _ & ? & _ & ?).
  rewrite H1 in Hrun. simplify_eq. eauto.
Qed.

(** ** Inert states *)

(** The answers of a task that has been shut down. *)
Definition refusals (e : RequestError) (sels : list Selected) : list (Event W E) :=
  omap (λ sel, match sel with
    | SelCommand (CRequest _ id) => Some (EvReply id (Err e))
    | SelCommand (CShutdown id) => Some (EvShutdownAck id)
    | _ => None
    end) sels.

(** A turn that changes nothing but emits what it owes. *)
Lemma run_loop_inert (ok : Selected → Prop) e t :
  (∀ sel dl w, ok sel →
    handle t sel dl w = (Some t, mkWorld (clock w) (env w) (trace w ++ refusals e [sel]))) →
  ∀ sels dl w, Forall ok sels →
    run_loop t sels dl w = (Some t, mkWorld (clock w) (env w) (trace w ++ refusals e sels)).
Proof.
  intros Hstep sels dl w Hok. revert w. induction Hok as [|sel sels Hsel _ IH]; intros w.
  - simpl. unfold ret. rewrite app_nil_r. by destruct w.
  - assert (refusals e (sel :: sels) = refusals e [sel] ++ refusals e sels) as ->
      by apply (omap_app _ [sel] sels).
    change (run_loop t (sel :: sels)) with (let* t := handle t sel in run_loop t sels).
    unfold bind. rewrite Hstep, IH by done. cbn [clock env trace]. by rewrite <-app_assoc.
Qed.

Lemma set_status_id t dl w : set_status (status t) t dl w = (Some t, w).
Proof. unfold set_status. by rewrite bool_decide_eq_true_2. Qed.

Lemma world_app_nil w : mkWorld (clock w) (env w) (trace w ++ []) = w.
Proof. rewrite app_nil_r. by destruct w. Qed.

(** C16: once shut down, the task never touches the network again and never
    changes state: ticks and configurations are ignored, requests are answered
    with [Shutdown], further shutdowns are acknowledged, in no time. *)
Theorem shutdown_is_terminal sels t w :
  status_ok t → shutdown t = true →
  run_loop t sels None w =
    (Some t, mkWorld (clock w) (env w) (trace w ++ refusals Shutdown sels)).
Proof.
  intros Hok Hs. apply (run_loop_inert (λ _, True)); [|by apply Forall_true].
  clear w. intros sel dl w _. unfold status_ok in Hok. rewrite Hs in Hok. destruct Hok as [Hc Hst].
  destruct sel as [[cfg|m id|id]|]; simpl.
  - rewrite Hs, world_app_nil. done.
  - rewrite Hs. done.
  - unfold bind, take_and_quit, ret. rewrite Hc.
    replace (with_shutdown true t) with t by (by destruct t; simpl in *; subst).
    rewrite <-Hst, set_status_id. done.
  - unfold handle_tick. rewrite Hs, world_app_nil. done.
Qed.

Definition not_command_to_reset (sel : Selected) : Prop :=
  match sel with SelCommand (CRequest _ _) | SelTick => True | _ => False end.

(** C17: under the [Latch] policy rejected credentials are latched: until a
    configure or shutdown command arrives the task makes no connection attempt,
    keeps its status, and answers requests with [Disconnected]. *)
Theorem latched_credentials_stay_latched sels t w :
  Forall not_command_to_reset sels →
  inv t w → status t = Status.InvalidCredentials → invalid_credentials_policy t = Latch →
  run_loop t sels None w =
    (Some t, mkWorld (clock w) (env w) (trace w ++ refusals Disconnected sels)).
Proof.
  intros Hsels [Hok _] Hst Hpol. unfold status_ok in Hok. rewrite Hst, Hpol in Hok.
  destruct (shutdown t) eqn:Hs; [naive_solver|].
  destruct (connection t) as [c|] eqn:Hc; [destruct (config t); naive_solver|].
  destruct (config t) as [cfg|] eqn:Hcfg; [|naive_solver].
  destruct (credentials_invalid t) eqn:Hci; [|done].
  eapply run_loop_inert; [|done]. clear w Hsels. intros [[cfg'|m id|id]|] dl w Hsel; try done; simpl.
  - rewrite Hs, Hc. done.
  - unfold handle_tick, try_connect. rewrite Hs, Hc, Hci, Hpol, bool_decide_eq_true_2, world_app_nil; done.
Qed.

(** ** One request *)

Definition fatal_response (raw : RawMessage) : bool :=
  bool_decide (message_type raw = OPCODE ErrorResponse) &&
  match decode_message (T:=ErrorResponse) raw with Ok error => is_fatal error | Err _ => false end.

Definition dropped t : ClientTask := with_status Status.Disconnected (with_connection None t).

Lemma run_drop_connection t c dl w :
  status_ok t → connection t = Some c →
  drop_connection t dl w =
    (Some (dropped t), mkWorld (clock w) (env w) (trace w ++ [EvStatus Status.Disconnected])).
Proof.
  intros Hok Hc. destruct (connected_status _ _ Hok Hc) as (_ & _ & Hst & _).
  unfold drop_connection, set_status. rewrite bool_decide_eq_false_2; [done|].
  simpl. by rewrite Hst.
Qed.

(** What a request on the live connection [c] does. *)
Definition request_post (t : ClientTask) (c : Connection) (m : RawMessage) (id : N)
    (tr : list (Event W E)) (t' : ClientTask) (w' : CWorld W E) : Prop :=
  (∃ raw,
    let exchange := [EvWrite (stream c) m (Some (Ok tt));
                     EvRead (stream c) (max_payload_len c) (Some (Ok raw))] in
    if fatal_response raw
    then t' = dropped t ∧
         trace w' = tr ++ exchange ++ [EvStatus Status.Disconnected; EvReply id (Ok raw)]
    else t' = t ∧ trace w' = tr ++ exchange ++ [EvReply id (Ok raw)]) ∨
  (∃ l, Forall (io_on (stream c)) l ∧ link (stream c) (tr ++ l) = Broken ∧
    t' = dropped t ∧
    trace w' = tr ++ l ++ [EvStatus Status.Disconnected; EvReply id (Err Disconnected)]).

(** Dropping the connection and answering. *)
Lemma wp_drop_reply t c id r dl (Q : ClientTask → CWorld W E → Prop) w1 :
  status_ok t → connection t = Some c →
  (∀ w', trace w' = trace w1 ++ [EvStatus Status.Disconnected; EvReply id r] → Q (dropped t) w') →
  wp (let* t := drop_connection t in let* _ := emit (EvReply id r) in ret t) dl Q (λ _, True) w1.
Proof.
  intros Hok Hc HQ. apply wp_bind. unfold wp at 1. rewrite (run_drop_connection t c) by done.
  apply wp_bind, wp_emit, wp_ret, HQ. simpl. by rewrite <-(assoc_L _).
Qed.

Lemma run_request t c m id w t' w' :
  inv t w → connection t = Some c →
  handle_command t (CRequest m id) None w = (Some t', w') →
  request_post t c m id (trace w) t' w'.
Proof.
  intros Hinv Hc Hrun. destruct (inv_link _ _ Hinv c Hc) as (Hidle & _).
  pose proof (inv_status _ _ Hinv) as Hok.
  destruct (connected_status _ _ Hok Hc) as (Hs & _).
  by_wp Hrun. simpl. rewrite Hs, Hc.
  apply wp_bind, wp_timeout. intros dl'.
  eapply wp_mono; [apply wp_and; [by apply wp_request_raw|apply (emits_wp (io_on (stream c))), _]|..].
  - intros [raw|e] w1 [Hr (l & Ht & Hl)].
    + destruct Hr as [Ht1 _]. destruct (fatal_response raw) eqn:Hf; unfold fatal_response in Hf; rewrite Hf.
      * eapply wp_drop_reply; [done..|]. intros w2 Ht2. left. exists raw. unfold fatal_response.
        rewrite Hf. split; [done|]. rewrite Ht2, Ht1. by rewrite <-!(assoc_L _).
      * apply wp_bind, wp_ret, wp_bind, wp_emit, wp_ret. left. exists raw. unfold fatal_response.
        rewrite Hf. split; [done|]. simpl. rewrite Ht1. by rewrite <-!(assoc_L _).
    + eapply wp_drop_reply; [done..|]. intros w2 Ht2. right. exists l.
      split_and!; [done|congruence|done|]. rewrite Ht2, Ht. by rewrite <-!(assoc_L _).
  - intros w1 [Hr (l & Ht & Hl)]. split; [|done].
    eapply wp_drop_reply; [done..|]. intros w2 Ht2. right. exists l.
    split_and!; [done|congruence|done|]. rewrite Ht2, Ht. by rewrite <-!(assoc_L _).
Qed.

(** C6: a request on a live connection either completes its exchange and hands
    the caller the frame the server sent, keeping the connection unless that
    frame is a fatal protocol error, or its stream breaks, and then the caller
    gets [Disconnected] and the connection is gone; the new status is
    published before the caller is answered. *)
Theorem request_outcome t c m id w t' w' :
  inv t w → connection t = Some c →
  handle_command t (CRequest m id) None w = (Some t', w') →
  request_post t c m id (trace w) t' w'.
Proof. apply run_request. Qed.

(** ** Time *)

(** How long a turn may keep the task busy: the request timeout bounds an
    exchange, a connection attempt and the hook; announcing a disconnect takes
    as long as writing one frame, [q]. *)
Definition turn_bound (q : N) (t : ClientTask) (sel : Selected) : N :=
  match sel with
  | SelCommand (CRequest _ _) => request_timeout t
  | SelCommand (Configure _) | SelCommand (CShutdown _) => q
  | SelTick =>
      match connection t, on_connect t with
      | None, Some _ => 2 * request_timeout t + q
      | _, _ => request_timeout t
      end
  end.

Lemma set_status_within n st t : Within n (set_status st t).
Proof.
  unfold set_status. case_bool_decide; [apply within_ret|].
  apply (within_bind 0 n); [apply within_emit|intros; apply within_ret].
Qed.

(** A first step bounded by [n], then a status, an answer and such. *)
Lemma within_first {A} n (m : Async W E A) (k : A → Async W E ClientTask) :
  Within n m → (∀ a, Within 0 (k a)) → Within n (bind m k).
Proof. intros Hm Hk. eapply within_mono; [by eapply within_bind|lia]. Qed.

Lemma within_after {A} n (m : Async W E A) (k : A → Async W E ClientTask) :
  Within 0 m → (∀ a, Within n (k a)) → Within n (bind m k).
Proof. intros Hm Hk. eapply within_mono; [by eapply within_bind|lia]. Qed.

Section within_turn.
Context (q : N) (Hq : ∀ s m o (e : E), ((write_frame s m o e).1.1 ≤ q)%N).

Lemma quit_within c : Within q (quit c).
Proof using Hq.
  unfold quit. destruct (encode_message _); [|apply within_ret].
  eapply within_mono; [apply (within_bind q 0)|lia]; [by apply within_call|intros; apply within_ret].
Qed.

Lemma take_and_quit_within t : Within q (take_and_quit t).
Proof using Hq.
  unfold take_and_quit. destruct (connection t); [|apply within_ret].
  apply within_first; [apply quit_within|intros; apply within_ret].
Qed.

Lemma drop_reply_within t id r :
  Within 0 (let* t := drop_connection t in let* _ := emit (EvReply (E:=E) id r) in ret t).
Proof.
  apply within_first; [apply set_status_within|].
  intros; apply within_first; [apply within_emit|intros; apply within_ret].
Qed.

Lemma try_connect_within t : hooks_ok t →
  Within (if on_connect t is Some _ then 2 * request_timeout t + q else request_timeout t) (try_connect t).
Proof using Hq.
  intros Hh. unfold try_connect. destruct (_ && _); [apply within_ret|].
  destruct (config t) as [cfg|]; [|apply within_ret].
  assert (∀ n c, Within n (let* t := set_status (Status.Connected (capabilities c)) (with_credentials_invalid false t) in
      ret (with_connection (Some c) t))) as Hcon.
  { intros n c. eapply within_mono; [|apply N.le_0_l].
    apply within_first; [apply set_status_within|intros; apply within_ret]. }
  destruct (on_connect t) as [hook|] eqn:Hhk.
  - apply Hh in Hhk. eapply within_mono; [apply within_bind with (n2:=(request_timeout t + q)%N);
      [apply within_timeout, _|]|lia].
    intros [[[c|]|e]|]; [|apply set_status_within..].
    apply within_bind; [apply within_timeout, _|]. intros r.
    apply within_after; [apply within_emit|]. intros _. destruct r as [[|]|]; [done| |apply set_status_within].
    apply within_first; [apply quit_within|intros; apply set_status_within].
  - apply within_first; [apply within_timeout, _|].
    intros [[[c|]|e]|]; [done|apply set_status_within..].
Qed.

(** C18: no turn of the loop holds the task longer than [turn_bound], when writing
    one frame takes at most [q] and the hook (if any) meets [HookOk]: a request or
    a ping at most the request timeout, a connection attempt that, with a hook
    twice that and [q], and a configure or shutdown command [q], since announcing
    the disconnect is not under the request timeout. A server that stalls, or that
    keeps trickling bytes, cannot keep the task busy. *)
Theorem turn_time_bound t sel w t' w' :
  hooks_ok t → handle t sel None w = (Some t', w') →
  (clock w' ≤ clock w + turn_bound q t sel)%N.
Proof using Hq.
  intros Hh Hrun. enough (Within (turn_bound q t sel) (handle t sel)) as Hw by exact (Hw _ _ _ Hrun).
  clear Hrun w t' w'.
  destruct sel as [[cfg|m id|id]|]; simpl.
  - destruct (shutdown t); [apply within_ret|]. apply within_first; [apply take_and_quit_within|].
    intros; apply within_first; [apply set_status_within|intros; apply within_ret].
  - destruct (shutdown t); [apply within_first; [apply within_emit|intros; apply within_ret]|].
    destruct (connection t); [|apply within_first; [apply within_emit|intros; apply within_ret]].
    apply within_first; [apply within_timeout, _|]. intros [[raw|e]|]; [|apply drop_reply_within..].
    destruct (_ && _); [apply drop_reply_within|].
    apply within_first; [apply within_ret|]. intros.
    apply within_first; [apply within_emit|intros; apply within_ret].
  - apply within_first; [apply take_and_quit_within|]. intros.
    apply within_first; [apply set_status_within|intros].
    apply within_first; [apply within_emit|intros; apply within_ret].
  - unfold handle_tick. destruct (shutdown t); [apply within_ret|].
    destruct (connection t); [|by apply try_connect_within].
    apply within_first; [apply within_timeout, _|].
    intros [[|]|]; [apply within_ret|apply set_status_within..].
Qed.

End within_turn.

(** ** Becoming connected *)

(** The events of a hook that succeeded, or of no hook at all. *)
Definition hook_events (hook : option OnConnectFn) (s : Stream) (l : list (Event W E)) : Prop :=
  match hook with
  | None => l = []
  | Some _ => ∃ lio, l = lio ++ [EvHook s (Some (Ok tt))] ∧ Forall (io_on s) lio
  end.

Definition connected_post (t : ClientTask) (tr : list (Event W E)) (t' : ClientTask) (w' : CWorld W E) : Prop :=
  ∀ c, connection t' = Some c →
    ∃ cfg w1 raw2 a lh,
      config t = Some cfg ∧
      attempted cfg tr w1 (stream c) (capabilities c) raw2 ∧
      decode_response AuthenticationAccepted raw2 = Ok a ∧
      hook_events (on_connect t) (stream c) lh ∧
      status t' = Status.Connected (capabilities c) ∧
      trace w' = trace w1 ++ lh ++ [EvStatus (Status.Connected (capabilities c))].

Lemma wp_not_connected st b t dl tr w1 :
  connection t = None → wp (set_status st (with_credentials_invalid b t)) dl (connected_post t tr) (λ _, True) w1.
Proof. intros Hc. apply wp_set_status. intros l _ c. simpl. by rewrite Hc. Qed.

Lemma wp_not_connected' st t dl tr w1 :
  connection t = None → wp (set_status st t) dl (connected_post t tr) (λ _, True) w1.
Proof. intros Hc. rewrite <-(with_credentials_invalid_id t) at 1. by apply wp_not_connected. Qed.

Lemma wp_connected c t dl tr cfg w1 raw2 a lh w2 :
  connecting t → config t = Some cfg → attempted cfg tr w1 (stream c) (capabilities c) raw2 →
  decode_response AuthenticationAccepted raw2 = Ok a →
  hook_events (on_connect t) (stream c) lh → trace w2 = trace w1 ++ lh →
  wp (let* t := set_status (Status.Connected (capabilities c)) (with_credentials_invalid false t) in
      ret (with_connection (Some c) t)) dl (connected_post t tr) (λ _, True) w2.
Proof.
  intros Hconn Hcfg Hatt Hdec Hhk Ht. apply wp_bind, wp_set_status. intros lp Hlp. apply wp_ret.
  intros c' [= <-]. exists cfg, w1, raw2, a, lh. split_and!; try done. simpl.
  destruct Hlp as [[_ Heq]|[-> _]]; [|by rewrite Ht, <-(assoc_L _)].
  simpl in Heq. destruct (connecting_status _ Hconn) as [?|[? _]]; congruence.
Qed.

(** C5: the task becomes connected only after it wrote the version-3 handshake
    and read a frame accepting version 3, then wrote the configured
    credentials and read their acceptance, then ran the on-connect hook (if
    any) to success, in this order; the reported capabilities are those of the
    handshake, and the status is published last. *)
Theorem connected_only_after_handshake t w t' w' :
  hooks_ok t → shutdown t = false → connection t = None → status_ok t →
  handle_tick t None w = (Some t', w') → connected_post t (trace w) t' w'.
Proof.
  intros Hh Hs Hc Hok Hrun. by_wp Hrun.
  unfold handle_tick. rewrite Hs, Hc. unfold try_connect.
  destruct (_ && _) eqn:Hg; [apply wp_ret; intros c; by rewrite Hc|].
  destruct (config t) as [cfg|] eqn:Hcfg; [|apply wp_ret; intros c; by rewrite Hc].
  assert (connecting t) as Hconn by (split_and!; eauto).
  apply wp_bind, wp_timeout. intros dl'. eapply wp_mono; [apply wp_connect|..].
  2:{ intros w1 _. split; [|done]. by apply wp_not_connected'. }
  intros [[c|]|e] w1 Hpost; simpl in Hpost; [|by apply wp_not_connected|by apply wp_not_connected'].
  destruct Hpost as (_ & _ & raw2 & a & Hatt & Hdec).
  destruct (on_connect t) as [hook|] eqn:Hhk.
  2:{ eapply wp_connected; [done..|by rewrite Hhk|by rewrite app_nil_r]. }
  pose proof (Hh _ Hhk). apply wp_bind, wp_timeout. intros dl''.
  eapply wp_mono; [apply (emits_wp (io_on (stream c))), _|..].
  2:{ intros w2 _. split; [|done]. apply wp_bind, wp_emit. by apply wp_not_connected'. }
  intros [[]|e] w2 (lh & Ht2 & Hlh); apply wp_bind, wp_emit.
  - eapply wp_connected; [done..|rewrite Hhk; by eexists|]. simpl. by rewrite Ht2, <-(assoc_L _).
  - apply wp_bind. eapply wp_mono; [apply (emits_wp (io_on (stream c))), _|..]; [|done].
    intros _ w3 _. by apply wp_not_connected'.
Qed.

(** ** Reconfiguring, shutting down, ending *)

(** If there was a connection, the first event is the quit frame on it. *)
Definition quit_announced (t : ClientTask) (tr : list (Event W E)) (w' : CWorld W E) : Prop :=
  ∀ c m, connection t = Some c → encode_message mkQuit = Ok m →
    ∃ o l, trace w' = tr ++ EvWrite (stream c) m o :: l.

Lemma wp_quit_announced t dl (Q : ClientTask → CWorld W E → Prop) w :
  (∀ w1, (∀ w' l, trace w' = trace w1 ++ l → quit_announced t (trace w) w') →
    Q (with_connection None t) w1) →
  wp (take_and_quit t) dl Q (λ _, True) w.
Proof.
  intros HQ. unfold take_and_quit. destruct (connection t) as [c|] eqn:Hc.
  - apply wp_bind. unfold quit. destruct (encode_message mkQuit) as [m|e] eqn:Henc.
    + apply wp_bind, wp_call; [|done]. intros a clk e. apply wp_ret, wp_ret, HQ.
      intros w' l Ht c' m' Hc' Hm'. assert (m' = m ∧ c' = c) as [-> ->] by (split; congruence).
      do 2 eexists. rewrite Ht. simpl. by rewrite <-app_assoc.
    + apply wp_ret, wp_ret, HQ. intros w' l Ht c' m' Hc' Hm'. congruence.
  - apply wp_ret. replace t with (with_connection None t) at 1 by (by destruct t; simpl in *; subst).
    apply HQ. intros w' l Ht c' m' Hc'. congruence.
Qed.

(** A configure command announces the disconnect on the old connection,
    drops it, clears the credentials latch and installs the new configuration;
    the status becomes [Disconnected] or [Unconfigured] accordingly. *)
Lemma configure_resets cfg t w t' w' :
  shutdown t = false → handle_command t (Configure cfg) None w = (Some t', w') →
  connection t' = None ∧ config t' = cfg ∧ credentials_invalid t' = false ∧ shutdown t' = false ∧
  status t' = (if cfg is Some _ then Status.Disconnected else Status.Unconfigured) ∧
  quit_announced t (trace w) w'.
Proof.
  intros Hs Hrun. by_wp Hrun. simpl. rewrite Hs.
  apply wp_bind, wp_quit_announced. intros w1 Hqa. apply wp_bind, wp_set_status. intros lp _.
  apply wp_ret. simpl. split_and!; try done. by eapply Hqa.
Qed.

Lemma run_started {I} {IV : Interval I} sels t dl w :
  run I t sels dl w =
    if start_ticker (I:=I) t (clock w) is Some _ then
      (let* t := run_loop t sels in let* t := take_and_quit t in
       let* t := set_status Status.Shutdown t in ret (Some t)) dl w
    else (Some None, w).
Proof. unfold run, bind at 1, read_clock. by destruct (start_ticker _ _). Qed.

(** C21: when the last handle is gone the task ends, however the peer behaves:
    its connection is closed and the watch shows [Shutdown]. The exception is a
    ping interval of zero, which the builder accepts: then the task panics when it
    creates its ticker, before anything else, and its status stays as it was. *)
Theorem run_ends_in_shutdown {I} {IV : Interval I} {IL : IntervalLaws I} sels t w :
  hooks_ok t → inv t w →
  if (ping_interval t =? 0)%N then run I t sels None w = (Some None, w)
  else ∃ t' w', run I t sels None w = (Some (Some t'), w') ∧
    connection t' = None ∧ status t' = Status.Shutdown.
Proof.
  intros Hh Hi. rewrite run_started. unfold start_ticker.
  destruct (N.eqb_spec (ping_interval t) 0) as [->|Hp]; [by rewrite interval_zero|].
  destruct (interval_new (I:=I) (ping_interval t) (clock w)) as (i & -> & _); [lia|]. cbn [fmap option_fmap option_map].
  destruct (run_loop_turns sels t w Hh Hi) as (t1 & w1 & l & Hrun & _).
  unfold bind at 1. rewrite Hrun.
  destruct (timely_completes (let* t := take_and_quit t1 in let* t := set_status Status.Shutdown t in ret (Some t)) w1)
    as (r & w2 & Hrun2).
  enough (∃ t', r = Some t' ∧ connection t' = None ∧ status t' = Status.Shutdown) as (t' & -> & ? & ?) by eauto.
  by_wp Hrun2. apply wp_bind, wp_take_and_quit. intros w3 l3 _ _. apply wp_bind, wp_set_status.
  intros lp _. apply wp_ret. by eexists.
Qed.

End theorems.

(** ** Witnesses: runs against the scripted server *)

Import Toy TickerDemo.

(** Connects, serves a request, then reads a fatal error to a second one. *)
Definition demo_sels : list (Selected (W:=toy_wire)) :=
  [SelTick; SelCommand (CRequest (8, [42])%Z 1); SelCommand (CRequest (10, [1])%Z 2); SelCommand (CShutdown 3)].
Definition demo_server : list frame := Demo.accepting ++ [(9, []); (0, [3])]%Z.

Lemma demo_run :
  ∃ t' w', run_loop (Demo.task (Some Demo.cfg) Latch None) demo_sels None (Demo.world demo_server) = (Some t', w').
Proof.
  destruct (run_loop_turns demo_sels (Demo.task (Some Demo.cfg) Latch None) (Demo.world demo_server)) as (t' & w' & _ & ? & _);
    [apply Demo.hooks_none|apply Demo.task_inv|by exists t', w'].
Qed.

(** Every turn of a task ends. *)
Lemma demo_turn {E} {NE : Net toy_wire E} (t : ClientTask (W:=toy_wire)) sel w : hooks_ok t →
  ∃ t' w', handle t sel None w = (Some t', w').
Proof. intros Hh. exact (@timely_completes _ _ _ (handle t sel) (handle_timely sel t Hh) w). Qed.

Lemma run_loop_keeps_invariant_witness :
  ∃ t' w', run_loop (Demo.task (Some Demo.cfg) Latch None) demo_sels None (Demo.world demo_server) = (Some t', w') ∧
    inv t' w'.
Proof. apply run_loop_keeps_invariant; [apply Demo.hooks_none|apply Demo.task_inv]. Defined.

Lemma run_loop_refines_status_machine_witness :
  ∃ t' w', run_loop (Demo.task (Some Demo.cfg) Latch None) demo_sels None (Demo.world demo_server) = (Some t', w') ∧
    ∃ l, trace w' = trace (Demo.world demo_server) ++ l ∧ status_path Latch Status.Disconnected (statuses l) (status t').
Proof.
  destruct demo_run as (t' & w' & Hrun). exists t', w'. split; [exact Hrun|].
  exact (run_loop_refines_status_machine demo_sels _ _ t' w' (Demo.hooks_none _ _) (Demo.task_inv _ _ _ _) Hrun).
Defined.

Lemma run_loop_answers_in_order_witness :
  ∃ t' w', run_loop (Demo.task (Some Demo.cfg) Latch None) demo_sels None (Demo.world demo_server) = (Some t', w') ∧
    ∃ l, trace w' = trace (Demo.world demo_server) ++ l ∧ kinds (answers l) = [(1, true); (2, true); (3, false)]%N.
Proof.
  destruct demo_run as (t' & w' & Hrun). exists t', w'. split; [exact Hrun|].
  exact (run_loop_answers_in_order demo_sels _ _ t' w' (Demo.hooks_none _ _) (Demo.task_inv _ _ _ _) Hrun).
Defined.

(** The task after it was shut down. *)
Definition demo_down : ClientTask (W:=toy_wire) (NE:=Demo.demo_net) :=
  with_shutdown true (with_status Status.Shutdown (Demo.task (Some Demo.cfg) Latch None)).

Lemma shutdown_is_terminal_witness :
  run_loop demo_down demo_sels None (Demo.world []) =
    (Some demo_down, mkWorld 0 [] [EvReply 1 (Err Shutdown); EvReply 2 (Err Shutdown); EvShutdownAck 3]).
Proof. apply (shutdown_is_terminal demo_sels demo_down (Demo.world [])); by vm_compute. Defined.

(** The task after its credentials were rejected. *)
Definition demo_latched : ClientTask (W:=toy_wire) (NE:=Demo.demo_net) :=
  with_credentials_invalid true (with_status Status.InvalidCredentials (Demo.task (Some Demo.cfg) Latch None)).

Definition demo_polls : list (Selected (W:=toy_wire)) := [SelTick; SelCommand (CRequest (8, [42])%Z 1); SelTick].

Lemma latched_credentials_stay_latched_witness :
  run_loop demo_latched demo_polls None (Demo.world Demo.accepting) =
    (Some demo_latched, mkWorld 0 Demo.accepting [EvReply 1 (Err Disconnected)]).
Proof.
  apply (latched_credentials_stay_latched demo_polls demo_latched (Demo.world Demo.accepting)).
  - by repeat constructor.
  - by apply inv_no_connection.
  - done.
  - done.
Defined.

(** A task with a live connection on stream 7. *)
Definition demo_conn : Connection (W:=toy_wire) (NE:=Demo.demo_net) :=
  mkConnection (W:=toy_wire) (NE:=Demo.demo_net) 7%Z 5%Z 16777216.
Definition demo_live : ClientTask :=
  with_status (Status.Connected 5%Z) (with_connection (Some demo_conn) (Demo.task (Some Demo.cfg) Latch None)).
Definition demo_live_world (server : list frame) : CWorld toy_wire (list frame) :=
  mkWorld 10 server (attempt_events (W:=toy_wire) (NE:=Demo.demo_net) 7%Z (1, [3; 3])%Z (2, [3; 5])%Z
    (3, codes "client" ++ 0 :: codes "secret" ++ [0; 127])%Z (4, [])%Z).

Lemma demo_live_inv server : inv demo_live (demo_live_world server).
Proof.
  split; [done|]. intros c [= <-]. split_and!; [by vm_compute|done|]. exists Demo.cfg. split; [done|].
  exists [], (1, [3; 3])%Z, (2, [3; 5])%Z, (3, codes "client" ++ 0 :: codes "secret" ++ [0; 127])%Z, (4, [])%Z, [],
    127%Z, (mkServerHandshake (W:=toy_wire) 3%Z 5%Z), mkAuthenticationAccepted.
  split_and!; try done. apply not_elem_of_nil.
Qed.

Lemma request_outcome_witness :
  ∃ t' w', handle_command demo_live (CRequest (10, [1])%Z 2) None (demo_live_world [(0, [3])]%Z) = (Some t', w') ∧
    request_post demo_live demo_conn (10, [1])%Z 2 (trace (demo_live_world [(0, [3])]%Z)) t' w'.
Proof.
  destruct (demo_turn demo_live (SelCommand (CRequest (W:=toy_wire) (10, [1])%Z 2)) (demo_live_world [(0, [3])]%Z))
    as (t' & w' & Hrun); [by intros hook|]. exists t', w'. split; [exact Hrun|].
  exact (request_outcome demo_live demo_conn _ _ _ t' w' (demo_live_inv _) eq_refl Hrun).
Defined.

Lemma turn_time_bound_witness :
  ∃ t' w', handle (Demo.task (Some Demo.cfg) Latch (Some Demo.audio_hook)) SelTick None (Demo.world Demo.accepting) = (Some t', w') ∧
    (clock w' ≤ 0 + 121)%N.
Proof.
  destruct (demo_turn (Demo.task (Some Demo.cfg) Latch (Some Demo.audio_hook)) SelTick (Demo.world Demo.accepting))
    as (t' & w' & Hrun); [apply Demo.hooks_audio|]. exists t', w'. split; [exact Hrun|].
  exact (turn_time_bound (NE:=Demo.demo_net) 1 (λ _ _ _ _, N.le_refl 1) _ SelTick _ t' w' (Demo.hooks_audio _ _) Hrun).
Defined.

Lemma connected_only_after_handshake_witness :
  ∃ t' w', handle_tick (Demo.task (Some Demo.cfg) Latch (Some Demo.audio_hook)) None
      (Demo.world (Demo.accepting ++ [(11, [1; 2; 3])]%Z)) = (Some t', w') ∧
    bool_decide (is_Some (connection t')) = true ∧
    connected_post (Demo.task (Some Demo.cfg) Latch (Some Demo.audio_hook)) [] t' w'.
Proof.
  destruct (demo_turn (Demo.task (Some Demo.cfg) Latch (Some Demo.audio_hook)) SelTick
    (Demo.world (Demo.accepting ++ [(11, [1; 2; 3])]%Z))) as (t' & w' & Hrun); [apply Demo.hooks_audio|].
  exists t', w'. split; [exact Hrun|]. split.
  - transitivity (match (handle (Demo.task (Some Demo.cfg) Latch (Some Demo.audio_hook)) SelTick None
      (Demo.world (Demo.accepting ++ [(11, [1; 2; 3])]%Z))).1 with
      | Some t => bool_decide (is_Some (connection t)) | None => false end); [|vm_compute; reflexivity].
    by rewrite Hrun.
  - eapply (connected_only_after_handshake _ (Demo.world (Demo.accepting ++ [(11, [1; 2; 3])]%Z)));
      [apply Demo.hooks_audio|done|done|done|exact Hrun].
Defined.

Lemma configure_resets_witness :
  ∃ t' w', handle_command demo_live (Configure None) None (demo_live_world []) = (Some t', w') ∧
    status t' = Status.Unconfigured.
Proof.
  destruct (demo_turn demo_live (SelCommand (Configure None)) (demo_live_world [])) as (t' & w' & Hrun);
    [by intros hook|]. exists t', w'. split; [exact Hrun|].
  eapply (configure_resets None demo_live (demo_live_world [])); [done|exact Hrun].
Defined.

Lemma run_ends_in_shutdown_witness :
  ∃ t' w', run TickerDemo.ticker (Demo.task (Some Demo.cfg) Retry None) demo_sels None (Demo.world demo_server) = (Some (Some t'), w') ∧
    connection t' = None ∧ status t' = Status.Shutdown.
Proof.
  apply (run_ends_in_shutdown (I:=TickerDemo.ticker) demo_sels (Demo.task (Some Demo.cfg) Retry None));
    [apply Demo.hooks_none|apply Demo.task_inv].
Defined.
