(* ===== verification/TimedTask.v ===== *)
(** * The task's loop in time (src/src/client.rs, [ClientTask::run])

    [select!] waits for the next command or the next tick of the interval the task
    has set up. A timed turn of the loop says when it happens. *)

From S2P Require Import Prelude Async Protocol Request ClientData Connection ClientTask ClientInvariant Demo.

(** ** Timed turns *)

Section timed.
Context {W : Wire} {P : Protocol} {E : Type} {NE : Net W E} {I : Type} {IV : Interval I}.
Implicit Types t : ClientTask.
Implicit Types w : CWorld W E.

(** The loop between two turns. *)
Record Timed := mkTimed { t_task : ClientTask; t_world : CWorld W E; t_ticker : I }.

(** The start of [run]; [None] is a panic. *)
Definition timed_start t w : option Timed := mkTimed t w <$> start_ticker t (clock w).

(** Waiting until [now]; meanwhile the outside goes on. *)
Definition waited (now : N) (e : E) w : CWorld W E := mkWorld now e (trace w).

(** When the loop wakes up at the latest: at once, or when the tick is due. *)
Definition wakes s : N := N.max (clock (t_world s)) (due (t_ticker s)).

(** One round of [select!]: the branch taken and when. A command can be taken
    until the tick is due, and also afterwards, when both are ready. *)
Inductive timed_turn : Timed → Selected * N → Timed → Prop :=
| timed_command s c now e t w :
    (clock (t_world s) ≤ now ≤ wakes s)%N →
    handle (t_task s) (SelCommand c) None (waited now e (t_world s)) = (Some t, w) →
    timed_turn s (SelCommand c, now) (mkTimed t w (t_ticker s))
| timed_tick s e t w :
    handle (t_task s) SelTick None (waited (wakes s) e (t_world s)) = (Some t, w) →
    timed_turn s (SelTick, wakes s) (mkTimed t w (tick (wakes s) (t_ticker s))).

Inductive timed_run : Timed → list (Selected * N) → Timed → Prop :=
| timed_nil s : timed_run s [] s
| timed_cons s l s1 ls s' : timed_turn s l s1 → timed_run s1 ls s' → timed_run s (l :: ls) s'.

(** The times at which the loop ticked: pinged or tried to connect. *)
Definition tick_times (ls : list (Selected * N)) : list N :=
  omap (λ '(sel, now), if sel is SelTick then Some now else None) ls.

(** Consecutive elements are at least [gap] apart. *)
Fixpoint spaced (gap : N) (l : list N) : Prop :=
  match l with
  | x :: ((y :: _) as l') => (x + gap ≤ y)%N ∧ spaced gap l'
  | _ => True
  end.

Context {IL : IntervalLaws I}.

Lemma inv_waited now e t w : inv t w → inv t (waited now e w).
Proof. intros [H1 H2]. by split. Qed.

(** What a turn keeps. *)
Lemma timed_turn_spec s l s1 : hooks_ok (t_task s) → inv (t_task s) (t_world s) → timed_turn s l s1 →
  hooks_ok (t_task s1) ∧ inv (t_task s1) (t_world s1) ∧
  ping_interval (t_task s1) = ping_interval (t_task s) ∧
  (clock (t_world s) ≤ l.2 ≤ wakes s)%N ∧ (l.2 ≤ clock (t_world s1))%N.
Proof.
  intros Hh Hi Hturn.
  assert (∀ sel now e t w, handle (t_task s) sel None (waited now e (t_world s)) = (Some t, w) →
    hooks_ok t ∧ inv t w ∧ ping_interval t = ping_interval (t_task s) ∧ (now ≤ clock w)%N) as Hrun.
  { intros sel now e t w Hrun. pose proof (inv_waited now e _ _ Hi) as Hi'.
    pose proof (wp_run _ _ _ _ _ _ _ Hrun (wp_handle sel _ None _ Hh Hi')) as [Hi1 Hs1 _].
    split_and!; [by eapply same_setup_hooks|done|apply Hs1|].
    by destruct (handle_timely sel (t_task s) Hh None _ _ _ Hrun) as (? & _). }
  destruct Hturn as [s c now e t w Hnow Hr|s e t w Hr]; destruct (Hrun _ _ _ _ _ Hr) as (? & ? & ? & ?);
    split_and!; try done; simpl; unfold wakes in *; lia.
Qed.

(** The ticker [run] sets up: its period is the ping interval and late ticks delay
    the next ones. *)
Definition delays s : Prop :=
  period (t_ticker s) = ping_interval (t_task s) ∧ missed_tick_behavior (t_ticker s) = Delay.

Lemma timed_turn_delays s l s1 : hooks_ok (t_task s) → inv (t_task s) (t_world s) → timed_turn s l s1 →
  delays s → delays s1.
Proof.
  intros Hh Hi Hturn [Hp Hd]. destruct (timed_turn_spec _ _ _ Hh Hi Hturn) as (_ & _ & Hpi & _).
  unfold delays. rewrite Hpi. destruct Hturn as [s c now e t w Hnow Hr|s e t w Hr]; simpl; [done|].
  by destruct (tick_keeps (wakes s) (t_ticker s)) as [-> ->].
Qed.

Lemma start_ticker_some t now : (0 < ping_interval t)%N → ∃ i, start_ticker t now = Some i ∧
  period i = ping_interval t ∧ missed_tick_behavior i = Delay ∧ due i = now.
Proof.
  intros Hp. destruct (interval_new (ping_interval t) now Hp) as (i & Hi & Hpi & Hd & _).
  exists (set_missed_tick_behavior Delay i). unfold start_ticker. rewrite Hi.
  destruct (set_behavior Delay i) as (H1 & H2 & H3). split_and!; [done|congruence|done|congruence].
Qed.

(** When the next tick is due after one observed at the time the loop woke up. *)
Lemma next_due s : delays s →
  due (tick (wakes s) (t_ticker s)) =
    if (due (t_ticker s) + 5 <? wakes s)%N then (wakes s + ping_interval (t_task s))%N
    else (due (t_ticker s) + ping_interval (t_task s))%N.
Proof. intros [Hp Hd]. rewrite tick_due, Hp, Hd; [done|]. unfold wakes. lia. Qed.

(** No tick before the interval allows it. *)
Lemma ticks_from s ls s' : hooks_ok (t_task s) → inv (t_task s) (t_world s) → delays s → timed_run s ls s' →
  spaced (ping_interval (t_task s) - 5) (tick_times ls) ∧
  (∀ x, x ∈ tick_times ls → due (t_ticker s) ≤ x)%N ∧
  (∀ x, x ∈ tick_times ls → clock (t_world s) ≤ x)%N.
Proof.
  intros Hh Hi Hdel Hrun. revert Hh Hi Hdel. induction Hrun as [s|s l s1 ls s' Hturn _ IH]; intros Hh Hi Hdel.
  { split_and!; [done|..]; intros x Hx; by apply elem_of_nil in Hx. }
  destruct (timed_turn_spec _ _ _ Hh Hi Hturn) as (Hh1 & Hi1 & Hp & Hl & Hc).
  destruct (IH Hh1 Hi1 (timed_turn_delays _ _ _ Hh Hi Hturn Hdel)) as (IHs & IHd & IHc). rewrite Hp in IHs. clear IH.
  destruct Hturn as [s c now e t w Hnow Hr|s e t w Hr]; simpl in *.
  - split_and!; [done|done|]. intros x Hx. specialize (IHc x Hx). lia.
  - assert (due (t_ticker s) ≤ wakes s)%N as Hdue by (unfold wakes; lia).
    rewrite next_due in IHd by done. split_and!.
    + destruct (tick_times ls) as [|y l'] eqn:Hts; [done|]. split; [|done].
      specialize (IHd y ltac:(by left)). specialize (IHc y ltac:(by left)). destruct (N.ltb_spec (due (t_ticker s) + 5) (wakes s)); lia.
    + intros x [->|Hx]%elem_of_cons; [lia|]. specialize (IHd x Hx).
      destruct (N.ltb_spec (due (t_ticker s) + 5) (wakes s)); lia.
    + intros x [->|Hx]%elem_of_cons; [unfold wakes; lia|]. specialize (IHc x Hx). lia.
Qed.

Lemma timed_run_inv s ls s' : hooks_ok (t_task s) → inv (t_task s) (t_world s) → timed_run s ls s' →
  hooks_ok (t_task s') ∧ inv (t_task s') (t_world s') ∧ ping_interval (t_task s') = ping_interval (t_task s).
Proof.
  intros Hh Hi Hrun. revert Hh Hi. induction Hrun as [|s l s1 ls s' Hturn _ IH]; intros Hh Hi; [done|].
  destruct (timed_turn_spec _ _ _ Hh Hi Hturn) as (? & ? & <- & _). by apply IH.
Qed.

(** When the next tick is due: within a period of the last one. *)
Lemma due_after_run s ls s' : hooks_ok (t_task s) → inv (t_task s) (t_world s) → delays s → timed_run s ls s' →
  (due (t_ticker s) ≤ clock (t_world s) + ping_interval (t_task s))%N →
  (due (t_ticker s') ≤ clock (t_world s') + ping_interval (t_task s'))%N.
Proof.
  intros Hh Hi Hdel Hrun. revert Hh Hi Hdel. induction Hrun as [|s l s1 ls s' Hturn _ IH]; intros Hh Hi Hdel Hd; [done|].
  destruct (timed_turn_spec _ _ _ Hh Hi Hturn) as (Hh1 & Hi1 & Hp & Hl & Hc).
  apply IH; [done|done|by eapply (timed_turn_delays s)|]. rewrite Hp.
  destruct Hturn as [s c now e t w Hnow Hr|s e t w Hr]; simpl in *; [lia|].
  rewrite next_due by done.
  destruct (N.ltb_spec (due (t_ticker s) + 5) (wakes s)); unfold wakes in *; lia.
Qed.

(** A tick is always possible, and ends. *)
Lemma tick_turn_exists s : hooks_ok (t_task s) → ∃ s', timed_turn s (SelTick, wakes s) s'.
Proof.
  intros Hh. destruct (@timely_completes _ _ _ (handle (t_task s) SelTick) (handle_timely SelTick _ Hh)
    (waited (wakes s) (env (t_world s)) (t_world s))) as (t' & w' & Hr).
  eexists. by eapply timed_tick.
Qed.

(** C19: for a task with a ping interval other than zero, whatever the load and
    however long turns take, pings and connection attempts are paced: consecutive
    ones start at least a ping interval apart (less the five milliseconds of
    tolerance of the timer), so delayed ticks never burst. Nor does the loop sleep
    for longer: at every point of every run the next tick is due within a ping
    interval, for a fresh task at once, and a tick turn exists there and ends. The
    invariant holds throughout. *)
Theorem ticks_are_paced t w :
  hooks_ok t → inv t w → (0 < ping_interval t)%N →
  ∃ s0, timed_start t w = Some s0 ∧ ∀ ls s, timed_run s0 ls s →
    spaced (ping_interval t - 5) (tick_times ls) ∧ inv (t_task s) (t_world s) ∧
    (wakes s ≤ clock (t_world s) + ping_interval t)%N ∧
    (ls = [] → wakes s = clock w) ∧
    ∃ s', timed_turn s (SelTick, wakes s) s'.
Proof.
  intros Hh Hi Hpos. destruct (start_ticker_some t (clock w) Hpos) as (i & Hst & Hper & Hbeh & Hdue).
  exists (mkTimed t w i). split; [by unfold timed_start; rewrite Hst|]. intros ls s Hrun.
  assert (delays (mkTimed t w i)) as Hdel by done.
  destruct (timed_run_inv (mkTimed t w i) ls s Hh Hi Hrun) as (Hh' & Hi' & Hp). simpl in Hp.
  split_and!.
  - by destruct (ticks_from (mkTimed t w i) ls s Hh Hi Hdel Hrun) as (? & _).
  - done.
  - pose proof (due_after_run (mkTimed t w i) ls s Hh Hi Hdel Hrun) as Hd. simpl in Hd. rewrite Hdue, Hp in Hd.
    unfold wakes. lia.
  - intros ->. inversion Hrun; subst. unfold wakes. simpl. rewrite Hdue. lia.
  - by apply tick_turn_exists.
Qed.

End timed.

(** ** Witnesses *)

Import Toy TickerDemo.



(** A configured task that ticks every three seconds. *)
Definition paced_task : ClientTask (W:=toy_wire) (NE:=Demo.demo_net) :=
  mkClientTask (W:=toy_wire) (NE:=Demo.demo_net) tt (Some Demo.cfg) None Status.Disconnected 3000 60000
    (mkConnectOptions 5000 16777216) Latch None false false.

Lemma paced_hooks : hooks_ok paced_task.
Proof. by intros hook. Qed.

Lemma paced_inv : inv paced_task (Demo.world Demo.accepting).
Proof. by apply inv_no_connection. Qed.

Abbreviation DemoTimed := (Timed (W:=toy_wire) (E:=list frame) (NE:=Demo.demo_net) (I:=ticker)).

(** The loop at its start: a tick is due at once. *)
Definition demo_timed : DemoTimed :=
  mkTimed paced_task (Demo.world Demo.accepting) (mkTicker 3000 Delay 0).

(** Two ticks: connecting, then pinging into a closed stream. *)
Lemma demo_ticks : ∃ s1 s2 : DemoTimed,
  timed_run demo_timed [(SelTick, wakes demo_timed); (SelTick, wakes s1)] s2.
Proof.
  destruct (tick_turn_exists demo_timed) as [s1 H1]; [apply paced_hooks|].
  destruct (timed_turn_spec demo_timed _ _ paced_hooks paced_inv H1) as (Hh & _).
  destruct (tick_turn_exists s1 Hh) as [s2 H2]. exists s1, s2.
  eapply timed_cons; [exact H1|]. eapply timed_cons; [exact H2|apply timed_nil].
Qed.

Lemma ticks_are_paced_witness :
  timed_start (I:=ticker) paced_task (Demo.world Demo.accepting) = Some demo_timed ∧
  ∃ n : N, spaced 2995 [wakes demo_timed; n].
Proof.
  split; [reflexivity|]. destruct demo_ticks as (s1 & s2 & Hrun). exists (wakes s1).
  destruct (ticks_are_paced (I:=ticker) paced_task (Demo.world Demo.accepting) paced_hooks paced_inv eq_refl)
    as (s0 & Hs0 & Hall). injection Hs0 as <-.
  exact (proj1 (Hall _ s2 Hrun)).
Defined.
