(* ===== verification/Tls.v ===== *)
(** * TLS connector construction (src/src/tls.rs)

    The crates [rustls] and [rustls-platform-verifier] are a parameter: the
    stages of their configuration builder and the verification primitives. *)

From S2P Require Import Prelude.

(** What a certificate verifier decides; [ServerCert] stands for the arguments
    of [verify_server_cert], [Signed] for those of a signature check. *)
Record ServerCertVerifier (ServerCert Signed Scheme Error : Type) := mkVerifier {
  verify_server_cert : ServerCert → Result unit Error;
  verify_tls12_signature : Signed → Result unit Error;
  verify_tls13_signature : Signed → Result unit Error;
  supported_verify_schemes : list Scheme
}.
Arguments mkVerifier {_ _ _ _}.
Arguments verify_server_cert {_ _ _ _}.
Arguments verify_tls12_signature {_ _ _ _}.
Arguments verify_tls13_signature {_ _ _ _}.
Arguments supported_verify_schemes {_ _ _ _}.

Class Rustls (Connector : Type) := {
  CryptoProvider : Type;
  RustlsError : Type;
  ServerCert : Type;
  Signed : Type;
  Scheme : Type;
  WantsVersions : Type;
  WantsVerifier : Type;
  WantsClientCert : Type;
  get_default : option CryptoProvider;
  aws_lc_rs_default_provider : CryptoProvider;
  (** The free functions of [rustls::crypto] with the algorithms of a provider. *)
  crypto_verify_tls12 : CryptoProvider → Signed → Result unit RustlsError;
  crypto_verify_tls13 : CryptoProvider → Signed → Result unit RustlsError;
  supported_schemes : CryptoProvider → list Scheme;
  builder_with_provider : CryptoProvider → WantsVersions;
  with_safe_default_protocol_versions : WantsVersions → Result WantsVerifier RustlsError;
  with_platform_verifier : WantsVerifier → Result WantsClientCert RustlsError;
  with_custom_certificate_verifier :
    ServerCertVerifier ServerCert Signed Scheme RustlsError → WantsVerifier → WantsClientCert;
  (** [TlsConnector::from(Arc::new(_.with_no_client_auth()))] *)
  connector_of : WantsClientCert → Connector
}.

(** [enum RootCertSource] *)
Inductive RootCertSource := Platform | DangerousDisabled.

Section tls.
Context {Connector : Type} {RU : Rustls Connector}.

(** [enum TlsError] *)
Inductive TlsError := TlsRustls (e : RustlsError).

(** [fn default_provider] *)
Definition default_provider : CryptoProvider :=
  match get_default with Some provider => provider | None => aws_lc_rs_default_provider end.

(** [impl ServerCertVerifier for SkipCertificateVerification] *)
Definition SkipCertificateVerification (provider : CryptoProvider) :
  ServerCertVerifier ServerCert Signed Scheme RustlsError :=
  mkVerifier (λ _, Ok tt) (crypto_verify_tls12 provider) (crypto_verify_tls13 provider)
    (supported_schemes provider).

(** [fn create_connector] *)
Definition create_connector (source : RootCertSource) : Result Connector TlsError :=
  match source with
  | Platform =>
      match with_safe_default_protocol_versions (builder_with_provider default_provider) with
      | Err e => Err (TlsRustls e)
      | Ok b =>
          match with_platform_verifier b with
          | Err e => Err (TlsRustls e)
          | Ok b => Ok (connector_of b)
          end
      end
  | DangerousDisabled =>
      let provider := default_provider in
      match with_safe_default_protocol_versions (builder_with_provider provider) with
      | Err e => Err (TlsRustls e)
      | Ok b => Ok (connector_of (with_custom_certificate_verifier (SkipCertificateVerification provider) b))
      end
  end.

(** How a connector verifies servers: [None] for the platform's verifier. What
    the builder stages document. *)
Class RustlsLaws := {
  verifier_of : Connector → option (ServerCertVerifier ServerCert Signed Scheme RustlsError);
  verifier_platform b b' : with_platform_verifier b = Ok b' → verifier_of (connector_of b') = None;
  verifier_custom v b : verifier_of (connector_of (with_custom_certificate_verifier v b)) = Some v
}.

Lemma create_connector_verifier {RL : RustlsLaws} source c : create_connector source = Ok c →
  verifier_of c = match source with
    | Platform => None
    | DangerousDisabled => Some (SkipCertificateVerification default_provider)
    end.
Proof.
  destruct source; simpl; destruct (with_safe_default_protocol_versions _) as [b|]; try done.
  - destruct (with_platform_verifier b) as [b'|] eqn:Hb; [|done]. intros [= <-]. by eapply verifier_platform.
  - intros [= <-]. apply verifier_custom.
Qed.

End tls.

Arguments TlsError Connector {_}.
Arguments RustlsLaws Connector {_}.
