(* ===== verification/ClientSystem.v ===== *)
(** * The client: handles, command channel and task together (src/src/client.rs)

    [BloopClientBuilder] and the operations of [BloopClient], and the system of
    all callers, the bounded channel of commands, and the connection task, as a
    step relation. *)

From stdpp Require Import relations.
From S2P Require Import Prelude Async Protocol Request ClientData Connection ClientTask ClientInvariant Tls.

(** ** The builder *)

Section builder.
Context {W : Wire} {P : Protocol} {E : Type} {NE : Net W E}.
Context {RU : Rustls TlsConnector}.

(** [struct BloopClientBuilder]; durations in milliseconds. *)
Record BloopClientBuilder := mkBuilder {
  b_config : option ConnectionConfig;
  b_root_cert_source : RootCertSource;
  b_ping_interval : N;
  b_io_timeout : N;
  b_request_timeout : N;
  b_max_payload_len : Z;
  b_invalid_credentials_policy : InvalidCredentialsPolicy;
  b_on_connect : option OnConnectFn
}.

(** [BloopClientBuilder::new]; [Platform] and [Latch] are the defaults. *)
Definition builder_new : BloopClientBuilder :=
  mkBuilder None Platform 3000 5000 60000 (16 * 1024 * 1024) Latch None.

(** The setters. *)
Definition builder_config (c : ConnectionConfig) (b : BloopClientBuilder) : BloopClientBuilder :=
  mkBuilder (Some c) (b_root_cert_source b) (b_ping_interval b) (b_io_timeout b) (b_request_timeout b)
    (b_max_payload_len b) (b_invalid_credentials_policy b) (b_on_connect b).
Definition builder_root_cert_source (x : RootCertSource) (b : BloopClientBuilder) : BloopClientBuilder :=
  mkBuilder (b_config b) x (b_ping_interval b) (b_io_timeout b) (b_request_timeout b)
    (b_max_payload_len b) (b_invalid_credentials_policy b) (b_on_connect b).
Definition builder_ping_interval (x : N) (b : BloopClientBuilder) : BloopClientBuilder :=
  mkBuilder (b_config b) (b_root_cert_source b) x (b_io_timeout b) (b_request_timeout b)
    (b_max_payload_len b) (b_invalid_credentials_policy b) (b_on_connect b).
Definition builder_io_timeout (x : N) (b : BloopClientBuilder) : BloopClientBuilder :=
  mkBuilder (b_config b) (b_root_cert_source b) (b_ping_interval b) x (b_request_timeout b)
    (b_max_payload_len b) (b_invalid_credentials_policy b) (b_on_connect b).
Definition builder_request_timeout (x : N) (b : BloopClientBuilder) : BloopClientBuilder :=
  mkBuilder (b_config b) (b_root_cert_source b) (b_ping_interval b) (b_io_timeout b) x
    (b_max_payload_len b) (b_invalid_credentials_policy b) (b_on_connect b).
Definition builder_max_payload_len (x : Z) (b : BloopClientBuilder) : BloopClientBuilder :=
  mkBuilder (b_config b) (b_root_cert_source b) (b_ping_interval b) (b_io_timeout b) (b_request_timeout b)
    x (b_invalid_credentials_policy b) (b_on_connect b).
Definition builder_invalid_credentials_policy (x : InvalidCredentialsPolicy) (b : BloopClientBuilder) : BloopClientBuilder :=
  mkBuilder (b_config b) (b_root_cert_source b) (b_ping_interval b) (b_io_timeout b) (b_request_timeout b)
    (b_max_payload_len b) x (b_on_connect b).
Definition builder_on_connect (hook : OnConnectFn) (b : BloopClientBuilder) : BloopClientBuilder :=
  mkBuilder (b_config b) (b_root_cert_source b) (b_ping_interval b) (b_io_timeout b) (b_request_timeout b)
    (b_max_payload_len b) (b_invalid_credentials_policy b) (Some hook).

(** [struct BloopClient], without the channel ends. *)
Record BloopClient := mkClient { client_request_timeout : N }.

(** [BloopClientBuilder::build]: the handle, and the task that is spawned. *)
Definition build (b : BloopClientBuilder) : Result (BloopClient * ClientTask) (TlsError TlsConnector) :=
  match create_connector (b_root_cert_source b) with
  | Err e => Err e
  | Ok connector =>
      let initial_status :=
        if b_config b is Some _ then Status.Disconnected else Status.Unconfigured in
      let task := mkClientTask connector (b_config b) None initial_status (b_ping_interval b)
        (b_request_timeout b) (mkConnectOptions (b_io_timeout b) (b_max_payload_len b))
        (b_invalid_credentials_policy b) (b_on_connect b) false false in
      Ok (mkClient (b_request_timeout b), task)
  end.

End builder.

(** ** The operations of a handle *)

Section api.
Context {W : Wire} {P : Protocol}.

(** What becomes of a request handed to the channel: the channel is closed, no
    room within the timeout, or the response channel's outcome ([None]: the
    sender was dropped). *)
Inductive Sent :=
| SentClosed
| SentTimeout
| Delivered (o : option (Result RawMessage RequestError)).

(** [BloopClient::send_request] *)
Definition send_request (s : Sent) : Result RawMessage RequestError :=
  match s with
  | SentClosed => Err Shutdown
  | SentTimeout => Err Disconnected
  | Delivered (Some r) => r
  | Delivered None => Err Shutdown
  end.

(** An operation sees the system as the fate of the one request it sends. *)
Context (exchange : RawMessage → Sent).

Definition roundtrip {T} {PT : Payload T} (message : T) : Result RawMessage RequestError :=
  match encode_message message with
  | Err e => Err (Encode e)
  | Ok raw => send_request (exchange raw)
  end.

Definition and_then {A B F} (r : Result A F) (k : A → Result B F) : Result B F :=
  match r with Ok a => k a | Err e => Err e end.

(** [BloopClient::bloop] *)
Definition bloop (uid : NfcUid) : Result (list AchievementRecord) RequestError :=
  and_then (roundtrip (mkBloop uid)) (λ raw, map_ok accepted_achievements (decode_response BloopAccepted raw)).

(** [BloopClient::retrieve_audio] *)
Definition retrieve_audio (id : Uuid) : Result (list Z) RequestError :=
  and_then (roundtrip (mkRetrieveAudio id)) (λ raw, map_ok audio_bytes (decode_response AudioData raw)).

(** [enum PreloadOutcome] *)
Inductive PreloadOutcome :=
| Match
| Mismatch (audio_manifest_hash : DataHash) (achievements : list AchievementRecord).

(** [BloopClient::preload_check] *)
Definition preload_check (hash : option DataHash) : Result PreloadOutcome RequestError :=
  and_then (roundtrip (mkPreloadCheck hash)) (λ raw,
    if bool_decide (message_type raw = OPCODE PreloadMatch) then
      and_then (decode_response PreloadMatch raw) (λ _, Ok Match)
    else
      map_ok (λ m, Mismatch (mismatch_manifest_hash m) (mismatch_achievements m))
        (decode_response PreloadMismatch raw)).

(** [BloopClient::custom] *)
Definition custom {T} {RT : Request T} (message : T) : Result Response RequestError :=
  and_then (roundtrip message) (λ raw, decode_response Response raw).

(** [BloopClient::request_raw] *)
Definition client_request_raw (message : RawMessage) : Result RawMessage RequestError :=
  send_request (exchange message).

(** [BloopClient::configure]; [sent] is whether the channel took the command. *)
Definition configure (sent : bool) : Result unit RequestError :=
  if sent then Ok tt else Err Shutdown.

End api.

(** ** The system *)

Section system.
Context {W : Wire} {P : Protocol} {E : Type} {NE : Net W E}.

(** What an operation returns. *)
Inductive Returned :=
| RetRequest (r : Result RawMessage RequestError)
| RetConfigure (r : Result unit RequestError)
| RetShutdown.

(** The life of one operation: putting its command into the channel, waiting
    for the response, returned, or its future dropped. *)
Inductive Caller :=
| Sending (c : Command)
| Waiting (c : Command)
| Answered (a : Returned)
| Gone.

(** The response sender a command carries. *)
Definition owner (c : Command) : option N :=
  match c with CRequest _ id | CShutdown id => Some id | Configure _ => None end.

Definition owners (q : list Command) : list N := omap owner q.

(** [accepted] and [served] record the commands that entered and left the channel. *)
Record Sys := mkSys {
  queue : list Command;
  alive : bool;
  task : ClientTask;
  world : CWorld W E;
  callers : gmap N Caller;
  accepted : list Command;
  served : list Command
}.

(** [mpsc::channel(16)] *)
Definition capacity : nat := 16.

(** What an operation returns when the channel is closed. *)
Definition closed_return (c : Command) : Returned :=
  match c with
  | CRequest _ _ => RetRequest (send_request SentClosed)
  | Configure _ => RetConfigure (configure false)
  | CShutdown _ => RetShutdown
  end.

(** A response arrives at its caller, if that still waits. *)
Definition deliver1 (m : gmap N Caller) (a : N * option (Result RawMessage RequestError)) : gmap N Caller :=
  match m !! a.1 with
  | Some (Waiting _) =>
      <[a.1 := Answered (match a.2 with
                         | Some r => RetRequest (send_request (Delivered (Some r)))
                         | None => RetShutdown
                         end)]> m
  | _ => m
  end.

Definition deliver (l : list (Event W E)) (m : gmap N Caller) : gmap N Caller :=
  fold_left deliver1 (answers l) m.

(** The task is gone, and with it the response senders in the channel. *)
Definition abandon (c : Caller) : Caller :=
  match c with
  | Waiting (CRequest _ _) => Answered (RetRequest (send_request (Delivered None)))
  | Waiting (CShutdown _) => Answered RetShutdown
  | c => c
  end.

Definition set_callers (m : gmap N Caller) (s : Sys) : Sys :=
  mkSys (queue s) (alive s) (task s) (world s) m (accepted s) (served s).

(** One turn of the task, seen by the callers. *)
Definition after_turn (q done_ : list Command) (t : ClientTask) (w : CWorld W E) (s : Sys) : Sys :=
  mkSys q (alive s) t w (deliver (drop (length (trace (world s))) (trace w)) (callers s))
    (accepted s) (served s ++ done_).

(** The task got past the creation of its ticker, which panics on a ping interval
    of zero, and serves its loop. *)
Definition serving (s : Sys) : Prop := alive s = true ∧ (0 < ping_interval (task s))%N.

(** [BloopClient::configure], [shutdown] and [send_request] in pieces, and the
    turns of the task. In [step_gone] the task is lost: it panicked, or its runtime
    was shut down. *)
Inductive step : Sys → Sys → Prop :=
| step_call s id c :
    callers s !! id = None → owner c = Some id ∨ owner c = None →
    step s (set_callers (<[id := Sending c]> (callers s)) s)
| step_enqueue s id c :
    callers s !! id = Some (Sending c) → alive s = true → (length (queue s) < capacity)%nat →
    step s (mkSys (queue s ++ [c]) true (task s) (world s)
      (<[id := if owner c is Some _ then Waiting c else Answered (RetConfigure (configure true))]> (callers s))
      (accepted s ++ [c]) (served s))
| step_send_timeout s id m i :
    callers s !! id = Some (Sending (CRequest m i)) →
    step s (set_callers (<[id := Answered (RetRequest (send_request SentTimeout))]> (callers s)) s)
| step_shutdown_timeout s id i :
    callers s !! id = Some (Sending (CShutdown i)) ∨ callers s !! id = Some (Waiting (CShutdown i)) →
    step s (set_callers (<[id := Answered RetShutdown]> (callers s)) s)
| step_closed s id c :
    callers s !! id = Some (Sending c) → alive s = false →
    step s (set_callers (<[id := Answered (closed_return c)]> (callers s)) s)
| step_drop s id c :
    callers s !! id = Some (Sending c) ∨ callers s !! id = Some (Waiting c) →
    step s (set_callers (<[id := Gone]> (callers s)) s)
| step_command s c q t w :
    serving s → queue s = c :: q → handle (task s) (SelCommand c) None (world s) = (Some t, w) →
    step s (after_turn q [c] t w s)
| step_tick s t w :
    serving s → handle (task s) SelTick None (world s) = (Some t, w) →
    step s (after_turn (queue s) [] t w s)
| step_gone s :
    alive s = true →
    step s (mkSys [] false (task s) (world s) (abandon <$> callers s) (accepted s) (served s)).

(** A freshly built client. *)
Definition sys_init (t : ClientTask) (e : E) (now : N) : Sys := mkSys [] true t (mkWorld now e []) ∅ [] [].

(** The turns of the task alone: a tick, or the command at the head of the channel
    if there is one. *)
Definition task_turn (s : Sys) (ticks : bool) : Sys :=
  if ticks then
    match handle (task s) SelTick None (world s) with
    | (Some t, w) => after_turn (queue s) [] t w s
    | (None, _) => s
    end
  else
    match queue s with
    | [] => s
    | c :: q =>
        match handle (task s) (SelCommand c) None (world s) with
        | (Some t, w) => after_turn q [c] t w s
        | (None, _) => s
        end
    end.

Definition task_turns (s : Sys) (turns : list bool) : Sys := fold_left task_turn turns s.

End system.

Arguments Sys W E {NE}.
Arguments Caller : clear implicits.
