(* ===== verification/ClientSystemTheorems.v ===== *)
(** * Theorems about the client system

    From a freshly built client, whatever the callers, the server and the
    network do: nobody waits in vain, commands are served first-in first-out,
    and each caller gets the response to its own request. *)

From stdpp Require Import relations.
From S2P Require Import Prelude Async Protocol Request ClientData Connection ClientTask ClientInvariant Demo ClientTheorems Tls ClientSystem.

Section system.
Context {W : Wire} {P : Protocol} {E : Type} {NE : Net W E}.
Implicit Types s : Sys W E.
Implicit Types c : Command.

(** The answers a sequence of commands owes. *)
Definition owed_by (cs : list Command) : list (N * bool) :=
  omap (λ c, match c with
    | CRequest _ id => Some (id, true) | CShutdown id => Some (id, false) | Configure _ => None
    end) cs.

Definition answer_kinds (a : list (N * option (Result RawMessage RequestError))) : list (N * bool) :=
  (λ '(id, r), (id, bool_decide (is_Some r))) <$> a.

(** [raw] was read in answer to [m] and then handed to the caller [id]. *)
Definition exchanged (m : RawMessage) (id : N) (raw : RawMessage) (tr : list (Event W E)) : Prop :=
  ∃ l1 (st : Stream) max l2 l3,
    tr = l1 ++ [EvWrite st m (Some (Ok tt)); EvRead st max (Some (Ok raw))] ++ l2 ++ EvReply id (Ok raw) :: l3 ∧
    (l2 = [] ∨ l2 = [EvStatus Status.Disconnected]).

(** What a request returned, and why: the task's answer to that very caller, or
    no room in the channel in time, or the task is gone. *)
Definition returned s (id : N) (r : Result RawMessage RequestError) : Prop :=
  EvReply id r ∈ trace (world s) ∨
  r = Err Disconnected ∧ id ∉ owners (accepted s) ∨
  alive s = false ∧ r = Err Shutdown ∧ id ∉ owners (served s).

Record sys_inv s : Prop := {
  si_inv : inv (task s) (world s);
  si_hooks : hooks_ok (task s);
  si_capacity : (length (queue s) ≤ capacity)%nat;
  si_dead : alive s = false → queue s = [];
  si_nodup : NoDup (owners (accepted s));
  si_waiting id c : callers s !! id = Some (Waiting c) → owner c = Some id ∧ c ∈ queue s;
  si_sending id c : callers s !! id = Some (Sending c) →
    (owner c = Some id ∨ owner c = None) ∧ id ∉ owners (accepted s);
  si_known id : id ∈ owners (accepted s) → is_Some (callers s !! id);
  si_fifo : ∃ lost, accepted s = served s ++ queue s ++ lost ∧ (alive s = true → lost = []);
  si_answers : answer_kinds (answers (trace (world s))) = owed_by (served s);
  si_exchanged id raw : EvReply id (Ok raw) ∈ trace (world s) →
    ∃ m, CRequest m id ∈ served s ∧ exchanged m id raw (trace (world s));
  si_returned id r : callers s !! id = Some (Answered (RetRequest r)) → returned s id r
}.

Lemma owners_elem id q : id ∈ owners q ↔ ∃ c, c ∈ q ∧ owner c = Some id.
Proof. apply list_elem_of_omap. Qed.

Lemma owners_app q1 q2 : owners (q1 ++ q2) = owners q1 ++ owners q2.
Proof. apply omap_app. Qed.

(** Two commands of one owner in a channel without duplicate owners are the same. *)
Lemma owners_inj q c c' id : NoDup (owners q) → c ∈ q → c' ∈ q →
  owner c = Some id → owner c' = Some id → c = c'.
Proof.
  intros Hnd Hc Hc' Ho Ho'. apply list_elem_of_split in Hc as (l1 & l2 & ->).
  rewrite owners_app in Hnd. unfold owners in Hnd at 2. simpl in Hnd. rewrite Ho in Hnd.
  assert ((id ∉ owners l1) ∧ (id ∉ owners l2)) as [H1 H2].
  { apply NoDup_app in Hnd as (_ & Hx & Hy). apply NoDup_cons in Hy as [Hy _].
    split; [|done]. intros Hin. apply (Hx id Hin). by left. }
  rewrite owners_elem in H1, H2. apply elem_of_app in Hc' as [?|[->|?]%elem_of_cons]; [|done|]; naive_solver.
Qed.

(** No command is both served and still in the channel. *)
Lemma served_not_queued s id : sys_inv s → id ∈ owners (served s) → id ∉ owners (queue s).
Proof.
  intros [] Hs Hq. destruct si_fifo0 as (lost & Hf & _). rewrite Hf, !owners_app in si_nodup0.
  apply NoDup_app in si_nodup0 as (_ & Hx & _). apply (Hx id Hs). apply elem_of_app. by left.
Qed.

Lemma queued_accepted s id : sys_inv s → id ∈ owners (queue s) → id ∈ owners (accepted s).
Proof.
  intros [] Hq. destruct si_fifo0 as (lost & -> & _). rewrite !owners_app, !elem_of_app. auto.
Qed.

Lemma served_accepted s id : sys_inv s → id ∈ owners (served s) → id ∈ owners (accepted s).
Proof. intros [] Hq. destruct si_fifo0 as (lost & -> & _). rewrite !owners_app, !elem_of_app. auto. Qed.

Lemma sys_inv_init t e now : hooks_ok t → inv t (mkWorld now e []) → sys_inv (sys_init t e now).
Proof.
  intros Hh Hi. split; simpl; try done.
  - unfold capacity. lia.
  - apply NoDup_nil_2.
  - intros id Hin. by apply elem_of_nil in Hin.
  - by exists [].
  - intros id raw Hin. by apply elem_of_nil in Hin.
Qed.

(** Changing the state of one caller to one that neither sends nor waits. *)
Lemma sys_inv_settle s id x a : sys_inv s → callers s !! id = Some x →
  (∀ c, a ≠ Sending c) → (∀ c, a ≠ Waiting c) → (∀ r, a = Answered (RetRequest r) → returned s id r) →
  sys_inv (set_callers (<[id := a]> (callers s)) s).
Proof.
  intros [] Hx Hns Hnw Ha. split; simpl; try done.
  - intros id' c. rewrite lookup_insert. case_decide; [naive_solver|auto].
  - intros id' c. rewrite lookup_insert. case_decide; [naive_solver|auto].
  - intros id' Hin. rewrite lookup_insert. case_decide; eauto.
  - intros id' r. rewrite lookup_insert. case_decide as Heq; [subst id'; intros [= ->]; by apply Ha|apply si_returned0].
Qed.

(** An operation whose command was not accepted. *)
Lemma sys_inv_refused s id c a : sys_inv s → callers s !! id = Some (Sending c) →
  (a = Answered (RetRequest (Err Disconnected)) ∨ alive s = false ∧ a = Answered (RetRequest (Err Shutdown)) ∨
    ∃ r, a = Answered (RetConfigure r)) →
  sys_inv (set_callers (<[id := a]> (callers s)) s).
Proof.
  intros Hs Hid Ha. destruct (si_sending _ Hs _ _ Hid) as [_ Hn].
  eapply sys_inv_settle; [done|done|naive_solver..|]. intros r ->. unfold returned.
  destruct Ha as [[= ->]|[[? [= ->]]|[? ?]]]; [auto| |done].
  right; right. split_and!; [done..|]. by intros Hin%served_accepted.
Qed.

Lemma sys_inv_call s id c : sys_inv s → callers s !! id = None → owner c = Some id ∨ owner c = None →
  sys_inv (set_callers (<[id := Sending c]> (callers s)) s).
Proof.
  intros [] Hid Hc. split; simpl; try done.
  - intros id' c'. rewrite lookup_insert. case_decide; [naive_solver|auto].
  - intros id' c'. rewrite lookup_insert. case_decide as Heq; [|auto]. subst id'. intros [= <-]. split; [done|].
    intros Hin. destruct (si_known0 _ Hin) as [? ?]. congruence.
  - intros id' Hin. rewrite lookup_insert. case_decide; eauto.
  - intros id' r. rewrite lookup_insert. case_decide; [naive_solver|apply si_returned0].
Qed.

Lemma sys_inv_enqueue s id c :
  sys_inv s → callers s !! id = Some (Sending c) → alive s = true → (length (queue s) < capacity)%nat →
  sys_inv (mkSys (queue s ++ [c]) true (task s) (world s)
    (<[id := if owner c is Some _ then Waiting c else Answered (RetConfigure (configure true))]> (callers s))
    (accepted s ++ [c]) (served s)).
Proof.
  intros [] Hid Hal Hroom. destruct (si_sending0 _ _ Hid) as [Hown Hnot].
  assert (∀ id', id' ∈ owners (accepted s ++ [c]) ↔ id' ∈ owners (accepted s) ∨ owner c = Some id') as Hown'.
  { intros id'. rewrite !owners_elem. setoid_rewrite elem_of_app. setoid_rewrite list_elem_of_singleton. naive_solver. }
  split; simpl; try done.
  - rewrite length_app. simpl. lia.
  - unfold owners in *. rewrite omap_app. apply NoDup_app. split_and!; [done| |].
    + intros x Hx (c' & ->%list_elem_of_singleton & Hc')%list_elem_of_omap. destruct Hown; naive_solver.
    + simpl. destruct (owner c); [apply NoDup_singleton|constructor].
  - intros id' c'. rewrite lookup_insert. case_decide as Heq.
    + subst id'. destruct (owner c) eqn:Ho; intros [= <-]. split; [naive_solver|]. set_solver.
    + intros Hw. destruct (si_waiting0 _ _ Hw). set_solver.
  - intros id' c'. rewrite lookup_insert. case_decide as Heq.
    + by destruct (owner c).
    + intros Hs. destruct (si_sending0 _ _ Hs) as [? Hn]. split; [done|]. rewrite Hown'. naive_solver.
  - intros id' Hin. rewrite lookup_insert. case_decide as Heq; [eauto|].
    apply Hown' in Hin as [Hin|Hin]; [by apply si_known0|]. naive_solver.
  - destruct si_fifo0 as (lost & Hf & Hl). exists []. rewrite Hf, (Hl Hal), !app_nil_r. by rewrite app_assoc.
  - intros id' r. rewrite lookup_insert. case_decide as Heq; [by destruct (owner c)|].
    intros Hr. unfold returned. simpl. rewrite Hown'.
    destruct (si_returned0 _ _ Hr) as [?|[[? ?]|[? ?]]]; [auto| |congruence]. right; left. naive_solver.
Qed.

(** Delivering one answer. *)
Lemma deliver1_lookup (m : gmap N (Caller W)) id o id' :
  deliver1 m (id, o) !! id' =
    if decide (id' = id)
    then match m !! id with
         | Some (Waiting _) => Some (Answered (match o with Some r => RetRequest r | None => RetShutdown end))
         | x => x
         end
    else m !! id'.
Proof.
  unfold deliver1. cbn [fst snd]. case_decide as Heq.
  - subst id'. destruct (m !! id) as [[]|] eqn:Hm; rewrite ?lookup_insert_eq, ?Hm; by destruct o.
  - destruct (m !! id) as [[]|]; try done. by rewrite lookup_insert_ne.
Qed.

Lemma exchanged_app m id raw l1 l2 : exchanged m id raw l2 → exchanged m id raw (l1 ++ l2).
Proof.
  intros (k1 & s & max & k2 & k3 & -> & H). exists (l1 ++ k1), s, max, k2, k3. by rewrite <-app_assoc.
Qed.

Lemma exchanged_snoc m id raw l1 l2 : exchanged m id raw l1 → exchanged m id raw (l1 ++ l2).
Proof.
  intros (k1 & s & max & k2 & k3 & -> & H). exists k1, s, max, k2, (k3 ++ l2). split; [|done].
  by rewrite <-!app_assoc.
Qed.

(** A frame is handed to a caller only as the answer to its message. *)
Lemma request_exchanged t m id w t' w' l raw :
  inv t w → handle_command t (CRequest m id) None w = (Some t', w') →
  trace w' = trace w ++ l → EvReply id (Ok raw) ∈ l → exchanged m id raw l.
Proof.
  intros Hi Hrun Ht Hin. destruct (connection t) as [c|] eqn:Hc.
  - destruct (run_request _ _ _ _ _ _ _ Hi Hc Hrun) as [(raw' & Hp)|(l' & Hl & _ & _ & Hp)]; cycle 1.
    { rewrite Ht in Hp. apply (inj (app _)) in Hp. subst l.
      rewrite Forall_forall in Hl. apply elem_of_app in Hin as [Hin|Hin]; [by apply Hl in Hin|set_solver]. }
    destruct (fatal_response raw'); destruct Hp as [_ Hp]; rewrite Ht in Hp; apply (inj (app _)) in Hp; subst l;
      simpl in Hin; (assert (raw' = raw) as -> by set_solver).
    + exists [], (stream c), (max_payload_len c), [EvStatus Status.Disconnected], []. split; [done|by right].
    + exists [], (stream c), (max_payload_len c), [], []. split; [done|by left].
  - simpl in Hrun. rewrite Hc in Hrun. destruct (shutdown t); injection Hrun as <- <-; simpl in Ht;
      apply (inj (app _)) in Ht; subst l; set_solver.
Qed.

(** What a turn does, as seen from the callers. *)
Lemma turn_seen sel t w t' w' : hooks_ok t → inv t w → handle t sel None w = (Some t', w') →
  inv t' w' ∧ hooks_ok t' ∧ ∃ l, trace w' = trace w ++ l ∧ drop (length (trace w)) (trace w') = l ∧
    answered sel (answers l).
Proof.
  intros Hh Hi Hrun. pose proof (wp_run _ _ _ _ _ _ _ Hrun (wp_handle sel t None w Hh Hi)) as [Hi' Hs (l & Ht & _ & Ha)].
  split_and!; [done|by eapply same_setup_hooks|]. exists l. rewrite Ht, drop_app_length. done.
Qed.

Lemma answer_kinds_app a b : answer_kinds (a ++ b) = answer_kinds a ++ answer_kinds b.
Proof. apply fmap_app. Qed.

Lemma answer_kinds_ids a : (answer_kinds a).*1 = a.*1.
Proof. induction a as [|[id r] a IH]; [done|]. exact (f_equal (cons id) IH). Qed.

Lemma owed_by_ids cs : (owed_by cs).*1 = owners cs.
Proof. induction cs as [|[cfg|m id|id] cs IH]; [done|exact IH|exact (f_equal (cons id) IH)..]. Qed.

Lemma owed_by_app a b : owed_by (a ++ b) = owed_by a ++ owed_by b.
Proof. apply omap_app. Qed.

Lemma answers_elem (l : list (Event W E)) id r : (id, Some r) ∈ answers l ↔ EvReply id r ∈ l.
Proof.
  unfold answers. rewrite list_elem_of_omap. split; [intros (ev & Hin & Hev); by destruct ev; simplify_eq|].
  intros Hin. by eexists.
Qed.

Lemma acks_elem (l : list (Event W E)) id : (id, None) ∈ answers l → EvShutdownAck id ∈ l.
Proof. intros (ev & Hin & Hev)%list_elem_of_omap. by destruct ev; simplify_eq. Qed.

(** The callers after a turn that answers [o] to [id]. *)
Lemma callers_answered s (m : gmap N (Caller W)) id o :
  m = deliver1 (callers s) (id, o) →
  (∀ id' c, m !! id' = Some (Waiting c) → id' ≠ id ∧ callers s !! id' = Some (Waiting c)) ∧
  (∀ id' c, m !! id' = Some (Sending c) → callers s !! id' = Some (Sending c)) ∧
  (∀ id', is_Some (callers s !! id') → is_Some (m !! id')) ∧
  (∀ id' r, m !! id' = Some (Answered (RetRequest r)) →
    callers s !! id' = Some (Answered (RetRequest r)) ∨ id' = id ∧ o = Some r).
Proof.
  intros ->. split_and!; intros id'; rewrite deliver1_lookup; case_decide as Heq; try subst id'; eauto;
    destruct (callers s !! id) as [[]|]; try destruct o; naive_solver.
Qed.

(** The log after the head of the channel was served. *)
Lemma fifo_served s c q : sys_inv s → alive s = true → queue s = c :: q →
  ∃ lost, accepted s = (served s ++ [c]) ++ q ++ lost ∧ (alive s = true → lost = []).
Proof.
  intros [] Hal Hq. destruct si_fifo0 as (lost & Hf & Hl). exists lost. split; [|done].
  rewrite Hf, Hq. by rewrite <-!app_assoc.
Qed.

Lemma sys_inv_answer s c q id o t w l :
  sys_inv s → alive s = true → queue s = c :: q → owner c = Some id →
  inv t w → hooks_ok t → trace w = trace (world s) ++ l → answers l = [(id, o)] →
  answer_kinds [(id, o)] = owed_by [c] →
  (∀ raw, EvReply id (Ok raw) ∈ l → ∃ m, c = CRequest m id ∧ exchanged m id raw l) →
  sys_inv (mkSys q (alive s) t w (deliver l (callers s)) (accepted s) (served s ++ [c])).
Proof.
  intros Hs Hal Hq Hown Hi Hh Ht Ha Hk Hx. pose proof (fifo_served _ _ _ Hs Hal Hq) as Hfifo.
  destruct Hs. unfold deliver. rewrite Ha. cbn [fold_left].
  destruct (callers_answered s _ id o eq_refl) as (Hw & Hs & Hkn & Hr). rewrite Hq in *.
  split; simpl; try done.
  - simpl in si_capacity0. lia.
  - congruence.
  - intros id' c' [Hne Hwc]%Hw. destruct (si_waiting0 _ _ Hwc) as [Ho Hin]. split; [done|].
    apply elem_of_cons in Hin as [->|?]; [|done]. naive_solver.
  - intros id' c' Hsc%Hs. by apply si_sending0.
  - intros id' Hin. by apply Hkn, si_known0.
  - by rewrite Ht, answers_app, answer_kinds_app, owed_by_app, si_answers0, Ha, Hk.
  - intros id' raw. rewrite Ht. intros [Hin|Hin]%elem_of_app.
    + destruct (si_exchanged0 _ _ Hin) as (m & ? & ?). exists m. split; [set_solver|by apply exchanged_snoc].
    + assert (id' = id) as -> by (apply answers_elem in Hin; rewrite Ha in Hin; set_solver).
      destruct (Hx _ Hin) as (m & -> & ?). exists m. split; [set_solver|by apply exchanged_app].
  - intros id' r [Hold|[-> ->]]%Hr; unfold returned; simpl; rewrite Ht, elem_of_app.
    + destruct (si_returned0 _ _ Hold) as [?|[?|[? _]]]; [auto|auto|congruence].
    + left; right. apply answers_elem. rewrite Ha. by apply list_elem_of_singleton.
Qed.

(** A turn that answers nobody: a tick, or a configuration. *)
Lemma sys_inv_silent s q done_ t w l :
  sys_inv s → alive s = true → queue s = done_ ++ q → owners done_ = [] → owed_by done_ = [] →
  inv t w → hooks_ok t → trace w = trace (world s) ++ l → answers l = [] →
  sys_inv (mkSys q (alive s) t w (deliver l (callers s)) (accepted s) (served s ++ done_)).
Proof.
  intros [] Hal Hq Hno Hk Hi Hh Ht Ha. unfold deliver. rewrite Ha. cbn [fold_left]. rewrite Hq in *.
  split; simpl; try done.
  - rewrite length_app in si_capacity0. lia.
  - congruence.
  - intros id c Hw. destruct (si_waiting0 _ _ Hw) as [Ho Hin]. split; [done|].
    apply elem_of_app in Hin as [Hin|?]; [|done].
    assert (id ∈ owners done_) as Hx by (apply owners_elem; eauto). rewrite Hno in Hx. by apply elem_of_nil in Hx.
  - destruct si_fifo0 as (lost & Hf & Hl). exists lost. split; [|done]. by rewrite Hf, <-!app_assoc.
  - by rewrite Ht, answers_app, answer_kinds_app, owed_by_app, si_answers0, Ha, Hk.
  - intros id raw. rewrite Ht. intros [Hin|Hin]%elem_of_app.
    + destruct (si_exchanged0 _ _ Hin) as (m & ? & ?). exists m. split; [set_solver|by apply exchanged_snoc].
    + apply answers_elem in Hin. rewrite Ha in Hin. by apply elem_of_nil in Hin.
  - intros id r Hr. unfold returned. simpl. rewrite Ht, elem_of_app.
    destruct (si_returned0 _ _ Hr) as [?|[?|[? _]]]; [auto|auto|congruence].
Qed.

Lemma sys_inv_gone s : sys_inv s → alive s = true →
  sys_inv (mkSys [] false (task s) (world s) (abandon <$> callers s) (accepted s) (served s)).
Proof.
  intros Hs Hal. pose proof (served_not_queued s) as Hsq. specialize (λ id, Hsq id Hs). destruct Hs.
  split; simpl; try done.
  - unfold capacity. lia.
  - intros id c. rewrite lookup_fmap. destruct (callers s !! id) as [[|c'| |]|] eqn:Hc; simpl; try done.
    destruct (si_waiting0 _ _ Hc) as [Ho _]. by destruct c'.
  - intros id c. rewrite lookup_fmap. destruct (callers s !! id) as [[|[]| |]|] eqn:Hc; simpl; try done.
    intros [= <-]. by apply si_sending0.
  - intros id Hin. rewrite lookup_fmap. destruct (si_known0 _ Hin) as [x ->]. by eexists.
  - destruct si_fifo0 as (lost & -> & _). by exists (queue s ++ lost).
  - intros id r. rewrite lookup_fmap. destruct (callers s !! id) as [[|[]| |]|] eqn:Hc; simpl; try done.
    + intros [= <-]. right; right. split_and!; [done..|]. intros Hin. apply (Hsq _ Hin), owners_elem.
      destruct (si_waiting0 _ _ Hc) as [? ?]. eauto.
    + intros [= ->]. unfold returned. simpl. destruct (si_returned0 _ _ Hc) as [?|[?|[? ?]]]; auto.
Qed.

Lemma sys_inv_step s s' : sys_inv s → step s s' → sys_inv s'.
Proof.
  intros Hs Hstep. destruct Hstep as [s id c|s id c|s id m i Hid|s id i Hid|s id c Hid Hal|s id c Hid|s c q t w [Hal _] Hq Hrun|s t w [Hal _] Hrun|s Hal].
  - by apply sys_inv_call.
  - by apply sys_inv_enqueue.
  - eapply sys_inv_refused; [done|done|]. simpl. auto.
  - destruct Hid; by eapply sys_inv_settle.
  - destruct c; [| |by eapply sys_inv_settle]; (eapply sys_inv_refused; [done|done|]; simpl; eauto).
  - destruct Hid; by eapply sys_inv_settle.
  - destruct (turn_seen _ _ _ _ _ (si_hooks _ Hs) (si_inv _ Hs) Hrun) as (Hi & Hh & l & Ht & Hd & Ha).
    unfold after_turn. rewrite Hd. destruct c as [cfg|m id|id]; simpl in Ha.
    + by eapply (sys_inv_silent _ _ [Configure cfg]).
    + destruct Ha as [r Ha]. eapply sys_inv_answer; try done. intros raw Hin. exists m. split; [done|].
      eapply request_exchanged; [apply Hs|exact Hrun|done|done].
    + eapply sys_inv_answer; try done. intros raw Hin. apply answers_elem in Hin. rewrite Ha in Hin. set_solver.
  - destruct (turn_seen _ _ _ _ _ (si_hooks _ Hs) (si_inv _ Hs) Hrun) as (Hi & Hh & l & Ht & Hd & Ha).
    unfold after_turn. rewrite Hd. by eapply (sys_inv_silent _ _ []).
  - by apply sys_inv_gone.
Qed.

Lemma sys_inv_steps s s' : sys_inv s → rtc step s s' → sys_inv s'.
Proof. intros Hs Hr. induction Hr as [|x y z H1 _ IH]; [done|]. by apply IH, (sys_inv_step x). Qed.

(** ** The turns of the task *)

(** The caller waits with [c], or was answered the way [c] asks for. *)
Definition settled c (o : option (Caller W)) : Prop :=
  o = Some (Waiting c) ∨
  match c with
  | CRequest _ _ => ∃ r, o = Some (Answered (RetRequest r))
  | CShutdown _ => o = Some (Answered RetShutdown)
  | Configure _ => False
  end.

Lemma settled_deliver1 s c c' id id' o :
  sys_inv s → c ∈ queue s → owner c = Some id → answer_kinds [(id, o)] = owed_by [c] →
  settled c' (callers s !! id') → settled c' (deliver1 (callers s) (id, o) !! id').
Proof.
  intros Hs Hc Hown Hk Hset. rewrite deliver1_lookup. case_decide as Heq; [|done]. subst id'.
  destruct Hset as [Hw|Ha].
  - rewrite Hw. right. destruct (si_waiting _ Hs _ _ Hw) as [Ho Hin].
    assert (c' = c) as ->.
    { apply (owners_inj (queue s) _ _ id); try done. destruct Hs, si_fifo0 as (lost & Hf & _).
      rewrite Hf, !owners_app, !NoDup_app in si_nodup0. naive_solver. }
    destruct c as [|m i|i], o as [r|]; simplify_eq; [by eexists|done].
  - right. destruct c' as [|m i|i]; [done|destruct Ha as [r ->]; by eexists|by rewrite Ha].
Qed.

Lemma turn_ping_interval sel t w t' w' : hooks_ok t → inv t w → handle t sel None w = (Some t', w') →
  ping_interval t' = ping_interval t.
Proof. intros Hh Hi Hrun. by destruct (wp_run _ _ _ _ _ _ _ Hrun (wp_handle sel t None w Hh Hi)) as [_ [_ [? _]] _]. Qed.

(** A turn of the task alone is a step of the system, and serves the head of the
    channel unless it is a tick. *)
Record task_progress s (n : nat) s' : Prop := {
  tp_steps : rtc step s s';
  tp_serving : serving s';
  tp_accepted : accepted s' = accepted s;
  tp_log : served s' ++ queue s' = served s ++ queue s;
  tp_queue : length (queue s') = (length (queue s) - n)%nat;
  tp_settled id c : settled c (callers s !! id) → settled c (callers s' !! id)
}.

Lemma task_turn_command s c q : sys_inv s → serving s → queue s = c :: q → task_progress s 1 (task_turn s false).
Proof.
  intros Hs Hsv Hq. unfold task_turn. rewrite Hq.
  destruct (@timely_completes _ _ _ (handle (task s) (SelCommand c)) (handle_timely _ _ (si_hooks _ Hs)) (world s))
    as (t & w & Hrun). rewrite Hrun.
  destruct (turn_seen _ _ _ _ _ (si_hooks _ Hs) (si_inv _ Hs) Hrun) as (Hi & Hh & l & Ht & Hd & Ha).
  split; simpl; try done.
  - apply rtc_once. by apply step_command.
  - unfold serving. simpl. by rewrite (turn_ping_interval _ _ _ _ _ (si_hooks _ Hs) (si_inv _ Hs) Hrun).
  - by rewrite Hq, <-app_assoc.
  - rewrite Hq. simpl. lia.
  - intros id c'. rewrite Hd. unfold deliver. assert (c ∈ queue s) by (rewrite Hq; by left).
    destruct c as [cfg|m i|i]; simpl in Ha; [by rewrite Ha| |].
    + destruct Ha as [r Ha]. rewrite Ha. by eapply settled_deliver1.
    + rewrite Ha. by eapply settled_deliver1.
Qed.

Lemma task_turn_tick s : sys_inv s → serving s → task_progress s 0 (task_turn s true).
Proof.
  intros Hs Hsv. unfold task_turn.
  destruct (@timely_completes _ _ _ (handle (task s) SelTick) (handle_timely _ _ (si_hooks _ Hs)) (world s))
    as (t & w & Hrun). rewrite Hrun.
  destruct (turn_seen _ _ _ _ _ (si_hooks _ Hs) (si_inv _ Hs) Hrun) as (Hi & Hh & l & Ht & Hd & Ha).
  split; simpl; try done.
  - apply rtc_once. by apply step_tick.
  - unfold serving. simpl. by rewrite (turn_ping_interval _ _ _ _ _ (si_hooks _ Hs) (si_inv _ Hs) Hrun).
  - by rewrite app_nil_r.
  - lia.
  - intros id c'. rewrite Hd. unfold deliver. simpl in Ha. by rewrite Ha.
Qed.

Lemma task_progress_refl s : serving s → task_progress s 0 s.
Proof. intros Hs. split; try done. lia. Qed.

Lemma task_progress_trans s1 n1 s2 n2 s3 :
  task_progress s1 n1 s2 → task_progress s2 n2 s3 → task_progress s1 (n1 + n2) s3.
Proof.
  intros [] []. split; [by etrans|done|congruence|congruence|lia|auto].
Qed.

(** The task works off the channel, ticking in between. *)
Lemma task_turns_progress turns s : sys_inv s → serving s →
  ∃ n, task_progress s n (task_turns s turns) ∧ (length (filter (.= false) turns) ≤ n)%nat.
Proof.
  revert s. induction turns as [|b turns IH]; intros s Hs Hsv.
  { exists 0%nat. split; [by apply task_progress_refl|done]. }
  assert (∃ n, task_progress s n (task_turn s b) ∧ (if b then 0 else 1)%nat ≤ n)%nat as (n & Hp & Hn).
  { destruct b; [exists 0%nat; split; [by apply task_turn_tick|done]|].
    destruct (queue s) as [|c q] eqn:Hq; [|exists 1%nat; split; [by eapply task_turn_command|done]].
    exists 1%nat. split; [|done]. unfold task_turn. rewrite Hq. destruct (task_progress_refl s Hsv).
    split; try done. by rewrite Hq. }
  destruct (IH (task_turn s b)) as (n' & Hp' & Hn'); [by eapply sys_inv_steps, Hp|apply Hp|].
  exists (n + n')%nat. split; [by eapply task_progress_trans|].
  destruct b; [rewrite filter_cons_False by done|rewrite filter_cons_True by done]; simpl in *; lia.
Qed.

Lemma served_ack s id : sys_inv s → CShutdown id ∈ served s → EvShutdownAck id ∈ trace (world s).
Proof.
  intros [] Hin. assert ((id, false) ∈ owed_by (served s)) as Ho.
  { apply list_elem_of_omap. by eexists. }
  rewrite <-si_answers0 in Ho. apply list_elem_of_fmap in Ho as ([i r] & Heq & Hr). simplify_eq.
  apply acks_elem. destruct r; [|done]. by rewrite bool_decide_eq_true_2 in *.
Qed.

(** What a request or shutdown command was answered with, by the task. *)
Definition answered_by_task s c (id : N) : Prop :=
  match c with
  | CRequest _ _ => ∃ r, callers s !! id = Some (Answered (RetRequest r)) ∧ EvReply id r ∈ trace (world s)
  | CShutdown _ => callers s !! id = Some (Answered RetShutdown) ∧ EvShutdownAck id ∈ trace (world s)
  | Configure _ => False
  end.

Lemma drained s n s' id c : sys_inv s → alive s = true → task_progress s n s' → queue s' = [] →
  callers s !! id = Some (Waiting c) → answered_by_task s' c id.
Proof.
  intros Hs Hal [] Hq Hw. pose proof (sys_inv_steps _ _ Hs tp_steps0) as Hs'.
  destruct (si_waiting _ Hs _ _ Hw) as [Ho Hin].
  destruct (tp_settled0 id c (or_introl Hw)) as [Hw'|Hset].
  { destruct (si_waiting _ Hs' _ _ Hw') as [_ Hin']. rewrite Hq in Hin'. by apply elem_of_nil in Hin'. }
  rewrite Hq, app_nil_r in tp_log0. destruct c as [cfg|m i|i]; simpl; [done| |].
  - destruct Hset as [r Hr]. exists r. split; [done|].
    destruct (si_returned _ Hs' _ _ Hr) as [?|[[_ Hn]|[Hd _]]]; [done| |destruct tp_serving0; congruence].
    destruct Hn. rewrite tp_accepted0. apply queued_accepted; [done|]. apply owners_elem. eauto.
  - split; [done|]. simplify_eq. apply served_ack; [done|]. rewrite tp_log0. set_solver.
Qed.

(** *** Along any other sequence of steps *)

Lemma step_accepted s s' : step s s' → accepted s `prefix_of` accepted s' ∧ (alive s' = true → alive s = true).
Proof. intros []; simpl; split; try done; by eexists. Qed.

Lemma steps_accepted s s' : rtc step s s' → accepted s `prefix_of` accepted s' ∧ (alive s' = true → alive s = true).
Proof.
  induction 1 as [|x y z H1 _ [IH1 IH2]]; [done|]. apply step_accepted in H1 as [? ?]. split; [by etrans|auto].
Qed.

Lemma overtaken s s' id c : sys_inv s → rtc step s s' → alive s' = true →
  (length (served s ++ queue s) ≤ length (served s'))%nat →
  callers s !! id = Some (Waiting c) → c ∈ served s' ∧ ∀ c', callers s' !! id ≠ Some (Waiting c').
Proof.
  intros Hs Hr Hal Hlen Hw. pose proof (sys_inv_steps _ _ Hs Hr) as Hs'.
  destruct (steps_accepted _ _ Hr) as [[ext Hacc] Hal']. destruct (si_waiting _ Hs _ _ Hw) as [Ho Hin].
  destruct (si_fifo _ Hs) as (lost & Hf & Hl). destruct (si_fifo _ Hs') as (lost' & Hf' & Hl').
  rewrite Hacc, Hf, (Hl (Hal' Hal)), (Hl' Hal), !app_nil_r in Hf'.
  assert (c ∈ served s') as Hc.
  { apply app_eq_inv in Hf' as [(k & Hk & _)|(k & Hk & _)]; [|rewrite Hk; set_solver].
    rewrite Hk, length_app in Hlen. assert (k = []) as -> by (apply nil_length_inv; lia).
    rewrite app_nil_r in Hk. rewrite <-Hk. set_solver. }
  split; [done|]. intros c' Hw'. destruct (si_waiting _ Hs' _ _ Hw') as [Ho' Hin'].
  eapply (served_not_queued s' id); [done|..]; apply owners_elem; eauto.
Qed.

Lemma step_ping s s' : sys_inv s → step s s' → ping_interval (task s') = ping_interval (task s).
Proof.
  intros Hs Hstep. destruct Hstep as [| | | | | |s c q t' w _ _ Hrun|s t' w _ Hrun|]; try done;
    exact (turn_ping_interval _ _ _ _ _ (si_hooks _ Hs) (si_inv _ Hs) Hrun).
Qed.

Lemma steps_ping s s' : sys_inv s → rtc step s s' → ping_interval (task s') = ping_interval (task s).
Proof.
  intros Hs Hr. induction Hr as [|x y z H1 _ IH]; [done|].
  rewrite IH; [by apply step_ping|by apply (sys_inv_step x)].
Qed.

(** ** From a freshly built client *)

Section built.
Context {RU : Rustls TlsConnector}.
Context (b : BloopClientBuilder) (client : BloopClient) (t : ClientTask) (e : E) (now : N).
Context (Hbuild : build b = Ok (client, t)).
Context (Hhook : ∀ hook, b_on_connect b = Some hook → HookOk hook).

Lemma build_inv : inv t (mkWorld now e []) ∧ hooks_ok t.
Proof using Hbuild Hhook.
  unfold build in Hbuild. destruct (create_connector _); [|done]. injection Hbuild as <- <-. split; [|exact Hhook].
  split; [|done]. unfold status_ok. simpl. destruct (b_config b), (b_invalid_credentials_policy b); auto.
Qed.

Lemma reachable_inv s : rtc step (sys_init t e now) s → sys_inv s.
Proof using Hbuild Hhook. destruct build_inv. apply sys_inv_steps. by apply sys_inv_init. Qed.

Lemma reachable_ping s : rtc step (sys_init t e now) s → ping_interval (task s) = b_ping_interval b.
Proof using Hbuild Hhook.
  intros Hr. destruct build_inv as [Hi Hh]. rewrite (steps_ping _ _ (sys_inv_init _ _ _ Hh Hi) Hr).
  unfold build in Hbuild. destruct (create_connector _); [|done]. by injection Hbuild as <- <-.
Qed.

(** C2: in every state a freshly built client can reach, no command was accepted
    twice; the accepted commands are those served so far, followed by those in the
    channel, followed by those lost with the task, of which there are none while it
    lives, in the order of their acceptance; and the task has answered exactly the
    served requests and shutdowns, each once, with an answer of its kind, and in
    that order. The channel holds at most 16 commands. *)
Theorem commands_served_in_order_exactly_once s :
  rtc step (sys_init t e now) s →
  (length (queue s) ≤ capacity)%nat ∧ NoDup (owners (accepted s)) ∧
  (∃ lost, accepted s = served s ++ queue s ++ lost ∧ (alive s = true → lost = [])) ∧
  answer_kinds (answers (trace (world s))) = owed_by (served s) ∧
  NoDup (answers (trace (world s))).*1.
Proof using Hbuild Hhook.
  intros Hr. pose proof (reachable_inv s Hr) as Hs. destruct Hs. split_and!; [done..|].
  rewrite <-answer_kinds_ids, si_answers0, owed_by_ids. destruct si_fifo0 as (lost & Hf & _).
  rewrite Hf, owners_app in si_nodup0. by apply NoDup_app in si_nodup0 as (? & _).
Qed.

(** C3: an operation that waits has its own command in the channel, so it is never
    forgotten. What a request returned is the answer the task gave to that very
    caller, or [Disconnected] and its command was never accepted, or [Shutdown] and
    the task is gone without having served it. A frame it returned was read from
    the connection right after the caller's own message was written to it, and
    handed over next, but for the status that a fatal error frame publishes. *)
Theorem responses_reach_their_caller s id :
  rtc step (sys_init t e now) s →
  (∀ c, callers s !! id = Some (Waiting c) → owner c = Some id ∧ c ∈ queue s) ∧
  (∀ r, callers s !! id = Some (Answered (RetRequest r)) → returned s id r) ∧
  (∀ raw, callers s !! id = Some (Answered (RetRequest (Ok raw))) →
    ∃ m, CRequest m id ∈ served s ∧ exchanged m id raw (trace (world s))).
Proof using Hbuild Hhook.
  intros Hr. destruct (reachable_inv s Hr). split; [exact (si_waiting0 id)|split; [exact (si_returned0 id)|]]. intros raw Hraw.
  destruct (si_returned0 _ _ Hraw) as [?|[[? _]|[_ [? _]]]]; [by apply si_exchanged0|done..].
Qed.

(** C4: no caller waits forever. From every reachable state with a running task,
    however its turns alternate between ticks and commands, as soon as it has taken
    as many commands as the channel held, the channel is empty, the task still
    runs, and every operation that was waiting has returned with the answer the
    task sent it; every turn ends. And along every sequence of steps of callers and
    task, once that many commands were served, the waiting operation's command is
    among them and it no longer waits. *)
Theorem no_caller_waits_forever s :
  rtc step (sys_init t e now) s → alive s = true → (0 < b_ping_interval b)%N →
  (∀ turns, (length (queue s) ≤ length (filter (.= false) turns))%nat →
    let s' := task_turns s turns in
    rtc step s s' ∧ alive s' = true ∧ queue s' = [] ∧ served s' = served s ++ queue s ∧
    ∀ id c, callers s !! id = Some (Waiting c) → answered_by_task s' c id) ∧
  (∀ s' id c, rtc step s s' → alive s' = true →
    (length (served s ++ queue s) ≤ length (served s'))%nat → callers s !! id = Some (Waiting c) →
    c ∈ served s' ∧ ∀ c', callers s' !! id ≠ Some (Waiting c')).
Proof using Hbuild Hhook.
  intros Hr Hal Hp. pose proof (reachable_inv s Hr) as Hs. split; [|by intros; eapply overtaken].
  intros turns Hlen s'. destruct (task_turns_progress turns s Hs) as (n & Hpr & Hn).
  { split; [done|]. by rewrite (reachable_ping s Hr). }
  assert (queue s' = []) as Hq by (apply nil_length_inv; subst s'; rewrite (tp_queue _ _ _ Hpr); lia).
  split_and!; [apply Hpr|apply Hpr|done| |].
  - pose proof (tp_log _ _ _ Hpr) as Hlog. fold s' in Hlog. by rewrite Hq, app_nil_r in Hlog.
  - intros id c Hw. by eapply drained.
Qed.

(** C39: a built client verifies its server as its builder says: with the
    platform's verifier unless verification was switched off explicitly, and
    even then handshake signatures are still checked with the crypto provider;
    the builder's default is the platform's verifier. *)
Theorem built_client_verifies_server {RL : RustlsLaws TlsConnector} :
  b_root_cert_source builder_new = Platform ∧
  (b_root_cert_source b = Platform → verifier_of (connector t) = None) ∧
  (b_root_cert_source b = DangerousDisabled → ∃ v, verifier_of (connector t) = Some v ∧
    verify_tls12_signature v = crypto_verify_tls12 default_provider ∧
    verify_tls13_signature v = crypto_verify_tls13 default_provider).
Proof using Hbuild.
  split; [done|]. unfold build in Hbuild.
  destruct (create_connector _) as [conn|] eqn:Hc; [|done]. injection Hbuild as _ <-. cbn [connector].
  apply create_connector_verifier in Hc. rewrite Hc. split; intros ->; [done|]. by eexists.
Qed.

End built.
End system.

(** ** The operations of a handle *)

Lemma not_elem_of_cons3 {A} (x a b c : A) : x ∉ [a; b; c] → x ≠ a ∧ x ≠ b ∧ x ≠ c.
Proof. rewrite !not_elem_of_cons. naive_solver. Qed.

Section api.
Context {W : Wire} {P : Protocol} (exchange : RawMessage → Sent).

(** Distinct messages have distinct opcodes. *)
Class PreloadOpcodes : Prop := {
  match_not_error : OPCODE PreloadMatch ≠ OPCODE ErrorResponse;
  mismatch_not_error : OPCODE PreloadMismatch ≠ OPCODE ErrorResponse;
  match_not_mismatch : OPCODE PreloadMatch ≠ OPCODE PreloadMismatch
}.

Lemma decode_response_own {T} {PT : Payload T} {PL : PayloadLaws T} (m : T) raw : OPCODE T ≠ OPCODE ErrorResponse →
  encode_message m = Ok raw → decode_response T raw = Ok m.
Proof.
  intros Hne Henc. apply decode_response_Ok. rewrite (encode_opcode _ _ Henc). split; [done|].
  by apply decode_encode.
Qed.

(** A frame with the opcode of [T] whose payload is not one. *)
Definition undecodable (T : Type) {PT : Payload T} (raw : RawMessage) (e : MessageSetError) : Prop :=
  message_type raw = OPCODE T ∧ decode_message (T:=T) raw = Err e.

Lemma decode_response_undecodable {T} {PT : Payload T} {PL : PayloadLaws T} raw e : OPCODE T ≠ OPCODE ErrorResponse →
  undecodable T raw e → decode_response T raw = Err (Malformed e).
Proof.
  intros Hne [Ht Hd]. unfold decode_response. rewrite bool_decide_eq_false_2 by congruence.
  by rewrite Hd, (decode_own _ _ Ht Hd).
Qed.

(** C38: [preload_check] understands both answers of a server, each of which it
    returns with its content, and passes a refusal on as that error. A message of
    one of these three types that cannot be decoded is reported as malformed, a
    message of any other type as unexpected. *)
Theorem preload_check_understands_answers `{!PreloadOpcodes, !PayloadLaws PreloadMatch,
    !PayloadLaws PreloadMismatch, !PayloadLaws ErrorResponse} hash request raw :
  encode_message (mkPreloadCheck hash) = Ok request → exchange request = Delivered (Some (Ok raw)) →
  (encode_message mkPreloadMatch = Ok raw → preload_check exchange hash = Ok Match) ∧
  (∀ m, encode_message m = Ok raw →
    preload_check exchange hash = Ok (Mismatch (mismatch_manifest_hash m) (mismatch_achievements m))) ∧
  (∀ error : ErrorResponse, encode_message error = Ok raw → preload_check exchange hash = Err (Error error)) ∧
  (message_type raw ∉ [OPCODE PreloadMatch; OPCODE PreloadMismatch; OPCODE ErrorResponse] →
    preload_check exchange hash = Err (UnexpectedResponse raw)) ∧
  (∀ e, undecodable PreloadMatch raw e ∨ undecodable PreloadMismatch raw e ∨ undecodable ErrorResponse raw e →
    preload_check exchange hash = Err (Malformed e)).
Proof.
  intros Hreq Hex. unfold preload_check, roundtrip. rewrite Hreq, Hex. cbn [send_request and_then].
  pose proof match_not_error. pose proof mismatch_not_error. pose proof match_not_mismatch. split_and!.
  - intros Hm. rewrite bool_decide_eq_true_2 by (by eapply encode_opcode).
    by rewrite (decode_response_own mkPreloadMatch raw) by done.
  - intros m Hm. rewrite bool_decide_eq_false_2 by (rewrite (encode_opcode _ _ Hm); congruence).
    by rewrite (decode_response_own m raw) by done.
  - intros error Hm. rewrite bool_decide_eq_false_2 by (rewrite (encode_opcode _ _ Hm); congruence).
    rewrite (proj2 (decode_response_Error PreloadMismatch raw error)); [done|].
    split; [by apply (encode_opcode _ _ Hm)|by apply decode_encode].
  - intros (Hn1 & Hn2 & Hn3)%not_elem_of_cons3. rewrite bool_decide_eq_false_2 by done.
    unfold decode_response. rewrite bool_decide_eq_false_2 by done.
    destruct (decode_foreign (T:=PreloadMismatch) raw Hn2) as (e & -> & ->). done.
  - intros e [Hu|[Hu|Hu]]; pose proof Hu as [Ht _].
    + rewrite bool_decide_eq_true_2 by done. by rewrite (decode_response_undecodable raw e).
    + rewrite bool_decide_eq_false_2 by congruence. by rewrite (decode_response_undecodable raw e).
    + rewrite bool_decide_eq_false_2 by congruence. destruct Hu as [_ Hd]. unfold decode_response.
      by rewrite bool_decide_eq_true_2, Hd.
Qed.

End api.

(** ** Witnesses *)

Import Toy.

(** A configured client without a hook, and one request accepted by its channel. *)
Definition demo_builder : BloopClientBuilder (W:=toy_wire) (NE:=Demo.demo_net) :=
  builder_config Demo.cfg builder_new.

#[export] Instance demo_rustls : Rustls (TlsConnector (Net:=Demo.demo_net)) := {|
  CryptoProvider := unit; RustlsError := unit; ServerCert := unit; Signed := bool; Scheme := unit;
  WantsVersions := unit; WantsVerifier := unit; WantsClientCert := unit;
  get_default := None;
  aws_lc_rs_default_provider := tt;
  crypto_verify_tls12 _ ok := if ok : bool then Ok tt else Err tt;
  crypto_verify_tls13 _ ok := if ok : bool then Ok tt else Err tt;
  supported_schemes _ := [];
  builder_with_provider p := p;
  with_safe_default_protocol_versions b := Ok b;
  with_platform_verifier b := Ok b;
  with_custom_certificate_verifier _ b := b;
  connector_of b := b
|}.

Definition demo_task : ClientTask (W:=toy_wire) (NE:=Demo.demo_net) :=
  mkClientTask (W:=toy_wire) (NE:=Demo.demo_net) tt (Some Demo.cfg) None Status.Disconnected 3000 60000
    (mkConnectOptions 5000 16777216) Latch None false false.

Lemma demo_build : build (RU:=demo_rustls) demo_builder = Ok (mkClient 60000, demo_task).
Proof. reflexivity. Qed.

Lemma demo_no_hook hook : b_on_connect demo_builder = Some hook → HookOk hook.
Proof. done. Qed.

Definition demo_sys0 : Sys toy_wire (list frame) := sys_init demo_task Demo.accepting 0.
Definition demo_command : Command (W:=toy_wire) := CRequest (W:=toy_wire) (8, [42])%Z 1.
Definition demo_sys1 : Sys toy_wire (list frame) := set_callers {[1%N := Sending demo_command]} demo_sys0.
Definition demo_sys2 : Sys toy_wire (list frame) :=
  mkSys [demo_command] true demo_task (mkWorld 0 Demo.accepting []) {[1%N := Waiting demo_command]} [demo_command] [].

Lemma demo_reach : rtc step demo_sys0 demo_sys2.
Proof.
  apply (rtc_l _ _ demo_sys1); [exact (step_call demo_sys0 1 demo_command eq_refl (or_introl eq_refl))|].
  apply rtc_once. refine (step_enqueue demo_sys1 1 demo_command eq_refl eq_refl _). unfold capacity. simpl. lia.
Qed.

Lemma commands_served_in_order_exactly_once_witness :
  ∃ lost, accepted demo_sys2 = served demo_sys2 ++ queue demo_sys2 ++ lost ∧ (alive demo_sys2 = true → lost = []).
Proof.
  exact (proj1 (proj2 (proj2 (commands_served_in_order_exactly_once demo_builder (mkClient 60000) demo_task Demo.accepting 0
    demo_build demo_no_hook demo_sys2 demo_reach)))).
Defined.

Lemma responses_reach_their_caller_witness : demo_command ∈ queue demo_sys2.
Proof.
  refine (proj2 (proj1 (responses_reach_their_caller demo_builder (mkClient 60000) demo_task Demo.accepting 0
    demo_build demo_no_hook demo_sys2 1 demo_reach) demo_command _)). reflexivity.
Defined.

(** A tick that connects, then the request. *)
Lemma no_caller_waits_forever_witness : answered_by_task (task_turns demo_sys2 [true; false]) demo_command 1.
Proof.
  destruct (no_caller_waits_forever demo_builder (mkClient 60000) demo_task Demo.accepting 0
    demo_build demo_no_hook demo_sys2 demo_reach eq_refl eq_refl) as (H & _).
  refine (proj2 (proj2 (proj2 (proj2 (H [true; false] _)))) 1%N demo_command _); [simpl; lia|reflexivity].
Defined.

#[export] Instance toy_preload_opcodes : PreloadOpcodes (W:=toy_wire).
Proof. by split. Qed.

#[export] Instance toy_match_laws : PayloadLaws PreloadMatch.
Proof. apply payload_laws. by intros []. Qed.

Lemma dec_enc_records l : dec_records (enc_records l) = Some l.
Proof.
  induction l as [|[i h] l IH]; [done|].
  assert (enc_records (mkAchievementRecord i h :: l) = i :: enc_hash h ++ enc_records l) as -> by reflexivity.
  destruct h as [h|]; cbn [enc_hash app dec_records]; by rewrite IH.
Qed.

#[export] Instance toy_mismatch_laws : PayloadLaws PreloadMismatch.
Proof. apply payload_laws. intros [h l]. simpl. by rewrite dec_enc_records. Qed.

(** A server that answers every request with the manifest hash 5 and no audio. *)
Definition demo_exchange : RawMessage (Wire:=toy_wire) → Sent := λ _, Delivered (Some (Ok (14%Z, [5%Z]))).

Lemma preload_check_understands_answers_witness :
  preload_check demo_exchange None = Ok (Mismatch 5%Z []).
Proof.
  refine (proj1 (proj2 (preload_check_understands_answers (P:=toy_protocol) demo_exchange None (12, [0; 0])%Z
    (14, [5])%Z _ _)) (mkPreloadMismatch (W:=toy_wire) 5%Z []) _); reflexivity.
Defined.

(** A network whose connectors remember their verifier. *)
Definition Verifier : Type := ServerCertVerifier unit bool unit unit.

Definition tls_net : Net toy_wire (list frame) := {|
  Stream := Z; SocketAddr := unit; TcpStream := unit; TlsStream := Z; ServerName := string;
  TlsConnector := option Verifier; IoError := unit; OnConnectError := unit;
  lookup_host _ _ _ e := (1%N, e, Ok [()]);
  tcp_connect _ _ e := (1%N, e, Ok ());
  local_addr_ip _ := Ok 127%Z;
  server_name h := Some h;
  tls_connect _ _ _ _ e := (1%N, e, Ok 7%Z);
  timeout_stream s _ _ := s;
  write_frame _ _ _ e := (1%N, e, Ok ());
  read_frame _ _ _ e := match e with [] => (1%N, [], Err ()) | f :: rest => (1%N, rest, Ok f) end
|}.

Definition tls_rustls : Rustls (option Verifier) := {|
  CryptoProvider := unit; RustlsError := unit; ServerCert := unit; Signed := bool; Scheme := unit;
  WantsVersions := unit; WantsVerifier := unit; WantsClientCert := option Verifier;
  get_default := None;
  aws_lc_rs_default_provider := tt;
  crypto_verify_tls12 _ ok := if ok : bool then Ok tt else Err tt;
  crypto_verify_tls13 _ ok := if ok : bool then Ok tt else Err tt;
  supported_schemes _ := [];
  builder_with_provider p := p;
  with_safe_default_protocol_versions b := Ok b;
  with_platform_verifier b := Ok None;
  with_custom_certificate_verifier v b := Some v;
  connector_of b := b
|}.

Definition tls_laws : RustlsLaws (RU:=tls_rustls) (option Verifier).
Proof. refine {| verifier_of := λ c : option Verifier, c : option (ServerCertVerifier (ServerCert (Rustls:=tls_rustls)) _ _ _) |}.
  - by intros b b' [= <-].
  - done.
Defined.

Definition tls_builder : BloopClientBuilder (NE:=tls_net) :=
  builder_root_cert_source (NE:=tls_net) DangerousDisabled (builder_new (NE:=tls_net)).

Lemma built_client_verifies_server_witness :
  ∃ client (t : ClientTask (W:=toy_wire) (NE:=tls_net)), build (NE:=tls_net) (RU:=tls_rustls) tls_builder = Ok (client, t) ∧
    is_Some (connector t).
Proof.
  do 2 eexists. split; [reflexivity|].
  destruct (built_client_verifies_server (NE:=tls_net) (RU:=tls_rustls) (RL:=tls_laws) tls_builder _ _ eq_refl)
    as (_ & _ & H). destruct (H eq_refl) as (v & Hv & _). exists v. exact Hv.
Defined.
