(* ===== verification/ClientApi.v ===== *)
(** * The operations of a handle in time (src/src/client.rs)

    [BloopClient]'s async operations as computations: putting a command into the
    channel, awaiting the response, and the timeouts around both. The channel
    as one handle sees it is a parameter; it may delay and answer anything. *)

From S2P Require Import Prelude Async Protocol Request ClientData Connection ClientTask Tls ClientSystem.

(** What a handle awaits. [mpsc_send] fails when the receiver is gone,
    [oneshot_recv] answers [None] when the sender was dropped unused. *)
Class Channel (W : Wire) (E : Type) := {
  oneshot_channel : E → N * E;
  mpsc_send : Command (W:=W) → option N → E → N * E * Result unit unit;
  recv_response : N → option N → E → N * E * option (Result RawMessage RequestError);
  recv_ack : N → option N → E → N * E * option unit
}.

Section api.
Context {W : Wire} {P : Protocol} {E Ev : Type} {CH : Channel W E}.

(** The first half of [BloopClient::send_request]: what becomes of the request. *)
Definition exchange_async (client : BloopClient) (message : RawMessage) : M E Ev Sent :=
  let* id := update_env oneshot_channel in
  let* r := timeout (client_request_timeout client) (await_op (mpsc_send (CRequest message id))) in
  match r with
  | Some (Err _) => ret SentClosed
  | None => ret SentTimeout
  | Some (Ok _) => let* o := await_op (recv_response id) in ret (Delivered o)
  end.

(** [BloopClient::send_request] *)
Definition send_request_async (client : BloopClient) (message : RawMessage) :
  M E Ev (Result RawMessage RequestError) :=
  let* s := exchange_async client message in ret (send_request s).

(** [BloopClient::configure] *)
Definition configure_async (config : option ConnectionConfig) : M E Ev (Result unit RequestError) :=
  let* r := await_op (mpsc_send (Configure config)) in ret (map_err (λ _, Shutdown) r).

(** [BloopClient::retrieve_audio], also the [AudioProvider] of a handle. *)
Definition retrieve_audio_async (client : BloopClient) (id : Uuid) : M E Ev (Result (list Z) RequestError) :=
  match encode_message (mkRetrieveAudio id) with
  | Err e => ret (Err (Encode e))
  | Ok m => let* s := exchange_async client m in ret (retrieve_audio (λ _, s) id)
  end.

(** [BloopClient::shutdown]; the duration in milliseconds. *)
Definition shutdown_async : M E Ev unit :=
  let* id := update_env oneshot_channel in
  let* _ := timeout 5000 (
    let* r := await_op (mpsc_send (CShutdown id)) in
    match r with
    | Ok _ => let* _ := await_op (recv_ack id) in ret tt
    | Err _ => ret tt
    end) in
  ret tt.

(** [IntoSubsystem::run]; [requested] awaits the request to shut down. *)
Definition subsystem_run (requested : option N → E → N * E * unit) : M E Ev (Result unit Empty_set) :=
  let* _ := await_op requested in
  let* _ := shutdown_async in
  ret (Ok tt).

#[export] Instance exchange_timely client m : Timely (exchange_async client m).
Proof. unfold exchange_async. apply _. Qed.

#[export] Instance shutdown_timely : Timely shutdown_async.
Proof. unfold shutdown_async. apply _. Qed.

Lemma shutdown_within : Within 5000 shutdown_async.
Proof.
  unfold shutdown_async. eapply (within_mono (0 + (5000 + 0))); [|lia].
  apply within_bind; [intros w r w'; unfold update_env; destruct (oneshot_channel _); intros [= <- <-]; simpl; lia|].
  intros id. apply within_bind; [apply within_timeout, _|]. intros. apply within_ret.
Qed.

(** C20: [shutdown] returns within five seconds whatever the task, its channel and
    the server do, and the graceful-shutdown subsystem ends, without error, at
    most five seconds after it was asked to. *)
Theorem shutdown_returns_within_five_seconds (requested : option N → E → N * E * unit) (w : World E Ev) :
  (∃ w', shutdown_async None w = (Some tt, w') ∧ (clock w' ≤ clock w + 5000)%N) ∧
  (∃ w', subsystem_run requested None w = (Some (Ok tt), w') ∧
    (clock w' ≤ clock w + (requested None (env w)).1.1 + 5000)%N).
Proof.
  assert (∀ w, ∃ w', shutdown_async None w = (Some tt, w') ∧ (clock w' ≤ clock w + 5000)%N) as Hs.
  { clear w. intros w. destruct (timely_completes shutdown_async w) as ([] & w' & Hrun).
    exists w'. split; [done|]. exact (shutdown_within _ _ _ Hrun). }
  split; [apply Hs|]. unfold subsystem_run, bind, await_op. simpl.
  destruct (requested None (env w)) as [[dur e] []]. simpl.
  destruct (Hs (mkWorld (clock w + dur) e (trace w))) as (w' & -> & Hb). by exists w'.
Qed.

(** A request that finds no room is given up after the request timeout. *)
Lemma enqueue_within client m w w' :
  exchange_async client m None w = (Some SentTimeout, w') →
  (clock w' ≤ clock w + client_request_timeout client)%N.
Proof.
  unfold exchange_async. intros Hrun. apply run_bind in Hrun as [(id & w1 & H1 & H2)|[_ ?]]; [|done].
  assert (clock w1 = clock w) as Hc.
  { unfold update_env in H1. destruct (oneshot_channel _). by injection H1 as _ <-. }
  apply run_bind in H2 as [(r & w2 & H2 & H3)|[_ ?]]; [|done].
  apply timeout_bound in H2 as [_ H2]; [|apply _]. rewrite Hc in H2.
  destruct r as [[]|]; unfold ret in H3.
  - apply run_bind in H3 as [(o & w3 & _ & H3)|[_ ?]]; [|done]. done.
  - done.
  - by injection H3 as <-.
Qed.

End api.
