(* ===== verification/AudioCache.v ===== *)
(** * The audio cache (src/src/audio_cache.rs)

    A directory of downloaded audio files named after achievement and hash. The
    file system is part of the surroundings [E]: [disk] observes it, the
    operations of [tokio::fs] act on it and may fail or be cancelled at any
    point, and [FsLaws] says what each may then have done. *)

From Stdlib Require Import Ascii.
From stdpp Require Import pretty.
From S2P Require Import Prelude Async Protocol Request ClientData Connection.

(** ** Paths *)

(** A path, by components. *)
Abbreviation PathBuf := (list string).

(** [base.join(name)] for a plain file name. *)
Definition join (base : PathBuf) (name : string) : PathBuf := base ++ [name].

(** The part before and after the last dot. *)
Fixpoint rsplit_at_dot (s : string) : option (string * string) :=
  match s with
  | EmptyString => None
  | String c s =>
      match rsplit_at_dot s with
      | Some (before, after) => Some (String c before, after)
      | None => if bool_decide (c = "."%char) then Some (EmptyString, s) else None
      end
  end.

(** [Path::extension] *)
Definition extension (path : PathBuf) : option string :=
  name ← last path;
  if bool_decide (name = "..") then None
  else
    '(before, after) ← rsplit_at_dot name;
    if bool_decide (before = "") then None else Some after.

(** ** The file system *)

Inductive Node := File (data : list Z) | Dir.

Abbreviation Disk := (gmap PathBuf Node).

Class Fs (E : Type) := {
  FsError : Type;
  disk : E → Disk;
  (** The static [TEMP_COUNTER]. *)
  temp_counter : E → N;
  set_temp_counter : N → E → E;
  try_exists : PathBuf → option N → E → N * E * Result bool FsError;
  create_dir_all : PathBuf → option N → E → N * E * Result unit FsError;
  write : PathBuf → list Z → option N → E → N * E * Result unit FsError;
  rename : PathBuf → PathBuf → option N → E → N * E * Result unit FsError;
  read_dir : PathBuf → option N → E → N * E * Result (list PathBuf) FsError;
  next_entry : option N → E → N * E * Result unit FsError;
  remove_file : PathBuf → option N → E → N * E * Result unit FsError
}.
Arguments FsError E {_}.

(** [op] may change the disk only by [may], whatever becomes of it, and when it
    succeeds before being cancelled it has done [did]. *)
Definition fs_op {E A} {FS : Fs E} (op : option N → E → N * E * Result A (FsError E))
    (did : Disk → A → Disk → Prop) (may : Disk → Disk → Prop) : Prop :=
  ∀ o e dur e' r, op o e = (dur, e', r) →
    temp_counter e' = temp_counter e ∧ may (disk e) (disk e') ∧
    (∀ a, r = Ok a → in_time o dur → did (disk e) a (disk e')).

(** Only directories at prefixes of [base] are created. *)
Definition dirs_added (base : PathBuf) (D D' : Disk) : Prop :=
  ∀ q, D' !! q = D !! q ∨ D !! q = None ∧ D' !! q = Some Dir ∧ q `prefix_of` base.

Class FsLaws (E : Type) {FS : Fs E} : Prop := {
  counter_get n (e : E) : temp_counter (set_temp_counter n e) = n;
  counter_disk n (e : E) : disk (set_temp_counter n e) = disk e;
  try_exists_law p : fs_op (E:=E) (try_exists p)
    (λ D b D', b = bool_decide (is_Some (D !! p))) (λ D D', D' = D);
  create_dir_all_law p : fs_op (E:=E) (create_dir_all p)
    (λ D _ D', D' !! p = Some Dir) (dirs_added p);
  write_law p data : fs_op (E:=E) (write p data)
    (λ D _ D', D' = <[p := File data]> D)
    (λ D D', D' = D ∨ ∃ part, part `prefix_of` data ∧ D' = <[p := File part]> D);
  (** Renaming a file is atomic. *)
  rename_law p q data : fs_op (E:=E) (rename p q)
    (λ D _ D', D !! p = Some (File data) → D' = <[q := File data]> (delete p D))
    (λ D D', D !! p = Some (File data) → D' = D ∨ D' = <[q := File data]> (delete p D));
  read_dir_law p : fs_op (E:=E) (read_dir p)
    (λ D l D', NoDup l ∧ ∀ q, q ∈ l ↔ is_Some (D !! q) ∧ ∃ name, q = join p name)
    (λ D D', D' = D);
  next_entry_law : fs_op (E:=E) next_entry (λ D _ D', True) (λ D D', D' = D);
  remove_file_law p : fs_op (E:=E) (remove_file p)
    (λ D _ D', D' = delete p D) (λ D D', D' = D ∨ D' = delete p D)
}.

(** ** File names *)

(** [Display] of [Uuid] and [DataHash]. *)
Class Names (W : Wire) := {
  uuid_to_string : Uuid → string;
  hash_to_string : DataHash → string
}.

Section cache.
Context {W : Wire} {NM : Names W} {E : Type} {NE : Net W E} {FS : Fs E}.

(** [enum AudioCacheError] *)
Inductive AudioCacheError := AIo (e : FsError E) | ARequest (e : RequestError).

(** [struct AudioCache] *)
Record AudioCache := mkAudioCache { base_path : PathBuf }.

(** [trait AudioProvider]: how audio data is requested. *)
Definition Retrieve : Type := Uuid → Async W E (Result (list Z) RequestError).

Definition audio_name (id : Uuid) (hash : DataHash) : string :=
  uuid_to_string id +:+ "_" +:+ hash_to_string hash +:+ ".mp3".

Definition temp_name (id : Uuid) (n : N) : string :=
  uuid_to_string id +:+ "." +:+ pretty n +:+ ".download".

(** [AudioCache::path_for] *)
Definition path_for (cache : AudioCache) (record : AchievementRecord) : option PathBuf :=
  (λ hash, join (base_path cache) (audio_name (ar_id record) hash)) <$> ar_audio_hash record.

(** [op.await?] with [AudioCacheError::from]. *)
Definition io {A} (op : option N → E → N * E * Result A (FsError E)) :
  Async W E (Result A AudioCacheError) := await_map_err AIo (await_op op).

(** [TEMP_COUNTER.fetch_add(1, Relaxed)] on a [u64]. *)
Definition fetch_add : Async W E N :=
  update_env (λ e, (temp_counter e, set_temp_counter ((temp_counter e + 1) mod 2 ^ 64)%N e)).

(** [AudioCache::ensure_inner] *)
Definition ensure_inner (cache : AudioCache) (retrieve_audio : Retrieve) (record : AchievementRecord) :
  Async W E (Result (option PathBuf) AudioCacheError) :=
  match path_for cache record with
  | None => ret (Ok None)
  | Some path =>
      let? exists_ := io (try_exists path) in
      if exists_ : bool then ret (Ok (Some path))
      else
        let? _ := io (create_dir_all (base_path cache)) in
        let? data := await_map_err ARequest (retrieve_audio (ar_id record)) in
        let* n := fetch_add in
        let temp_path := join (base_path cache) (temp_name (ar_id record) n) in
        let? _ := io (write temp_path data) in
        let? _ := io (rename temp_path path) in
        ret (Ok (Some path))
  end.

(** [AudioCache::ensure] *)
Definition ensure (cache : AudioCache) (provider : Retrieve) (record : AchievementRecord) :
  Async W E (Result (option PathBuf) AudioCacheError) := ensure_inner cache provider record.

(** What the pruning loop of [sync] removes. *)
Definition prunes (expected : gset PathBuf) (path : PathBuf) : bool :=
  let is_stale_audio := bool_decide (extension path = Some "mp3") && negb (bool_decide (path ∈ expected)) in
  let is_leftover_download := bool_decide (extension path = Some "download") in
  is_stale_audio || is_leftover_download.

(** The [while let Some(entry)] loop of [sync]. *)
Fixpoint prune (expected : gset PathBuf) (entries : list PathBuf) :
  Async W E (Result unit AudioCacheError) :=
  let? _ := io next_entry in
  match entries with
  | [] => ret (Ok tt)
  | path :: entries =>
      let* _ := (if prunes expected path
                 then (let* _ := await_op (remove_file path) in ret tt) else ret tt) in
      prune expected entries
  end.

(** The [for record in records] loop of [sync]. *)
Fixpoint ensure_all (cache : AudioCache) (retrieve_audio : Retrieve)
    (records : list AchievementRecord) (skipped : list Uuid) :
  Async W E (Result (list Uuid) AudioCacheError) :=
  match records with
  | [] => ret (Ok skipped)
  | record :: records =>
      let* r := ensure_inner cache retrieve_audio record in
      match r with
      | Ok _ => ensure_all cache retrieve_audio records skipped
      | Err (ARequest (Error error)) =>
          if negb (is_fatal error)
          then ensure_all cache retrieve_audio records (skipped ++ [ar_id record])
          else ret (Err (ARequest (Error error)))
      | Err error => ret (Err error)
      end
  end.

(** [AudioCache::sync] *)
Definition sync (cache : AudioCache) (provider : Retrieve) (records : list AchievementRecord) :
  Async W E (Result (list Uuid) AudioCacheError) :=
  let? _ := io (create_dir_all (base_path cache)) in
  let expected : gset PathBuf := list_to_set (omap (path_for cache) records) in
  let? entries := io (read_dir (base_path cache)) in
  let? _ := prune expected entries in
  ensure_all cache provider records [].

End cache.

Arguments AudioCacheError W E {FS}.
