(* ===== verification/AudioCacheTheorems.v ===== *)
(** * Theorems about the audio cache

    At every point where [ensure] or [sync] can be cut off, crash included, each
    file under a final name is complete; a cached file is never downloaded
    again; [sync] leaves exactly the expected files. *)

From Stdlib Require Import Ascii.
From stdpp Require Import pretty.
From S2P Require Import Prelude Async Protocol Request ClientData Connection AudioCache.

(** ** Names *)

Lemma String_app c a b : String c a +:+ b = String c (a +:+ b).
Proof. reflexivity. Qed.

Lemma string_app_assoc a b c : (a +:+ b) +:+ c = a +:+ b +:+ c.
Proof. induction a as [|x a IH]; [done|]. by rewrite !String_app, IH. Qed.

Lemma string_app_inj_r a b c : a +:+ c = b +:+ c → a = b.
Proof.
  intros H. apply (f_equal String.list_ascii_of_string) in H.
  assert (∀ a b, String.list_ascii_of_string (a +:+ b) =
    String.list_ascii_of_string a ++ String.list_ascii_of_string b) as Happ.
  { clear. intros a b. induction a as [|x a IH]; [done|]. rewrite String_app. simpl. by rewrite IH. }
  rewrite !Happ in H. apply (inj (.++ _)) in H.
  by rewrite <-(String.string_of_list_ascii_of_string a), <-(String.string_of_list_ascii_of_string b), H.
Qed.

(** Two strings without [c] that are followed by [c] can be told apart. *)
Lemma string_split_inj c a a' b b' :
  c ∉ String.list_ascii_of_string a → c ∉ String.list_ascii_of_string a' →
  a +:+ String c b = a' +:+ String c b' → a = a' ∧ b = b'.
Proof.
  revert a'. induction a as [|x a IH]; intros [|x' a'] Ha Ha'; rewrite ?String_app; simpl in *; rewrite ?not_elem_of_cons in *.
  - intros H. by injection H.
  - intros H. injection H as -> _. by destruct Ha'.
  - intros H. injection H as <- _. by destruct Ha.
  - intros H. injection H as -> H. destruct (IH a') as [-> ->]; naive_solver.
Qed.

Lemma rsplit_at_dot_app a e : rsplit_at_dot e = None → rsplit_at_dot (a +:+ String "." e) = Some (a, e).
Proof.
  intros He. induction a as [|c a IH]; [by simpl; rewrite He|]. rewrite String_app. simpl. by rewrite IH.
Qed.

Lemma extension_join base name c a e :
  name = String c a +:+ String "." e → rsplit_at_dot e = None → e ≠ "" → extension (join base name) = Some e.
Proof.
  intros -> He Hne. unfold extension, join. rewrite last_snoc. cbn [mbind option_bind].
  rewrite bool_decide_eq_false_2.
  - rewrite rsplit_at_dot_app by done. done.
  - destruct e as [|c' e]; [done|]. intros Heq.
    apply (f_equal rsplit_at_dot) in Heq. rewrite rsplit_at_dot_app in Heq by done. by vm_compute in Heq.
Qed.

Section names.
Context {W : Wire} {NM : Names W}.

(** Documented behaviour of the two [Display]s: different values print
    differently, and a UUID prints as hexadecimal groups separated by dashes. *)
Class NamesLaws : Prop := {
  uuid_inj : Inj (=) (=) uuid_to_string;
  hash_inj : Inj (=) (=) hash_to_string;
  uuid_plain id c : c ∈ String.list_ascii_of_string (uuid_to_string id) → c ≠ "_"%char ∧ c ≠ "."%char
}.

Lemma extension_audio base id hash : extension (join base (audio_name id hash)) = Some "mp3".
Proof.
  unfold audio_name. destruct (uuid_to_string id) as [|c s].
  - by apply (extension_join _ _ "_" (hash_to_string hash)).
  - apply (extension_join _ _ c (s +:+ "_" +:+ hash_to_string hash)); [|done..].
    by rewrite !String_app, !string_app_assoc.
Qed.

Lemma extension_temp base id n : extension (join base (temp_name id n)) = Some "download".
Proof.
  unfold temp_name. destruct (uuid_to_string id) as [|c s].
  - by apply (extension_join _ _ "." (pretty n)).
  - apply (extension_join _ _ c (s +:+ "." +:+ pretty n)); [|done..].
    by rewrite !String_app, !string_app_assoc.
Qed.

Lemma audio_name_inj `{!NamesLaws} id id' hash hash' :
  audio_name id hash = audio_name id' hash' → id = id' ∧ hash = hash'.
Proof.
  unfold audio_name. intros Heq. destruct (string_split_inj "_" (uuid_to_string id) (uuid_to_string id')
    (hash_to_string hash +:+ ".mp3") (hash_to_string hash' +:+ ".mp3")) as [Hid Hh]; [..|done|].
  1,2: by intros [? _]%uuid_plain.
  split; [by apply uuid_inj|]. apply hash_inj. by eapply string_app_inj_r.
Qed.

End names.

(** ** Timeliness and events *)

Section runs.
Context {W : Wire} {NM : Names W} {E : Type} {NE : Net W E} {FS : Fs E}.

#[export] Instance io_timely {A} (op : option N → E → N * E * Result A (FsError E)) : Timely (io (W:=W) op).
Proof. unfold io. apply _. Qed.

#[export] Instance io_emits {A} Q (op : option N → E → N * E * Result A (FsError E)) : Emits Q (io (W:=W) op).
Proof. unfold io. apply _. Qed.

#[export] Instance ensure_inner_timely cache retrieve record :
  (∀ id, Timely (retrieve id)) → Timely (ensure_inner (W:=W) cache retrieve record).
Proof. intros. unfold ensure_inner, fetch_add. destruct (path_for _ _); apply _. Qed.

#[export] Instance ensure_inner_emits Q cache retrieve record :
  (∀ id, Emits Q (retrieve id)) → Emits Q (ensure_inner (W:=W) cache retrieve record).
Proof.
  intros. unfold ensure_inner, fetch_add. destruct (path_for _ _); [|apply _].
  apply emits_bind_ok; [apply _|]. intros []; apply _.
Qed.

#[export] Instance prune_timely expected entries : Timely (prune (W:=W) expected entries).
Proof. induction entries; simpl; apply timely_bind_ok; apply _. Qed.

#[export] Instance prune_emits Q expected entries : Emits Q (prune (W:=W) expected entries).
Proof. induction entries; simpl; apply emits_bind_ok; try apply _. intros _.
  apply emits_bind; [|done]. destruct (prunes _ _); apply _.
Qed.

#[export] Instance ensure_all_timely cache retrieve records skipped :
  (∀ id, Timely (retrieve id)) → Timely (ensure_all (W:=W) cache retrieve records skipped).
Proof.
  intros. revert skipped. induction records as [|record records IH]; intros skipped; simpl; [apply _|].
  apply timely_bind; [apply _|]. intros [o|[e|[]]]; apply _.
Qed.

#[export] Instance ensure_all_emits Q cache retrieve records skipped :
  (∀ id, Emits Q (retrieve id)) → Emits Q (ensure_all (W:=W) cache retrieve records skipped).
Proof.
  intros. revert skipped. induction records as [|record records IH]; intros skipped; simpl; [apply _|].
  apply emits_bind; [apply _|]. intros [o|[e|[]]]; try apply _; destruct (negb _); apply _.
Qed.

End runs.

(** ** Specifications *)

Section cache.
Context {W : Wire} {NM : Names W} {E : Type} {NE : Net W E} {FS : Fs E} {FL : FsLaws E}.
Implicit Types w : CWorld W E.
Implicit Types D : Disk.
Implicit Types cache : AudioCache.

Definition same_files w w' : Prop :=
  disk (env w') = disk (env w) ∧ temp_counter (env w') = temp_counter (env w).

(** What the cache relies on: downloading does not touch the disk or the counter
    of temp files, and what it returns for [id] is data that was served for it.
    What was served depends on what happened so far. *)
Class AudioProvider (serves : list (Event W E) → Uuid → list Z → Prop) (retrieve : Retrieve) : Prop := {
  serves_mono tr l id data : serves tr id data → serves (tr ++ l) id data;
  retrieve_timely id :: Timely (retrieve id);
  retrieve_wp id dl w :
    wp (retrieve id) dl (λ r w', same_files w w' ∧ ∀ data, r = Ok data → serves (trace w') id data)
      (same_files w) w
}.

(** [grows S D D']: temp files aside, a path only goes from nothing to a
    directory, or to a file allowed by [S]. *)
Definition grows (S : PathBuf → list Z → Prop) D D' : Prop :=
  ∀ q, extension q = Some "download" ∨ D' !! q = D !! q ∨
    D !! q = None ∧ (D' !! q = Some Dir ∨ ∃ data, D' !! q = Some (File data) ∧ S q data).

Lemma grows_refl S D : grows S D D.
Proof. intros q. auto. Qed.

Lemma grows_trans S D1 D2 D3 : grows S D1 D2 → grows S D2 D3 → grows S D1 D3.
Proof.
  intros H1 H2 q. destruct (H1 q) as [?|[Heq|[Hn H]]]; [by left|..].
  - rewrite <-Heq. apply H2.
  - destruct (H2 q) as [?|[Heq2|[Hn2 _]]]; [by left| |].
    + right; right. by rewrite Heq2.
    + rewrite Hn2 in H. naive_solver.
Qed.

Lemma grows_dirs S base D D' : dirs_added base D D' → grows S D D'.
Proof. intros H q. destruct (H q) as [?|(? & ? & _)]; auto. Qed.

Lemma grows_temp S base id n D node : grows S D (<[join base (temp_name id n) := node]> D).
Proof.
  intros q. destruct (decide (q = join base (temp_name id n))) as [->|Hne].
  - left. apply extension_temp.
  - right; left. by rewrite lookup_insert_ne.
Qed.

Lemma grows_delete_temp S base id n D : grows S D (delete (join base (temp_name id n)) D).
Proof.
  intros q. destruct (decide (q = join base (temp_name id n))) as [->|Hne].
  - left. apply extension_temp.
  - right; left. by rewrite lookup_delete_ne.
Qed.

Lemma grows_file (S : PathBuf → list Z → Prop) p data D : D !! p = None → S p data → grows S D (<[p := File data]> D).
Proof.
  intros Hn HS q. right. destruct (decide (q = p)) as [->|Hne].
  - right. rewrite lookup_insert_eq. eauto.
  - left. by rewrite lookup_insert_ne.
Qed.

(** The awaited file operations, by their laws. *)
Lemma wp_io {A} (op : option N → E → N * E * Result A (FsError E)) did may dl
    (Q : Result A (AudioCacheError W E) → CWorld W E → Prop) C w :
  fs_op op did may →
  (∀ w', trace w' = trace w ∧ temp_counter (env w') = temp_counter (env w) → may (disk (env w)) (disk (env w')) →
    C w' ∧ (∀ e, Q (Err (AIo e)) w') ∧ ∀ a, did (disk (env w)) a (disk (env w')) → Q (Ok a) w') →
  wp (io op) dl Q C w.
Proof.
  intros Hop H. apply wp_await_map_err, wp_await_op. intros o dur e [a|err] clk Heq;
    destruct (Hop _ _ _ _ _ Heq) as (Hcnt & Hmay & Hdid);
    destruct (H (mkWorld clk e (trace w)) (conj eq_refl Hcnt) Hmay) as (HC & HE & HQ); (split; [|done]); intros Ht.
  - apply HQ. by apply Hdid.
  - apply HE.
Qed.

Lemma temp_not_audio base id n id' hash :
  join base (temp_name id n) ≠ join base (audio_name id' hash).
Proof.
  intros Heq%(f_equal extension). by rewrite extension_temp, extension_audio in Heq.
Qed.

Lemma audio_not_base base id hash : ¬ join base (audio_name id hash) `prefix_of` base.
Proof. intros Hp%prefix_length. unfold join in Hp. rewrite length_app in Hp. simpl in Hp. lia. Qed.

Lemma path_is_audio cache record p : path_for cache record = Some p →
  ∃ hash, p = join (base_path cache) (audio_name (ar_id record) hash) ∧ ar_audio_hash record = Some hash.
Proof. unfold path_for. destruct (ar_audio_hash record) as [h|]; intros [= <-]. eauto. Qed.

(** What [ensure_inner] may do to the disk for [record]. *)
Definition own (serves : Uuid → list Z → Prop) cache (record : AchievementRecord) (q : PathBuf) (data : list Z) : Prop :=
  path_for cache record = Some q ∧ serves (ar_id record) data.

(** No partial download is left behind that was not there before. *)
Definition no_new_downloads D D' : Prop :=
  ∀ q data, extension q = Some "download" → D' !! q = Some (File data) → D !! q = Some (File data).

Definition ensured (serves : Uuid → list Z → Prop) cache record D
    (r : Result (option PathBuf) (AudioCacheError W E)) D' : Prop :=
  grows (own serves cache record) D D' ∧
  match r with
  | Ok p => p = path_for cache record ∧ (∀ q, p = Some q → is_Some (D' !! q)) ∧ no_new_downloads D D'
  | Err (ARequest _) => no_new_downloads D D'
  | Err (AIo _) => True
  end.

Lemma no_new_downloads_trans D1 D2 D3 :
  no_new_downloads D1 D2 → no_new_downloads D2 D3 → no_new_downloads D1 D3.
Proof. intros H1 H2 q data Hq Hd. by apply H1, H2. Qed.

Lemma no_new_downloads_dirs base D D' : dirs_added base D D' → no_new_downloads D D'.
Proof. intros H q data Hq Hd. destruct (H q) as [<-|(_ & ? & _)]; [done|congruence]. Qed.

Lemma no_new_downloads_renamed base D id n id' hash node data :
  no_new_downloads D (<[join base (audio_name id' hash) := File data]>
    (delete (join base (temp_name id n)) (<[join base (temp_name id n) := node]> D))).
Proof.
  intros q d Hq. rewrite delete_insert_eq. rewrite lookup_insert_ne.
  - intros Hd. by apply lookup_delete_Some in Hd as [_ ?].
  - intros <-. by rewrite extension_audio in Hq.
Qed.

(** Writing a temp file and renaming it: nothing but the two paths changes, and
    the final path goes from nothing to the whole file at once. *)
Lemma wp_store (S : PathBuf → list Z → Prop) base id n id' hash data dl w :
  let tmp := join base (temp_name id n) in
  let path := join base (audio_name id' hash) in
  let D := disk (env w) in
  D !! path = None → S path data →
  wp (let? _ := io (write tmp data) in let? _ := io (rename tmp path) in ret (Ok (Some path))) dl
    (λ (r : Result (option PathBuf) (AudioCacheError W E)) w', trace w' = trace w ∧ grows S D (disk (env w')) ∧
      match r with
      | Ok p => p = Some path ∧ disk (env w') = <[path := File data]> (delete tmp (<[tmp := File data]> D))
      | Err (AIo _) => True
      | Err (ARequest _) => False
      end)
    (λ w', trace w' = trace w ∧ grows S D (disk (env w'))) w.
Proof.
  intros tmp path D Hnone HS.
  apply wp_bind_ok. eapply wp_io; [apply write_law|]. fold D. intros w1 [T1 _] H1.
  assert (grows S D (disk (env w1))) as G1.
  { destruct H1 as [->|(part & _ & ->)]; [apply grows_refl|apply grows_temp]. }
  split_and!; [done..|]. intros _ H1'. clear H1.
  assert (disk (env w1) !! tmp = Some (File data)) as Htmp by (rewrite H1'; apply lookup_insert_eq).
  apply wp_bind_ok. eapply wp_io; [apply (rename_law _ _ data)|]. intros w2 [T2 _] H2.
  assert (grows S D (<[path := File data]> (delete tmp (disk (env w1))))) as G2.
  { eapply grows_trans; [|apply grows_file; [|done]].
    - eapply grows_trans; [exact G1|apply grows_delete_temp].
    - rewrite H1', lookup_delete_ne, lookup_insert_ne by apply temp_not_audio. done. }
  assert (grows S D (disk (env w2))) as G3 by (by destruct (H2 Htmp) as [->| ->]).
  rewrite T1 in T2. split_and!; [done..|]. intros _ H2'. apply wp_ret. split_and!; [done..|]. by rewrite (H2' Htmp), H1'.
Qed.

(** Every file operation of [ensure_inner] keeps [grows]. *)
Lemma wp_ensure_inner serves retrieve cache record dl w :
  AudioProvider serves retrieve →
  wp (ensure_inner cache retrieve record) dl
    (λ r w', ensured (serves (trace w')) cache record (disk (env w)) r (disk (env w')))
    (λ w', grows (own (serves (trace w')) cache record) (disk (env w)) (disk (env w'))) w.
Proof.
  intros HP. unfold ensure_inner. destruct (path_for cache record) as [path|] eqn:Hpath.
  2:{ apply wp_ret. split; [apply grows_refl|]. split_and!; [done|done|by intros ?]. }
  destruct (path_is_audio cache record path Hpath) as (hash & -> & _). set (D0 := disk (env w)).
  apply wp_bind_ok. eapply wp_io; [apply try_exists_law|]. intros w1 _ H1. fold D0 in H1 |- *.
  split_and!; [rewrite H1; apply grows_refl|intros e; split; [rewrite H1; apply grows_refl|done]|].
  intros b ->. case_bool_decide as Hex.
  { apply wp_ret. rewrite H1. split; [apply grows_refl|]. split_and!; [done| |by intros ?].
    by intros q [= <-]. }
  apply eq_None_not_Some in Hex. apply wp_bind_ok. eapply wp_io; [apply create_dir_all_law|].
  intros w2 _ H2. rewrite H1 in H2. assert (∀ S, grows S D0 (disk (env w2))) as G2 by (intros S; by eapply grows_dirs).
  split_and!; [done|done|]. intros _ _.
  apply wp_bind_ok, wp_await_map_err. eapply wp_mono; [apply (retrieve_wp (ar_id record))|..].
  2:{ intros w3 [H3 _]. by rewrite H3. }
  intros [data|e] w3 [[H3 _] Hserves]; simpl.
  2:{ rewrite H3. split; [done|]. by eapply no_new_downloads_dirs. }
  apply wp_bind, wp_update_env. cbn [fst snd].
  eapply wp_mono; [apply (wp_store (own (serves (trace w3)) cache record))|..]; cbn [env trace]; rewrite ?counter_disk, ?H3.
  - destruct (H2 (join (base_path cache) (audio_name (ar_id record) hash))) as [->|(_ & _ & Hp)]; [done|].
    by apply audio_not_base in Hp.
  - split; [done|]. by apply Hserves.
  - intros r w4 (-> & G4 & Hr). split; [by eapply grows_trans|]. destruct r as [p|[e|e]]; [|done..].
    destruct Hr as [-> ->]. split_and!; [done| |].
    + intros q [= <-]. rewrite lookup_insert_eq. eauto.
    + eapply no_new_downloads_trans; [by eapply no_new_downloads_dirs|apply no_new_downloads_renamed].
  - intros w4 [-> G4]. by eapply grows_trans.
Qed.

(** *** [sync] *)

(** [pruned expected D D']: only entries [sync] prunes are gone. *)
Definition pruned (expected : gset PathBuf) D D' : Prop :=
  ∀ q, D' !! q = D !! q ∨ D' !! q = None ∧ prunes expected q = true.

Lemma pruned_trans expected D1 D2 D3 : pruned expected D1 D2 → pruned expected D2 D3 → pruned expected D1 D3.
Proof.
  intros H1 H2 q. destruct (H2 q) as [->|?]; [|by right]. apply H1.
Qed.

Lemma pruned_delete expected p D : prunes expected p = true → pruned expected D (delete p D).
Proof.
  intros Hp q. destruct (decide (q = p)) as [->|Hne].
  - right. by rewrite lookup_delete_eq.
  - left. by rewrite lookup_delete_ne.
Qed.

Definition is_file (o : option Node) : bool := match o with Some (File _) => true | _ => false end.

Lemma pruned_not_file expected q D D' : pruned expected D D' → is_file (D !! q) = false → is_file (D' !! q) = false.
Proof. intros H Hq. by destruct (H q) as [->|[-> _]]. Qed.

(** The pruning loop with a list of the paths whose removal failed; the code drops
    these results. *)
Fixpoint prune_failures (expected : gset PathBuf) (entries failed : list PathBuf) :
  Async W E (Result (list PathBuf) (AudioCacheError W E)) :=
  let? _ := io next_entry in
  match entries with
  | [] => ret (Ok failed)
  | path :: entries =>
      let* r := (if prunes expected path then await_op (remove_file path) else ret (Ok tt)) in
      prune_failures expected entries (if r is Err _ then failed ++ [path] else failed)
  end.

(** The removals that fail while [sync] runs. *)
Definition sync_failures cache (records : list AchievementRecord) :
  Async W E (Result (list PathBuf) (AudioCacheError W E)) :=
  let? _ := io (create_dir_all (base_path cache)) in
  let? entries := io (read_dir (base_path cache)) in
  prune_failures (list_to_set (omap (path_for cache) records)) entries [].

(** Keeping the list changes nothing else. *)
Lemma prune_failures_prune expected entries failed dl w :
  prune expected entries dl w =
    let '(o, w') := prune_failures expected entries failed dl w in (map_ok (λ _, tt) <$> o, w').
Proof.
  revert failed w. induction entries as [|p entries IH]; intros failed w; simpl;
    unfold bind_ok, bind; destruct (io next_entry dl w) as [[[u|e]|] w1]; try done.
  destruct (prunes expected p); simpl.
  - destruct (await_op (remove_file p) dl w1) as [[r|] w2]; simpl; [apply IH|done].
  - apply IH.
Qed.

Lemma wp_prune_failures expected entries failed dl w :
  wp (prune_failures expected entries failed) dl
    (λ r w', pruned expected (disk (env w)) (disk (env w')) ∧
      match r with
      | Ok failed' => failed ⊆ failed' ∧
          ∀ q, q ∈ entries → prunes expected q = true → is_file (disk (env w') !! q) = false ∨ q ∈ failed'
      | Err (AIo _) => True
      | Err (ARequest _) => False
      end)
    (λ w', pruned expected (disk (env w)) (disk (env w'))) w.
Proof.
  revert failed w. induction entries as [|p entries IH]; intros failed w; simpl; apply wp_bind_ok;
    (eapply wp_io; [apply next_entry_law|]); intros w1 _ H1;
    (assert (pruned expected (disk (env w)) (disk (env w1))) as P1 by (rewrite H1; by left));
    (split_and!; [done|done|]); intros _ _.
  { apply wp_ret. split_and!; [done|done|]. intros q Hq. by apply elem_of_nil in Hq. }
  apply wp_bind. destruct (prunes expected p) eqn:Hp.
  - apply wp_await_op. intros o dur e r clk Hop.
    destruct (remove_file_law _ _ _ _ _ _ Hop) as (_ & Hmay & Hdid).
    assert (pruned expected (disk (env w)) (disk e)) as P2.
    { eapply pruned_trans; [done|]. destruct Hmay as [->| ->]; [by left|by apply pruned_delete]. }
    split; [|done]. intros Hin. eapply wp_mono; [apply IH|..]; cbn [env].
    + intros r' w' [P3 Hr']. split; [by eapply pruned_trans|]. destruct r' as [failed'|[]]; [|done..].
      destruct Hr' as [Hsub Hr']. split; [destruct r; [done|set_solver]|].
      intros q [->|Hq]%elem_of_cons Hpq; [|by apply Hr']. destruct r as [[]|err]; [left|right; set_solver].
      eapply pruned_not_file; [done|]. by rewrite (Hdid tt eq_refl Hin), lookup_delete_eq.
    + intros w' P3. by eapply pruned_trans.
  - apply wp_ret. eapply wp_mono; [apply IH|..].
    + intros r' w' [P3 Hr']. split; [by eapply pruned_trans|]. destruct r' as [failed'|[]]; [|done..].
      destruct Hr' as [Hsub Hr']. split; [done|].
      intros q [->|Hq]%elem_of_cons Hpq; [congruence|by apply Hr'].
    + intros w' P3. by eapply pruned_trans.
Qed.

Definition prune_post expected D (r : Result unit (AudioCacheError W E)) D' : Prop :=
  pruned expected D D' ∧ match r with Err (ARequest _) => False | _ => True end.

Lemma wp_prune expected entries dl w :
  wp (prune expected entries) dl
    (λ r w', prune_post expected (disk (env w)) r (disk (env w')))
    (λ w', pruned expected (disk (env w)) (disk (env w'))) w.
Proof.
  pose proof (wp_prune_failures expected entries [] dl w) as H. unfold wp in *.
  rewrite (prune_failures_prune _ _ []). destruct (prune_failures _ _ _ _ _) as [[[l|[]]|] w']; unfold prune_post; naive_solver.
Qed.

(** What downloading for several records may do to the disk. *)
Definition own_any (serves : Uuid → list Z → Prop) cache (records : list AchievementRecord) (q : PathBuf) (data : list Z) : Prop :=
  ∃ record, record ∈ records ∧ own serves cache record q data.

Lemma grows_mono (S S' : PathBuf → list Z → Prop) D D' : (∀ q data, S q data → S' q data) → grows S D D' → grows S' D D'.
Proof. intros HS H q. destruct (H q) as [?|[?|(? & [?|(data & ? & ?)])]]; eauto 10. Qed.

Definition filled (serves : Uuid → list Z → Prop) cache records skipped D
    (r : Result (list Uuid) (AudioCacheError W E)) D' : Prop :=
  grows (own_any serves cache records) D D' ∧
  match r with
  | Ok all => ∃ sk, all = skipped ++ sk ∧ sk ⊆ (ar_id <$> records) ∧ no_new_downloads D D' ∧
      ∀ record p, record ∈ records → path_for cache record = Some p →
        is_Some (D' !! p) ∨ ar_id record ∈ sk
  | Err (ARequest (Error e)) => is_fatal e = true
  | Err _ => True
  end.

Lemma grows_keeps_audio S cache record p D D' : path_for cache record = Some p →
  grows S D D' → is_Some (D !! p) → D' !! p = D !! p.
Proof.
  intros Hp H [node Hn]. destruct (path_is_audio _ _ _ Hp) as (hash & -> & _).
  destruct (H (join (base_path cache) (audio_name (ar_id record) hash))) as [Hx|[?|[? _]]]; [|done|congruence].
  by rewrite extension_audio in Hx.
Qed.

(** One more record in front. *)
Lemma filled_cons serves cache record records skipped sk1 D D1 r D' :
  grows (own serves cache record) D D1 → no_new_downloads D D1 → sk1 ⊆ [ar_id record] →
  (∀ p, path_for cache record = Some p → is_Some (D1 !! p) ∨ ar_id record ∈ sk1) →
  filled serves cache records (skipped ++ sk1) D1 r D' →
  filled serves cache (record :: records) skipped D r D'.
Proof.
  intros G N Hsk1 Hdone [G' Hr]. split.
  { eapply grows_trans; (eapply grows_mono; [|done]).
    - intros q data ?. exists record. split; [by left|done].
    - intros q data (rec & ? & ?). exists rec. split; [by right|done]. }
  destruct r as [all|[e|[]]]; try done. destruct Hr as (sk & -> & Hsub & N' & Hall).
  exists (sk1 ++ sk). split_and!.
  - by rewrite (assoc_L (++)).
  - intros x [Hx%Hsk1|Hx%Hsub]%elem_of_app; rewrite fmap_cons, elem_of_cons; [left|by right].
    by apply list_elem_of_singleton.
  - by eapply no_new_downloads_trans.
  - intros rec p [->|Hin]%elem_of_cons Hp.
    + destruct (Hdone p Hp) as [Hs|?]; [left|right; apply elem_of_app; by left].
      rewrite (grows_keeps_audio _ _ _ _ _ _ Hp G' Hs). done.
    + destruct (Hall rec p Hin Hp); [by left|right; apply elem_of_app; by right].
Qed.

Lemma own_mono (serves serves' : Uuid → list Z → Prop) cache record q data :
  (∀ id data, serves id data → serves' id data) → own serves cache record q data → own serves' cache record q data.
Proof. intros Hs [? ?]. split; auto. Qed.

(** One record first, the others later. *)
Lemma grows_own_cons (serves serves' : Uuid → list Z → Prop) cache record records D D1 D2 :
  (∀ id data, serves id data → serves' id data) →
  grows (own serves cache record) D D1 → grows (own_any serves' cache records) D1 D2 →
  grows (own_any serves' cache (record :: records)) D D2.
Proof.
  intros Hs G1 G2. eapply grows_trans; (eapply grows_mono; [|done]).
  - intros q data ?. exists record. split; [by left|by eapply own_mono].
  - intros q data (rec & ? & ?). exists rec. split; [by right|done].
Qed.

Lemma wp_ensure_all serves retrieve cache records skipped dl w :
  AudioProvider serves retrieve →
  wp (ensure_all cache retrieve records skipped) dl
    (λ r w', filled (serves (trace w')) cache records skipped (disk (env w)) r (disk (env w')))
    (λ w', grows (own_any (serves (trace w')) cache records) (disk (env w)) (disk (env w'))) w.
Proof.
  intros HP. revert skipped w. induction records as [|record records IH]; intros skipped w; simpl.
  { apply wp_ret. split; [apply grows_refl|]. exists []. rewrite app_nil_r.
    split_and!; [done|done|by intros ?|]. intros rec p Hin. by apply elem_of_nil in Hin. }
  apply wp_bind. eapply wp_mono; [by apply (wp_ensure_inner serves)|..].
  2:{ intros w' G. eapply (grows_own_cons (serves (trace w'))); [done|exact G|apply grows_refl]. }
  assert (∀ w1 w2 : CWorld W E, (∃ l, trace w2 = trace w1 ++ l) →
    ∀ id data, serves (trace w1) id data → serves (trace w2) id data) as Hmono.
  { intros w1 w2 [l ->] id data. apply serves_mono. }
  intros r w1 [G Hr]. destruct r as [o|e].
  - destruct Hr as (-> & Hex & N). eapply wp_mono; [apply wp_and; [apply IH|by apply timely_wp, _]|..].
    + intros r w2 [Hf Hl]. eapply (filled_cons (serves (trace w2)) _ _ _ _ []); [|done|by intros ? ?%elem_of_nil|by eauto|by rewrite app_nil_r].
      eapply grows_mono; [|exact G]. intros q data. apply own_mono. by apply Hmono.
    + intros w2 [G2 Hl]. eapply grows_own_cons; [by apply (Hmono w1)|exact G|done].
  - assert (grows (own_any (serves (trace w1)) cache (record :: records)) (disk (env w)) (disk (env w1))) as G'
      by (eapply grows_own_cons; [done|exact G|apply grows_refl]).
    destruct e as [e|[| |e| | |]]; try (apply wp_ret; by split).
    destruct (is_fatal e) eqn:Hfatal; simpl; [apply wp_ret; by split|].
    eapply wp_mono; [apply wp_and; [apply IH|by apply timely_wp, _]|..].
    + intros r w2 [Hf Hl]. eapply (filled_cons (serves (trace w2)) _ _ _ _ [ar_id record]); [|done|by intros ?| |done].
      * eapply grows_mono; [|exact G]. intros q data. apply own_mono. by apply Hmono.
      * intros p _. right. by apply list_elem_of_singleton.
    + intros w2 [G2 Hl]. eapply grows_own_cons; [by apply (Hmono w1)|exact G|done].
Qed.

Definition expected_paths cache (records : list AchievementRecord) : gset PathBuf := list_to_set (omap (path_for cache) records).

(** The disk goes through three phases: directories, pruning, downloads. *)
Definition sync_frame (serves : Uuid → list Z → Prop) cache records D D' : Prop :=
  ∃ D1 D2, dirs_added (base_path cache) D D1 ∧ pruned (expected_paths cache records) D1 D2 ∧
    grows (own_any serves cache records) D2 D'.

Definition synced (serves : Uuid → list Z → Prop) cache records D
    (r : Result (list Uuid) (AudioCacheError W E)) D' : Prop :=
  sync_frame serves cache records D D' ∧
  match r with
  | Ok skipped => skipped ⊆ (ar_id <$> records) ∧
      (∀ record p, record ∈ records → path_for cache record = Some p →
        is_Some (D' !! p) ∨ ar_id record ∈ skipped)
  | Err (ARequest (Error e)) => is_fatal e = true
  | Err _ => True
  end.

Lemma expected_spec cache records p :
  p ∈ expected_paths cache records ↔ ∃ record, record ∈ records ∧ path_for cache record = Some p.
Proof. unfold expected_paths. rewrite elem_of_list_to_set, list_elem_of_omap. done. Qed.

(** After pruning, downloads only add expected files. *)
Lemma grows_prunes_nothing serves cache records D2 D' q :
  grows (own_any serves cache records) D2 D' → no_new_downloads D2 D' →
  is_file (D' !! q) = true → prunes (expected_paths cache records) q = true → is_file (D2 !! q) = true.
Proof.
  intros G N Hf Hp. destruct (D' !! q) as [[data|]|] eqn:Hq; try done.
  destruct (decide (extension q = Some "download")) as [Hext|Hext].
  { by rewrite (N q data Hext Hq). }
  destruct (G q) as [?|[Heq|(_ & [?|(d & _ & rec & Hrec & Hown & _)])]]; [done|by rewrite <-Heq, Hq|congruence|].
  assert (q ∈ expected_paths cache records) as Hin by (apply expected_spec; eauto).
  unfold prunes in Hp. rewrite (bool_decide_eq_false_2 _ Hext), (bool_decide_eq_true_2 _ Hin) in Hp.
  by rewrite andb_false_r in Hp.
Qed.

Lemma wp_sync serves retrieve cache records dl w :
  AudioProvider serves retrieve →
  wp (sync cache retrieve records) dl
    (λ r w', synced (serves (trace w')) cache records (disk (env w)) r (disk (env w')))
    (λ w', sync_frame (serves (trace w')) cache records (disk (env w)) (disk (env w'))) w.
Proof.
  intros HP. unfold sync. set (D := disk (env w)).
  assert (∀ D1 D2, dirs_added (base_path cache) D D1 → pruned (expected_paths cache records) D1 D2 →
    ∀ S, sync_frame S cache records D D2) as Hframe.
  { intros D1 D2 ? ? S. exists D1, D2. split_and!; [done..|apply grows_refl]. }
  apply wp_bind_ok. eapply wp_io; [apply create_dir_all_law|]. intros w1 _ H1.
  assert (pruned (expected_paths cache records) (disk (env w1)) (disk (env w1))) as Hrefl by (by left).
  split_and!; [by eauto|intros e; split; [by eauto|done]|]. intros _ _.
  fold (expected_paths cache records).
  apply wp_bind_ok. eapply wp_io; [apply read_dir_law|]. intros w2 _ H2. simpl in H2.
  split_and!; [rewrite H2; by eauto|intros e; split; [rewrite H2; by eauto|done]|]. intros entries [_ Hent].
  apply wp_bind_ok. eapply wp_mono; [apply wp_prune|..].
  2:{ rewrite H2. eauto. }
  intros r w3 [P3 Hr]. rewrite H2 in P3. destruct r as [u|[e|e]]; [|by split; [eauto|]|done].
  eapply wp_mono; [by apply (wp_ensure_all serves)|..].
  2:{ intros w4 G. by exists (disk (env w1)), (disk (env w3)). }
  intros r w4 [G Hf]. split; [by exists (disk (env w1)), (disk (env w3))|].
  destruct r as [skipped|[e|[]]]; try done. destruct Hf as (sk & -> & Hsub & N & Hall).
  done.
Qed.

Lemma entries_of_read_dir p dl w entries w' : io (read_dir p) dl w = (Some (Ok entries), w') →
  ∀ q, q ∈ entries ↔ is_Some (disk (env w') !! q) ∧ ∃ name, q = join p name.
Proof.
  intros Hrun. enough (wp (io (read_dir p)) dl (λ r w', ∀ entries, r = Ok entries →
    ∀ q, q ∈ entries ↔ is_Some (disk (env w') !! q) ∧ ∃ name, q = join p name) (λ _, True) w) as Hwp
    by exact (wp_run _ _ _ _ _ _ _ Hrun Hwp entries eq_refl).
  eapply wp_io; [apply read_dir_law|]. intros w1 _ H1. simpl in H1.
  split_and!; [done|done|]. intros l [_ Hl] ? [= <-]. rewrite H1. exact Hl.
Qed.

(** After a sync that succeeded, an entry it prunes is a file only if its removal
    failed. *)
Lemma sync_leftovers serves retrieve cache records dl w skipped w' :
  AudioProvider serves retrieve → sync cache retrieve records dl w = (Some (Ok skipped), w') →
  ∃ failed w3, sync_failures cache records dl w = (Some (Ok failed), w3) ∧
    ∀ name, let q := join (base_path cache) name in
      is_file (disk (env w') !! q) = true → prunes (expected_paths cache records) q = true → q ∈ failed.
Proof.
  intros HP [(u & w1 & H1 & Hrun)|[(? & _ & ?)|[_ ?]]]%run_bind_ok; [|done..].
  destruct (run_bind_ok _ _ _ _ _ _ Hrun) as [(entries & w2 & H2 & Hrun2)|[(? & _ & ?)|[_ ?]]]; [|done..].
  destruct (run_bind_ok _ _ _ _ _ _ Hrun2) as [([] & w3 & H3 & H4)|[(? & _ & ?)|[_ ?]]]; [|done..].
  rewrite (prune_failures_prune _ _ []) in H3. fold (expected_paths cache records) in H3.
  destruct (prune_failures _ entries [] dl w2) as [[[failed|e]|] w3'] eqn:Hf; simplify_eq/=.
  exists failed, w3. split. { unfold sync_failures, bind_ok, bind. by rewrite H1, H2. }
  pose proof (wp_run _ _ _ _ _ _ _ Hf (wp_prune_failures _ _ _ _ _)) as (P3 & _ & Hfailed).
  pose proof (wp_run _ _ _ _ _ _ _ H4 (wp_ensure_all serves retrieve cache records [] dl w3 HP))
    as (G & sk & _ & _ & N & _).
  intros name. set (q := join _ name). intros Hfile Hp. assert (is_file (disk (env w3) !! q) = true) as Hq3 by (by eapply grows_prunes_nothing).
  enough (q ∈ entries) as Hin by (destruct (Hfailed q Hin Hp); congruence).
  apply (entries_of_read_dir _ _ _ _ _ H2). split; [|by exists name].
  destruct (P3 q) as [Heq|[Hn _]]; [|by rewrite Hn in Hq3]. rewrite <-Heq. by destruct (disk (env w3) !! q).
Qed.

(** ** The cache *)

(** Every file under a final name holds a complete answer of the server. *)
Definition cache_ok (serves : Uuid → list Z → Prop) cache D : Prop :=
  ∀ record path data, path_for cache record = Some path → D !! path = Some (File data) →
    serves (ar_id record) data.

Lemma cache_ok_grows `{!NamesLaws} serves cache (S : PathBuf → list Z → Prop) D D' :
  (∀ q data, S q data → ∃ record, own serves cache record q data) →
  grows S D D' → cache_ok serves cache D → cache_ok serves cache D'.
Proof.
  intros HS G Hok record path data Hp Hd. destruct (path_is_audio _ _ _ Hp) as (hash & -> & _).
  destruct (G (join (base_path cache) (audio_name (ar_id record) hash)))
    as [Hx|[Heq|(_ & [?|(d & Hd' & Hs)])]]; [by rewrite extension_audio in Hx| |congruence|].
  - eapply Hok; [done|]. by rewrite <-Heq.
  - destruct (HS _ _ Hs) as (rec & Hp' & Hserves). destruct (path_is_audio _ _ _ Hp') as (hash' & Heq & _).
    apply app_inj_tail in Heq as [_ [Hid _]%audio_name_inj]. congruence.
Qed.

Lemma cache_ok_sync `{!NamesLaws} serves cache records D D' :
  sync_frame serves cache records D D' → cache_ok serves cache D → cache_ok serves cache D'.
Proof.
  intros (D1 & D2 & H1 & H2 & H3) Hok. eapply cache_ok_grows; [|done|].
  { intros q data (rec & _ & ?). by exists rec. }
  assert (cache_ok serves cache D1) as Hok1.
  { eapply (cache_ok_grows serves cache (λ _ _, False)); [done|by eapply grows_dirs|done]. }
  intros record path data Hp Hd. destruct (H2 path) as [Heq|[Hn _]]; [|congruence].
  eapply Hok1; [done|]. by rewrite <-Heq.
Qed.

Lemma cache_ok_mono (serves serves' : Uuid → list Z → Prop) cache D :
  (∀ id data, serves id data → serves' id data) → cache_ok serves cache D → cache_ok serves' cache D.
Proof. intros Hs Hok record path data Hp Hd. by eapply Hs, Hok. Qed.

(** However [sync] ends, it keeps the cache complete. *)
Lemma wp_sync_cache_ok `{!NamesLaws} serves retrieve cache records dl w :
  AudioProvider serves retrieve → cache_ok (serves (trace w)) cache (disk (env w)) →
  let ok w' := cache_ok (serves (trace w')) cache (disk (env w')) in
  wp (sync cache retrieve records) dl (λ _ w', ok w') ok w.
Proof.
  intros HP Hok ok.
  assert (∀ w', (∃ l, trace w' = trace w ++ l) →
    sync_frame (serves (trace w')) cache records (disk (env w)) (disk (env w')) → ok w') as Hend.
  { intros w' [l Hl] F. eapply cache_ok_sync; [exact F|]. eapply cache_ok_mono; [|exact Hok].
    intros id data. rewrite Hl. apply serves_mono. }
  eapply wp_mono; [apply wp_and; [by apply (wp_sync serves)|by apply timely_wp; unfold sync; apply _]|..].
  - intros r w' [[F _] Hl]. by apply Hend.
  - intros w' [F Hl]. by apply Hend.
Qed.

Lemma wp_ensure_cache_ok `{!NamesLaws} serves retrieve cache record dl w :
  AudioProvider serves retrieve → cache_ok (serves (trace w)) cache (disk (env w)) →
  let ok w' := cache_ok (serves (trace w')) cache (disk (env w')) in
  wp (ensure cache retrieve record) dl (λ _ w', ok w') ok w.
Proof.
  intros HP Hok ok.
  assert (∀ w', (∃ l, trace w' = trace w ++ l) →
    grows (own (serves (trace w')) cache record) (disk (env w)) (disk (env w')) → ok w') as Hend.
  { intros w' [l Hl] G. eapply cache_ok_grows; [by eauto|exact G|]. eapply cache_ok_mono; [|exact Hok].
    intros id data. rewrite Hl. apply serves_mono. }
  eapply wp_mono; [apply wp_and; [by apply (wp_ensure_inner serves)|by apply timely_wp; unfold ensure; apply _]|..].
  - intros r w' [[G _] Hl]. by apply Hend.
  - intros w' [G Hl]. by apply Hend.
Qed.

(** C8: wherever [ensure] or [sync] is cut off (an error, a cancellation, a crash
    in the middle of writing), every file under a final name is a complete
    answer served for its record, so the existence check never mistakes a
    truncated download for a cached file. *)
Theorem cached_files_are_complete `{!NamesLaws} serves retrieve cache record records dl w :
  AudioProvider serves retrieve → cache_ok (serves (trace w)) cache (disk (env w)) →
  (let w' := (ensure cache retrieve record dl w).2 in cache_ok (serves (trace w')) cache (disk (env w'))) ∧
  (let w' := (sync cache retrieve records dl w).2 in cache_ok (serves (trace w')) cache (disk (env w'))).
Proof.
  intros HP Hok. split.
  - apply (wp_final _ _ (λ w', cache_ok (serves (trace w')) cache (disk (env w')))). by apply wp_ensure_cache_ok.
  - apply (wp_final _ _ (λ w', cache_ok (serves (trace w')) cache (disk (env w')))). by apply wp_sync_cache_ok.
Qed.

(** C23: a sync that succeeds leaves, for every record, its audio file or its ID in
    the returned list, and reports only IDs of the given records. It leaves no
    audio file that no record refers to and no leftover download, except for files
    whose removal the operating system refused during this very sync, errors which
    it ignores. A sync that fails with a server error fails with a fatal one:
    refusals are skipped. *)
Theorem sync_brings_cache_in_line serves retrieve cache records dl w r w' :
  AudioProvider serves retrieve →
  sync cache retrieve records dl w = (Some r, w') →
  match r with
  | Ok skipped =>
      skipped ⊆ (ar_id <$> records) ∧
      (∀ record p, record ∈ records → path_for cache record = Some p →
        is_Some (disk (env w') !! p) ∨ ar_id record ∈ skipped) ∧
      ∃ failed, (sync_failures cache records dl w).1 = Some (Ok failed) ∧
        ∀ name, let q := join (base_path cache) name in
          is_file (disk (env w') !! q) = true → q ∉ failed →
          extension q ≠ Some "download" ∧
          (extension q = Some "mp3" → ∃ record, record ∈ records ∧ path_for cache record = Some q)
  | Err (ARequest (Error error)) => is_fatal error = true
  | Err _ => True
  end.
Proof.
  intros HP Hrun.
  pose proof (wp_run _ _ _ _ _ _ _ Hrun (wp_sync serves retrieve cache records dl w HP)) as [_ Hr].
  destruct r as [skipped|[e|[]]]; try done. destruct Hr as (Hsub & Hall).
  split_and!; [done|done|]. destruct (sync_leftovers _ _ _ _ _ _ _ _ HP Hrun) as (failed & w3 & Hf & Hleft).
  exists failed. rewrite Hf. split; [done|]. intros name q Hfile Hnot.
  assert (prunes (expected_paths cache records) q = false) as Hpr.
  { apply not_true_iff_false. intros Hp. by apply Hnot, Hleft. }
  unfold prunes in Hpr. apply orb_false_iff in Hpr as [Hs Hd]. apply bool_decide_eq_false in Hd.
  split; [done|]. intros Hmp3. rewrite (bool_decide_eq_true_2 _ Hmp3) in Hs. simpl in Hs.
  apply negb_false_iff, bool_decide_eq_true in Hs. by apply expected_spec.
Qed.

(** C24: at no point does [sync] remove or change a file that a record refers to,
    or one that is neither audio nor a leftover download. *)
Theorem sync_keeps_expected_files serves retrieve cache records dl w q node :
  AudioProvider serves retrieve → disk (env w) !! q = Some node →
  (∃ record, record ∈ records ∧ path_for cache record = Some q) ∨
    (extension q ≠ Some "mp3" ∧ extension q ≠ Some "download") →
  disk (env (sync cache retrieve records dl w).2) !! q = Some node.
Proof.
  intros HP Hq Hkeep. apply (wp_final _ _ (λ w', disk (env w') !! q = Some node)).
  assert (extension q ≠ Some "download" ∧ prunes (expected_paths cache records) q = false) as [Hext Hpr].
  { unfold prunes. destruct Hkeep as [Hk|[H1 H2]].
    - rewrite <-expected_spec in Hk. rewrite (bool_decide_eq_true_2 _ Hk), andb_false_r. simpl.
      apply expected_spec in Hk as (rec & _ & Hp). destruct (path_is_audio _ _ _ Hp) as (h & -> & _).
      by rewrite extension_audio.
    - by rewrite (bool_decide_eq_false_2 _ H1), (bool_decide_eq_false_2 _ H2). }
  assert (∀ S w', sync_frame S cache records (disk (env w)) (disk (env w')) →
    disk (env w') !! q = Some node) as Hframe.
  { intros S w' (D1 & D2 & H1 & H2 & H3).
    destruct (H1 q) as [E1|[? _]]; [|congruence]. destruct (H2 q) as [E2|[_ ?]]; [|congruence].
    destruct (H3 q) as [?|[E3|[? _]]]; [done| |]; congruence. }
  eapply wp_mono; [by apply (wp_sync serves)|..]; [|by intros w' ?%Hframe]. intros r w' [F _]. by eapply Hframe.
Qed.

(** C26: a file that is already cached is served from disk: whoever provides the
    audio is not asked, nothing is written, and nothing else can be returned
    than its path or the I/O error of the existence check. *)
Theorem cached_file_is_not_downloaded cache retrieve record path dl w :
  path_for cache record = Some path → is_Some (disk (env w) !! path) →
  let '(r, w') := ensure cache retrieve record dl w in
  trace w' = trace w ∧ disk (env w') = disk (env w) ∧
  (∀ p, r = Some (Ok p) → p = Some path) ∧
  (∀ e, r ≠ Some (Err (ARequest e))) ∧
  ∀ retrieve', ensure cache retrieve' record dl w = ensure cache retrieve record dl w.
Proof.
  intros Hp Hex. unfold ensure, ensure_inner. rewrite Hp. unfold io, bind_ok, await_map_err, bind, await_op, ret.
  destruct (try_exists path _ (env w)) as [[dur e] r] eqn:Hop.
  destruct (try_exists_law _ _ _ _ _ _ Hop) as (_ & Hmay & Hdid).
  assert (∀ b, r = Ok b → in_time ((λ d, (d - clock w)%N) <$> dl) dur → b = true) as Hb.
  { intros b Hr Hin. rewrite (Hdid b Hr Hin). by apply bool_decide_eq_true_2. }
  assert (in_time ((λ d, (d - clock w)%N) <$> dl) dur ∨ ∃ d, dl = Some d ∧ ¬ (clock w + dur ≤ d)%N) as Hin.
  { destruct dl as [d|]; [|by left]. destruct (decide (clock w + dur ≤ d)%N); [left|right; eauto].
    intros ? [= <-]. lia. }
  destruct r as [b|err]; destruct Hin as [Hin|(d & -> & Hd)].
  all: try rewrite (Hb b eq_refl Hin).
  all: try (rewrite (proj2 (N.leb_gt _ _)) by lia; cbn [env trace]; by split_and!).
  all: destruct dl as [d|]; [destruct (_ <=? _)%N|]; cbn [env trace map_err]; split_and!; naive_solver.
Qed.

End cache.
