(* ===== verification/AudioCacheConcurrent.v ===== *)
(** * Concurrent use of the audio cache (src/src/audio_cache.rs)

    Any number of [ensure_inner] calls and of pruning loops on one directory, as a
    step relation in which every effect on the disk is a step of its own. A
    dropped call leaves its file operation running: [tokio::fs] does the work on
    another thread. All calls share [TEMP_COUNTER], and the disk changes under
    their feet. *)

From Stdlib Require Import Ascii.
From stdpp Require Import pretty relations.
From S2P Require Import Prelude Async Protocol Request ClientData Connection AudioCache AudioCacheTheorems.

(** Temp files with different numbers have different names. *)
Lemma temp_name_inj `{NL : NamesLaws} id id' n n' : temp_name id n = temp_name id' n' → id = id' ∧ n = n'.
Proof.
  unfold temp_name. intros Heq.
  destruct (string_split_inj "." (uuid_to_string id) (uuid_to_string id') (pretty n +:+ ".download")
    (pretty n' +:+ ".download")) as [Hid Hn]; [..|exact Heq|].
  1, 2: by intros [_ ?]%uuid_plain.
  split; [by apply uuid_inj|]. apply (inj pretty). eapply string_app_inj_r. exact Hn.
Qed.

(** ** The machine *)

Section machine.
Context {W : Wire} {NM : Names W} {E : Type} {NE : Net W E} {FS : Fs E}.
Context (serves : Uuid → list Z → Prop) (cache : AudioCache).

(** Where a call of [ensure_inner] stands: at which await, or at its end. *)
Inductive Phase :=
| Checking
| MakingDir
| Fetching
| Writing (n : N) (data : list Z)
| Renaming (n : N) (data : list Z)
| Ended (r : Result (option PathBuf) (AudioCacheError W E)).

(** A call: its record, its phase, and whether its future was dropped. *)
Record Task := mkTask { t_record : AchievementRecord; t_phase : Phase; t_dropped : bool }.

Definition tmp_path (record : AchievementRecord) (n : N) : PathBuf :=
  join (base_path cache) (temp_name (ar_id record) n).

(** Up to its first await. *)
Definition start (record : AchievementRecord) : Phase :=
  match path_for cache record with None => Ended (Ok None) | Some _ => Checking end.

(** What the file operation a call is waiting for may do to the disk meanwhile.
    A rename moves what it finds. *)
Definition effect (record : AchievementRecord) (phase : Phase) (D D' : Disk) : Prop :=
  match phase with
  | MakingDir => dirs_added (base_path cache) D D'
  | Writing n data => ∃ part, part `prefix_of` data ∧ D' = <[tmp_path record n := File part]> D
  | Renaming n _ => ∃ x path, path_for cache record = Some path ∧
      D !! tmp_path record n = Some (File x) ∧ D' = <[path := File x]> (delete (tmp_path record n) D)
  | _ => False
  end.

(** How a call goes on when its operation is done: disk, counter and phase before
    and after. A write has filled its file unless someone else removed it. *)
Inductive advance (record : AchievementRecord) (D : Disk) (k : N) : Phase → Disk → N → Phase → Prop :=
| adv_hit path : path_for cache record = Some path → is_Some (D !! path) →
    advance record D k Checking D k (Ended (Ok (Some path)))
| adv_miss path : path_for cache record = Some path → D !! path = None →
    advance record D k Checking D k MakingDir
| adv_made : D !! base_path cache = Some Dir → advance record D k MakingDir D k Fetching
| adv_fetched data : serves (ar_id record) data →
    advance record D k Fetching D ((k + 1) mod 2 ^ 64)%N (Writing k data)
| adv_refused e : advance record D k Fetching D k (Ended (Err (ARequest e)))
| adv_written n data : D !! tmp_path record n = Some (File data) ∨ D !! tmp_path record n = None →
    advance record D k (Writing n data) D k (Renaming n data)
| adv_renamed n data x path : path_for cache record = Some path → D !! tmp_path record n = Some (File x) →
    advance record D k (Renaming n data) (<[path := File x]> (delete (tmp_path record n) D)) k (Ended (Ok (Some path)))
| adv_failed phase e : phase ≠ Fetching → (∀ r, phase ≠ Ended r) →
    advance record D k phase D k (Ended (Err (AIo e))).

(** The disk, the counter, the calls so far, and how many numbers were drawn. *)
Record CSys := mkCSys {
  c_disk : Disk;
  c_counter : N;
  c_tasks : gmap nat Task;
  c_drawn : N
}.

(** A number is drawn on the way from fetching to writing. *)
Definition draws (phase phase' : Phase) : N :=
  match phase, phase' with Fetching, Writing _ _ => 1 | _, _ => 0 end.

(** A call starts, its file operation touches the disk, it goes on to its next
    await, or it is dropped; beside the calls, a sync creates the directory and
    prunes entries, whatever records it expects. *)
Inductive c_step : CSys → CSys → Prop :=
| c_spawn s t record : c_tasks s !! t = None →
    c_step s (mkCSys (c_disk s) (c_counter s)
      (<[t := mkTask record (start record) false]> (c_tasks s)) (c_drawn s))
| c_effect s t record phase dropped D' : c_tasks s !! t = Some (mkTask record phase dropped) →
    effect record phase (c_disk s) D' →
    c_step s (mkCSys D' (c_counter s) (c_tasks s) (c_drawn s))
| c_advance s t record phase D' k' phase' : c_tasks s !! t = Some (mkTask record phase false) →
    advance record (c_disk s) (c_counter s) phase D' k' phase' →
    c_step s (mkCSys D' k' (<[t := mkTask record phase' false]> (c_tasks s)) (c_drawn s + draws phase phase'))
| c_drop s t record phase : c_tasks s !! t = Some (mkTask record phase false) →
    c_step s (mkCSys (c_disk s) (c_counter s) (<[t := mkTask record phase true]> (c_tasks s)) (c_drawn s))
| c_mkdir s D' : dirs_added (base_path cache) (c_disk s) D' →
    c_step s (mkCSys D' (c_counter s) (c_tasks s) (c_drawn s))
| c_prune s expected p : prunes expected p = true →
    c_step s (mkCSys (delete p (c_disk s)) (c_counter s) (c_tasks s) (c_drawn s)).

Definition c_init (D : Disk) : CSys := mkCSys D 0 ∅ 0.

(** ** The invariant *)

(** The number of the temp file a call uses. *)
Definition uses (phase : Phase) : option N :=
  match phase with Writing n _ | Renaming n _ => Some n | _ => None end.

(** Of one call, on a given disk. *)
Definition task_ok (D : Disk) (task : Task) : Prop :=
  match t_phase task with
  | Writing n data => serves (ar_id (t_record task)) data
  | Renaming n data => serves (ar_id (t_record task)) data ∧
      (D !! tmp_path (t_record task) n = Some (File data) ∨ D !! tmp_path (t_record task) n = None)
  | Ended (Ok p) => p = path_for cache (t_record task)
  | _ => True
  end.

Record cinv (s : CSys) : Prop := {
  ci_counter : c_counter s = (c_drawn s `mod` 2 ^ 64)%N;
  ci_below t task n : c_tasks s !! t = Some task → uses (t_phase task) = Some n → (n < c_drawn s)%N;
  ci_distinct t t' task task' n : c_tasks s !! t = Some task → c_tasks s !! t' = Some task' →
    uses (t_phase task) = Some n → uses (t_phase task') = Some n → t = t';
  ci_task t task : c_tasks s !! t = Some task → task_ok (c_disk s) task;
  ci_cache : cache_ok serves cache (c_disk s)
}.

Context {NL : NamesLaws}.

Lemma tmp_path_inj record record' n n' : tmp_path record n = tmp_path record' n' → n = n'.
Proof. intros [_ Heq]%app_inj_tail. by apply temp_name_inj in Heq as [_ ->]. Qed.

Lemma tmp_not_final record n record' path : path_for cache record' = Some path → tmp_path record n ≠ path.
Proof. intros (hash & -> & _)%path_is_audio. apply temp_not_audio. Qed.

Lemma tmp_not_base record n : ¬ tmp_path record n `prefix_of` base_path cache.
Proof. intros Hp%prefix_length. unfold tmp_path, join in Hp. rewrite length_app in Hp. simpl in Hp. lia. Qed.

(** The cache stays complete when a path changes that is no final name. *)
Lemma cache_ok_frame D D' :
  (∀ record path, path_for cache record = Some path → D' !! path = D !! path ∨ D' !! path = None ∨ D' !! path = Some Dir) →
  cache_ok serves cache D → cache_ok serves cache D'.
Proof.
  intros Hf Hok record path data Hp Hd. eapply Hok; [exact Hp|].
  destruct (Hf record path Hp) as [<-|[Hn|Hn]]; [done|congruence..].
Qed.

(** ... and when a complete file appears under a final name. *)
Lemma cache_ok_final D record path data :
  path_for cache record = Some path → serves (ar_id record) data →
  cache_ok serves cache D → cache_ok serves cache (<[path := File data]> D).
Proof.
  intros Hp Hs Hok record' path' data' Hp'. rewrite lookup_insert. case_decide as Heq; [|by apply Hok].
  intros [= <-]. subst path'. apply path_is_audio in Hp as (h & -> & _). apply path_is_audio in Hp' as (h' & Heq & _).
  apply app_inj_tail in Heq as [_ [Hid _]%audio_name_inj]. congruence.
Qed.

(** A call is not disturbed when its own temp file stays or vanishes. *)
Lemma task_ok_frame D D' task :
  (∀ n, uses (t_phase task) = Some n →
    D' !! tmp_path (t_record task) n = D !! tmp_path (t_record task) n ∨ D' !! tmp_path (t_record task) n = None) →
  task_ok D task → task_ok D' task.
Proof.
  unfold task_ok. destruct (t_phase task); simpl; try done. intros Hf [Hs Hd]. split; [done|].
  destruct (Hf n eq_refl) as [->| ->]; auto.
Qed.

(** A change of the disk that disturbs nobody keeps the invariant. *)
Lemma cinv_disk s D' : cinv s →
  (∀ t task, c_tasks s !! t = Some task → task_ok D' task) → cache_ok serves cache D' →
  cinv (mkCSys D' (c_counter s) (c_tasks s) (c_drawn s)).
Proof. intros [] Ht Hc. by split. Qed.

Lemma cinv_dirs s D' : cinv s → dirs_added (base_path cache) (c_disk s) D' →
  cinv (mkCSys D' (c_counter s) (c_tasks s) (c_drawn s)).
Proof.
  intros Hs Hd. apply cinv_disk; [done|..].
  - intros t task Ht. eapply task_ok_frame; [|by eapply ci_task]. intros n _.
    destruct (Hd (tmp_path (t_record task) n)) as [->|(_ & _ & Hp)]; [by left|]. by apply tmp_not_base in Hp.
  - eapply cache_ok_frame; [|by apply ci_cache]. intros record path _.
    destruct (Hd path) as [->|(_ & -> & _)]; auto.
Qed.

Lemma cinv_prune s p : cinv s → cinv (mkCSys (delete p (c_disk s)) (c_counter s) (c_tasks s) (c_drawn s)).
Proof.
  assert (∀ q, delete p (c_disk s) !! q = c_disk s !! q ∨ delete p (c_disk s) !! q = None) as Hq.
  { intros q. rewrite lookup_delete. case_decide; auto. }
  intros Hs. apply cinv_disk; [done|..].
  - intros t task Ht. eapply task_ok_frame; [|by eapply ci_task]. intros n _. apply Hq.
  - eapply cache_ok_frame; [|by apply ci_cache]. intros record path _. destruct (Hq path); auto.
Qed.

(** Writing to one's own temp file disturbs no other call. *)
Lemma cinv_write s t record n data dropped part : cinv s →
  c_tasks s !! t = Some (mkTask record (Writing n data) dropped) →
  cinv (mkCSys (<[tmp_path record n := File part]> (c_disk s)) (c_counter s) (c_tasks s) (c_drawn s)).
Proof.
  intros Hs Ht. apply cinv_disk; [done|..].
  - intros t' task Ht'. destruct (decide (t' = t)) as [->|Hne].
    { rewrite Ht in Ht'. injection Ht' as <-. exact (ci_task s Hs _ _ Ht). }
    eapply task_ok_frame; [|by eapply ci_task]. intros n' Hn'. left. rewrite lookup_insert_ne; [done|].
    intros <-%tmp_path_inj. apply Hne. by eapply (ci_distinct s Hs t' t).
  - eapply cache_ok_frame; [|by apply ci_cache]. intros record' path Hp. left. rewrite lookup_insert_ne; [done|].
    by eapply tmp_not_final.
Qed.

(** A rename moves a complete file, whoever else is at work. *)
Lemma cinv_move s t record n data dropped x path : cinv s →
  c_tasks s !! t = Some (mkTask record (Renaming n data) dropped) →
  path_for cache record = Some path → c_disk s !! tmp_path record n = Some (File x) →
  cinv (mkCSys (<[path := File x]> (delete (tmp_path record n) (c_disk s))) (c_counter s) (c_tasks s) (c_drawn s)).
Proof.
  intros Hs Ht Hp Hx. destruct (ci_task s Hs _ _ Ht) as [Hserves Hd]. simpl in *.
  assert (x = data) as -> by (destruct Hd; congruence).
  assert (∀ q, delete (tmp_path record n) (c_disk s) !! q = c_disk s !! q ∨
    delete (tmp_path record n) (c_disk s) !! q = None) as Hq.
  { intros q. rewrite lookup_delete. case_decide; auto. }
  apply cinv_disk; [done|..].
  - intros t' task Ht'. eapply task_ok_frame; [|by eapply ci_task]. intros n' _.
    rewrite lookup_insert_ne; [apply Hq|]. intros Heq. by eapply tmp_not_final.
  - eapply cache_ok_final; [done|done|]. eapply cache_ok_frame; [|by apply ci_cache].
    intros record' path' _. destruct (Hq path'); auto.
Qed.

(** A call takes its next step, without a new number. *)
Lemma cinv_task s t task task' : cinv s → c_tasks s !! t = Some task →
  (∀ n, uses (t_phase task') = Some n → uses (t_phase task) = Some n) → task_ok (c_disk s) task' →
  cinv (mkCSys (c_disk s) (c_counter s) (<[t := task']> (c_tasks s)) (c_drawn s)).
Proof.
  intros [] Ht Hu Hok. split; simpl; try done.
  - intros u x n. rewrite lookup_insert. case_decide as Heq; [|eauto]. intros [= <-] Hn. eauto.
  - intros u u' x x' n. rewrite !lookup_insert. case_decide as H1; case_decide as H2; [congruence|..|by apply ci_distinct0].
    + intros [= <-] Hx' Hn%Hu Hn'. subst u. by eapply ci_distinct0.
    + intros Hx [= <-] Hn Hn'%Hu. subst u'. by eapply ci_distinct0.
  - intros u x. rewrite lookup_insert. case_decide as Heq; [by intros [= <-]|by apply ci_task0].
Qed.

(** ... or draws a number nobody uses. *)
Lemma cinv_draw s t record data : cinv s → c_tasks s !! t = Some (mkTask record Fetching false) →
  serves (ar_id record) data → (c_drawn s + 1 ≤ 2 ^ 64)%N →
  cinv (mkCSys (c_disk s) ((c_counter s + 1) mod 2 ^ 64)
    (<[t := mkTask record (Writing (c_counter s) data) false]> (c_tasks s)) (c_drawn s + 1)).
Proof.
  intros [] Ht Hserves Hb. assert (c_counter s = c_drawn s) as Hk by (rewrite ci_counter0; apply N.mod_small; lia).
  assert (∀ u x n, u ≠ t → c_tasks s !! u = Some x → uses (t_phase x) = Some n → n ≠ c_counter s) as Hnew.
  { intros u x n _ Hx Hn. specialize (ci_below0 _ _ _ Hx Hn). lia. }
  split; simpl; try done.
  - by rewrite Hk.
  - intros u x n. rewrite lookup_insert. case_decide as Heq.
    + intros [= <-] [= <-]. lia.
    + intros Hx Hn. specialize (ci_below0 _ _ _ Hx Hn). lia.
  - intros u u' x x' n. rewrite !lookup_insert. case_decide as H1; case_decide as H2; [congruence|..|by apply ci_distinct0].
    + intros [= <-] Hx' [= <-] Hn'. by destruct (Hnew u' x' (c_counter s)).
    + intros Hx [= <-] Hn [= <-]. by destruct (Hnew u x (c_counter s)).
  - intros u x. rewrite lookup_insert. case_decide as Heq; [by intros [= <-]|by apply ci_task0].
Qed.

Lemma cinv_spawn s t record : cinv s → c_tasks s !! t = None →
  cinv (mkCSys (c_disk s) (c_counter s) (<[t := mkTask record (start record) false]> (c_tasks s)) (c_drawn s)).
Proof.
  assert (uses (start record) = None ∧ task_ok (c_disk s) (mkTask record (start record) false)) as [Hu Hok].
  { unfold task_ok, start. simpl. by destruct (path_for cache record) eqn:Hp. }
  intros [] Ht. split; simpl; try done.
  - intros u x n. rewrite lookup_insert. case_decide as Heq; [intros [= <-]; simpl; by rewrite Hu|eauto].
  - intros u u' x x' n. rewrite !lookup_insert.
    case_decide as H1; case_decide as H2; [congruence|..|by apply ci_distinct0].
    + intros [= <-]. simpl. by rewrite Hu.
    + intros _ [= <-]. simpl. by rewrite Hu.
  - intros u x. rewrite lookup_insert. case_decide as Heq; [by intros [= <-]|by apply ci_task0].
Qed.

Lemma cinv_advance s t record phase D' k' phase' : cinv s →
  c_tasks s !! t = Some (mkTask record phase false) → advance record (c_disk s) (c_counter s) phase D' k' phase' →
  (c_drawn s + draws phase phase' ≤ 2 ^ 64)%N →
  cinv (mkCSys D' k' (<[t := mkTask record phase' false]> (c_tasks s)) (c_drawn s + draws phase phase')).
Proof.
  intros Hs Ht Hadv. destruct Hadv as [path Hp Hex|path Hp Hn|Hb|data Hd|e|n data Hd|n data x path Hp Hx|phase e Hf He];
    simpl; try rewrite N.add_0_r; intros Hb64.
  1, 2, 3, 5: (eapply cinv_task; [done..|]; unfold task_ok; simpl; auto).
  - by apply cinv_draw.
  - eapply cinv_task; [done|done|by intros n' [= <-]|]. split; [exact (ci_task s Hs _ _ Ht)|done].
  - pose proof (cinv_move s t record n data false x path Hs Ht Hp Hx) as Hm.
    eapply (cinv_task _ t _ (mkTask record (Ended (Ok (Some path))) false) Hm); [exact Ht|done|by unfold task_ok].
  - replace (draws phase _) with 0%N by (by destruct phase). rewrite N.add_0_r. by eapply cinv_task.
Qed.

Lemma cinv_step s s' : cinv s → c_step s s' → (c_drawn s' ≤ 2 ^ 64)%N → cinv s'.
Proof.
  intros Hs Hstep. destruct Hstep as [s t record Ht|s t record phase dropped D' Ht He|s t record phase D' k' phase' Ht Ha
    |s t record phase Ht|s D' Hd|s expected p Hp]; simpl; intros Hb.
  - by apply cinv_spawn.
  - destruct phase as [| | |n data|n data|r]; simpl in He; try done.
    + by apply cinv_dirs.
    + destruct He as (part & _ & ->). by eapply cinv_write.
    + destruct He as (x & path & Hp & Hx & ->). by eapply cinv_move.
  - by eapply cinv_advance.
  - eapply cinv_task; [done|done|done|]. exact (ci_task s Hs _ _ Ht).
  - by apply cinv_dirs.
  - by apply cinv_prune.
Qed.

Lemma drawn_grows s s' : c_step s s' → (c_drawn s ≤ c_drawn s')%N.
Proof. intros []; simpl; lia. Qed.

Lemma cinv_steps s s' : cinv s → rtc c_step s s' → (c_drawn s' ≤ 2 ^ 64)%N → cinv s'.
Proof.
  intros Hs Hr Hb. induction Hr as [|s1 s2 s3 Hstep Hr IH]; [done|]. apply IH; [|done].
  eapply cinv_step; [exact Hs|done|]. transitivity (c_drawn s3); [|done]. clear -Hr.
  induction Hr as [|x y z Hxy _ IH]; [done|]. etrans; [by apply drawn_grows|done].
Qed.

Lemma cinv_init D : cache_ok serves cache D → cinv (c_init D).
Proof. intros Hok. split; simpl; try done; intros *; by rewrite lookup_empty. Qed.

(** C9: any number of [ensure] calls and pruning loops at work on one cache, in
    every interleaving of their file operations, with calls dropped, operations
    failing and numbers drawn at most 2^64 times: every file under a final name
    is complete, no two calls share a temp file, and a call that succeeds
    returns the path of its record. *)
Theorem concurrent_ensures_keep_cache_complete D s :
  cache_ok serves cache D → rtc c_step (c_init D) s → (c_drawn s ≤ 2 ^ 64)%N →
  cache_ok serves cache (c_disk s) ∧
  (∀ t t' task task' n n', c_tasks s !! t = Some task → c_tasks s !! t' = Some task' → t ≠ t' →
    uses (t_phase task) = Some n → uses (t_phase task') = Some n' →
    tmp_path (t_record task) n ≠ tmp_path (t_record task') n') ∧
  (∀ t task p, c_tasks s !! t = Some task → t_phase task = Ended (Ok p) → p = path_for cache (t_record task)).
Proof.
  intros Hok Hr Hb. destruct (cinv_steps _ s (cinv_init D Hok) Hr Hb) as []. split_and!; [done|..].
  - intros t t' task task' n n' Ht Ht' Hne Hn Hn' <-%tmp_path_inj. apply Hne. by eapply ci_distinct0.
  - intros t task p Ht Hp. pose proof (ci_task0 _ _ Ht) as Htk. unfold task_ok in Htk. by rewrite Hp in Htk.
Qed.

(** Pruning takes every download for a leftover: one that is about to be renamed
    can be removed by a sync at work, and then its call can only fail. *)
Lemma pruning_fails_running_download (s : CSys) (t : nat) (record : AchievementRecord) (n : N) (data : list Z) (expected : gset PathBuf) :
  c_tasks s !! t = Some (mkTask record (Renaming n data) false) →
  let s' := mkCSys (delete (tmp_path record n) (c_disk s)) (c_counter s) (c_tasks s) (c_drawn s) in
  c_step s s' ∧
  ∀ D' k' phase', advance record (c_disk s') (c_counter s') (Renaming n data) D' k' phase' →
    D' = c_disk s' ∧ ∃ e, phase' = Ended (Err (AIo e)).
Proof.
  intros Ht s'. split.
  - apply (c_prune s expected). unfold prunes, tmp_path. rewrite extension_temp. by rewrite (bool_decide_eq_true_2 (Some "download" = Some "download")), orb_true_r by done.
  - intros D' k' phase' Ha. inversion Ha as [| | | | | |n0 d0 x path Hp Hx|]; subst; [|by eauto].
    simpl in Hx. by rewrite lookup_delete_eq in Hx.
Qed.

End machine.

Arguments Phase W E {_}.
Arguments Task W E {_}.
Arguments CSys W E {_}.

(** ** The code takes the steps of the machine *)

Section refinement.
Context {W : Wire} {NM : Names W} {E : Type} {NE : Net W E} {FS : Fs E} {FL : FsLaws E}.
Context (cache : AudioCache).
Implicit Types w : CWorld W E.
Implicit Types s : CSys W E.
Implicit Types S : Uuid → list Z → Prop.

(** The shared state of the machine is that of the world. *)
Definition tracks s w : Prop := c_disk s = disk (env w) ∧ c_counter s = temp_counter (env w).

Lemma c_step_mono S S' s s' : (∀ id data, S id data → S' id data) → c_step S cache s s' → c_step S' cache s s'.
Proof.
  intros HS Hstep. destruct Hstep as [| |s t record phase D' k' phase' Ht Ha| | |]; [by constructor|by econstructor| |by econstructor..].
  eapply c_advance; [exact Ht|]. destruct Ha; try (by econstructor). apply adv_fetched. auto.
Qed.

(** From [s], the machine can bring call [t] to [phase] in a state tracking [w]. *)
Definition reach S s t record w phase dropped : Prop :=
  ∃ s', rtc (c_step S cache) s s' ∧ tracks s' w ∧ c_tasks s' = <[t := mkTask record phase dropped]> (c_tasks s).

Lemma reach_mono S S' s t record w phase dropped : (∀ id data, S id data → S' id data) →
  reach S s t record w phase dropped → reach S' s t record w phase dropped.
Proof.
  intros HS (s' & Hr & ?). exists s'. split; [|done]. eapply rtc_subrel; [|exact Hr]. intros x y. by apply c_step_mono.
Qed.

Lemma reach_start S s t record w : tracks s w → c_tasks s !! t = None → reach S s t record w (start cache record) false.
Proof.
  intros Htr Ht. exists (mkCSys (c_disk s) (c_counter s)
    (<[t := mkTask record (start cache record) false]> (c_tasks s)) (c_drawn s)).
  split_and!; [|done|done]. apply rtc_once. by apply c_spawn.
Qed.

Lemma reach_effect S s t record w w' phase : reach S s t record w phase false →
  disk (env w') = disk (env w) ∨ effect cache record phase (disk (env w)) (disk (env w')) →
  temp_counter (env w') = temp_counter (env w) → reach S s t record w' phase false.
Proof.
  intros (s' & Hr & [Hd Hc] & Ht) He Hk. destruct He as [He|He].
  { exists s'. split_and!; [done| |done]. split; congruence. }
  exists (mkCSys (disk (env w')) (c_counter s') (c_tasks s') (c_drawn s')). split_and!; [|by split; [|simpl; congruence]|done].
  eapply rtc_r; [exact Hr|]. eapply (c_effect _ _ _ t); [by rewrite Ht, lookup_insert_eq|]. by rewrite Hd.
Qed.

Lemma reach_advance S s t record w w' phase phase' : reach S s t record w phase false →
  advance S cache record (disk (env w)) (temp_counter (env w)) phase
    (disk (env w')) (temp_counter (env w')) phase' →
  reach S s t record w' phase' false.
Proof.
  intros (s' & Hr & [Hd Hc] & Ht) Ha.
  exists (mkCSys (disk (env w')) (temp_counter (env w'))
    (<[t := mkTask record phase' false]> (c_tasks s')) (c_drawn s' + draws phase phase')%N).
  split_and!; [|done|simpl; by rewrite Ht, insert_insert_eq].
  eapply rtc_r; [exact Hr|]. eapply c_advance; [by rewrite Ht, lookup_insert_eq|]. by rewrite Hd, Hc.
Qed.

Lemma reach_drop S s t record w phase : reach S s t record w phase false → reach S s t record w phase true.
Proof.
  intros (s' & Hr & [Hd Hc] & Ht).
  exists (mkCSys (c_disk s') (c_counter s') (<[t := mkTask record phase true]> (c_tasks s')) (c_drawn s')).
  split_and!; [|done|simpl; by rewrite Ht, insert_insert_eq].
  eapply rtc_r; [exact Hr|]. apply c_drop. by rewrite Ht, lookup_insert_eq.
Qed.

(** An awaited file operation of a call in [phase] is [effect], then a failure, a
    drop, or what follows from its success. *)
Lemma wp_io_reach {A} S s t record phase (op : option N → E → N * E * Result A (FsError E)) did may dl
    (Q : Result A (AudioCacheError W E) → CWorld W E → Prop) (C : CWorld W E → Prop) w :
  fs_op op did may → phase ≠ Fetching → (∀ r, phase ≠ Ended r) → reach S s t record w phase false →
  (∀ D', may (disk (env w)) D' → D' = disk (env w) ∨ effect cache record phase (disk (env w)) D') →
  (∀ w', reach S s t record w' phase true → trace w' = trace w → C w') →
  (∀ e w', reach S s t record w' (Ended (Err (AIo e))) false → trace w' = trace w → Q (Err (AIo e)) w') →
  (∀ a w', reach S s t record w' phase false → trace w' = trace w →
    temp_counter (env w') = temp_counter (env w) → may (disk (env w)) (disk (env w')) →
    did (disk (env w)) a (disk (env w')) → Q (Ok a) w') →
  wp (io op) dl Q C w.
Proof.
  intros Hop Hf He Hr Hmay HC HE HQ. eapply wp_io; [exact Hop|]. intros w' [Htr Hk] Hm.
  assert (reach S s t record w' phase false) as Hr' by (eapply reach_effect; [exact Hr|by apply Hmay|done]).
  split_and!.
  - apply HC; [by apply reach_drop|done].
  - intros e. apply HE; [|done]. eapply reach_advance; [exact Hr'|]. by apply adv_failed.
  - intros a Hdid. by apply HQ.
Qed.

(** The end of a call: it returned, or it was dropped in some phase. *)
Definition call_ends S s t record (r : Result (option PathBuf) (AudioCacheError W E)) w : Prop :=
  reach S s t record w (Ended r) false.
Definition call_dropped S s t record w : Prop := ∃ phase, reach S s t record w phase true.

(** From drawing a number on. *)
Lemma wp_store_reach S s t record path data dl w :
  path_for cache record = Some path → S (ar_id record) data → reach S s t record w Fetching false →
  wp (let* n := fetch_add in
      let tmp := tmp_path cache record n in
      let? _ := io (write tmp data) in let? _ := io (rename tmp path) in ret (Ok (Some path))) dl
    (λ r w', trace w' = trace w ∧ call_ends S s t record r w')
    (λ w', trace w' = trace w ∧ call_dropped S s t record w') w.
Proof.
  intros Hp HS Hr. apply wp_bind, wp_update_env. cbn [fst snd]. set (w1 := mkWorld _ _ _). set (n := temp_counter (env w)).
  assert (reach S s t record w1 (Writing n data) false) as H1.
  { eapply reach_advance; [exact Hr|]. subst w1. cbn [env]. rewrite counter_disk, counter_get. by apply adv_fetched. }
  apply wp_bind_ok. eapply (wp_io_reach S s t record (Writing n data)); [apply write_law|done|done|exact H1|..].
  - intros D' [->|(part & Hpart & ->)]; [by left|right]. by exists part.
  - intros w' Hw' T'. split; [done|by eexists].
  - by intros e w' Hw' ->.
  - intros [] w2 H2 T2 K2 _ D2.
    assert (reach S s t record w2 (Renaming n data) false) as H2'.
    { eapply reach_advance; [exact H2|]. apply adv_written. left. by rewrite D2, lookup_insert_eq. }
    assert (disk (env w2) !! tmp_path cache record n = Some (File data)) as Htmp by (by rewrite D2, lookup_insert_eq).
    apply wp_bind_ok. eapply (wp_io_reach S s t record (Renaming n data));
      [apply (rename_law _ _ data)|done|done|exact H2'|..].
    + intros D' HD. destruct (HD Htmp) as [->| ->]; [by left|right]. by exists data, path.
    + intros w' Hw' T'. split; [by rewrite T', T2|by eexists].
    + intros e w' Hw' ->. by split; [rewrite T2|].
    + intros [] w3 _ T3 K3 _ D3. apply wp_ret. split; [by rewrite T3, T2|].
      eapply reach_advance; [exact H2'|]. rewrite (D3 Htmp), K3. by eapply adv_renamed.
Qed.

(** A call of [ensure_inner] is a call of the machine. *)
Lemma wp_ensure_reach serves retrieve s t record dl w :
  AudioProvider serves retrieve → tracks s w → c_tasks s !! t = None →
  wp (ensure_inner cache retrieve record) dl
    (λ r w', call_ends (serves (trace w')) s t record r w')
    (λ w', call_dropped (serves (trace w')) s t record w') w.
Proof.
  intros HP Htr Ht. unfold ensure_inner. pose proof (λ S, reach_start S s t record w Htr Ht) as H0.
  unfold start in H0. destruct (path_for cache record) as [path|] eqn:Hp; [|apply wp_ret, H0].
  set (N := (λ (_ : Uuid) (_ : list Z), False)). assert (∀ S w phase dropped, reach N s t record w phase dropped →
    reach S s t record w phase dropped) as HN by (intros S w' ph dr; apply reach_mono; by intros id data []).
  apply wp_bind_ok. eapply (wp_io_reach N s t record Checking); [apply try_exists_law|done|done|apply H0|by left|..].
  { intros w' Hw' _. exists Checking. by apply HN. }
  { intros e w' Hw' _. by apply HN. }
  intros b w1 H1 _ K1 D1 ->. case_bool_decide as Hex; rewrite <-D1 in Hex.
  { apply wp_ret. eapply reach_advance; [by apply HN|]. by apply adv_hit. }
  apply eq_None_not_Some in Hex.
  assert (reach N s t record w1 MakingDir false) as H1' by (eapply reach_advance; [exact H1|]; by eapply adv_miss).
  apply wp_bind_ok. eapply (wp_io_reach N s t record MakingDir); [apply create_dir_all_law|done|done|exact H1'|by right|..].
  { intros w' Hw' _. exists MakingDir. by apply HN. }
  { intros e w' Hw' _. by apply HN. }
  intros [] w2 H2 _ _ _ D2.
  assert (reach N s t record w2 Fetching false) as H2' by (eapply reach_advance; [exact H2|]; by apply adv_made).
  apply wp_bind_ok, wp_await_map_err. eapply wp_mono; [apply (retrieve_wp (ar_id record))|..].
  2:{ intros w3 [D3 K3]. exists Fetching. apply reach_drop. eapply reach_effect; [by apply HN, H2'|by left|done]. }
  intros r w3 [[D3 K3] Hs].
  assert (∀ S, reach S s t record w3 Fetching false) as H3
    by (intros S; eapply reach_effect; [by apply HN, H2'|by left|done]).
  destruct r as [data|e]; simpl; [|by eapply reach_advance; [apply H3|]; apply adv_refused].
  eapply wp_mono; [apply (wp_store_reach (serves (trace w3)) s t record path data)|..]; [done|by apply Hs|done|..].
  - by intros r w4 [-> Hc].
  - by intros w4 [-> Hc].
Qed.

(** The machine can follow from [s] to the world [w]. *)
Definition follows S s w : Prop := ∃ s', rtc (c_step S cache) s s' ∧ tracks s' w.

Lemma follows_refl S s w : tracks s w → follows S s w.
Proof. intros Htr. by exists s. Qed.

Lemma follows_mono S S' s w : (∀ id data, S id data → S' id data) → follows S s w → follows S' s w.
Proof.
  intros HS (s' & Hr & ?). exists s'. split; [|done]. eapply rtc_subrel; [|exact Hr]. intros x y. by apply c_step_mono.
Qed.

(** A step that changes the disk only. *)
Lemma follows_disk S s w w' : follows S s w →
  (∀ s, c_disk s = disk (env w) →
    c_step S cache s (mkCSys (disk (env w')) (c_counter s) (c_tasks s) (c_drawn s))) →
  temp_counter (env w') = temp_counter (env w) → follows S s w'.
Proof.
  intros (s' & Hr & Hd & Hc) Hst Hk. exists (mkCSys (disk (env w')) (c_counter s') (c_tasks s') (c_drawn s')).
  split; [eapply rtc_r; [exact Hr|by apply Hst]|]. split; simpl; congruence.
Qed.

Lemma follows_same S s w w' : follows S s w → same_files w w' → follows S s w'.
Proof. intros (s' & Hr & Hd & Hc) [H1 H2]. exists s'. split; [done|]. split; congruence. Qed.

Lemma wp_prune_follows S s expected entries dl w : follows S s w →
  wp (prune (W:=W) expected entries) dl (λ _ w', trace w' = trace w ∧ follows S s w')
    (λ w', trace w' = trace w ∧ follows S s w') w.
Proof.
  revert w. induction entries as [|p entries IH]; intros w Hf; simpl; apply wp_bind_ok;
    (eapply wp_io; [apply next_entry_law|]); intros w1 [T1 K1] D1;
    (assert (follows S s w1) as H1 by (by eapply follows_same));
    (split_and!; [done..|done|]); intros [] _; [by apply wp_ret|].
  apply wp_bind. rewrite <-T1. destruct (prunes expected p) eqn:Hp; [|apply wp_ret; by apply IH].
  apply wp_bind, wp_await_op. intros o dur e r clk Hop. destruct (remove_file_law _ _ _ _ _ _ Hop) as (K2 & D2 & _).
  assert (follows S s (mkWorld clk e (trace w1))) as H2.
  { destruct D2 as [D2|D2]; [by eapply follows_same; [exact H1|]|].
    eapply follows_disk; [exact H1| |done]. intros s1 Hd. cbn [env]. rewrite D2, <-Hd. by eapply c_prune. }
  split; [|done]. intros _. apply wp_ret. by apply (IH (mkWorld clk e (trace w1))).
Qed.

(** A call, as part of a longer run. *)
Lemma wp_ensure_follows serves retrieve s record dl w :
  AudioProvider serves retrieve → follows (serves (trace w)) s w →
  wp (ensure_inner cache retrieve record) dl
    (λ _ w', (∃ l, trace w' = trace w ++ l) ∧ follows (serves (trace w')) s w')
    (λ w', (∃ l, trace w' = trace w ++ l) ∧ follows (serves (trace w')) s w') w.
Proof.
  intros HP (s0 & Hr0 & Htr). set (t := fresh (dom (c_tasks s0))).
  assert (c_tasks s0 !! t = None) as Ht by (apply not_elem_of_dom, is_fresh).
  assert (∀ w' phase dropped, (∃ l, trace w' = trace w ++ l) →
    reach (serves (trace w')) s0 t record w' phase dropped → follows (serves (trace w')) s w') as Hend.
  { intros w' phase dropped [l Hl] (s' & Hr & Htr' & _). exists s'. split; [|done]. etrans; [|exact Hr].
    eapply rtc_subrel; [|exact Hr0]. intros x y. apply c_step_mono. intros id data. rewrite Hl. apply serves_mono. }
  eapply wp_mono; [apply wp_and; [by apply (timely_wp (ensure_inner cache retrieve record)), _|by apply (wp_ensure_reach serves)]|..].
  - intros r w' [Hl Hc]. split; [done|]. by eapply Hend.
  - intros w' [Hl [phase Hc]]. split; [done|]. by eapply Hend.
Qed.

Lemma wp_ensure_all_follows serves retrieve s records skipped dl w :
  AudioProvider serves retrieve → follows (serves (trace w)) s w →
  wp (ensure_all cache retrieve records skipped) dl (λ _ w', follows (serves (trace w')) s w')
    (λ w', follows (serves (trace w')) s w') w.
Proof.
  intros HP. revert skipped w. induction records as [|record records IH]; intros skipped w Hf; simpl; [by apply wp_ret|].
  apply wp_bind. eapply wp_mono; [by apply (wp_ensure_follows serves)|..].
  - intros r w1 [_ H1]. destruct r as [o|[e|[| |e| | |]]]; try (by apply wp_ret); [by apply IH|].
    destruct (negb _); [by apply IH|by apply wp_ret].
  - by intros w1 [_ H1].
Qed.

Lemma wp_sync_follows serves retrieve s records dl w :
  AudioProvider serves retrieve → tracks s w →
  wp (sync cache retrieve records) dl (λ _ w', follows (serves (trace w')) s w')
    (λ w', follows (serves (trace w')) s w') w.
Proof.
  intros HP Htr. unfold sync. apply wp_bind_ok. eapply wp_io; [apply create_dir_all_law|]. intros w1 [T1 K1] D1.
  assert (∀ S, follows S s w1) as H1.
  { intros S. eapply follows_disk; [by apply follows_refl| |done]. intros s0 Hd. apply c_mkdir. by rewrite Hd. }
  split_and!; [done|done|]. intros [] _.
  apply wp_bind_ok. eapply wp_io; [apply read_dir_law|]. intros w2 [T2 K2] D2. simpl in D2.
  assert (∀ S, follows S s w2) as H2 by (intros S; by eapply follows_same; [apply H1|]).
  split_and!; [done|done|]. intros entries _.
  apply wp_bind_ok. eapply wp_mono; [by apply (wp_prune_follows (serves (trace w2)) s)|..].
  2:{ by intros w3 [-> ?]. }
  intros r w3 [T3 H3]. rewrite <-T3 in H3. destruct r as [[]|e]; [|done]. by apply (wp_ensure_all_follows serves).
Qed.

(** C25: the machine covers the code: every run of [ensure] is one call of the
    machine, ending with the result of the run, or dropped when the run is
    cancelled, and every run of [sync] is a sequence of its steps; disk and
    counter agree along the way. *)
Theorem runs_are_steps_of_the_machine serves retrieve s t record records dl w :
  AudioProvider serves retrieve → tracks s w → c_tasks s !! t = None →
  (let '(r, w') := ensure cache retrieve record dl w in
    ∃ s' phase, rtc (c_step (serves (trace w')) cache) s s' ∧ tracks s' w' ∧
      c_tasks s' = <[t := mkTask record phase (bool_decide (r = None))]> (c_tasks s) ∧
      (∀ res, r = Some res → phase = Ended res)) ∧
  (let w' := (sync cache retrieve records dl w).2 in
    ∃ s', rtc (c_step (serves (trace w')) cache) s s' ∧ tracks s' w').
Proof.
  intros HP Htr Ht. split.
  - pose proof (wp_ensure_reach serves retrieve s t record dl w HP Htr Ht) as Hwp. unfold wp in Hwp. unfold ensure.
    destruct (ensure_inner cache retrieve record dl w) as [[res|] w'].
    + destruct Hwp as (s' & Hr & Htr' & Hts). exists s', (Ended res). split_and!; [done|done|done|]. by intros ? [= ->].
    + destruct Hwp as (phase & s' & Hr & Htr' & Hts). by exists s', phase.
  - apply (wp_final _ _ (λ w', follows (serves (trace w')) s w')). by apply (wp_sync_follows serves).
Qed.

End refinement.
