(* ===== verification/SyncHook.v ===== *)
(** * The audio cache behind a session and inside an on-connect hook

    The session of src/src/connection.rs as audio provider, the hook that syncs
    the cache through it, and the connection task with that hook. *)

From S2P Require Import Prelude Async Protocol Request ClientData Connection ClientTask ClientInvariant Tls ClientSystem ClientApi AudioCache AudioCacheTheorems.

(** The part of the surroundings the cache keeps its state in. *)
Definition cache_state {E} {FS : Fs E} (e : E) : Disk * N := (disk e, temp_counter e).

Definition same_cache {E} {FS : Fs E} (e e' : E) : Prop := cache_state e' = cache_state e.

#[export] Instance same_cache_preorder {E} {FS : Fs E} : PreOrder (same_cache (E:=E)).
Proof. split; unfold same_cache; [by intros e|]. intros e1 e2 e3 H1 H2. congruence. Qed.

(** Network I/O does not touch it. *)
Class NetKeepsDisk (W : Wire) (E : Type) {NE : Net W E} {FS : Fs E} : Prop := {
  lookup_host_disk d port o (e : E) : same_cache e (lookup_host d port o e).1.2;
  tcp_connect_disk a o (e : E) : same_cache e (tcp_connect a o e).1.2;
  tls_connect_disk t n s o (e : E) : same_cache e (tls_connect t n s o e).1.2;
  write_frame_disk s m o (e : E) : same_cache e (write_frame s m o e).1.2;
  read_frame_disk s n o (e : E) : same_cache e (read_frame s n o e).1.2
}.

(** ** The network keeps the cache's state *)

(** Everything but the hook leaves the cache's state alone. *)
Section net.
Context {W : Wire} {P : Protocol} {E : Type} {NE : Net W E} {FS : Fs E} {NK : NetKeepsDisk W E}.
Context (R : relation (CWorld W E)) {PO : PreOrder R}.
Context (Rstate : ∀ w w', same_cache (env w) (env w') → (∃ l, trace w' = trace w ++ l) → R w w').

#[local] Instance net_emit_keeps ev : Keeps R (emit ev).
Proof. apply keeps_emit. intros w. apply Rstate; [done|by eexists]. Qed.

Lemma net_call_keeps {A} (log : option A → Event W E) (op : option N → E → N * E * A) :
  (∀ o e, same_cache e (op o e).1.2) → Keeps R (call log op).
Proof. intros Hop. apply keeps_call. intros o w clk ev. apply Rstate; [apply Hop|by eexists]. Qed.

#[local] Instance request_raw_keeps c m : Keeps R (request_raw c m).
Proof.
  unfold request_raw. apply keeps_bind_ok; [done|apply net_call_keeps; auto using write_frame_disk|].
  intros _. apply net_call_keeps; auto using read_frame_disk.
Qed.

#[local] Instance ping_keeps c : Keeps R (ping c).
Proof. unfold ping. destruct (encode_message _); apply _. Qed.

#[local] Instance quit_keeps c : Keeps R (quit c).
Proof.
  unfold quit. destruct (encode_message _); [|apply _].
  apply keeps_bind; [done|apply net_call_keeps; auto using write_frame_disk|apply _].
Qed.

#[local] Instance connect_keeps config connector options : Keeps R (connect config connector options).
Proof.
  assert (Keeps R (dial config connector)) as Hd.
  { unfold dial. repeat (apply keeps_bind_ok || apply keeps_await_map_err || apply keeps_ret || done ||
      (apply net_call_keeps; auto using lookup_host_disk, tcp_connect_disk, tls_connect_disk) || intros ?). }
  unfold connect, negotiate_version, authenticate.
  apply keeps_bind_ok; [done|apply _|]. intros [tls ip]. apply keeps_bind; [done|apply _|]. intros _.
  apply keeps_bind_ok; [done|destruct (encode_message _); apply _|]. intros caps.
  apply keeps_bind_ok; [done|destruct (encode_message _); apply _|]. intros []; apply _.
Qed.

#[local] Instance set_status_keeps st t : Keeps R (set_status st t).
Proof. unfold set_status. case_bool_decide; apply _. Qed.

#[local] Instance take_and_quit_keeps t : Keeps R (take_and_quit t).
Proof. unfold take_and_quit. destruct (connection t); apply _. Qed.

Definition hook_keeps (t : ClientTask) : Prop := ∀ hook c, on_connect t = Some hook → Keeps R (hook c).

#[local] Instance try_connect_keeps t : hook_keeps t → Keeps R (try_connect t).
Proof.
  intros Hh. unfold try_connect. destruct (_ && _); [apply _|]. destruct (config t); [|apply _].
  apply keeps_bind; [done|apply _|]. intros [[[conn|]|e]|]; try apply _.
  destruct (on_connect t) as [hook|] eqn:Ho; [|apply _].
  apply keeps_bind; [done|apply keeps_timeout; by apply Hh|]. intros r.
  apply keeps_bind; [done|apply _|]. intros _. destruct r as [[[]|]|]; apply _.
Qed.

Lemma handle_keeps t sel : hook_keeps t → Keeps R (handle t sel).
Proof.
  intros Hh. destruct sel as [[cfg|m id|id]|]; simpl.
  - destruct (shutdown t); apply _.
  - unfold drop_connection. destruct (shutdown t); [apply _|]. destruct (connection t); [|apply _].
    apply keeps_bind; [done|apply _|]. intros [[raw|e]|]; apply _.
  - apply _.
  - unfold handle_tick, drop_connection. destruct (shutdown t); [apply _|].
    destruct (connection t); [|by apply try_connect_keeps]. apply keeps_bind; [done|apply _|]. intros [[[]|]|]; apply _.
Qed.

End net.

(** ** A session as audio provider *)

Section session.
Context {W : Wire} {P : Protocol} {E : Type} {NE : Net W E} {FS : Fs E} {NK : NetKeepsDisk W E}.

(** [data] came in answer to a request for the audio of [id]. *)
Definition audio_answer (tr : list (Event W E)) (id : Uuid) (data : list Z) : Prop :=
  ∃ l1 l2 s m n raw,
    tr = l1 ++ [EvWrite s m (Some (Ok tt)); EvRead s n (Some (Ok raw))] ++ l2 ∧
    encode_message (mkRetrieveAudio id) = Ok m ∧ decode_response AudioData raw = Ok (mkAudioData data).

Lemma audio_answer_mono tr l id data : audio_answer tr id data → audio_answer (tr ++ l) id data.
Proof.
  intros (l1 & l2 & s & m & n & raw & -> & Hrest). exists l1, (l2 ++ l), s, m, n, raw.
  split; [|done]. by rewrite <-!app_assoc.
Qed.

(** The worlds before and after network I/O. *)
Definition net_only (w w' : CWorld W E) : Prop := same_cache (env w) (env w').

#[local] Instance net_only_preorder : PreOrder net_only.
Proof. split; unfold net_only; [by intros w|]. intros w1 w2 w3 H1 H2. by etrans. Qed.

(** [impl AudioProvider for &mut Session] *)
Definition session_provider (c : Connection) : Retrieve := Session_retrieve_audio c.

#[export] Instance session_provides (c : Connection) : AudioProvider audio_answer (session_provider c).
Proof.
  unfold session_provider.
  split; [apply audio_answer_mono|apply _|].
  intros id dl w.
  assert (wp (Session_retrieve_audio c id) dl (λ r w', ∀ data, r = Ok data → audio_answer (trace w') id data)
    (λ _, True) w) as Hdata.
  { unfold Session_retrieve_audio. destruct (encode_message _) as [m|e] eqn:Hm; [|by apply wp_ret].
    apply wp_bind_ok, wp_await_map_err, wp_bind_ok, wp_call; [intros [[]|e] clk e1|done]; [|done].
    apply wp_call; [intros [raw|e] clk2 e2|done]; [|done]. simpl. apply wp_ret. simpl. intros data Hok.
    destruct (decode_response AudioData raw) as [[d]|] eqn:Hr; [|done]. simpl in Hok. injection Hok as ->.
    exists (trace w), [], (stream c), m, (max_payload_len c), raw. by rewrite <-(assoc_L _). }
  assert (∀ m, Keeps net_only (request_raw c m)) by (intros m; by apply (request_raw_keeps net_only)).
  eapply wp_mono; [apply wp_and; [apply (keeps_wp net_only)|exact Hdata]|..].
  - unfold Session_retrieve_audio. destruct (encode_message _); apply _.
  - intros r w' [[= H1 H2] Hd]. by split_and!.
  - by intros w' [[= H1 H2] _].
Qed.

(** ** A handle as audio provider *)

(** The channel of a handle does not touch the cache's state. *)
Class ChannelKeepsDisk {CH : Channel W E} : Prop := {
  oneshot_channel_disk (e : E) : same_cache e (oneshot_channel e).2;
  mpsc_send_disk c o (e : E) : same_cache e (mpsc_send c o e).1.2;
  recv_response_disk id o (e : E) : same_cache e (recv_response id o e).1.2
}.

(** [impl AudioProvider for &BloopClient] *)
Definition client_provider {CH : Channel W E} (client : BloopClient) : Retrieve := retrieve_audio_async client.

(** Data that some audio response carries: all a handle gets to see. *)
Definition audio_response (_ : list (Event W E)) (_ : Uuid) (data : list Z) : Prop :=
  ∃ raw, decode_response AudioData raw = Ok (mkAudioData data).

#[export] Instance client_provides {CH : Channel W E} {CK : ChannelKeepsDisk} client :
  AudioProvider audio_response (client_provider client).
Proof.
  split; [done|intros id; unfold client_provider, retrieve_audio_async; destruct (encode_message _); apply _|].
  intros id dl w. unfold client_provider, retrieve_audio_async.
  destruct (encode_message (mkRetrieveAudio id)) as [m|e] eqn:Hm; [|by apply wp_ret].
  assert (Keeps net_only (exchange_async client m)) as Hk.
  { unfold exchange_async. apply keeps_bind; [apply _|apply keeps_update_env; intros; apply oneshot_channel_disk|].
    intros c. apply keeps_bind; [apply _|apply keeps_timeout, keeps_await_op; intros; apply mpsc_send_disk|].
    intros [[[]|]|]; [|apply _..]. apply keeps_bind; [apply _|apply keeps_await_op; intros; apply recv_response_disk|apply _]. }
  apply wp_bind. eapply wp_mono; [apply (keeps_wp net_only), Hk|..].
  - intros s w' [= H1 H2]. apply wp_ret. split; [done|]. intros data. unfold retrieve_audio, roundtrip. rewrite Hm.
    destruct (send_request s) as [raw|]; [|done]. simpl.
    destruct (decode_response AudioData raw) as [[d]|] eqn:Hd; [|done]. intros [= ->]. by exists raw.
  - by intros w' [= H1 H2].
Qed.

End session.

(** ** The cache inside an on-connect hook *)

Section hook.
Context {W : Wire} {P : Protocol} {NM : Names W} {E : Type} {NE : Net W E} {FS : Fs E}.
Implicit Types c : Connection.

(** A hook that syncs the cache through its session and fails with it. *)
Definition sync_hook (cache : AudioCache) (records : list AchievementRecord)
    (wrap : AudioCacheError W E → OnConnectError) : OnConnectFn := λ c,
  let* r := sync cache (session_provider c) records in
  ret (match r with Ok _ => Ok tt | Err e => Err (wrap e) end).

(** Awaiting file operations leaves the trace, hence the link, alone. *)
Lemma wp_io_trace {A} (op : option N → E → N * E * Result A (FsError E)) dl (Q : Result A (AudioCacheError W E) → CWorld W E → Prop) w :
  (∀ r w', trace w' = trace w → Q r w') → wp (io op) dl Q (λ _, True) w.
Proof.
  intros H. apply wp_await_map_err, wp_await_op. intros o dur e a clk _. split; [|done]. intros _. by apply H.
Qed.

Definition lost (r : AudioCacheError W E) : Prop := r = ARequest Disconnected.

Lemma wp_ensure_link cache record c dl (w : CWorld W E) :
  link (stream c) (trace w) = Idle →
  wp (ensure_inner cache (Session_retrieve_audio c) record) dl
    (λ r w', (∀ e, r = Err e → ¬ lost e) → link (stream c) (trace w') = Idle) (λ _, True) w.
Proof.
  intros Hl. unfold ensure_inner. destruct (path_for cache record) as [path|]; [|by apply wp_ret].
  apply wp_bind_ok, wp_io_trace. intros [[]|e] w1 H1; [apply wp_ret; by rewrite H1| |by rewrite H1].
  apply wp_bind_ok, wp_io_trace. intros [[]|e] w2 H2; [|by rewrite H2, H1].
  apply wp_bind_ok, wp_await_map_err. eapply wp_mono; [apply wp_Session_retrieve_audio|..]; [by rewrite H2, H1| |done].
  intros [data|e] w3 H3; simpl.
  2:{ intros Hn. apply H3. intros [= ->]. by eapply Hn. }
  specialize (H3 ltac:(done)). apply wp_bind, wp_update_env. cbn [fst snd].
  apply wp_bind_ok, wp_io_trace. cbn [trace]. intros [[]|e] w4 H4; [|by rewrite H4].
  apply wp_bind_ok, wp_io_trace. intros [[]|e] w5 H5; [apply wp_ret|]; by rewrite H5, H4.
Qed.

Lemma wp_ensure_all_link cache records skipped c dl (w : CWorld W E) :
  link (stream c) (trace w) = Idle →
  wp (ensure_all cache (Session_retrieve_audio c) records skipped) dl
    (λ r w', is_ok r = true → link (stream c) (trace w') = Idle) (λ _, True) w.
Proof.
  revert skipped w. induction records as [|record records IH]; intros skipped w Hl; simpl; [by apply wp_ret|].
  apply wp_bind. eapply wp_mono; [by apply wp_ensure_link|..]; [|done].
  intros [o|e] w1 H1; [apply IH, H1; naive_solver|].
  destruct e as [e|[| |e| | |]]; try by apply wp_ret.
  destruct (negb _); [|by apply wp_ret]. apply IH, H1. intros e' [= <-]. unfold lost. congruence.
Qed.

Lemma wp_prune_trace expected entries dl (w : CWorld W E) :
  wp (prune (W:=W) expected entries) dl (λ _ w', trace w' = trace w) (λ _, True) w.
Proof.
  revert w. induction entries as [|p entries IH]; intros w; simpl; apply wp_bind_ok, wp_io_trace;
    (intros [[]|e] w1 H1; [|done]); [by apply wp_ret|].
  apply wp_bind. destruct (prunes expected p).
  - apply wp_bind, wp_await_op. intros o dur e r clk _. split; [|done]. intros _. apply wp_ret.
    eapply wp_mono; [apply IH|..]; [|done]. intros r' w' ->. done.
  - apply wp_ret. eapply wp_mono; [apply IH|..]; [|done]. by intros r' w' ->.
Qed.

(** A hook that syncs the audio cache through its session meets the hook
    contract: it only talks on the session's stream, it always ends, and it
    returns [Ok] only with no exchange left unfinished. *)
#[export] Instance sync_hook_ok cache records wrap : HookOk (sync_hook cache records wrap).
Proof.
  split.
  - intros c. unfold sync_hook, sync. apply _.
  - intros c. unfold sync_hook, sync. apply _.
  - intros c dl w Hl. unfold sync_hook, sync. apply wp_bind.
    apply wp_bind_ok, wp_io_trace. intros [[]|e] w1 H1; [|by apply wp_ret].
    apply wp_bind_ok, wp_io_trace. intros [entries|e] w2 H2; [|by apply wp_ret].
    apply wp_bind_ok. eapply wp_mono; [apply wp_prune_trace|..]; [|done].
    intros [[]|e] w3 H3; [|by apply wp_ret].
    eapply wp_mono; [apply wp_ensure_all_link; by rewrite H3, H2, H1|..]; [|done].
    intros [sk|e] w4 H4; apply wp_ret; [|done]. intros _. by apply H4.
Qed.

End hook.

(** ** The connection task with the cache synced on connect *)

Section composition.
Context {W : Wire} {P : Protocol} {NM : Names W} {NL : NamesLaws} {E : Type} {NE : Net W E} {FS : Fs E} {FL : FsLaws E}.
Context {NK : NetKeepsDisk W E}.
Context (cache : AudioCache) (records : list AchievementRecord) (wrap : AudioCacheError W E → OnConnectError).

(** Every cached file is what some server answered when asked for its audio. *)
Definition cache_served (w : CWorld W E) : Prop := cache_ok (audio_answer (trace w)) cache (disk (env w)).

Definition keeps_cache (w w' : CWorld W E) : Prop := cache_served w → cache_served w'.

#[local] Instance keeps_cache_preorder : PreOrder keeps_cache.
Proof. split; unfold keeps_cache; [by intros w|]. intros w1 w2 w3 H1 H2 H. by apply H2, H1. Qed.

Lemma net_keeps_cache w w' :
  same_cache (env w) (env w') → (∃ l, trace w' = trace w ++ l) → keeps_cache w w'.
Proof.
  intros [= Hd _] [l Hl] Hok. unfold cache_served. rewrite Hd. eapply cache_ok_mono; [|exact Hok].
  intros id data. rewrite Hl. apply audio_answer_mono.
Qed.

Lemma sync_hook_keeps_cache c : Keeps keeps_cache (sync_hook cache records wrap c).
Proof.
  assert (Keeps keeps_cache (sync cache (Session_retrieve_audio c) records)) as Hs.
  { intros dl w r w' Hrun Hok. replace w' with (sync cache (Session_retrieve_audio c) records dl w).2 by (by rewrite Hrun).
    apply (wp_final _ _ cache_served). apply (wp_sync_cache_ok audio_answer); [apply _|exact Hok]. }
  unfold sync_hook. apply _.
Qed.

Lemma run_loop_turn sel sels t w : hooks_ok t → inv t w →
  ∃ t1 w1, handle t sel None w = (Some t1, w1) ∧ inv t1 w1 ∧ same_setup t t1 ∧
    run_loop t (sel :: sels) None w = run_loop t1 sels None w1.
Proof.
  intros Hh Hi. destruct (@timely_completes _ _ _ (handle t sel) (handle_timely sel t Hh) w) as (t1 & w1 & H1).
  destruct (wp_run _ _ _ _ _ _ _ H1 (wp_handle sel t None w Hh Hi)) as [Hi1 Hs1 _].
  exists t1, w1. simpl. unfold bind. by rewrite H1.
Qed.

(** C7: the connection task with a hook that syncs the audio cache through its
    session: whatever the server, the network, the disk and the callers do, every
    sequence of turns completes, the task's invariant holds, and every file of
    the cache under a final name is, byte for byte, what a server answered when
    it was asked for the audio of that record. *)
Theorem client_keeps_cache_in_sync sels t w :
  on_connect t = Some (sync_hook cache records wrap) → inv t w → cache_served w →
  ∃ t' w', run_loop t sels None w = (Some t', w') ∧ inv t' w' ∧ cache_served w'.
Proof.
  revert t w. induction sels as [|sel sels IH]; intros t w Ho Hi Hc; [by exists t, w|].
  assert (hooks_ok t) as Hh by (intros hook Hk; rewrite Ho in Hk; injection Hk as <-; apply _).
  destruct (run_loop_turn sel sels t w Hh Hi) as (t1 & w1 & H1 & Hi1 & Hset & ->).
  apply IH; [by destruct Hset as (_ & _ & _ & _ & _ & ->)|done|].
  eapply (handle_keeps keeps_cache net_keeps_cache t sel); [|exact H1|done].
  intros hook c Hk. rewrite Ho in Hk. injection Hk as <-. apply sync_hook_keeps_cache.
Qed.

End composition.
