(* ===== verification/AudioCacheDemo.v ===== *)
(** * A concrete disk, and the cache run on it

    An executable file system meeting [FsLaws], a server on the other end of a
    session, and the instances at which the cache theorems are applied. *)

From Stdlib Require Import Ascii.
From stdpp Require Import relations.
From S2P Require Import Prelude Async Protocol Request ClientData Connection ClientTask ClientInvariant AudioCache AudioCacheTheorems AudioCacheConcurrent SyncHook.

Import Toy.

(** ** The disk *)

Record DiskEnv := mkDiskEnv { frames : list frame; files : Disk; counter : N }.

Definition set_files (D : Disk) (e : DiskEnv) : DiskEnv := mkDiskEnv (frames e) D (counter e).

Definition is_child (p q : PathBuf) : bool :=
  match last q with Some name => bool_decide (q = join p name) | None => false end.

Definition children (p : PathBuf) (D : Disk) : list PathBuf :=
  filter (λ q, is_child p q = true) (elements (dom D)).

#[export] Instance disk_fs : Fs DiskEnv := {|
  FsError := unit;
  disk := files;
  temp_counter := counter;
  set_temp_counter := λ n e, mkDiskEnv (frames e) (files e) n;
  try_exists := λ p _ e, (1%N, e, Ok (bool_decide (is_Some (files e !! p))));
  create_dir_all := λ p _ e,
    match files e !! p with
    | None => (1%N, set_files (<[p := Dir]> (files e)) e, Ok tt)
    | Some Dir => (1%N, e, Ok tt)
    | Some (File _) => (1%N, e, Err tt)
    end;
  write := λ p data _ e,
    match files e !! p with
    | Some Dir => (1%N, e, Err tt)
    | _ => (1%N, set_files (<[p := File data]> (files e)) e, Ok tt)
    end;
  rename := λ p q _ e,
    match files e !! p, files e !! q with
    | Some (File data), (None | Some (File _)) =>
        (1%N, set_files (<[q := File data]> (delete p (files e))) e, Ok tt)
    | _, _ => (1%N, e, Err tt)
    end;
  read_dir := λ p _ e,
    match files e !! p with
    | Some Dir => (1%N, e, Ok (children p (files e)))
    | _ => (1%N, e, Err tt)
    end;
  next_entry := λ _ e, (1%N, e, Ok tt);
  remove_file := λ p _ e,
    match files e !! p with
    | Some (File _) => (1%N, set_files (delete p (files e)) e, Ok tt)
    | _ => (1%N, e, Err tt)
    end
|}.

Lemma children_spec p D q : q ∈ children p D ↔ is_Some (D !! q) ∧ ∃ name, q = join p name.
Proof.
  unfold children. rewrite list_elem_of_filter, elem_of_elements, elem_of_dom. unfold is_child.
  split; intros [H1 H2]; split; try done.
  - destruct (last q) as [name|]; [|done]. exists name. by apply bool_decide_eq_true in H1.
  - destruct H2 as [name ->]. unfold join. rewrite last_snoc. by apply bool_decide_eq_true.
Qed.

#[export] Instance disk_fs_laws : FsLaws DiskEnv.
Proof.
  split; try done; unfold fs_op; simpl.
  - intros p o e dur e' r [= _ <- <-]. split_and!; [done..|]. by intros a [= <-].
  - intros p o e dur e' r H. destruct (files e !! p) as [[d|]|] eqn:Hp; injection H as _ <- <-;
      (split_and!; [done| |]); try (intros q; by left); try done.
    + intros q. simpl. destruct (decide (q = p)) as [->|Hne].
      * right. by rewrite lookup_insert_eq.
      * left. by rewrite lookup_insert_ne.
    + intros [] _ _. simpl. apply lookup_insert_eq.
  - intros p data o e dur e' r H. destruct (files e !! p) as [[d|]|] eqn:Hp; injection H as _ <- <-;
      (split_and!; [done| |by intros []]); auto; right; by exists data.
  - intros p q data o e dur e' r H. destruct (files e !! p) as [[d|]|] eqn:Hp;
      [destruct (files e !! q) as [[d'|]|] eqn:Hq|..]; injection H as _ <- <-; simpl; rewrite ?Hp;
      (split_and!; [done| |]); naive_solver.
  - intros p o e dur e' r H. destruct (files e !! p) as [[d|]|] eqn:Hp; injection H as _ <- <-;
      (split_and!; [done..|]); try done.
    intros l [= <-] _. split; [apply NoDup_filter, NoDup_elements|]. intros q. apply children_spec.
  - intros o e dur e' r [= _ <- <-]. by split_and!.
  - intros p o e dur e' r H. destruct (files e !! p) as [[d|]|] eqn:Hp; injection H as _ <- <-;
      (split_and!; [done|auto|by intros []]).
Qed.

#[export] Instance disk_net : Net toy_wire DiskEnv := {|
  Stream := Z; SocketAddr := unit; TcpStream := unit; TlsStream := Z; ServerName := string;
  TlsConnector := unit; IoError := unit; OnConnectError := unit;
  lookup_host _ _ _ e := (1%N, e, Ok [()]);
  tcp_connect _ _ e := (1%N, e, Ok ());
  local_addr_ip _ := Ok 127%Z;
  server_name h := Some h;
  tls_connect _ _ _ _ e := (1%N, e, Ok 7%Z);
  timeout_stream s _ _ := s;
  write_frame _ _ _ e := (1%N, e, Ok ());
  read_frame _ _ _ e :=
    match frames e with
    | [] => (1%N, e, Err ())
    | f :: rest => (1%N, mkDiskEnv rest (files e) (counter e), Ok f)
    end
|}.

#[export] Instance disk_net_keeps : NetKeepsDisk toy_wire DiskEnv.
Proof. split; intros; simpl; try done. by destruct (frames e). Qed.

(** Names: a letter for the sign and one dash per unit. *)
Fixpoint dashes (n : nat) : string :=
  match n with O => EmptyString | S n => String "-" (dashes n) end.

Definition unary (z : Z) : string := String (if (z <? 0)%Z then "b" else "a") (dashes (Z.abs_nat z)).

#[export] Instance toy_names : Names toy_wire := {| uuid_to_string := unary; hash_to_string := unary |}.

Lemma dashes_inj n m : dashes n = dashes m → n = m.
Proof. revert m. induction n as [|n IH]; intros [|m]; simpl; try done. intros [= ?]. f_equal. by apply IH. Qed.

Lemma unary_inj : Inj (=) (=) unary.
Proof.
  intros x y. unfold unary. intros [= Hs Hd%dashes_inj].
  destruct (Z.ltb_spec x 0), (Z.ltb_spec y 0); try discriminate; lia.
Qed.

#[export] Instance toy_names_laws : NamesLaws (W:=toy_wire).
Proof.
  split; [apply unary_inj..|]. intros id c. simpl. unfold unary. simpl.
  rewrite elem_of_cons. intros [->|Hc]; [by destruct (id <? 0)%Z|].
  induction (Z.abs_nat id) as [|n IH]; simpl in Hc; [by apply elem_of_nil in Hc|].
  apply elem_of_cons in Hc as [->|?]; [done|by apply IH].
Qed.

(** ** Witnesses *)

Definition demo_cache : AudioCache := mkAudioCache ["var"; "audio"].
Definition cache_conn : Connection (W:=toy_wire) (NE:=disk_net) := mkConnection 7%Z 5%Z 16777216%Z.
Definition rec (id hash : Z) : AchievementRecord (W:=toy_wire) := mkAchievementRecord id (Some hash).
Definition demo_provider : Retrieve (W:=toy_wire) := session_provider cache_conn.

(** Record 3 is cached; an audio file of record 9 and a download are left over. *)
Definition demo_files : Disk :=
  <[["var"; "audio"] := Dir]>
  (<[["var"; "audio"; audio_name (W:=toy_wire) 3%Z 4%Z] := File [11; 3; 3]%Z]>
  (<[["var"; "audio"; audio_name (W:=toy_wire) 9%Z 4%Z] := File [9; 9]%Z]>
  (<[["var"; "audio"; temp_name (W:=toy_wire) 1%Z 0] := File [1]%Z]> ∅))).

(** The server has audio for record 1 and refuses record 2. *)
Definition demo_past : list (Event toy_wire DiskEnv) :=
  [EvWrite 7%Z (10, [3])%Z (Some (Ok tt)); EvRead 7%Z 1024%Z (Some (Ok (11, [11; 3; 3])%Z));
   EvWrite 7%Z (10, [9])%Z (Some (Ok tt)); EvRead 7%Z 1024%Z (Some (Ok (11, [9; 9])%Z))].

Definition demo_start : CWorld toy_wire DiskEnv :=
  mkWorld 0 (mkDiskEnv [(11, [1; 2; 3]); (0, [20])]%Z demo_files 0) demo_past.

Definition demo_records : list AchievementRecord := [rec 1 4; rec 2 4; rec 3 4].

Lemma demo_cache_ok : cache_ok (audio_answer demo_past) demo_cache demo_files.
Proof.
  intros record path data Hp. destruct (path_is_audio _ _ _ Hp) as (hash & -> & _).
  unfold demo_files. rewrite lookup_insert_ne by (intros Heq%(f_equal length); by simpl in Heq).
  rewrite lookup_insert. case_decide as H3.
  { apply (app_inj_tail ["var"; "audio"] ["var"; "audio"]) in H3 as [_ [Hid _]%audio_name_inj].
    intros [= <-]. rewrite <-Hid. by exists [], (drop 2 demo_past), 7%Z, (10, [3])%Z, 1024%Z, (11, [11; 3; 3])%Z. }
  rewrite lookup_insert. case_decide as H9.
  { apply (app_inj_tail ["var"; "audio"] ["var"; "audio"]) in H9 as [_ [Hid _]%audio_name_inj].
    intros [= <-]. rewrite <-Hid. by exists (take 2 demo_past), [], 7%Z, (10, [9])%Z, 1024%Z, (11, [9; 9])%Z. }
  rewrite lookup_insert_ne, lookup_empty by apply (temp_not_audio ["var"; "audio"]). done.
Qed.

Lemma pair_fst {A B} (p : A * B) a : p.1 = a → p = (a, p.2).
Proof. destruct p. by intros [= ->]. Qed.

(** The outcome of a run, as plain data. *)
Definition outcome (o : option (Result (list Z) (AudioCacheError toy_wire DiskEnv))) : option (Result (list Z) Z) :=
  match o with
  | Some (Ok l) => Some (Ok l)
  | Some (Err (ARequest (Error e))) => Some (Err e)
  | _ => None
  end.

Lemma demo_sync : ∃ w', sync demo_cache demo_provider demo_records None demo_start = (Some (Ok [2%Z]), w').
Proof.
  eexists. apply pair_fst. assert (outcome (sync demo_cache demo_provider demo_records None demo_start).1 =
    Some (Ok [2%Z])) as H by (vm_compute; reflexivity).
  destruct (sync _ _ _ _ _).1 as [[l|[|[]]]|]; simpl in H; try discriminate H; by injection H as ->.
Qed.

Lemma cached_files_are_complete_witness :
  let w' := (sync demo_cache demo_provider demo_records (Some 6%N) demo_start).2 in
  cache_ok (audio_answer (trace w')) demo_cache (disk (env w')).
Proof.
  apply (cached_files_are_complete audio_answer demo_provider demo_cache (rec 1 4) demo_records (Some 6%N) demo_start).
  - apply session_provides.
  - apply demo_cache_ok.
Defined.

(** A server that answers the request for record 1 with the fatal error 5. *)
Definition fatal_start : CWorld toy_wire DiskEnv := mkWorld 0 (mkDiskEnv [(0, [5])]%Z demo_files 0) [].

Lemma fatal_sync :
  ∃ w', sync demo_cache demo_provider demo_records None fatal_start = (Some (Err (ARequest (Error 5%Z))), w').
Proof.
  eexists. apply pair_fst. assert (outcome (sync demo_cache demo_provider demo_records None fatal_start).1 =
    Some (Err 5%Z)) as H by (vm_compute; reflexivity).
  destruct (sync _ _ _ _ _).1 as [[l|[|[]]]|]; simpl in H; try discriminate H; by injection H as ->.
Qed.

Lemma sync_brings_cache_in_line_witness :
  (∃ w', sync demo_cache demo_provider demo_records None demo_start = (Some (Ok [2%Z]), w') ∧
    (is_Some (disk (env w') !! ["var"; "audio"; audio_name (W:=toy_wire) 1%Z 4%Z]) ∨ 1%Z ∈ [2%Z])) ∧
  is_fatal (Wire:=toy_wire) 5%Z = true.
Proof.
  split.
  - destruct demo_sync as [w' Hrun]. exists w'. split; [exact Hrun|].
    refine (proj1 (proj2 (sync_brings_cache_in_line audio_answer demo_provider demo_cache demo_records None
      demo_start (Ok [2%Z]) w' (session_provides cache_conn) Hrun)) (rec 1 4) _ _ _).
    + by left.
    + reflexivity.
  - destruct fatal_sync as [w' Hrun].
    exact (sync_brings_cache_in_line audio_answer demo_provider demo_cache demo_records None fatal_start
      (Err (ARequest (Error 5%Z))) w' (session_provides cache_conn) Hrun).
Defined.

Lemma sync_keeps_expected_files_witness :
  disk (env (sync demo_cache demo_provider demo_records (Some 6%N) demo_start).2)
    !! ["var"; "audio"; audio_name (W:=toy_wire) 3%Z 4%Z] = Some (File [11; 3; 3]%Z).
Proof.
  apply (sync_keeps_expected_files audio_answer demo_provider demo_cache demo_records (Some 6%N) demo_start).
  - apply session_provides.
  - vm_compute. reflexivity.
  - left. exists (rec 3 4). split; [by right; right; left|reflexivity].
Defined.

Lemma cached_file_is_not_downloaded_witness :
  trace (ensure demo_cache demo_provider (rec 3 4) None demo_start).2 = demo_past.
Proof.
  pose proof (cached_file_is_not_downloaded demo_cache demo_provider (rec 3 4)
    ["var"; "audio"; audio_name (W:=toy_wire) 3%Z 4%Z] None demo_start) as H.
  destruct (ensure demo_cache demo_provider (rec 3 4) None demo_start) as [r w'].
  destruct H as [H _]; [reflexivity|eexists; vm_compute; reflexivity|exact H].
Defined.

(** A task that syncs on connect, and a server that accepts it, sends the audio of
    record 1 and refuses record 2. *)
Definition hook_error (_ : AudioCacheError toy_wire DiskEnv) : OnConnectError (Net:=disk_net) := tt.

Definition hook_task : ClientTask :=
  mkClientTask (W:=toy_wire) (NE:=disk_net) tt (Some (mkConnectionConfig "bloop.example.com" 12345 "client" "secret"))
    None Status.Disconnected 3 60 (mkConnectOptions 5 16777216) Latch
    (Some (sync_hook demo_cache demo_records hook_error)) false false.

Definition hook_start : CWorld toy_wire DiskEnv :=
  mkWorld 0 (mkDiskEnv [(2, [3; 5]); (4, []); (11, [1; 2; 3]); (0, [20])]%Z demo_files 0) demo_past.

Lemma client_keeps_cache_in_sync_witness :
  ∃ t' w', run_loop hook_task [SelTick; SelTick] None hook_start = (Some t', w') ∧ inv t' w' ∧
    cache_served demo_cache w'.
Proof.
  apply (client_keeps_cache_in_sync demo_cache demo_records hook_error [SelTick; SelTick] hook_task hook_start).
  - reflexivity.
  - by apply inv_no_connection.
  - apply demo_cache_ok.
Defined.

(** In that run the task does connect, and the audio of record 1 is on the disk. *)
Example hook_task_downloads :
  let w' := (run_loop hook_task [SelTick] None hook_start).2 in
  (option_map status (run_loop hook_task [SelTick] None hook_start).1,
   disk (env w') !! ["var"; "audio"; audio_name (W:=toy_wire) 1%Z 4%Z]) =
  (Some (Status.Connected 5%Z), Some (File [1; 2; 3]%Z)).
Proof. vm_compute. reflexivity. Qed.

(** ** Two calls at once *)

(** An empty cache directory, and a server that serves [[1; 2; 3]]. *)
Definition race_files : Disk := <[["var"; "audio"] := Dir]> ∅.
Definition race_serves (id : Uuid (Wire:=toy_wire)) (data : list Z) : Prop := data = [1; 2; 3]%Z.
Abbreviation race_step := (c_step (W:=toy_wire) (E:=DiskEnv) race_serves demo_cache).
Definition race_path : PathBuf := ["var"; "audio"; audio_name (W:=toy_wire) 1%Z 4%Z].

Lemma race_cache_ok : cache_ok race_serves demo_cache race_files.
Proof.
  intros record path data Hp. destruct (path_is_audio _ _ _ Hp) as (hash & -> & _).
  unfold race_files. rewrite lookup_insert_ne; [by rewrite lookup_empty|]. intros Heq%(f_equal length). by simpl in Heq.
Qed.

(** Calls 0 and 1 fetch the same record; call 0 is dropped half way through its
    write, while call 1 completes. *)
(** One step of a run, leaving the next state evaluated. *)
Ltac race_next step := eapply rtc_l; [step|]; cbn [c_disk c_counter c_tasks c_drawn draws].

Section race.
Context {W : Wire} {NM : Names W} {E : Type} {NE : Net W E} {FS : Fs E}.

Lemma race_run (S : Uuid → list Z → Prop) cache record path D part data :
  path_for cache record = Some path → D !! path = None → D !! base_path cache = Some Dir →
  S (ar_id record) data → part `prefix_of` data →
  ∃ s : CSys W E, rtc (c_step S cache) (c_init D) s ∧ c_drawn s = 2%N ∧ c_disk s !! path = Some (File data).
Proof.
  intros Hp Hn Hb HS Hpart. unfold c_init. assert (start (E:=E) cache record = Checking) as Hst by (unfold start; by rewrite Hp).
  eexists. split; [|split].
  - race_next ltac:(apply (c_spawn _ _ _ 0 record); reflexivity).
    race_next ltac:(apply (c_spawn _ _ _ 1 record); reflexivity). rewrite Hst.
    race_next ltac:(eapply (c_advance _ _ _ 0); [reflexivity|by eapply adv_miss]).
    race_next ltac:(eapply (c_advance _ _ _ 1); [reflexivity|by eapply adv_miss]).
    race_next ltac:(eapply (c_advance _ _ _ 0); [reflexivity|by eapply adv_made]).
    race_next ltac:(eapply (c_advance _ _ _ 1); [reflexivity|by eapply adv_made]).
    race_next ltac:(eapply (c_advance _ _ _ 0); [reflexivity|by eapply (adv_fetched _ _ _ _ _ data)]).
    race_next ltac:(eapply (c_advance _ _ _ 1); [reflexivity|by eapply (adv_fetched _ _ _ _ _ data)]).
    race_next ltac:(eapply (c_effect _ _ _ 0); [reflexivity|exact (ex_intro _ part (conj Hpart eq_refl))]).
    race_next ltac:(eapply (c_effect _ _ _ 1); [reflexivity|exact (ex_intro _ data (conj (reflexivity data) eq_refl))]).
    race_next ltac:(eapply (c_drop _ _ _ 0); reflexivity).
    race_next ltac:(eapply (c_advance _ _ _ 1); [reflexivity|eapply adv_written; left; apply lookup_insert_eq]).
    race_next ltac:(eapply (c_advance _ _ _ 1); [reflexivity|eapply adv_renamed; [exact Hp|apply lookup_insert_eq]]).
    apply rtc_refl.
  - reflexivity.
  - apply lookup_insert_eq.
Qed.
End race.

Lemma concurrent_ensures_keep_cache_complete_witness :
  ∃ s, c_disk s !! race_path = Some (File [1; 2; 3]%Z) ∧
    rtc race_step (c_init race_files) s ∧ cache_ok race_serves demo_cache (c_disk s).
Proof.
  destruct (race_run (W:=toy_wire) (E:=DiskEnv) race_serves demo_cache (rec 1 4) race_path race_files [1]%Z [1; 2; 3]%Z)
    as (s & Hr & Hd & Hf); [reflexivity|vm_compute; reflexivity..|by exists [2; 3]%Z|]. exists s. split; [exact Hf|]. split; [exact Hr|].
  refine (proj1 (concurrent_ensures_keep_cache_complete race_serves demo_cache race_files s race_cache_ok Hr _)).
  rewrite Hd. done.
Defined.

Lemma runs_are_steps_of_the_machine_witness :
  let w' := (sync demo_cache demo_provider demo_records (Some 6%N) demo_start).2 in
  ∃ s', rtc (c_step (audio_answer (trace w')) demo_cache) (c_init demo_files) s' ∧ tracks s' w'.
Proof.
  refine (proj2 (runs_are_steps_of_the_machine demo_cache audio_answer demo_provider (c_init demo_files) 0 (rec 1 4)
    demo_records (Some 6%N) demo_start _ _ _)).
  - by split.
  - reflexivity.
Defined.
