(* ===== verification/Utf8.v ===== *)
(** * UTF-8, as [String::from_utf8] checks it

    A Rust [String] is modelled by its bytes. [from_utf8] accepts exactly the
    encodings of sequences of Unicode scalar values. *)

From S2P Require Import Prelude.

Local Open Scope Z_scope.

Definition between (lo hi b : Z) : bool := (lo <=? b) && (b <=? hi).

Definition cont (b : Z) : bool := between 0x80 0xbf b.

(** The second byte of a three-byte and of a four-byte sequence. *)
Definition second3 (a b : Z) : bool :=
  if a =? 0xe0 then between 0xa0 0xbf b
  else if a =? 0xed then between 0x80 0x9f b
  else cont b.

Definition second4 (a b : Z) : bool :=
  if a =? 0xf0 then between 0x90 0xbf b
  else if a =? 0xf4 then between 0x80 0x8f b
  else cont b.

Fixpoint utf8_valid (l : list Z) : bool :=
  match l with
  | [] => true
  | a :: l1 =>
      if between 0 0x7f a then utf8_valid l1
      else if between 0xc2 0xdf a then
        match l1 with b :: l2 => cont b && utf8_valid l2 | _ => false end
      else if between 0xe0 0xef a then
        match l1 with b :: c :: l3 => second3 a b && cont c && utf8_valid l3 | _ => false end
      else if between 0xf0 0xf4 a then
        match l1 with
        | b :: c :: d :: l4 => second4 a b && cont c && cont d && utf8_valid l4
        | _ => false
        end
      else false
  end.

(** [String::from_utf8]; the error carries the bytes back. *)
Definition from_utf8 (l : list Z) : Result (list Z) (list Z) :=
  if utf8_valid l then Ok l else Err l.

(** ** Scalar values *)

Definition scalar (c : Z) : Prop := 0 ≤ c < 0xd800 ∨ 0xe000 ≤ c < 0x110000.

Definition encode_char (c : Z) : list Z :=
  if c <? 0x80 then [c]
  else if c <? 0x800 then [0xc0 + c / 64; 0x80 + c mod 64]
  else if c <? 0x10000 then [0xe0 + c / 4096; 0x80 + (c / 64) mod 64; 0x80 + c mod 64]
  else [0xf0 + c / 262144; 0x80 + (c / 4096) mod 64; 0x80 + (c / 64) mod 64; 0x80 + c mod 64].

Definition encode_str (cs : list Z) : list Z := cs ≫= encode_char.

Lemma between_spec lo hi b : between lo hi b = true ↔ lo ≤ b ≤ hi.
Proof. unfold between. rewrite andb_true_iff, !Z.leb_le. lia. Qed.

Lemma between_false lo hi b : between lo hi b = false ↔ b < lo ∨ hi < b.
Proof. unfold between. rewrite andb_false_iff, !Z.leb_gt. lia. Qed.

Ltac div_lia := Z.to_euclidean_division_equations; lia.

Ltac utf8_bounds := repeat match goal with
  | H : _ && _ = true |- _ => apply andb_true_iff in H; destruct H
  | H : between _ _ _ = true |- _ => apply between_spec in H
  | H : between _ _ _ = false |- _ => apply between_false in H
  | H : (_ =? _) = true |- _ => apply Z.eqb_eq in H
  | H : (_ =? _) = false |- _ => apply Z.eqb_neq in H
  end.

(** One sequence of each length decodes to a scalar value. *)
Lemma decode2 a b : between 0xc2 0xdf a = true → cont b = true →
  ∃ c, scalar c ∧ encode_char c = [a; b].
Proof.
  unfold cont. intros Ha Hb. utf8_bounds. exists ((a - 0xc0) * 64 + (b - 0x80)).
  split; [unfold scalar; lia|]. unfold encode_char.
  destruct (Z.ltb_spec ((a - 0xc0) * 64 + (b - 0x80)) 0x80); [lia|].
  destruct (Z.ltb_spec ((a - 0xc0) * 64 + (b - 0x80)) 0x800); [|lia].
  repeat f_equal; div_lia.
Qed.

Lemma decode3 a b c : between 0xe0 0xef a = true → second3 a b = true → cont c = true →
  ∃ u, scalar u ∧ encode_char u = [a; b; c].
Proof.
  unfold cont, second3. intros Ha Hb Hc. exists ((a - 0xe0) * 4096 + (b - 0x80) * 64 + (c - 0x80)).
  assert (0x80 ≤ b ≤ 0xbf ∧ (a = 0xe0 → 0xa0 ≤ b) ∧ (a = 0xed → b ≤ 0x9f)) as (Hb1 & Hb2 & Hb3).
  { unfold cont in Hb. case_all; utf8_bounds; lia. }
  clear Hb. utf8_bounds. remember ((a - 0xe0) * 4096 + (b - 0x80) * 64 + (c - 0x80)) as u eqn:Hu.
  split; [unfold scalar; lia|]. unfold encode_char.
  destruct (Z.ltb_spec u 0x80); [lia|]. destruct (Z.ltb_spec u 0x800); [lia|].
  destruct (Z.ltb_spec u 0x10000); [|lia]. repeat f_equal; div_lia.
Qed.

Lemma decode4 a b c d : between 0xf0 0xf4 a = true → second4 a b = true → cont c = true → cont d = true →
  ∃ u, scalar u ∧ encode_char u = [a; b; c; d].
Proof.
  unfold cont, second4. intros Ha Hb Hc Hd.
  exists ((a - 0xf0) * 262144 + (b - 0x80) * 4096 + (c - 0x80) * 64 + (d - 0x80)).
  assert (0x80 ≤ b ≤ 0xbf ∧ (a = 0xf0 → 0x90 ≤ b) ∧ (a = 0xf4 → b ≤ 0x8f)) as (Hb1 & Hb2 & Hb3).
  { unfold cont in Hb. case_all; utf8_bounds; lia. }
  clear Hb. utf8_bounds.
  remember ((a - 0xf0) * 262144 + (b - 0x80) * 4096 + (c - 0x80) * 64 + (d - 0x80)) as u eqn:Hu.
  split; [unfold scalar; lia|]. unfold encode_char.
  destruct (Z.ltb_spec u 0x80); [lia|]. destruct (Z.ltb_spec u 0x800); [lia|].
  destruct (Z.ltb_spec u 0x10000); [lia|]. repeat f_equal; div_lia.
Qed.

(** A scalar value followed by valid bytes is valid. *)
Lemma valid_encode_char c l : scalar c → utf8_valid (encode_char c ++ l) = utf8_valid l.
Proof.
  unfold scalar, encode_char. intros Hc.
  assert (∀ lo hi b, lo ≤ b ≤ hi → between lo hi b = true) as Hin by (intros; by apply between_spec).
  assert (∀ lo hi b, b < lo ∨ hi < b → between lo hi b = false) as Hout by (intros; by apply between_false).
  destruct (Z.ltb_spec c 0x80); [simpl; by rewrite Hin by lia|].
  destruct (Z.ltb_spec c 0x800).
  { simpl. unfold cont. rewrite Hout, !Hin by div_lia. done. }
  destruct (Z.ltb_spec c 0x10000).
  { simpl. unfold cont, second3, cont. rewrite !Hout, (Hin 0xe0) by div_lia.
    destruct (Z.eqb_spec (0xe0 + c / 4096) 0xe0); [|destruct (Z.eqb_spec (0xe0 + c / 4096) 0xed)];
      rewrite !Hin by div_lia; done. }
  simpl. unfold cont, second4, cont. rewrite !Hout, (Hin 0xf0) by div_lia.
  destruct (Z.eqb_spec (0xf0 + c / 262144) 0xf0); [|destruct (Z.eqb_spec (0xf0 + c / 262144) 0xf4)];
    rewrite !Hin by div_lia; done.
Qed.

Lemma utf8_valid_encode cs : Forall scalar cs → utf8_valid (encode_str cs) = true.
Proof.
  induction 1 as [|c cs Hc _ IH]; [done|]. unfold encode_str in *. simpl.
  by rewrite valid_encode_char.
Qed.

Lemma utf8_valid_decode l : utf8_valid l = true → ∃ cs, Forall scalar cs ∧ l = encode_str cs.
Proof.
  remember (length l) as n eqn:Hn. assert (length l ≤ n)%nat as Hle by lia. clear Hn.
  revert l Hle. induction n as [|n IH]; intros [|a l1] Hle Hv; simpl in Hle; try lia;
    [by exists []..|].
  assert (∀ u s l, scalar u → encode_char u = s → utf8_valid l = true → (length l ≤ n)%nat →
    ∃ cs, Forall scalar cs ∧ s ++ l = encode_str cs) as Hstep.
  { intros u s l Hu <- Hl Hlen. destruct (IH l Hlen Hl) as (cs & Hcs & ->).
    exists (u :: cs). split; [by constructor|done]. }
  simpl in Hv. destruct (between 0 0x7f a) eqn:Ha.
  { apply between_spec in Ha. apply (Hstep a [a] l1); [unfold scalar; lia| |done|lia].
    unfold encode_char. destruct (Z.ltb_spec a 0x80); [done|lia]. }
  destruct (between 0xc2 0xdf a) eqn:Ha2.
  { destruct l1 as [|b l2]; [done|]. simpl in *. apply andb_true_iff in Hv as [Hb Hv].
    destruct (decode2 a b) as (u & Hu & He); [done..|]. apply (Hstep u [a; b] l2); auto; lia. }
  destruct (between 0xe0 0xef a) eqn:Ha3.
  { destruct l1 as [|b [|c l3]]; [done..|]. simpl in *. rewrite !andb_true_iff in Hv.
    destruct Hv as [[Hb Hc] Hv].
    destruct (decode3 a b c) as (u & Hu & He); [done..|]. apply (Hstep u [a; b; c] l3); auto; lia. }
  destruct (between 0xf0 0xf4 a) eqn:Ha4; [|done].
  destruct l1 as [|b [|c [|d l4]]]; [done..|]. simpl in *. rewrite !andb_true_iff in Hv.
  destruct Hv as [[[Hb Hc] Hd] Hv].
  destruct (decode4 a b c d) as (u & Hu & He); [done..|]. apply (Hstep u [a; b; c; d] l4); auto; lia.
Qed.

(** [from_utf8] succeeds exactly on encodings of scalar values. *)
Lemma from_utf8_Ok l s : from_utf8 l = Ok s ↔ s = l ∧ ∃ cs, Forall scalar cs ∧ l = encode_str cs.
Proof.
  unfold from_utf8. split.
  - destruct (utf8_valid l) eqn:Hv; intros [= <-]. split; [done|]. by apply utf8_valid_decode.
  - intros (-> & cs & Hcs & ->). by rewrite utf8_valid_encode.
Qed.
