(* ===== verification/Ndef.v ===== *)
(** * NDEF parsing (src/src/nfc/ndef.rs)

    [NdefMessageParser] extracts the NDEF message of a tag's TLV stream fed
    chunk by chunk, [parse_ndef_text_record] parses a message as one text
    record, and [text] strips the language code. Bytes are integers below 256;
    indices are [usize] with the largest value [usize_max], and out-of-range
    accesses and overflows panic. *)

From S2P Require Import Prelude Utf8.

Local Open Scope Z_scope.

(** [enum NdefError] *)
Inductive NdefError :=
| Truncated (part : string)
| Chunked
| NotWellKnown
| NotTextRecord
| InvalidUtf8 (e : list Z).

(** ** The TLV stream *)

(** [enum State] *)
Inductive State := Init | Length | Value.

#[export] Instance State_eq_dec : EqDecision State.
Proof. solve_decision. Defined.

(** [struct NdefMessageParser]; [p_length] is an [i32]. *)
Record NdefMessageParser := mkParser { p_state : State; p_length : Z; p_data : list Z }.

(** [NdefMessageParser::new] *)
Definition new : NdefMessageParser := mkParser Init (-1) [].

(** [NdefMessageParser::is_done] *)
Definition is_done (p : NdefMessageParser) : bool :=
  as_i32 (Z.of_nat (length (p_data p))) =? p_length p.

(** [NdefMessageParser::has_started] *)
Definition has_started (p : NdefMessageParser) : bool := bool_decide (p_state p ≠ Init).

(** [NdefMessageParser::add_data] *)
Fixpoint add_data (p : NdefMessageParser) (data : list Z) : NdefMessageParser :=
  match data with
  | [] => p
  | byte :: data =>
      match p_state p with
      | Init =>
          if byte =? 0x00 then add_data p data
          else if byte =? 0x03 then add_data (mkParser Length (p_length p) (p_data p)) data
          else add_data p data
      | Length =>
          if p_length p =? -1 then
            if byte =? 0xff then add_data (mkParser Length (-2) (p_data p)) data
            else add_data (mkParser Value byte (p_data p)) data
          else if p_length p =? -2 then add_data (mkParser Length byte (p_data p)) data
          else
            add_data (mkParser Value (Z.lor (as_i32 (Z.shiftl (p_length p) 8)) byte) (p_data p)) data
      | Value =>
          let p := mkParser Value (p_length p) (p_data p ++ [byte]) in
          if as_i32 (Z.of_nat (length (p_data p))) =? p_length p then p else add_data p data
      end
  end.

(** ** Text records *)

(** [struct NdefTextRecord] *)
Record NdefTextRecord := mkTextRecord { value : list Z }.

Section text_record.
Context (usize_max : Z).

Notation "a +! b" := (checked_add usize_max a b) (at level 50).

(** [NdefTextRecord::text] *)
Definition text (r : NdefTextRecord) : Comp (list Z) NdefError :=
  match value r with
  | [] => Ret []
  | status :: _ =>
      let code_length := Z.land status 0x3f in
      let! start := code_length +! 1 in
      match slice (value r) start (Z.of_nat (length (value r))) with
      | None => Fail (Truncated "text payload")
      | Some text => comp_result (map_err InvalidUtf8 (from_utf8 text))
      end
  end.

(** [fn parse_ndef_text_record] *)
Definition parse_ndef_text_record (data : list Z) : Comp NdefTextRecord NdefError :=
  let record_length := Z.of_nat (length data) in
  let index := 0 in
  if record_length <=? index then Fail (Truncated "flags") else
  let! flags := index_at data index in
  let is_chunked := negb (Z.land flags 0x20 =? 0) in
  let is_short_record := negb (Z.land flags 0x10 =? 0) in
  let has_id_length := negb (Z.land flags 0x08 =? 0) in
  let type_name_format := Z.land flags 0x07 in
  if is_chunked then Fail Chunked else
  let! index := index +! 1 in
  if record_length <=? index then Fail (Truncated "type length") else
  let! type_length := index_at data index in
  let! index := index +! 1 in
  let! r :=
    (if is_short_record then
       if record_length <=? index then Fail (Truncated "payload length") else
       let payload_length_index := index in
       let! index := index +! 1 in
       let! b := index_at data payload_length_index in
       Ret (b, index)
     else
       let! last := index +! 3 in
       if record_length <=? last then Fail (Truncated "payload length") else
       let payload_length_index := index in
       let! index := index +! 4 in
       let! stop := payload_length_index +! 4 in
       let! bytes := slice_at data payload_length_index stop in
       Ret (from_be_bytes bytes, index)) in
  let '(payload_length, index) := r in
  let! r :=
    (if has_id_length then
       if record_length <=? index then Fail (Truncated "ID length") else
       let id_length_index := index in
       let! index := index +! 1 in
       let! b := index_at data id_length_index in
       Ret (b, index)
     else Ret (0, index)) in
  let '(id_length, index) := r in
  let! r :=
    (if 0 <? type_length then
       let type_index := index in
       let! index := index +! type_length in
       let! stop := type_index +! type_length in
       if record_length <? stop then Fail (Truncated "type") else
       let! t := slice_at data type_index stop in
       Ret (t, index)
     else Ret ([], index)) in
  let '(payload_type, index) := r in
  let! index :=
    (if 0 <? id_length then
       let! index := index +! id_length in
       if record_length <? index then Fail (Truncated "ID") else Ret index
     else Ret index) in
  let! payload_value :=
    (if 0 <? payload_length then
       let value_index := index in
       if Z.max 0 (record_length - value_index) <? payload_length then Fail (Truncated "payload") else
       let! stop := value_index +! payload_length in
       slice_at data value_index stop
     else Ret []) in
  if negb (type_name_format =? 1) then Fail NotWellKnown else
  if negb (bool_decide (payload_type = [0x54])) then Fail NotTextRecord else
  Ret (mkTextRecord payload_value).

End text_record.

(** ** Reference parser

    The record layout read off the bytes from left to right. *)

Definition take_n (part : string) (n : Z) (d : list Z) : Result (list Z * list Z) NdefError :=
  if Z.of_nat (length d) <? n then Err (Truncated part)
  else Ok (take (Z.to_nat n) d, drop (Z.to_nat n) d).

Record Fields := mkFields { f_flags : Z; f_type : list Z; f_id : list Z; f_payload : list Z }.

Definition ref_length (short : bool) (d : list Z) : Result (Z * list Z) NdefError :=
  if short then
    match d with b :: d => Ok (b, d) | [] => Err (Truncated "payload length") end
  else
    match d with
    | a :: b :: c :: e :: d => Ok (from_be_bytes [a; b; c; e], d)
    | _ => Err (Truncated "payload length")
    end.

Definition ref_id_length (has : bool) (d : list Z) : Result (Z * list Z) NdefError :=
  if has then
    match d with b :: d => Ok (b, d) | [] => Err (Truncated "ID length") end
  else Ok (0, d).

Definition result_bind {A B F} (r : Result A F) (k : A → Result B F) : Result B F :=
  match r with Ok a => k a | Err e => Err e end.

Definition ref_fields (d : list Z) : Result (Fields * list Z) NdefError :=
  match d with
  | [] => Err (Truncated "flags")
  | flags :: d =>
      if negb (Z.land flags 0x20 =? 0) then Err Chunked else
      match d with
      | [] => Err (Truncated "type length")
      | tl :: d =>
          result_bind (ref_length (negb (Z.land flags 0x10 =? 0)) d) (λ '(pl, d),
          result_bind (ref_id_length (negb (Z.land flags 0x08 =? 0)) d) (λ '(il, d),
          result_bind (take_n "type" tl d) (λ '(ty, d),
          result_bind (take_n "ID" il d) (λ '(id, d),
          result_bind (take_n "payload" pl d) (λ '(pv, d),
          Ok (mkFields flags ty id pv, d))))))
      end
  end.

Definition ref_parse (d : list Z) : Result NdefTextRecord NdefError :=
  result_bind (ref_fields d) (λ '(f, _),
    if negb (Z.land (f_flags f) 0x07 =? 1) then Err NotWellKnown
    else if negb (bool_decide (f_type f = [0x54])) then Err NotTextRecord
    else Ok (mkTextRecord (f_payload f))).

(** ** The index-based parser computes the reference parser *)

(** Reading a field of [n] bytes. *)
Lemma take_n_Ok part n d x d' : 0 ≤ n → take_n part n d = Ok (x, d') → d = x ++ d' ∧ n = Z.of_nat (length x).
Proof.
  unfold take_n. intros Hn. destruct (Z.ltb_spec (Z.of_nat (length d)) n); [done|].
  intros [= <- <-]. rewrite take_drop, length_take. split; [done|lia].
Qed.

Lemma take_n_zero part d : take_n part 0 d = Ok ([], d).
Proof. unfold take_n. by destruct (Z.ltb_spec (Z.of_nat (length d)) 0); [lia|]. Qed.

Section equivalence.
Context (usize_max : Z) (data : list Z).
Context (Hmax : 1024 ≤ usize_max) (Hlen : Z.of_nat (length data) ≤ usize_max).

Notation "a +! b" := (checked_add usize_max a b) (at level 50).
Abbreviation pos d := (Z.of_nat (length data - length d)).

(** [d] is what remains of [data]. *)
Definition remains (d : list Z) : Prop := ∃ pre, data = pre ++ d.

Lemma remains_tail x d : remains (x ++ d) → remains d.
Proof using Type. intros [pre Hd]. exists (pre ++ x). by rewrite Hd, <-app_assoc. Qed.

Lemma remains_length d : remains d → (length d ≤ length data)%nat.
Proof using Type. intros [pre Hd]. rewrite Hd, length_app. clear. lia. Qed.

Lemma remains_index {F} b d : remains (b :: d) → index_at (E:=F) data (pos (b :: d)) = Ret b.
Proof.
  intros [pre ->]. apply index_at_lookup. rewrite lookup_app_r by (rewrite length_app; simpl; lia).
  rewrite length_app. simpl. by replace (_ - length pre)%nat with O by lia.
Qed.

Lemma remains_slice {F} x d n : remains (x ++ d) → n = Z.of_nat (length x) →
  slice_at (E:=F) data (pos (x ++ d)) (pos (x ++ d) + n) = Ret x.
Proof.
  intros [pre Hd] ->. unfold slice_at. rewrite Hd, (slice_app pre x d); [done|..];
    rewrite !length_app; lia.
Qed.

Lemma remains_pos x d n : remains (x ++ d) → n = Z.of_nat (length x) → pos (x ++ d) + n = pos d.
Proof. intros Hr%remains_length ->. rewrite length_app in *. lia. Qed.

Lemma remains_end d : remains d → (Z.of_nat (length data) <=? pos d) = bool_decide (d = []).
Proof.
  intros Hr%remains_length. destruct d as [|b d].
  - rewrite bool_decide_eq_true_2 by done. apply Z.leb_le. simpl. lia.
  - rewrite bool_decide_eq_false_2 by done. apply Z.leb_gt. simpl in *. lia.
Qed.

(** Reading one byte. *)
Lemma stage_byte part d : remains d →
  (if Z.of_nat (length data) <=? pos d then Fail (Truncated part) else
   let! index := pos d +! 1 in let! b := index_at data (pos d) in Ret (b, index)) =
  match d with b :: d' => Ret (b, pos d') | [] => Fail (Truncated part) end.
Proof using Hlen Hmax.
  intros Hr. rewrite remains_end by done. destruct d as [|b d']; [done|].
  rewrite bool_decide_eq_false_2 by done. pose proof (remains_length _ Hr).
  simpl length in *. rewrite checked_add_fits by lia. simpl.
  rewrite (remains_index b d' Hr). simpl. do 2 f_equal. lia.
Qed.

Lemma stage_id_length has d : remains d →
  (if (has : bool) then
     if Z.of_nat (length data) <=? pos d then Fail (Truncated "ID length") else
     let! index := pos d +! 1 in let! b := index_at data (pos d) in Ret (b, index)
   else Ret (0, pos d)) =
  match ref_id_length has d with Ok (b, d') => Ret (b, pos d') | Err e => Fail e end.
Proof using Hlen Hmax.
  intros Hr. destruct has; [|done]. rewrite stage_byte by done. by destruct d.
Qed.

Lemma stage_length short d : remains d → (length data - length d ≤ 2)%nat →
  (if (short : bool) then
     if Z.of_nat (length data) <=? pos d then Fail (Truncated "payload length") else
     let! index := pos d +! 1 in let! b := index_at data (pos d) in Ret (b, index)
   else
     let! last := pos d +! 3 in
     if Z.of_nat (length data) <=? last then Fail (Truncated "payload length") else
     let! index := pos d +! 4 in
     let! stop := pos d +! 4 in
     let! bytes := slice_at data (pos d) stop in
     Ret (from_be_bytes bytes, index)) =
  match ref_length short d with Ok (b, d') => Ret (b, pos d') | Err e => Fail e end.
Proof using Hlen Hmax.
  intros Hr Hpos. pose proof (remains_length _ Hr).
  destruct short; [rewrite stage_byte by done; by destruct d|].
  rewrite checked_add_fits by lia. simpl.
  destruct d as [|a [|b [|c [|e d']]]]; simpl length in *; simpl ref_length;
    try (rewrite (proj2 (Z.leb_le _ _)) by lia; done).
  rewrite (proj2 (Z.leb_gt _ _)), checked_add_fits by lia. simpl comp_bind.
  change (a :: b :: c :: e :: d') with ([a; b; c; e] ++ d') in Hr.
  pose proof (remains_slice (F:=NdefError) [a; b; c; e] d' 4 Hr eq_refl) as Hs.
  pose proof (remains_pos [a; b; c; e] d' 4 Hr eq_refl) as Hp. simpl length in Hs, Hp.
  rewrite Hs. simpl. by rewrite Hp.
Qed.

Lemma stage_type n d : remains d → 0 ≤ n < 256 → (length data - length d ≤ 768)%nat →
  (if 0 <? n then
     let! index := pos d +! n in
     let! stop := pos d +! n in
     if Z.of_nat (length data) <? stop then Fail (Truncated "type") else
     let! t := slice_at data (pos d) stop in
     Ret (t, index)
   else Ret ([], pos d)) =
  match take_n "type" n d with Ok (x, d') => Ret (x, pos d') | Err e => Fail e end.
Proof using Hlen Hmax.
  intros Hr Hn Hpos. pose proof (remains_length _ Hr).
  destruct (Z.ltb_spec 0 n); [|by replace n with 0 by lia; rewrite take_n_zero].
  rewrite checked_add_fits by lia. simpl.
  destruct (take_n "type" n d) as [[x d']|e] eqn:Ht.
  - apply take_n_Ok in Ht as [-> Hx]; [|lia].
    rewrite remains_slice by done. rewrite remains_pos by done.
    by rewrite (proj2 (Z.ltb_ge _ _)) by lia.
  - unfold take_n in Ht. destruct (Z.ltb_spec (Z.of_nat (length d)) n); [|done].
    rewrite (proj2 (Z.ltb_lt _ _)) by lia. congruence.
Qed.

Lemma stage_id n d : remains d → 0 ≤ n < 256 → (length data - length d ≤ 768)%nat →
  (if 0 <? n then
     let! index := pos d +! n in
     if Z.of_nat (length data) <? index then Fail (Truncated "ID") else Ret index
   else Ret (pos d)) =
  match take_n "ID" n d with Ok (_, d') => Ret (pos d') | Err e => Fail e end.
Proof using Hlen Hmax.
  intros Hr Hn Hpos. pose proof (remains_length _ Hr).
  destruct (Z.ltb_spec 0 n); [|by replace n with 0 by lia; rewrite take_n_zero].
  rewrite checked_add_fits by lia. simpl.
  destruct (take_n "ID" n d) as [[x d']|e] eqn:Ht.
  - apply take_n_Ok in Ht as [-> Hx]; [|lia].
    rewrite remains_pos by done. by rewrite (proj2 (Z.ltb_ge _ _)) by lia.
  - unfold take_n in Ht. destruct (Z.ltb_spec (Z.of_nat (length d)) n); [|done].
    rewrite (proj2 (Z.ltb_lt _ _)) by lia. congruence.
Qed.

Lemma stage_payload n d : remains d → 0 ≤ n →
  (if 0 <? n then
     if Z.max 0 (Z.of_nat (length data) - pos d) <? n then Fail (Truncated "payload") else
     let! stop := pos d +! n in slice_at data (pos d) stop
   else Ret []) =
  match take_n "payload" n d with Ok (x, _) => Ret x | Err e => Fail e end.
Proof using Hlen Hmax.
  intros Hr Hn. pose proof (remains_length _ Hr).
  destruct (Z.ltb_spec 0 n); [|by replace n with 0 by lia; rewrite take_n_zero].
  destruct (take_n "payload" n d) as [[x d']|e] eqn:Ht.
  - apply take_n_Ok in Ht as [-> Hx]; [|lia]. pose proof (remains_pos x d' n Hr Hx) as Hp.
    rewrite length_app in *. rewrite (proj2 (Z.ltb_ge _ _)) by lia.
    rewrite checked_add_fits by lia. simpl. rewrite <-length_app, remains_slice; done.
  - unfold take_n in Ht. destruct (Z.ltb_spec (Z.of_nat (length d)) n); [|done].
    rewrite (proj2 (Z.ltb_lt _ _)) by lia. congruence.
Qed.

End equivalence.

(** What the length fields consume. *)
Lemma ref_length_Ok short d n d' : Forall is_u8 d → ref_length short d = Ok (n, d') →
  ∃ x, d = x ++ d' ∧ (length x ≤ 4)%nat ∧ 0 ≤ n.
Proof.
  unfold is_u8. intros Hu. destruct short; simpl.
  - destruct d as [|b d0]; intros [= <- <-]. inversion_clear Hu. exists [b]. simpl. split_and!; [done|lia..].
  - destruct d as [|a [|b [|c [|e d0]]]]; intros [= <- <-]. exists [a; b; c; e].
    repeat match goal with H : Forall _ (_ :: _) |- _ => inversion_clear H end.
    simpl. split_and!; [done|lia|]. unfold from_be_bytes. simpl. lia.
Qed.

Lemma ref_id_length_Ok has d n d' : Forall is_u8 d → ref_id_length has d = Ok (n, d') →
  ∃ x, d = x ++ d' ∧ (length x ≤ 1)%nat ∧ 0 ≤ n < 256.
Proof.
  unfold is_u8. intros Hu. destruct has; simpl.
  - destruct d as [|b d0]; intros [= <- <-]. inversion_clear Hu. by exists [b].
  - intros [= <- <-]. exists []. simpl. split_and!; [done|lia..].
Qed.

(** Within any address space that holds the record and 1024 bytes, the
    index-based parser returns what the reference parser returns; in
    particular it never panics. *)
Lemma parse_is_ref usize_max data :
  1024 ≤ usize_max → Z.of_nat (length data) ≤ usize_max → Forall is_u8 data →
  parse_ndef_text_record usize_max data = comp_result (ref_parse data).
Proof.
  intros Hmax Hlen Hu. unfold parse_ndef_text_record, ref_parse, ref_fields.
  destruct data as [|flags d1]; [done|].
  rewrite (proj2 (Z.leb_gt _ _)) by (simpl; lia).
  rewrite (index_at_lookup (flags :: d1) 0 flags) by done. cbn [comp_bind].
  destruct (negb (Z.land flags 32 =? 0)); [done|].
  rewrite checked_add_fits by lia. cbn [comp_bind].
  destruct d1 as [|tl d2]; [done|]. set (data := flags :: tl :: d2) in *.
  rewrite (proj2 (Z.leb_gt _ _)) by (simpl; lia).
  rewrite (index_at_lookup data 1 tl) by done. cbn [comp_bind].
  rewrite checked_add_fits by lia. cbn [comp_bind].
  assert (remains data d2) as Hr2 by (by exists [flags; tl]).
  assert (length data = S (S (length d2))) as Hld by done.
  replace (0 + 1 + 1) with (Z.of_nat (length data - length d2)) by lia.
  inversion_clear Hu as [|? ? Hflags Hu1]. inversion_clear Hu1 as [|? ? Htl Hu2].
  rewrite stage_length by (done || lia).
  destruct (ref_length _ d2) as [[pl d3]|e] eqn:E3; [|done]. cbn [comp_bind result_bind].
  apply ref_length_Ok in E3 as (x3 & -> & Hx3 & Hpl); [|done].
  apply remains_tail in Hr2. apply Forall_app in Hu2 as [_ Hu3]. rewrite length_app in Hld.
  rewrite stage_id_length by (done || lia).
  destruct (ref_id_length _ d3) as [[il d4]|e] eqn:E4; [|done]. cbn [comp_bind result_bind].
  apply ref_id_length_Ok in E4 as (x4 & -> & Hx4 & Hil); [|done].
  apply remains_tail in Hr2. rewrite length_app in Hld.
  rewrite stage_type by (done || lia).
  destruct (take_n _ tl d4) as [[ty d5]|e] eqn:E5; [|done]. cbn [comp_bind result_bind].
  unfold is_u8 in Htl. apply take_n_Ok in E5 as [-> Hty]; [|lia].
  apply remains_tail in Hr2. rewrite length_app in Hld.
  rewrite stage_id by (done || lia).
  destruct (take_n _ il d5) as [[id d6]|e] eqn:E6; [|done]. cbn [comp_bind result_bind].
  apply take_n_Ok in E6 as [-> Hid]; [|lia]. apply remains_tail in Hr2.
  rewrite stage_payload by (done || lia).
  destruct (take_n _ pl d6) as [[pv d7]|e] eqn:E7; [|done]. simpl.
  destruct (negb (_ =? 1)); [done|]. by destruct (negb (bool_decide (ty = [84]))).
Qed.
