(* ===== verification/NdefTheorems.v ===== *)
(** * Theorems about NDEF parsing

    Records: the parser accepts exactly the encodings of text records. TLV
    streams: the message is extracted whatever the chunking. *)

From S2P Require Import Prelude Utf8 Ndef.

Local Open Scope Z_scope.

(** ** Record layout *)

(** An NDEF record that is not chunked. *)
Record NdefRecord := mkRecord {
  nr_mb : bool; nr_me : bool; nr_sr : bool; nr_il : bool;
  nr_tnf : Z; nr_type : list Z; nr_id : list Z; nr_payload : list Z
}.

Definition bit (b : bool) (n : Z) : Z := if b then n else 0.

Definition record_flags (r : NdefRecord) : Z :=
  bit (nr_mb r) 128 + bit (nr_me r) 64 + bit (nr_sr r) 16 + bit (nr_il r) 8 + nr_tnf r.

Definition len (l : list Z) : Z := Z.of_nat (length l).

Definition be32 (n : Z) : list Z := [n / 2 ^ 24; (n / 2 ^ 16) mod 256; (n / 2 ^ 8) mod 256; n mod 256].

Definition encode_record (r : NdefRecord) : list Z :=
  record_flags r :: len (nr_type r) ::
  (if nr_sr r then [len (nr_payload r)] else be32 (len (nr_payload r))) ++
  (if nr_il r then [len (nr_id r)] else []) ++
  nr_type r ++ nr_id r ++ nr_payload r.

Record record_ok (r : NdefRecord) : Prop := {
  rok_tnf : 0 ≤ nr_tnf r < 8;
  rok_type : len (nr_type r) < 256;
  rok_id : len (nr_id r) < 256;
  rok_no_id : nr_il r = false → nr_id r = [];
  rok_payload : len (nr_payload r) < if nr_sr r then 256 else 2 ^ 32
}.

(** The bits of the flags byte. *)
Lemma flags_bits mb me sr il tnf : 0 ≤ tnf < 8 →
  let f := bit mb 128 + bit me 64 + bit sr 16 + bit il 8 + tnf in
  (Z.land f 0x20 =? 0) = true ∧ negb (Z.land f 0x10 =? 0) = sr ∧
  negb (Z.land f 0x08 =? 0) = il ∧ Z.land f 0x07 = tnf.
Proof.
  intros Htnf. assert (tnf ∈ [0; 1; 2; 3; 4; 5; 6; 7]) as Hin.
  { assert (tnf = 0 ∨ tnf = 1 ∨ tnf = 2 ∨ tnf = 3 ∨ tnf = 4 ∨ tnf = 5 ∨ tnf = 6 ∨ tnf = 7) by lia.
    rewrite !elem_of_cons. naive_solver. }
  clear Htnf. revert tnf Hin.
  assert (Forall (λ tnf, let f := bit mb 128 + bit me 64 + bit sr 16 + bit il 8 + tnf in
    (Z.land f 0x20 =? 0) = true ∧ negb (Z.land f 0x10 =? 0) = sr ∧
    negb (Z.land f 0x08 =? 0) = il ∧ Z.land f 0x07 = tnf) [0; 1; 2; 3; 4; 5; 6; 7]) as Hall.
  { destruct mb, me, sr, il; repeat constructor; done. }
  by rewrite Forall_forall in Hall.
Qed.

(** Every unchunked flags byte is one of these. *)
Lemma flags_surjective f : is_u8 f → Z.land f 0x20 = 0 →
  ∃ mb me, f = bit mb 128 + bit me 64 + bit (negb (Z.land f 0x10 =? 0)) 16 +
               bit (negb (Z.land f 0x08 =? 0)) 8 + Z.land f 0x07 ∧ 0 ≤ Z.land f 0x07 < 8.
Proof.
  intros Hf Hc. exists (Z.testbit f 7), (Z.testbit f 6).
  assert (forallb (λ n, let f := Z.of_nat n in negb (Z.land f 0x20 =? 0) ||
    ((f =? bit (Z.testbit f 7) 128 + bit (Z.testbit f 6) 64 + bit (negb (Z.land f 0x10 =? 0)) 16 +
           bit (negb (Z.land f 0x08 =? 0)) 8 + Z.land f 0x07) &&
     (0 <=? Z.land f 0x07) && (Z.land f 0x07 <? 8))) (seq 0 256) = true) as Hall by (vm_compute; done).
  rewrite forallb_forall in Hall. specialize (Hall (Z.to_nat f)).
  unfold is_u8 in Hf. rewrite in_seq in Hall. specialize (Hall ltac:(lia)).
  cbv zeta in Hall. rewrite Z2Nat.id, Hc in Hall by lia. simpl orb in Hall.
  rewrite !andb_true_iff, Z.eqb_eq, Z.leb_le, Z.ltb_lt in Hall.
  destruct Hall as [[? ?] ?]. by split_and!.
Qed.

Lemma take_n_app part x d : take_n part (len x) (x ++ d) = Ok (x, d).
Proof.
  unfold take_n, len. rewrite length_app. destruct (Z.ltb_spec (Z.of_nat (length x + length d)) (Z.of_nat (length x))); [lia|].
  by rewrite Nat2Z.id, take_app_length, drop_app_length.
Qed.

Lemma be32_roundtrip n : 0 ≤ n < 2 ^ 32 → from_be_bytes (be32 n) = n.
Proof. intros Hn. unfold from_be_bytes, be32. simpl. div_lia. Qed.

Lemma be32_of_bytes a b c e : is_u8 a → is_u8 b → is_u8 c → is_u8 e →
  be32 (from_be_bytes [a; b; c; e]) = [a; b; c; e] ∧ from_be_bytes [a; b; c; e] < 2 ^ 32.
Proof. unfold is_u8, from_be_bytes, be32. simpl. intros. split; [repeat f_equal; div_lia|lia]. Qed.

(** The reference parser reads a record back and leaves what follows it. *)
Lemma ref_fields_encode r rest : record_ok r →
  ref_fields (encode_record r ++ rest) =
    Ok (mkFields (record_flags r) (nr_type r) (nr_id r) (nr_payload r), rest).
Proof.
  intros [Htnf Hty Hid Hnoid Hpl]. unfold encode_record, ref_fields. simpl app.
  destruct (flags_bits (nr_mb r) (nr_me r) (nr_sr r) (nr_il r) (nr_tnf r) Htnf) as (Hc & Hs & Hi & _).
  fold (record_flags r) in Hc, Hs, Hi. rewrite Hc, Hs, Hi. simpl negb. cbv iota.
  rewrite <-!app_assoc.
  assert (ref_length (nr_sr r) ((if nr_sr r then [len (nr_payload r)] else be32 (len (nr_payload r))) ++
    (if nr_il r then [len (nr_id r)] else []) ++ nr_type r ++ nr_id r ++ nr_payload r ++ rest) =
    Ok (len (nr_payload r), (if nr_il r then [len (nr_id r)] else []) ++ nr_type r ++ nr_id r ++ nr_payload r ++ rest)) as ->.
  { destruct (nr_sr r); [done|].
    pose proof (be32_roundtrip (len (nr_payload r))) as Hb. unfold be32 in *. cbn [app ref_length].
    by rewrite Hb by (unfold len in *; lia). }
  cbn [result_bind].
  assert (ref_id_length (nr_il r) ((if nr_il r then [len (nr_id r)] else []) ++ nr_type r ++ nr_id r ++ nr_payload r ++ rest) =
    Ok (len (nr_id r), nr_type r ++ nr_id r ++ nr_payload r ++ rest)) as ->.
  { destruct (nr_il r); [done|]. simpl. by rewrite Hnoid. }
  cbn [result_bind]. rewrite take_n_app. cbn [result_bind]. rewrite take_n_app. cbn [result_bind].
  by rewrite take_n_app.
Qed.

Lemma take_n_inv part n d x d' : 0 ≤ n → take_n part n d = Ok (x, d') → d = x ++ d' ∧ n = len x.
Proof. apply take_n_Ok. Qed.

(** Whatever the reference parser accepts is the encoding of a record. *)
Lemma ref_fields_sound d f rest : Forall is_u8 d → ref_fields d = Ok (f, rest) →
  ∃ r, record_ok r ∧ d = encode_record r ++ rest ∧
    f = mkFields (record_flags r) (nr_type r) (nr_id r) (nr_payload r).
Proof.
  unfold ref_fields. intros Hu. destruct d as [|flags [|tl d2]]; [done|by destruct (negb _)|].
  destruct (negb (Z.land flags 32 =? 0)) eqn:Hc; [done|]. apply negb_false_iff, Z.eqb_eq in Hc.
  inversion_clear Hu as [|? ? Hflags Hu1]. inversion_clear Hu1 as [|? ? Htl Hu2].
  destruct (flags_surjective flags Hflags Hc) as (mb & me & Hf & Htnf).
  set (sr := negb (Z.land flags 16 =? 0)) in *. set (il := negb (Z.land flags 8 =? 0)) in *.
  destruct (ref_length sr d2) as [[pl d3]|] eqn:E3; [|done]. cbn [result_bind].
  destruct (ref_id_length il d3) as [[idl d4]|] eqn:E4; [|done]. cbn [result_bind].
  destruct (take_n "type" tl d4) as [[ty d5]|] eqn:E5; [|done]. cbn [result_bind].
  destruct (take_n "ID" idl d5) as [[id d6]|] eqn:E6; [|done]. cbn [result_bind].
  destruct (take_n "payload" pl d6) as [[pv d7]|] eqn:E7; [|done]. intros [= <- <-].
  destruct (ref_length_Ok _ _ _ _ Hu2 E3) as (x3 & Hd2 & _ & Hpl).
  assert (Forall is_u8 d3) as Hu3 by (rewrite Hd2 in Hu2; by apply Forall_app in Hu2 as [_ ?]).
  destruct (ref_id_length_Ok _ _ _ _ Hu3 E4) as (x4 & Hd3 & _ & Hidl).
  unfold is_u8 in Htl. apply take_n_inv in E5 as [-> Hty]; [|lia].
  apply take_n_inv in E6 as [-> Hid]; [|lia]. apply take_n_inv in E7 as [-> Hpv]; [|lia].
  assert (d2 = (if sr then [len pv] else be32 (len pv)) ++ d3 ∧ len pv < if sr then 256 else 2 ^ 32) as [-> Hpv'].
  { rewrite <-Hpv. destruct sr; unfold ref_length in E3.
    - destruct d2 as [|b d0]; [done|]. injection E3 as -> ->. by inversion_clear Hu2 as [|? ? [] _].
    - destruct d2 as [|a [|b [|c [|e d0]]]]; try done. injection E3 as <- ->.
      repeat match goal with H : Forall _ (_ :: _) |- _ => inversion_clear H end.
      destruct (be32_of_bytes a b c e) as [-> ?]; done. }
  assert (d3 = (if il then [len id] else []) ++ ty ++ id ++ pv ++ d7 ∧ (il = false → id = [])) as [-> Hnoid].
  { destruct il; simpl in E4.
    - destruct d3 as [|b d0]; [done|]. injection E4 as -> ->. by rewrite <-Hid.
    - injection E4 as Hz ->. split; [done|]. intros _. destruct id; [done|].
      rewrite <-Hz in Hid. by unfold len in Hid. }
  exists (mkRecord mb me sr il (Z.land flags 7) ty id pv). split_and!.
  - constructor; simpl; [done|lia|lia|done|done].
  - unfold encode_record, record_flags. simpl. rewrite <-Hf, <-Hty. by rewrite <-!app_assoc.
  - unfold record_flags. simpl. by rewrite <-Hf.
Qed.

(** The reference parser fails only by truncation or on a chunked record. *)
Lemma ref_fields_error d e : ref_fields d = Err e →
  (∃ part, e = Truncated part) ∨ e = Chunked ∧ ∃ flags d', d = flags :: d' ∧ Z.land flags 0x20 ≠ 0.
Proof.
  unfold ref_fields. destruct d as [|flags d]; [intros [= <-]; eauto|].
  destruct (negb (Z.land flags 32 =? 0)) eqn:Hc.
  { apply negb_true_iff, Z.eqb_neq in Hc. intros [= <-]. eauto 10. }
  assert (∀ part n d e, take_n part n d = Err e → ∃ part, e = Truncated part) as Htake.
  { intros part n l e'. unfold take_n. destruct (_ <? _); intros [= <-]. eauto. }
  destruct d as [|tl d2]; [intros [= <-]; eauto|].
  destruct (ref_length _ d2) as [[pl d3]|] eqn:E3; cbn [result_bind].
  2:{ unfold ref_length in E3. intros [= <-]. left. repeat case_match; simplify_eq; eauto. }
  destruct (ref_id_length _ d3) as [[idl d4]|] eqn:E4; cbn [result_bind].
  2:{ unfold ref_id_length in E4. intros [= <-]. left. repeat case_match; simplify_eq; eauto. }
  destruct (take_n _ tl d4) as [[ty d5]|] eqn:E5; cbn [result_bind]; [|intros [= <-]; eauto].
  destruct (take_n _ idl d5) as [[id d6]|] eqn:E6; cbn [result_bind]; [|intros [= <-]; eauto].
  destruct (take_n _ pl d6) as [[pv d7]|] eqn:E7; cbn [result_bind]; [done|intros [= <-]; eauto].
Qed.

(** The memory the parser runs in: it holds the record, and 1024 bytes. *)
Definition fits (usize_max : Z) (data : list Z) : Prop :=
  1024 ≤ usize_max ∧ len data ≤ usize_max ∧ Forall is_u8 data.

(** C15: the index-based record parser computes the left-to-right reference
    parser on every byte string; so no input makes it index out of range,
    overflow a [usize], or panic otherwise, on 16-bit and wider targets. *)
Theorem parse_ndef_text_record_total usize_max data :
  fits usize_max data →
  parse_ndef_text_record usize_max data = comp_result (ref_parse data).
Proof. intros (? & ? & ?). by apply parse_is_ref. Qed.

(** A text record parses to its payload, whatever follows it. *)
Lemma parse_encode usize_max r rest :
  fits usize_max (encode_record r ++ rest) → record_ok r → nr_tnf r = 1 → nr_type r = [0x54] →
  parse_ndef_text_record usize_max (encode_record r ++ rest) = Ret (mkTextRecord (nr_payload r)).
Proof.
  intros (Hmax & Hlen & Hu) Hok Ht Hty. rewrite parse_is_ref by done. unfold ref_parse.
  rewrite ref_fields_encode by done. simpl.
  destruct (flags_bits (nr_mb r) (nr_me r) (nr_sr r) (nr_il r) (nr_tnf r) (rok_tnf r Hok)) as (_&_&_&Hb).
  fold (record_flags r) in Hb. by rewrite Hb, Ht, Hty.
Qed.

(** Whatever parses is the encoding of a text record. *)
Lemma parse_sound usize_max data v :
  fits usize_max data → parse_ndef_text_record usize_max data = Ret (mkTextRecord v) →
  ∃ r rest, record_ok r ∧ data = encode_record r ++ rest ∧
    nr_tnf r = 1 ∧ nr_type r = [0x54] ∧ nr_payload r = v.
Proof.
  intros (Hmax & Hlen & Hu). rewrite parse_is_ref by done. unfold ref_parse.
  destruct (ref_fields data) as [[f rest]|] eqn:Hf; [|done]. cbn [result_bind].
  destruct (ref_fields_sound _ _ _ Hu Hf) as (r & Hok & Hd & ->). simpl.
  destruct (flags_bits (nr_mb r) (nr_me r) (nr_sr r) (nr_il r) (nr_tnf r) (rok_tnf r Hok)) as (_&_&_&Ht).
  fold (record_flags r) in Ht. rewrite Ht.
  destruct (Z.eqb_spec (nr_tnf r) 1); [|done]. simpl. case_bool_decide; [|done].
  intros [= <-]. exists r, rest. done.
Qed.

(** C31: the record parser accepts exactly the byte strings that start with the
    encoding of an unchunked well-known record of type "T", short or long,
    with or without an ID, and returns its payload. *)
Theorem parse_ndef_text_record_exact usize_max data v :
  fits usize_max data →
  parse_ndef_text_record usize_max data = Ret (mkTextRecord v) ↔
  ∃ r rest, record_ok r ∧ data = encode_record r ++ rest ∧
    nr_tnf r = 1 ∧ nr_type r = [0x54] ∧ nr_payload r = v.
Proof.
  intros Hfits. split; [by apply parse_sound|].
  intros (r & rest & Hok & -> & Ht & Hty & <-). by apply parse_encode.
Qed.

(** C32: a record cut short anywhere is reported as truncated. *)
Theorem parse_ndef_text_record_truncated usize_max r p q :
  record_ok r → encode_record r = p ++ q → q ≠ [] → fits usize_max p →
  ∃ part, parse_ndef_text_record usize_max p = Fail (Truncated part).
Proof.
  intros Hok Hpq Hq (Hmax & Hlen & Hu). rewrite parse_is_ref by done. unfold ref_parse.
  destruct (ref_fields p) as [[f rest]|e] eqn:Hf.
  - destruct (ref_fields_sound _ _ _ Hu Hf) as (r' & Hok' & Hp & _).
    pose proof (ref_fields_encode r [] Hok) as H1. rewrite app_nil_r, Hpq, Hp, <-app_assoc in H1.
    rewrite ref_fields_encode in H1 by done. injection H1 as _ _ _ _ Hnil.
    by apply app_eq_nil in Hnil as [_ ?].
  - cbn [result_bind]. destruct (ref_fields_error _ _ Hf) as [[part ->]|(-> & flags & d' & -> & Hc)]; [by eexists|].
    unfold encode_record in Hpq. simpl in Hpq. injection Hpq as Hfl _.
    destruct (flags_bits (nr_mb r) (nr_me r) (nr_sr r) (nr_il r) (nr_tnf r) (rok_tnf r Hok)) as (Hb&_).
    fold (record_flags r) in Hb. rewrite Hfl in Hb. apply Z.eqb_eq in Hb. congruence.
Qed.

(** ** Text *)

(** The status byte of a UTF-8 text record with a language code of [n] bytes. *)
Lemma land_3f n : 0 ≤ n < 64 → Z.land n 0x3f = n.
Proof. intros ?. change 0x3f with (Z.ones 6). rewrite Z.land_ones by lia. apply Z.mod_small. lia. Qed.

Lemma text_after_code usize_max status lang body :
  256 ≤ usize_max → Z.land status 0x3f = len lang →
  text usize_max (mkTextRecord (status :: lang ++ body)) =
    comp_result (map_err InvalidUtf8 (from_utf8 body)).
Proof.
  intros Hmax Hs. unfold text. cbn [value]. rewrite Hs.
  assert (len lang < 64).
  { rewrite <-Hs. change 0x3f with (Z.ones 6). rewrite Z.land_ones by lia.
    apply Z.mod_pos_bound. lia. }
  rewrite checked_add_fits by lia. cbn [comp_bind].
  pose proof (slice_app (status :: lang) body [] (len lang + 1) (len (status :: lang ++ body))) as Hsl.
  rewrite app_nil_r in Hsl. unfold len in *. simpl app in Hsl. rewrite Hsl; [done|..];
    simpl length; rewrite ?length_app; lia.
Qed.

(** A text is the end of the payload, and valid UTF-8. *)
Lemma text_sound usize_max v t : text usize_max (mkTextRecord v) = Ret t →
  ∃ code, v = code ++ t ∧ ∃ cs, Forall scalar cs ∧ t = encode_str cs.
Proof.
  unfold text. cbn [value]. destruct v as [|status body].
  { intros [= <-]. exists []. split; [done|]. by exists []. }
  unfold checked_add. case_bool_decide; [|done]. cbn [comp_bind].
  destruct (slice _ _ _) as [x|] eqn:Hs; [|done]. destruct (from_utf8 x) as [y|] eqn:Hy; [|done].
  intros [= <-]. apply from_utf8_Ok in Hy as [-> Hcs].
  apply slice_Some in Hs as (a & c & Hv & _ & Hlen). exists a. split; [|done].
  rewrite Hv in Hlen |- *. rewrite !length_app in Hlen. destruct c; [by rewrite app_nil_r|simpl in Hlen; lia].
Qed.

(** C33: a text record carrying a language code and a string of Unicode scalar
    values parses back to exactly that string. *)
Theorem text_record_roundtrip usize_max r lang cs rest :
  record_ok r → nr_tnf r = 1 → nr_type r = [0x54] → len lang < 64 → Forall scalar cs →
  nr_payload r = len lang :: lang ++ encode_str cs →
  fits usize_max (encode_record r ++ rest) →
  ∃ t, parse_ndef_text_record usize_max (encode_record r ++ rest) = Ret t ∧
       text usize_max t = Ret (encode_str cs).
Proof.
  intros Hok Ht Hty Hl Hcs Hp Hfits. exists (mkTextRecord (nr_payload r)).
  split; [by apply parse_encode|]. rewrite Hp, text_after_code.
  - unfold from_utf8. by rewrite utf8_valid_encode.
  - destruct Hfits. lia.
  - apply land_3f. unfold len in *. lia.
Qed.

(** The text of any record is its payload without status byte and language
    code, provided that is valid UTF-8; the status byte's length is never
    trusted beyond the payload, and nothing panics. *)
Lemma text_outcomes usize_max status body :
  256 ≤ usize_max → is_u8 status →
  let n := Z.to_nat (Z.land status 0x3f) in
  text usize_max (mkTextRecord (status :: body)) =
    if bool_decide (n ≤ length body)%nat
    then comp_result (map_err InvalidUtf8 (from_utf8 (drop n body)))
    else Fail (Truncated "text payload").
Proof.
  intros Hmax Hs n. assert (0 ≤ Z.land status 0x3f < 64) as Hb.
  { change 0x3f with (Z.ones 6). rewrite Z.land_ones by lia. apply Z.mod_pos_bound. lia. }
  case_bool_decide as Hn.
  - rewrite <-(take_drop n body) at 1. apply text_after_code; [done|].
    unfold len. rewrite length_take. lia.
  - unfold text. cbn [value]. rewrite checked_add_fits by lia. cbn [comp_bind].
    unfold slice. rewrite bool_decide_eq_false_2; [done|]. simpl length. lia.
Qed.

(** ** TLV streams *)

(** The header of an NDEF message TLV: one length byte below 255, else [0xff]
    and two bytes, big-endian. *)
Definition tlv_header (n : Z) : list Z :=
  if n <? 255 then [0x03; n] else [0x03; 0xff; n / 256; n mod 256].

(** Feeding chunks until the parser is done, as its callers do. *)
Fixpoint feed (p : NdefMessageParser) (chunks : list (list Z)) : NdefMessageParser :=
  match chunks with
  | [] => p
  | c :: cs => let p := add_data p c in if is_done p then p else feed p cs
  end.

(** [expects p rest msg]: in state [p], exactly the bytes [rest] are missing
    for the parser to hold [msg]. *)
Inductive expects : NdefMessageParser → list Z → list Z → Prop :=
| expects_start pre msg : Forall (λ b, b ≠ 0x03) pre →
    expects new (pre ++ tlv_header (len msg) ++ msg) msg
| expects_length msg :
    expects (mkParser Length (-1) []) (tail (tlv_header (len msg)) ++ msg) msg
| expects_high msg : 255 < len msg →
    expects (mkParser Length (-2) []) (len msg / 256 :: len msg mod 256 :: msg) msg
| expects_low msg : 255 < len msg →
    expects (mkParser Length (len msg / 256) []) (len msg mod 256 :: msg) msg
| expects_value d m : m ≠ [] →
    expects (mkParser Value (len (d ++ m)) d) m (d ++ m).

Lemma shift_or hi lo : 0 ≤ hi < 256 → is_u8 lo → Z.lor (as_i32 (Z.shiftl hi 8)) lo = hi * 256 + lo.
Proof.
  unfold is_u8. intros Hhi Hlo. rewrite Z.shiftl_mul_pow2 by lia. change (2 ^ 8) with 256.
  rewrite as_i32_small by lia. symmetry. apply Z.add_nocarry_lor.
  apply Z.bits_inj'. intros i Hi. rewrite Z.land_spec, Z.bits_0.
  change 256 with (2 ^ 8). destruct (Z.lt_ge_cases i 8).
  - by rewrite Z.mul_pow2_bits_low.
  - rewrite <-(Z.mod_small lo (2 ^ 8)), Z.mod_pow2_bits_high by lia. apply andb_false_r.
Qed.

(** The messages a chunked stream can carry (see the theorems at the end for
    the two lengths that are left out). *)
Definition message_ok (msg : list Z) : Prop := 0 < len msg ≤ 65535 ∧ len msg ≠ 255.

Lemma message_ok_ne msg : message_ok msg → msg ≠ [].
Proof. by intros [[] _] ->. Qed.

Lemma expects_not_done p rest msg : message_ok msg → expects p rest msg → is_done p = false.
Proof.
  intros [Hm _] He. unfold is_done. apply Z.eqb_neq. rewrite as_i32_small.
  - destruct He as [| | |msg Hl|d m Hne]; simpl; try lia.
    + div_lia.
    + unfold len. rewrite length_app. destruct m; [done|]. simpl. lia.
  - destruct He as [| | |msg Hl|d m Hne]; simpl; try lia. unfold len in Hm. rewrite length_app in Hm. lia.
Qed.

(** The last byte completes the message, and the parser looks no further. *)
Lemma add_data_last d b s : 0 < len (d ++ [b]) ≤ 65535 →
  add_data (mkParser Value (len (d ++ [b])) d) (b :: s) = mkParser Value (len (d ++ [b])) (d ++ [b]).
Proof.
  intros Hl. simpl. fold (len (d ++ [b])). rewrite as_i32_small, Z.eqb_refl by lia. done.
Qed.

Lemma add_data_value d b m s : m ≠ [] → len (d ++ b :: m) ≤ 65535 →
  add_data (mkParser Value (len (d ++ b :: m)) d) (b :: s) =
  add_data (mkParser Value (len (d ++ b :: m)) (d ++ [b])) s.
Proof.
  intros Hm Hl. unfold len in *. rewrite length_app in *. destruct m as [|c m]; [done|]. simpl length in *.
  simpl. rewrite length_app. simpl. rewrite as_i32_small by lia.
  by rewrite (proj2 (Z.eqb_neq _ _)) by lia.
Qed.

(** One more byte. *)
Lemma expects_step p b rest msg : message_ok msg → expects p (b :: rest) msg →
  rest ≠ [] ∧ (∃ p', (∀ s, add_data p (b :: s) = add_data p' s) ∧ expects p' rest msg) ∨
  rest = [] ∧ ∀ s, add_data p (b :: s) = mkParser Value (len msg) msg.
Proof.
  intros Hok He. pose proof (message_ok_ne _ Hok) as Hmne. destruct Hok as [Hm Hm2].
  remember (b :: rest) as r eqn:Hr.
  destruct He as [pre msg Hpre|msg|msg Hl|msg Hl|d m Hne].
  - left. destruct pre as [|b' pre]; simplify_eq/=.
    + assert (b = 3 ∧ rest = tail (tlv_header (len msg)) ++ msg) as [-> ->].
      { unfold tlv_header in *. destruct (len msg <? 255); by simplify_eq/=. }
      split; [unfold tlv_header; by destruct (len msg <? 255)|].
      exists (mkParser Length (-1) []). split; [done|apply expects_length].
    + inversion_clear Hpre as [|? ? Hb Hpre']. split.
      { unfold tlv_header. destruct pre, (len msg <? 255); done. }
      exists new. split; [|by apply expects_start]. intros s. simpl.
      rewrite (proj2 (Z.eqb_neq b 3)) by done. by destruct (b =? 0).
  - left. unfold tlv_header in Hr. destruct (Z.ltb_spec (len msg) 255); injection Hr as <- <-; simpl.
    + split; [done|]. exists (mkParser Value (len msg) []). split.
      * intros s. by rewrite (proj2 (Z.eqb_neq _ 255)) by lia.
      * by apply (expects_value []).
    + split; [done|]. exists (mkParser Length (-2) []). split; [done|]. apply expects_high. lia.
  - left. injection Hr as <- <-. split; [done|]. exists (mkParser Length (len msg / 256) []). split; [done|]. by apply expects_low.
  - left. injection Hr as <- <-. split; [done|]. exists (mkParser Value (len msg) []). split.
    + intros s. simpl. rewrite !(proj2 (Z.eqb_neq _ _)) by div_lia.
      rewrite shift_or by (unfold is_u8; div_lia). do 2 f_equal. div_lia.
    + by apply (expects_value []).
  - subst m. destruct rest as [|c rest].
    + right. split; [done|]. intros s. by apply add_data_last.
    + left. split; [done|]. exists (mkParser Value (len (d ++ b :: c :: rest)) (d ++ [b])). split.
      * intros s. apply add_data_value; [done|lia].
      * replace (d ++ b :: c :: rest) with ((d ++ [b]) ++ c :: rest) by (by rewrite <-app_assoc).
        by apply expects_value.
Qed.

Lemma expects_more p rest msg : message_ok msg → expects p rest msg → rest ≠ [].
Proof.
  intros Hok%message_ok_ne He. destruct He; try done; unfold tlv_header; destruct (len msg <? 255).
  all: by destruct pre || done.
Qed.

(** A chunk [a] that does not complete the message leaves the parser expecting
    the rest; one that does leaves it done, whatever follows. *)
Lemma expects_chunk a p b msg : message_ok msg → expects p (a ++ b) msg → b ≠ [] →
  expects (add_data p a) b msg.
Proof.
  intros Hok. revert p. induction a as [|x a IH]; intros p He Hb; [done|].
  destruct (expects_step _ _ _ _ Hok He) as [(_ & p' & Hp & He')|[Hnil _]].
  - rewrite Hp. by apply IH.
  - by apply app_eq_nil in Hnil as [_ ?].
Qed.

Lemma expects_complete a p s msg : message_ok msg → expects p a msg →
  add_data p (a ++ s) = mkParser Value (len msg) msg.
Proof.
  intros Hok. revert p. induction a as [|x a IH]; intros p He.
  { by destruct (expects_more _ _ _ Hok He). }
  destruct (expects_step _ _ _ _ Hok He) as [(_ & p' & Hp & He')|[-> Hdone]].
  - simpl app. rewrite Hp. by apply IH.
  - simpl app. apply Hdone.
Qed.

Lemma done_parser msg : message_ok msg → is_done (mkParser Value (len msg) msg) = true.
Proof. intros [Hm _]. unfold is_done. simpl. fold (len msg). rewrite as_i32_small by lia. apply Z.eqb_refl. Qed.

Lemma feed_expects chunks p rest s msg : message_ok msg → expects p rest msg →
  concat chunks = rest ++ s → feed p chunks = mkParser Value (len msg) msg.
Proof.
  intros Hok. revert p rest. induction chunks as [|c cs IH]; intros p rest He Hc.
  { simpl in Hc. symmetry in Hc. apply app_eq_nil in Hc as [-> _]. by destruct (expects_more _ _ _ Hok He). }
  simpl in *. destruct (app_eq_inv c (concat cs) rest s Hc) as [(k & -> & Hs)|(k & -> & Hs)].
  - rewrite (expects_complete rest p k msg) by done. by rewrite done_parser.
  - destruct k as [|x k].
    + rewrite app_nil_r in He. rewrite <-(app_nil_r c), (expects_complete c p [] msg) by done.
      by rewrite done_parser.
    + assert (expects (add_data p c) (x :: k) msg) as He' by (by eapply expects_chunk).
      rewrite (expects_not_done _ _ _ Hok He'). by eapply IH.
Qed.

(** C34: the message of a TLV stream is extracted exactly, however the stream is
    cut into chunks and whatever follows it, when it is preceded only by bytes
    other than the message tag 0x03 and its length is neither 0 nor 255 and at most
    65535. *)
Theorem tlv_message_extracted chunks pre msg suf :
  message_ok msg → Forall (λ b, b ≠ 0x03) pre →
  concat chunks = pre ++ tlv_header (len msg) ++ msg ++ suf →
  let p := feed new chunks in is_done p = true ∧ p_data p = msg ∧ has_started p = true.
Proof.
  intros Hok Hpre Hc. pose proof (feed_expects chunks new (pre ++ tlv_header (len msg) ++ msg) suf msg) as Hf.
  simpl. rewrite Hf; [|done|by constructor|by rewrite Hc, <-!app_assoc].
  split_and!; [by apply done_parser|done..].
Qed.

(** *** The parser's shape *)

Definition parser_ok (p : NdefMessageParser) : Prop :=
  Forall is_u8 (p_data p) ∧
  match p_state p with
  | Init => p_length p = -1 ∧ p_data p = []
  | Length => (p_length p = -1 ∨ p_length p = -2 ∨ 0 ≤ p_length p < 256) ∧ p_data p = []
  | Value => 0 ≤ p_length p ≤ 65535
  end.

(** The shape is kept, by induction on the bytes. *)
Lemma add_data_shape p bytes :
  parser_ok p → Forall is_u8 bytes →
  parser_ok (add_data p bytes) ∧ p_data p `prefix_of` p_data (add_data p bytes) ∧
  (has_started p = true → has_started (add_data p bytes) = true).
Proof.
  intros Hp Hb. revert p Hp. induction Hb as [|b bytes Hb _ IH]; intros [st n d] [Hd Hst]; [done|].
  simpl in *. destruct st; destruct_ands; simplify_eq.
  - assert (parser_ok (mkParser Init (-1) [])) as H0 by (split; [constructor|done]).
    assert (parser_ok (mkParser Length (-1) [])) as H1 by (split; [constructor|simpl; auto]).
    destruct (b =? 0); [by apply (IH _ H0)|]. destruct (b =? 3); [|by apply (IH _ H0)].
    destruct (IH _ H1) as (? & ? & ?). done.
  - assert (∀ st' n', parser_ok (mkParser st' n' []) → st' ≠ Init →
      parser_ok (add_data (mkParser st' n' []) bytes) ∧
      [] `prefix_of` p_data (add_data (mkParser st' n' []) bytes) ∧
      (true = true → has_started (add_data (mkParser st' n' []) bytes) = true)) as Hgo.
    { intros st' n' Hok Hne. destruct (IH _ Hok) as (? & ? & Hs). split_and!; [done..|].
      intros _. apply Hs. by apply bool_decide_eq_true_2. }
    change (has_started {| p_state := Length; p_length := n; p_data := [] |}) with true.
    unfold is_u8 in Hb.
    destruct (Z.eqb_spec n (-1)); [destruct (Z.eqb_spec b 255)|destruct (Z.eqb_spec n (-2))];
      (apply Hgo; [split; [constructor|simpl]|done]).
    + split; [lia|done].
    + lia.
    + split; [lia|done].
    + rewrite shift_or by (unfold is_u8; lia). lia.
  - assert (parser_ok (mkParser Value n (d ++ [b]))) as H1.
    { split; [|done]. apply Forall_app. split; [done|]. by constructor. }
    destruct (_ =? n); simpl.
    + split_and!; [done|by apply prefix_app_r|done].
    + destruct (IH _ H1) as (? & Hpre & Hs). split_and!; [done| |by intros _; apply Hs].
      etrans; [|done]. by apply prefix_app_r.
Qed.

Lemma add_data_length p bytes :
  (length (p_data (add_data p bytes)) ≤ length (p_data p) + length bytes)%nat.
Proof.
  revert p. induction bytes as [|b bytes IH]; intros [st n d]; simpl; [lia|].
  destruct st; simpl; repeat case_match; simpl;
    try (etrans; [apply IH|]; simpl); rewrite ?length_app; simpl; lia.
Qed.

(** C36: whatever bytes a tag holds, the parser's fields stay consistent: no data
    before the value, a length that fits 16 bits, and data that only grows. *)
Theorem add_data_keeps_shape p bytes :
  parser_ok p → Forall is_u8 bytes →
  parser_ok (add_data p bytes) ∧ p_data p `prefix_of` p_data (add_data p bytes) ∧
  (has_started p = true → has_started (add_data p bytes) = true).
Proof. apply add_data_shape. Qed.

(** *** Streams the parser mishandles *)

(** An empty NDEF message is recognised only when its length byte ends a
    chunk; followed by any further byte in the same chunk (as in [03 00 fe], an
    empty formatted tag) the parser overruns it and is not done. *)
Lemma empty_message_depends_on_chunking rest :
  rest ≠ [] → len rest < 2 ^ 31 →
  is_done (add_data new [0x03; 0x00]) = true ∧
  is_done (add_data new ([0x03; 0x00] ++ rest)) = false.
Proof.
  intros Hne Hl. split; [done|].
  change (add_data new ([3; 0] ++ rest)) with (add_data (mkParser Value 0 []) rest).
  assert (∀ d, 0 < len d + len rest → len d + len rest < 2 ^ 31 →
    is_done (add_data (mkParser Value 0 d) rest) = false) as Hgen.
  { clear Hne Hl. unfold len. induction rest as [|b rest IH]; intros d H1 H2; simpl in *.
    - unfold is_done. simpl. rewrite as_i32_small by lia. apply Z.eqb_neq. lia.
    - rewrite length_app. simpl. rewrite as_i32_small by lia. rewrite (proj2 (Z.eqb_neq _ _)) by lia.
      apply IH; rewrite length_app; simpl; lia. }
  apply Hgen; unfold len in *; destruct rest; simpl in *; try done; lia.
Qed.

(** A 255-byte message whose chunk boundary falls inside its length field
    ([03 ff 00 | ff ...]) is reported done with no data at all, while the same
    bytes in one chunk are extracted. *)
Lemma message_of_255_bytes_depends_on_chunking msg suf :
  len msg = 255 →
  p_data (feed new [[0x03; 0xff; 0x00]; 0xff :: msg ++ suf]) = [] ∧
  is_done (feed new [[0x03; 0xff; 0x00]; 0xff :: msg ++ suf]) = true ∧
  p_data (feed new [[0x03; 0xff; 0x00; 0xff] ++ msg ++ suf]) = msg.
Proof.
  intros Hl. split_and!; [done..|]. simpl feed.
  change (add_data new (3 :: 255 :: 0 :: 255 :: msg ++ suf)) with
    (add_data (mkParser Value 255 []) (msg ++ suf)).
  assert (∀ d m, m ≠ [] → len d + len m = 255 →
    add_data (mkParser Value 255 d) (m ++ suf) = mkParser Value 255 (d ++ m)) as Hgen.
  { unfold len. intros d m. revert d. induction m as [|b m IH]; intros d Hne Hm; [done|].
    simpl in *. rewrite length_app. simpl. destruct m as [|c m].
    - rewrite as_i32_small by (simpl in *; lia). by rewrite (proj2 (Z.eqb_eq _ _)) by (simpl in *; lia).
    - rewrite as_i32_small by (simpl in *; lia). rewrite (proj2 (Z.eqb_neq _ _)) by (simpl in *; lia).
      rewrite IH; [by rewrite <-app_assoc|done|rewrite length_app; simpl in *; lia]. }
  rewrite Hgen; [|by intros ->|by unfold len in *; simpl; lia]. simpl. by destruct (is_done _).
Qed.

(** TLVs before the message are not skipped by their length: a Lock Control
    TLV ([01 03 a0 10 44], as NTAG and Ultralight tags carry) contains the byte
    03, which the parser takes for the message tag, so the message that follows
    is never the one extracted. *)
Lemma lock_control_tlv_hides_message rest :
  let p := add_data new ([0x01; 0x03; 0xa0; 0x10; 0x44] ++ rest) in
  p_length p = 160 ∧ [0x10; 0x44] `prefix_of` p_data p.
Proof.
  change (add_data new ([1; 3; 160; 16; 68] ++ rest)) with (add_data (mkParser Value 160 [16; 68]) rest).
  assert (∀ d, p_length (add_data (mkParser Value 160 d) rest) = 160 ∧
    d `prefix_of` p_data (add_data (mkParser Value 160 d) rest)) as Hgen; [|apply Hgen].
  induction rest as [|b rest IH]; intros d; simpl; [done|].
  destruct (_ =? 160); simpl; [split; [done|by apply prefix_app_r]|].
  destruct (IH (d ++ [b])) as [? Hp]. split; [done|]. etrans; [|done]. by apply prefix_app_r.
Qed.

(** C35: where the TLV stream parser departs from the Type 2 tag format. An empty
    message is recognised only when its length byte ends a chunk; a 255-byte
    message whose length field is split between chunks ([03 ff 00 | ff ...]) is
    reported done with no data, while in one chunk it is extracted; and TLVs
    before the message are not skipped by their length, so the length byte of a
    Lock Control TLV ([01 03 a0 10 44]) is taken for the message tag. *)
Theorem tlv_parser_departs_from_format rest msg :
  rest ≠ [] → len rest < 2 ^ 31 → len msg = 255 →
  (is_done (add_data new [0x03; 0x00]) = true ∧ is_done (add_data new ([0x03; 0x00] ++ rest)) = false) ∧
  (is_done (feed new [[0x03; 0xff; 0x00]; 0xff :: msg ++ rest]) = true ∧
   p_data (feed new [[0x03; 0xff; 0x00]; 0xff :: msg ++ rest]) = [] ∧
   p_data (feed new [[0x03; 0xff; 0x00; 0xff] ++ msg ++ rest]) = msg) ∧
  (let p := add_data new ([0x01; 0x03; 0xa0; 0x10; 0x44] ++ rest) in
   p_length p = 160 ∧ [0x10; 0x44] `prefix_of` p_data p).
Proof.
  intros Hne Hl Hm. destruct (message_of_255_bytes_depends_on_chunking msg rest Hm) as (H1 & H2 & H3).
  split_and!; [done|by apply empty_message_depends_on_chunking|done|done|done|..];
    apply lock_control_tlv_hides_message.
Qed.

Lemma slice_tail (a b : Z) l i j : 0 < i → slice (a :: l) i j = slice (b :: l) i j.
Proof.
  intros Hi. unfold slice. simpl length. case_bool_decide; [|done].
  destruct (Z.to_nat i) eqn:Hn; [lia|done].
Qed.

(** The encoding bit of the status byte is ignored: a UTF-16 text record is
    decoded as if its bytes were UTF-8. *)
Theorem utf16_flag_is_ignored usize_max status body :
  0 ≤ status < 128 →
  text usize_max (mkTextRecord (status + 128 :: body)) = text usize_max (mkTextRecord (status :: body)).
Proof.
  intros Hs. unfold text. cbn [value]. simpl length.
  assert (Z.land (status + 128) 63 = Z.land status 63) as ->.
  { change 63 with (Z.ones 6). rewrite !Z.land_ones by lia. div_lia. }
  destruct (checked_add _ _ _) as [i| |] eqn:Hi; [|done..]. cbn [comp_bind].
  unfold checked_add in Hi. case_bool_decide; simplify_eq.
  assert (0 < Z.land status 63 + 1) as Hpos.
  { assert (0 ≤ Z.land status 63) by (apply Z.land_nonneg; lia). lia. }
  by rewrite (slice_tail _ status) by done.
Qed.

(** ** Witnesses *)

(** The short text record "en" / "hi", and a long one with an ID. *)
Definition demo_record : NdefRecord := mkRecord true true true false 1 [0x54] [] (2 :: [101; 110] ++ [104; 105]).
Definition demo_long : NdefRecord := mkRecord true true false true 1 [0x54] [9] (2 :: [101; 110] ++ [104; 105]).

Lemma demo_record_ok : record_ok demo_record.
Proof. by repeat split. Qed.

Ltac solve_fits := split_and!; [done|done|repeat constructor; done].

Lemma parse_ndef_text_record_total_witness :
  parse_ndef_text_record 65535 [0xd1; 0x01; 0x01; 0x54; 0x3f] = Ret (mkTextRecord [0x3f]).
Proof.
  rewrite (parse_ndef_text_record_total 65535 [0xd1; 0x01; 0x01; 0x54; 0x3f]); [reflexivity|solve_fits].
Defined.

Lemma parse_ndef_text_record_exact_witness :
  parse_ndef_text_record 65535 (encode_record demo_long ++ [0xfe]) = Ret (mkTextRecord [2; 101; 110; 104; 105]).
Proof.
  apply (parse_ndef_text_record_exact 65535 (encode_record demo_long ++ [0xfe])); [solve_fits|].
  exists demo_long, [0xfe]. by repeat split.
Defined.

Lemma parse_ndef_text_record_truncated_witness :
  ∃ part, parse_ndef_text_record 65535 [0xd1; 0x01; 0x05; 0x54; 0x02] = Fail (Truncated part).
Proof.
  apply (parse_ndef_text_record_truncated 65535 demo_record _ [101; 110; 104; 105]);
    [apply demo_record_ok|reflexivity|done|solve_fits].
Defined.

Lemma text_record_roundtrip_witness :
  ∃ t, parse_ndef_text_record 65535 (encode_record demo_record ++ []) = Ret t ∧ text 65535 t = Ret [104; 105].
Proof.
  apply (text_record_roundtrip 65535 demo_record [101; 110] [104; 105] []);
    [apply demo_record_ok|done|done|done| |done|solve_fits].
  repeat (apply Forall_cons_2; [by left|]). by apply Forall_nil_2.
Defined.

Lemma text_outcomes_witness : text 65535 (mkTextRecord [0x3f; 65]) = Fail (Truncated "text payload").
Proof. apply (text_outcomes 65535 0x3f [65]); done. Defined.

Lemma tlv_message_extracted_witness :
  is_done (feed new [[0; 0; 3]; [2; 7]; [8; 0xfe]]) = true ∧ p_data (feed new [[0; 0; 3]; [2; 7]; [8; 0xfe]]) = [7; 8].
Proof.
  destruct (tlv_message_extracted [[0; 0; 3]; [2; 7]; [8; 0xfe]] [0; 0] [7; 8] [0xfe]) as (H1 & H2 & _);
    [done|by repeat constructor|done|done].
Defined.

Lemma add_data_keeps_shape_witness : parser_ok (add_data new [0; 3; 255; 1; 44; 85]).
Proof. apply (add_data_keeps_shape new [0; 3; 255; 1; 44; 85]); [by repeat constructor|by repeat constructor]. Defined.

Lemma tlv_parser_departs_from_format_witness : is_done (add_data new ([0x03; 0x00] ++ [0xfe])) = false.
Proof. apply (tlv_parser_departs_from_format [0xfe] (replicate 255 1)); done. Defined.

Lemma utf16_flag_is_ignored_witness :
  text 65535 (mkTextRecord [2 + 128; 101; 110; 0; 104; 0; 105]) = text 65535 (mkTextRecord [2; 101; 110; 0; 104; 0; 105]).
Proof. apply (utf16_flag_is_ignored 65535 2); lia. Defined.
