(* ===== verification/Mfrc522.v ===== *)
(** * The MFRC522 reader backend (src/src/nfc/mfrc522.rs)

    The driver crate is a parameter: its commands act on the state [D] of the
    reader and the field in front of it. The serving loop additionally sees,
    through the same state, which waits the callers have abandoned. *)

From stdpp Require Import pretty.
From S2P Require Import Prelude Utf8 Ndef.

Local Open Scope Z_scope.

(** ** The driver *)

Class Driver (D : Type) := {
  AtqA : Type;
  Uid : Type;
  DriverError : Type;
  (** [matches!(error, mfrc522::Error::Collision)] *)
  is_Collision : DriverError → bool;
  reqa : D → D * Result AtqA DriverError;
  wupa : D → D * Result AtqA DriverError;
  select : AtqA → D → D * Result Uid DriverError;
  mf_read : Z → D → D * Result (list Z) DriverError;
  uid_as_bytes : Uid → list Z;
  (** [NfcUid] and [NfcUid::try_from(&[u8])] of bloop-protocol *)
  NfcUid : Type;
  nfc_uid_try_from : list Z → option NfcUid
}.

(** [mf_read] answers with a [[u8; 16]], and UIDs come in the lengths
    [NfcUid] accepts. *)
Class DriverLaws (D : Type) {DR : Driver D} : Prop := {
  mf_read_16 block d d' bytes : mf_read block d = (d', Ok bytes) →
    length bytes = 16%nat ∧ Forall is_u8 bytes;
  uid_lengths uid : is_Some (nfc_uid_try_from (uid_as_bytes uid))
}.

Section adapter.
Context {D : Type} {DR : Driver D} (usize_max : Z).

(** [fn nfc_uid_from_mfrc522] *)
Definition nfc_uid_from_mfrc522 (uid : Uid) : Comp NfcUid string :=
  match nfc_uid_try_from (uid_as_bytes uid) with Some u => Ret u | None => Panic end.

(** [Adapter::select_target] *)
Definition select_target (d : D) : D * option (Comp NfcUid string) :=
  match reqa d with
  | (d, Err _) => (d, None)
  | (d, Ok atqa) =>
      match select atqa d with
      | (d, Err _) => (d, None)
      | (d, Ok uid) => (d, Some (nfc_uid_from_mfrc522 uid))
      end
  end.

(** [Adapter::check_for_release] *)
Definition check_for_release (d : D) : D * bool :=
  match wupa d with
  | (d, Ok _) => (d, false)
  | (d, Err _) =>
      match wupa d with
      | (d, Ok _) => (d, false)
      | (d, Err error) => (d, negb (is_Collision error))
      end
  end.

(** The [Display] of [NdefError]. *)
Definition NdefError_to_string (e : NdefError) : string :=
  match e with
  | Truncated part => "record is truncated: " +:+ part +:+ " missing"
  | Chunked => "chunked records are not supported"
  | NotWellKnown => "not a well-known payload type"
  | NotTextRecord => "not a text record"
  | InvalidUtf8 _ => "text payload is not valid UTF-8"
  end.

Definition map_fail {A F G} (f : F → G) (m : Comp A F) : Comp A G :=
  match m with Ret a => Ret a | Fail e => Fail (f e) | Panic => Panic end.

(** [4 * quad] on [u8]. *)
Definition block_address (quad : Z) : Comp Z string :=
  if 4 * quad <=? 255 then Ret (4 * quad) else Panic.

(** The number of 16-byte reads for a capability container. *)
Definition total_quads (capabilities : list Z) : Comp Z string :=
  let! cc2 := index_at capabilities 2 in
  let total_bytes := cc2 * 8 in
  let total_pages := total_bytes / 4 in
  Ret (Z.min (total_pages / 4) 63).

(** The [for quad in 1..total_quads + 1] loop of [read_ndef_text]. *)
Fixpoint read_quads (quads : list Z) (parser : NdefMessageParser) (d : D) :
  D * Comp NdefMessageParser string :=
  match quads with
  | [] => (d, Ret parser)
  | quad :: quads =>
      match block_address quad with
      | Ret block =>
          match mf_read block d with
          | (d, Err _) => (d, Fail ("failed to read block " +:+ pretty block))
          | (d, Ok quad_data) =>
              let parser := add_data parser quad_data in
              if is_done parser then (d, Ret parser)
              else if (quad =? 2) && negb (has_started parser)
              then (d, Fail "no NDEF message found in first sector")
              else read_quads quads parser d
          end
      | Fail e => (d, Fail e)
      | Panic => (d, Panic)
      end
  end.

(** What [read_ndef_text] does with the parser after the loop. *)
Definition finish_read (parser : NdefMessageParser) : Comp (list Z) string :=
  if negb (is_done parser) then Fail "NDEF message incomplete"
  else
    let! record := map_fail NdefError_to_string (parse_ndef_text_record usize_max (p_data parser)) in
    map_fail NdefError_to_string (text usize_max record).

(** [Adapter::read_ndef_text] *)
Definition read_ndef_text (d : D) : D * Comp (list Z) string :=
  match mf_read 3 d with
  | (d, Err _) => (d, Fail "failed to read capability container")
  | (d, Ok capabilities) =>
      match (let! n := total_quads capabilities in checked_add 255 n 1) with
      | Ret stop =>
          match read_quads (seqZ 1 (stop - 1)) new d with
          | (d, Ret parser) => (d, finish_read parser)
          | (d, Fail e) => (d, Fail e)
          | (d, Panic) => (d, Panic)
          end
      | Fail e => (d, Fail e)
      | Panic => (d, Panic)
      end
  end.

End adapter.

(** ** The serving loop *)

(** [enum NfcReaderRequest] (src/src/nfc/mod.rs); a response sender is a number. *)
Inductive NfcReaderRequest :=
| WaitForCard (response : N)
| WaitForRemoval (response : N)
| ReadNdefText (response : N).

(** What passes through a response channel. *)
Inductive Reply {D : Type} {DR : Driver D} :=
| CardReply (uid : NfcUid)
| RemovalReply
| TextReply (r : Result (list Z) string).
Arguments Reply D {DR}.

(** The callers and the clock, as the loop sees them. *)
Class Callers (D : Type) := {
  is_closed : N → D → bool;
  sleep_50ms : D → D
}.

Section serve.
Context {D : Type} {DR : Driver D} {CA : Callers D} (usize_max : Z).

(** The outcome of one wait: abandoned, or a value to send. *)
Inductive Waited (A : Type) := Abandoned | Got (a : A).
Arguments Abandoned {A}.
Arguments Got {A} a.

(** The polling loop of [WaitForCard]; [None] when the fuel is used up. *)
Fixpoint poll_card (fuel : nat) (response : N) (d : D) : option (D * Waited (Comp NfcUid string)) :=
  match fuel with
  | O => None
  | S fuel =>
      if is_closed response d then Some (d, Abandoned)
      else
        match select_target d with
        | (d, Some uid) => Some (d, Got uid)
        | (d, None) => poll_card fuel response (sleep_50ms d)
        end
  end.

(** The polling loop of [WaitForRemoval]. *)
Fixpoint poll_removal (fuel : nat) (response : N) (d : D) : option (D * Waited unit) :=
  match fuel with
  | O => None
  | S fuel =>
      if is_closed response d then Some (d, Abandoned)
      else
        match check_for_release d with
        | (d, true) => Some (d, Got tt)
        | (d, false) => poll_removal fuel response (sleep_50ms d)
        end
  end.

(** One turn of the main loop of [serve]: the replies it sends. *)
Definition serve_one (fuel : nat) (request : NfcReaderRequest) (d : D) :
  option (Comp (D * list (N * Reply D)) string) :=
  match request with
  | WaitForCard response =>
      '(d, r) ← poll_card fuel response d;
      Some (match r with
            | Abandoned => Ret (d, [])
            | Got uid => let! u := uid in Ret (d, [(response, CardReply u)])
            end)
  | WaitForRemoval response =>
      '(d, r) ← poll_removal fuel response d;
      Some (Ret (d, match r with Abandoned => [] | Got _ => [(response, RemovalReply)] end))
  | ReadNdefText response =>
      Some (match read_ndef_text usize_max d with
            | (d, Ret t) => Ret (d, [(response, TextReply (Ok t))])
            | (d, Fail e) => Ret (d, [(response, TextReply (Err e))])
            | (d, Panic) => Panic
            end)
  end.

(** [fn serve]: the requests received until the channel closes. *)
Fixpoint serve (fuel : nat) (requests : list NfcReaderRequest) (d : D) :
  option (Comp (D * list (N * Reply D)) string) :=
  match requests with
  | [] => Some (Ret (d, []))
  | request :: requests =>
      m ← serve_one fuel request d;
      match m with
      | Ret (d, sent) =>
          m' ← serve fuel requests d;
          Some (let! r := m' in Ret (fst r, sent ++ snd r))
      | Fail e => Some (Fail e)
      | Panic => Some Panic
      end
  end.

End serve.
