(* ===== verification/Mfrc522Theorems.v ===== *)
(** * Theorems about the MFRC522 backend

    The read path never panics and returns exactly the text a tag stores; the
    serving loop answers each request at most once, in order, and moves on when
    a wait is abandoned. *)

From S2P Require Import Prelude Utf8 Ndef NdefTheorems Mfrc522.

Local Open Scope Z_scope.

Section read.
Context {D : Type} {DR : Driver D} {DL : DriverLaws D} (usize_max : Z).

(** ** No panics *)

Lemma parse_no_panic data : fits usize_max data → parse_ndef_text_record usize_max data ≠ Panic.
Proof.
  intros (? & ? & ?). rewrite parse_is_ref by done. by destruct (ref_parse data).
Qed.

Lemma text_no_panic r : 256 ≤ usize_max → text usize_max r ≠ Panic.
Proof.
  intros Hmax. unfold text. destruct (value r) as [|status body]; [done|].
  assert (0 ≤ Z.land status 0x3f < 64).
  { change 0x3f with (Z.ones 6). rewrite Z.land_ones by lia. apply Z.mod_pos_bound. lia. }
  rewrite checked_add_fits by lia. cbn [comp_bind]. destruct (slice _ _ _) as [t|]; [|done].
  by destruct (from_utf8 t).
Qed.

Lemma finish_read_no_panic p : fits usize_max (p_data p) → finish_read usize_max p ≠ Panic.
Proof.
  intros Hf. pose proof (parse_no_panic _ Hf) as Hp. unfold finish_read.
  destruct (negb _); [done|]. destruct (parse_ndef_text_record _ _) as [r| |]; [|done..].
  simpl. assert (text usize_max r ≠ Panic) as Ht by (apply text_no_panic; destruct Hf; lia).
  by destruct (text usize_max r).
Qed.

(** The bytes a parser can hold after [n] reads. *)
Definition parser_after (n : Z) (p : NdefMessageParser) : Prop := parser_ok p ∧ len (p_data p) ≤ 16 * n.

Lemma read_quads_safe n k p d :
  0 ≤ k → k + Z.of_nat n ≤ 63 → parser_after k p →
  match snd (read_quads (seqZ (k + 1) (Z.of_nat n)) p d) with
  | Ret p' => parser_after 63 p'
  | Fail _ => True
  | Panic => False
  end.
Proof.
  revert k p d. induction n as [|n IH]; intros k p d Hk Hn [Hok Hlen].
  { change (seqZ (k + 1) (Z.of_nat 0)) with (@nil Z). simpl. split; [done|lia]. }
  rewrite seqZ_cons by lia. cbn [read_quads]. unfold block_address.
  destruct (Z.leb_spec (4 * (k + 1)) 255); [|lia].
  destruct (mf_read _ d) as [d' [bytes|]] eqn:Hr; [|done]. cbv zeta.
  destruct (mf_read_16 _ _ _ _ Hr) as [H16 Hu].
  assert (parser_after (k + 1) (add_data p bytes)) as Ha.
  { split; [by apply add_data_shape|]. pose proof (add_data_length p bytes). unfold len in *. lia. }
  destruct (is_done _); [split; [apply Ha|destruct Ha; lia]|].
  destruct (_ && _); [done|]. replace (Z.succ (k + 1)) with (k + 1 + 1) by lia.
  replace (Z.pred (Z.of_nat (S n))) with (Z.of_nat n) by lia. apply IH; [lia..|done].
Qed.

(** The number of reads: the clamp keeps [4 * quad] within a [u8]. *)
Lemma total_quads_Ret cc : length cc = 16%nat → Forall is_u8 cc →
  ∃ cc2, cc !! 2%nat = Some cc2 ∧ is_u8 cc2 ∧ total_quads cc = Ret (Z.min (cc2 / 2) 63).
Proof.
  intros Hl Hu. destruct cc as [|a [|b [|c cc]]]; [done..|]. exists c.
  repeat match goal with H : Forall _ (_ :: _) |- _ => inversion_clear H end.
  split_and!; [done|done|]. unfold total_quads. simpl. do 2 f_equal. unfold is_u8 in *. div_lia.
Qed.

Lemma read_ndef_text_unfold d d1 cc cc2 :
  mf_read 3 d = (d1, Ok cc) → cc !! 2%nat = Some cc2 → total_quads cc = Ret (Z.min (cc2 / 2) 63) →
  read_ndef_text usize_max d =
    match read_quads (seqZ 1 (Z.min (cc2 / 2) 63)) new d1 with
    | (d, Ret parser) => (d, finish_read usize_max parser)
    | (d, Fail e) => (d, Fail e)
    | (d, Panic) => (d, Panic)
    end.
Proof.
  intros Hr _ Hq. unfold read_ndef_text. rewrite Hr, Hq. cbn [comp_bind].
  rewrite checked_add_fits by lia. by replace (Z.min (cc2 / 2) 63 + 1 - 1) with (Z.min (cc2 / 2) 63) by lia.
Qed.

Lemma new_after : parser_after 0 new.
Proof. by repeat split. Qed.

Lemma read_never_panics d : 1024 ≤ usize_max → snd (read_ndef_text usize_max d) ≠ Panic.
Proof.
  intros Hmax. destruct (mf_read 3 d) as [d1 [cc|]] eqn:Hr.
  2:{ unfold read_ndef_text. by rewrite Hr. }
  destruct (mf_read_16 _ _ _ _ Hr) as [H16 Hu].
  destruct (total_quads_Ret _ H16 Hu) as (cc2 & Hcc & [] & Hq).
  rewrite (read_ndef_text_unfold _ _ _ _ Hr Hcc Hq).
  pose proof (read_quads_safe (Z.to_nat (Z.min (cc2 / 2) 63)) 0 new d1 ltac:(lia) ltac:(div_lia) new_after) as Hs.
  rewrite Z2Nat.id in Hs by div_lia. change (0 + 1) with 1 in Hs.
  destruct (read_quads _ _ _) as [d2 [p| |]]; simpl in Hs; [|done..].
  apply finish_read_no_panic. destruct Hs as [[Hd _] Hl]. split_and!; [done|lia|done].
Qed.

(** C11: reading a tag never panics, whatever bytes it answers with: the clamp on
    the tag-controlled capability byte keeps every block address [4 * quad] in
    a [u8], and no message those reads can deliver makes the record parser or
    the text extraction fail other than with an error. *)
Theorem read_ndef_text_never_panics d :
  1024 ≤ usize_max → ∃ d' r, read_ndef_text usize_max d = (d', comp_result r).
Proof.
  intros Hmax. pose proof (read_never_panics d Hmax) as H.
  destruct (read_ndef_text _ _) as [d' [t|e|]]; [exists d', (Ok t)|exists d', (Err e)|]; done.
Qed.

(** ** What a tag stores *)








(** Successive successful reads. *)
Fixpoint reads (d : D) (blocks : list Z) (chunks : list (list Z)) (d' : D) : Prop :=
  match blocks, chunks with
  | [], [] => d' = d
  | b :: blocks, c :: chunks => ∃ d1, mf_read b d = (d1, Ok c) ∧ reads d1 blocks chunks d'
  | _, _ => False
  end.

Lemma read_quads_sound n k p d d' p' :
  1 ≤ k → is_done p = false →
  read_quads (seqZ k (Z.of_nat n)) p d = (d', Ret p') →
  ∃ m chunks, (m ≤ n)%nat ∧ reads d (Z.mul 4 <$> seqZ k (Z.of_nat m)) chunks d' ∧ feed p chunks = p'.
Proof.
  revert k p d. induction n as [|n IH]; intros k p d Hk Hp Hr.
  { injection Hr as <- <-. by exists 0%nat, []. }
  rewrite seqZ_cons in Hr by lia. cbn [read_quads] in Hr. unfold block_address in Hr.
  destruct (4 * k <=? 255); [|done].
  destruct (mf_read (4 * k) d) as [d1 [c|]] eqn:Hrd; [|done]. cbv zeta in Hr.
  destruct (is_done (add_data p c)) eqn:Hdone.
  - injection Hr as <- <-. exists 1%nat, [c]. split; [lia|]. simpl. rewrite Hdone. eauto.
  - destruct (_ && _); [done|]. replace (Z.pred (Z.of_nat (S n))) with (Z.of_nat n) in Hr by lia.
    apply IH in Hr as (m & chunks & Hm & Hreads & Hf); [|lia|done].
    exists (S m), (c :: chunks). split; [lia|]. rewrite seqZ_cons by lia.
    replace (Z.pred (Z.of_nat (S m))) with (Z.of_nat m) by lia. simpl. rewrite Hdone. eauto.
Qed.

(** C27: a text is returned only for tag data that really encodes it: the reads
    were the capability container and then consecutive quads, no more than it
    announces and at most 63, and the message they deliver starts with an
    unchunked text record whose payload is status byte, language code and the
    returned text, which is valid UTF-8. *)
Theorem read_ndef_text_sound d d' t :
  1024 ≤ usize_max → read_ndef_text usize_max d = (d', Ret t) →
  ∃ cc cc2 m chunks r rest code,
    reads d (3 :: (Z.mul 4 <$> seqZ 1 (Z.of_nat m))) (cc :: chunks) d' ∧
    cc !! 2%nat = Some cc2 ∧ Z.of_nat m ≤ Z.min (cc2 / 2) 63 ∧
    is_done (feed new chunks) = true ∧
    p_data (feed new chunks) = encode_record r ++ rest ∧
    record_ok r ∧ nr_tnf r = 1 ∧ nr_type r = [0x54] ∧
    (nr_payload r = code ++ t) ∧ ∃ cs, Forall scalar cs ∧ t = encode_str cs.
Proof.
  intros Hmax Hr. destruct (mf_read 3 d) as [d1 [cc|]] eqn:H3.
  2:{ unfold read_ndef_text in Hr. by rewrite H3 in Hr. }
  destruct (mf_read_16 _ _ _ _ H3) as [H16 Hu].
  destruct (total_quads_Ret _ H16 Hu) as (cc2 & Hcc & [] & Hq).
  rewrite (read_ndef_text_unfold _ _ _ _ H3 Hcc Hq) in Hr.
  set (n := Z.to_nat (Z.min (cc2 / 2) 63)). replace (Z.min (cc2 / 2) 63) with (Z.of_nat n) in * by (unfold n; div_lia).
  pose proof (read_quads_safe n 0 new d1 ltac:(lia) ltac:(div_lia) new_after) as Hs.
  change (0 + 1) with 1 in Hs.
  destruct (read_quads _ _ _) as [d2 [p| |]] eqn:Hrq; [|done..]. injection Hr as <- Hfin.
  apply read_quads_sound in Hrq as (m & chunks & Hm & Hreads & <-); [|lia|done].
  destruct Hs as [[Hd _] Hl]. set (p := feed new chunks) in *.
  assert (fits usize_max (p_data p)) as Hfits by (split_and!; [done|lia|done]).
  unfold finish_read in Hfin. destruct (is_done p) eqn:Hdone; [|done]. cbn [negb] in Hfin.
  destruct (parse_ndef_text_record _ _) as [v| |] eqn:Hp; [|done..]. cbn [map_fail comp_bind] in Hfin.
  destruct v as [v]. destruct (text usize_max (mkTextRecord v)) as [t'| |] eqn:Ht; [|done..]. injection Hfin as ->.
  destruct (parse_sound _ _ _ Hfits Hp) as (r & rest & Hok & Hdata & Htnf & Hty & Hv).
  destruct (text_sound _ _ _ Ht) as (code & Hcode & Hcs).
  exists cc, cc2, m, chunks, r, rest, code. split_and!; try done.
  - simpl. eauto.
  - unfold n in Hm. div_lia.
  - congruence.
Qed.

End read.

(** An odd capability byte announces [8 * cc2] bytes, but whole 16-byte quads
    are read, so the last 8 bytes are never looked at (an NTAG216 announces 872
    bytes, of which 864 are read); an even one up to 126 is read completely. *)
Lemma capability_bytes_read a b cc2 rest :
  0 ≤ cc2 ≤ 127 →
  ∃ n, total_quads (a :: b :: cc2 :: rest) = Ret n ∧
    16 * n = if Z.odd cc2 then 8 * cc2 - 8 else 8 * cc2.
Proof.
  intros Hc. eexists. split; [reflexivity|]. pose proof (Zmod_odd cc2) as Ho.
  destruct (Z.odd cc2); div_lia.
Qed.

(** ** The serving loop *)

Section serving.
Context {D : Type} {DR : Driver D} {CA : Callers D} (usize_max : Z).

(** The state at the start of the [n]-th poll of a wait nothing has ended. *)
Definition card_poll (n : nat) (d : D) : D := Nat.iter n (λ d, sleep_50ms (fst (select_target d))) d.
Definition removal_poll (n : nat) (d : D) : D := Nat.iter n (λ d, sleep_50ms (fst (check_for_release d))) d.

(** Polls that end nothing: the caller still waits, and the field has not changed. *)
Definition card_pending (response : N) (d : D) : Prop :=
  is_closed response d = false ∧ snd (select_target d) = None.
Definition removal_pending (response : N) (d : D) : Prop :=
  is_closed response d = false ∧ snd (check_for_release d) = false.

Lemma iter_first {A} (f : A → A) n a : Nat.iter n f (f a) = Nat.iter (S n) f a.
Proof. induction n as [|n IH]; [done|]. simpl in *. by rewrite IH. Qed.

Lemma poll_card_pending n fuel response d :
  (∀ k, (k < n)%nat → card_pending response (card_poll k d)) →
  poll_card (n + fuel) response d = poll_card fuel response (card_poll n d).
Proof.
  revert d. induction n as [|n IH]; intros d Hp; [done|].
  assert (card_poll (S n) d = card_poll n (sleep_50ms (fst (select_target d)))) as ->
    by (symmetry; apply (iter_first (λ d, sleep_50ms (fst (select_target d))))).
  simpl poll_card.
  destruct (Hp 0%nat ltac:(lia)) as [Hc Hs]. simpl in Hc, Hs. rewrite Hc.
  destruct (select_target d) as [d' o] eqn:Hsel. simpl in Hs. subst o. apply IH.
  intros k Hk. specialize (Hp (S k) ltac:(lia)). unfold card_poll in *.
  rewrite <-(iter_first (λ d, sleep_50ms (fst (select_target d)))), Hsel in Hp. done.
Qed.

Lemma poll_removal_pending n fuel response d :
  (∀ k, (k < n)%nat → removal_pending response (removal_poll k d)) →
  poll_removal (n + fuel) response d = poll_removal fuel response (removal_poll n d).
Proof.
  revert d. induction n as [|n IH]; intros d Hp; [done|].
  assert (removal_poll (S n) d = removal_poll n (sleep_50ms (fst (check_for_release d)))) as ->
    by (symmetry; apply (iter_first (λ d, sleep_50ms (fst (check_for_release d))))).
  simpl poll_removal.
  destruct (Hp 0%nat ltac:(lia)) as [Hc Hs]. simpl in Hc, Hs. rewrite Hc.
  destruct (check_for_release d) as [d' o] eqn:Hsel. simpl in Hs. subst o. apply IH.
  intros k Hk. specialize (Hp (S k) ltac:(lia)). unfold removal_poll in *.
  rewrite <-(iter_first (λ d, sleep_50ms (fst (check_for_release d)))), Hsel in Hp. done.
Qed.

(** C30: a wait for a card ends at the first poll at which the caller is gone or a
    card answers: an abandoned wait sends nothing and leaves the reader to the
    next request (the documented cancel safety), a card is answered with its
    UID. So the loop terminates as soon as either happens. *)
Theorem wait_for_card_ends fuel n response d :
  (n < fuel)%nat → (∀ k, (k < n)%nat → card_pending response (card_poll k d)) →
  let dn := card_poll n d in
  (is_closed response dn = true →
   serve_one usize_max fuel (WaitForCard response) d = Some (Ret (dn, []))) ∧
  (∀ d' u, is_closed response dn = false → select_target dn = (d', Some (Ret u)) →
   serve_one usize_max fuel (WaitForCard response) d = Some (Ret (d', [(response, CardReply u)]))).
Proof.
  intros Hn Hp dn. unfold serve_one. replace fuel with (n + S (fuel - n - 1))%nat by lia.
  rewrite poll_card_pending by done. fold dn. simpl poll_card.
  split; [by intros ->|]. by intros d' u -> ->.
Qed.

(** A wait for removal ends at the first poll at which the caller is gone or
    the card is released: silently when abandoned, with one answer otherwise. *)
Theorem wait_for_removal_ends fuel n response d :
  (n < fuel)%nat → (∀ k, (k < n)%nat → removal_pending response (removal_poll k d)) →
  let dn := removal_poll n d in
  (is_closed response dn = true →
   serve_one usize_max fuel (WaitForRemoval response) d = Some (Ret (dn, []))) ∧
  (∀ d', is_closed response dn = false → check_for_release dn = (d', true) →
   serve_one usize_max fuel (WaitForRemoval response) d = Some (Ret (d', [(response, RemovalReply)]))).
Proof.
  intros Hn Hp dn. unfold serve_one. replace fuel with (n + S (fuel - n - 1))%nat by lia.
  rewrite poll_removal_pending by done. fold dn. simpl poll_removal.
  split; [by intros ->|]. by intros d' -> ->.
Qed.

(** The answers a sequence of requests may get: in order, at most one each, of
    the kind asked for; only waits go unanswered. *)
Inductive served : list NfcReaderRequest → list (N * Reply D) → Prop :=
| served_nil : served [] []
| served_card c u reqs sent :
    served reqs sent → served (WaitForCard c :: reqs) ((c, CardReply u) :: sent)
| served_removal c reqs sent :
    served reqs sent → served (WaitForRemoval c :: reqs) ((c, RemovalReply) :: sent)
| served_text c r reqs sent :
    served reqs sent → served (ReadNdefText c :: reqs) ((c, TextReply r) :: sent)
| served_no_card c reqs sent : served reqs sent → served (WaitForCard c :: reqs) sent
| served_no_removal c reqs sent : served reqs sent → served (WaitForRemoval c :: reqs) sent.

Context {DL : DriverLaws D}.

Lemma poll_card_no_panic fuel response d d' w : poll_card fuel response d = Some (d', w) →
  w = Abandoned _ ∨ ∃ u, w = Got _ (Ret u).
Proof.
  revert d. induction fuel as [|fuel IH]; intros d; simpl; [done|].
  destruct (is_closed _ _); [intros [= _ <-]; by left|].
  destruct (select_target d) as [d1 [o|]] eqn:Hs; [|apply IH]. intros [= _ <-]. right.
  unfold select_target in Hs. repeat case_match; simplify_eq. unfold nfc_uid_from_mfrc522.
  destruct (uid_lengths a0) as [u ->]. by exists u.
Qed.

Lemma serve_one_served fuel request d m :
  1024 ≤ usize_max → serve_one usize_max fuel request d = Some m →
  ∃ d' sent, m = Ret (d', sent) ∧ ∀ reqs rest, served reqs rest → served (request :: reqs) (sent ++ rest).
Proof.
  intros Hmax. unfold serve_one. destruct request as [c|c|c].
  - destruct (poll_card fuel c d) as [[d' w]|] eqn:Hp; [|done]. simpl. intros [= <-].
    destruct (poll_card_no_panic _ _ _ _ _ Hp) as [->|[u ->]]; simpl.
    + exists d', []. split; [done|]. intros. by apply served_no_card.
    + exists d', [(c, CardReply u)]. split; [done|]. intros. by apply served_card.
  - destruct (poll_removal fuel c d) as [[d' [|[]]]|] eqn:Hp; [..|done]; simpl; intros [= <-].
    + exists d', []. split; [done|]. intros. by apply served_no_removal.
    + exists d', [(c, RemovalReply)]. split; [done|]. intros. by apply served_removal.
  - intros [= <-]. pose proof (read_never_panics usize_max d Hmax) as Hnp.
    destruct (read_ndef_text usize_max d) as [d' [t|e|]]; [| |done].
    + exists d', [(c, TextReply (Ok t))]. split; [done|]. intros. by apply served_text.
    + exists d', [(c, TextReply (Err e))]. split; [done|]. intros. by apply served_text.
Qed.

(** A wait that nothing ended within the polls [fuel] stands for. *)
Definition still_pending (fuel : nat) (request : NfcReaderRequest) (d : D) : Prop :=
  match request with
  | WaitForCard c => ∀ k, (k < fuel)%nat → card_pending c (card_poll k d)
  | WaitForRemoval c => ∀ k, (k < fuel)%nat → removal_pending c (removal_poll k d)
  | ReadNdefText _ => False
  end.

Lemma poll_card_None fuel c d : poll_card fuel c d = None → still_pending fuel (WaitForCard c) d.
Proof.
  revert d. induction fuel as [|fuel IH]; intros d Hp k Hk; [lia|]. simpl in Hp.
  destruct (is_closed c d) eqn:Hc; [done|]. destruct (select_target d) as [d' [o|]] eqn:Hs; [done|].
  destruct k as [|k]; [split; simpl; by rewrite ?Hs|]. specialize (IH _ Hp k ltac:(lia)).
  unfold card_poll in *. by rewrite <-(iter_first (λ d, sleep_50ms (fst (select_target d)))), Hs.
Qed.

Lemma poll_removal_None fuel c d : poll_removal fuel c d = None → still_pending fuel (WaitForRemoval c) d.
Proof.
  revert d. induction fuel as [|fuel IH]; intros d Hp k Hk; [lia|]. simpl in Hp.
  destruct (is_closed c d) eqn:Hc; [done|]. destruct (check_for_release d) as [d' []] eqn:Hs; [done|].
  destruct k as [|k]; [split; simpl; by rewrite ?Hs|]. specialize (IH _ Hp k ltac:(lia)).
  unfold removal_poll in *. by rewrite <-(iter_first (λ d, sleep_50ms (fst (check_for_release d)))), Hs.
Qed.

Lemma serve_one_None fuel request d : serve_one usize_max fuel request d = None → still_pending fuel request d.
Proof.
  unfold serve_one. destruct request as [c|c|c]; [| |done].
  - destruct (poll_card fuel c d) as [[]|] eqn:Hp; [done|]. intros _. by apply poll_card_None.
  - destruct (poll_removal fuel c d) as [[]|] eqn:Hp; [done|]. intros _. by apply poll_removal_None.
Qed.

(** What the loop comes to: all requests are served, or those before a wait that
    is still pending after [fuel] polls. *)
Definition serving (fuel : nat) (requests : list NfcReaderRequest) (d : D) : Prop :=
  (∃ d' sent, serve usize_max fuel requests d = Some (Ret (d', sent)) ∧ served requests sent) ∨
  (∃ pre request post d' sent, requests = pre ++ request :: post ∧
    serve usize_max fuel pre d = Some (Ret (d', sent)) ∧ served pre sent ∧ still_pending fuel request d').

Lemma serve_serving fuel requests d : 1024 ≤ usize_max → serving fuel requests d.
Proof.
  intros Hmax. revert d. induction requests as [|request requests IH]; intros d.
  { left. exists d, []. split; [done|constructor]. }
  destruct (serve_one usize_max fuel request d) as [m|] eqn:H1.
  2:{ right. exists [], request, requests, d, []. split_and!; [done|done|constructor|by apply serve_one_None]. }
  destruct (serve_one_served _ _ _ _ Hmax H1) as (d1 & sent1 & -> & Hs1).
  destruct (IH d1) as [(d' & sent & Hrun & Hs)|(pre & r & post & d' & sent & -> & Hrun & Hs & Hp)]; [left|right].
  - exists d', (sent1 ++ sent). simpl. rewrite H1. cbn [mbind option_bind]. rewrite Hrun. split; [done|by apply Hs1].
  - exists (request :: pre), r, post, d', (sent1 ++ sent). simpl. rewrite H1. cbn [mbind option_bind].
    rewrite Hrun. split_and!; [done|done|by apply Hs1|done].
Qed.

(** C28: the backend thread never panics. For any number of polls granted to each
    wait, either every request is served, or every request before one that is a
    wait at all of whose polls the caller still waited and the field showed
    nothing. Served requests are answered at most once, in the order of the
    requests and with the kind of answer asked for; a text read is always
    answered, with its error if it failed, and only abandoned waits are not. *)
Theorem serve_answers_requests fuel requests d :
  1024 ≤ usize_max → serving fuel requests d.
Proof. apply serve_serving. Qed.

End serving.

(** ** Witnesses *)

(** A reader whose field changes after [n] polls, a tag storing "hi" and a caller
    (number 7) who leaves one poll before the change. *)
Definition rig_memory : list Z :=
  [0; 0] ++ tlv_header 9 ++ encode_record demo_record ++ [0xfe; 0; 0] ++ replicate 32 0.

Definition rig_image (block : Z) : list Z :=
  if block =? 3 then [0xe1; 0x10; 0x06; 0x00] ++ replicate 12 0
  else take 16 (drop (Z.to_nat (4 * (block - 4))) rig_memory ++ replicate 16 0).

#[export] Instance rig_driver : Driver nat := {|
  AtqA := unit; Uid := list Z; DriverError := unit;
  is_Collision := λ _, false;
  reqa := λ d, (d, match d with O => Ok () | _ => Err () end);
  wupa := λ d, (d, match d with O => Err () | _ => Ok () end);
  select := λ _ d, (d, Ok [1; 2; 3; 4]);
  mf_read := λ block d, (d, Ok (rig_image block));
  uid_as_bytes := λ u, u;
  NfcUid := list Z;
  nfc_uid_try_from := λ l, Some l
|}.

#[export] Instance rig_callers : Callers nat := {|
  is_closed := λ response d, (N.eqb response 7) && (d <=? 1)%nat;
  sleep_50ms := pred
|}.

#[export] Instance rig_laws : DriverLaws nat.
Proof.
  split.
  - intros block d d' bytes [= _ <-]. unfold rig_image.
    destruct (block =? 3); [split; [done|repeat constructor; done]|]. split.
    + rewrite length_take, length_app. simpl length. lia.
    + apply Forall_take, Forall_app. split; [apply Forall_drop|]; repeat constructor; done.
  - intros uid. by eexists.
Qed.



Lemma read_ndef_text_never_panics_witness :
  ∃ d' r, read_ndef_text (DR:=rig_driver) 65535 0%nat = (d', comp_result r).
Proof. apply (read_ndef_text_never_panics 65535 0%nat). lia. Defined.


Lemma read_ndef_text_sound_witness :
  ∃ chunks r rest code, is_done (feed new chunks) = true ∧
    p_data (feed new chunks) = encode_record r ++ rest ∧ nr_payload r = code ++ [104; 105].
Proof.
  destruct (read_ndef_text_sound (DR:=rig_driver) 65535 0%nat 0%nat [104; 105])
    as (cc & cc2 & m & chunks & r & rest & code & _ & _ & _ & Hd & Hp & _ & _ & _ & Hv & _).
  - lia.
  - vm_compute. reflexivity.
  - by exists chunks, r, rest, code.
Defined.

Lemma capability_bytes_read_witness :
  ∃ n, total_quads [0xe1; 0x10; 0x6d; 0x00] = Ret n ∧ 16 * n = 864.
Proof. apply (capability_bytes_read 0xe1 0x10 0x6d [0x00]). lia. Defined.

Lemma wait_for_card_ends_witness :
  serve_one (DR:=rig_driver) 65535 5 (WaitForCard 1) 3%nat = Some (Ret (0%nat, [(1%N, CardReply [1; 2; 3; 4])])) ∧
  serve_one (DR:=rig_driver) 65535 5 (WaitForCard 7) 3%nat = Some (Ret (1%nat, [])).
Proof.
  split.
  - apply (wait_for_card_ends (DR:=rig_driver) 65535 5 3 1 3%nat); [lia| |reflexivity|reflexivity].
    intros k Hk. destruct k as [|[|[|]]]; [by split..|lia].
  - refine (proj1 (wait_for_card_ends (DR:=rig_driver) 65535 5 2 7 3%nat _ _) _); [lia| |reflexivity].
    intros k Hk. destruct k as [|[|]]; [by split..|lia].
Defined.

Lemma wait_for_removal_ends_witness :
  serve_one (DR:=rig_driver) 65535 5 (WaitForRemoval 1) 3%nat = Some (Ret (0%nat, [(1%N, RemovalReply)])).
Proof.
  apply (wait_for_removal_ends (DR:=rig_driver) 65535 5 3 1 3%nat); [lia| |reflexivity|reflexivity].
  intros k Hk. destruct k as [|[|[|]]]; [by split..|lia].
Defined.

(** The second request waits for a card longer than two polls. *)
Lemma serve_answers_requests_witness :
  serving (DR:=rig_driver) 65535 5 [WaitForCard 7; WaitForCard 1; ReadNdefText 2; WaitForRemoval 3] 3%nat ∧
  serving (DR:=rig_driver) 65535 2 [ReadNdefText 2; WaitForCard 1; ReadNdefText 3] 3%nat.
Proof. split; apply (serve_answers_requests (DR:=rig_driver) 65535); lia. Defined.
