(* ===== verification/NfcReader.v ===== *)
(** * The NFC reader handle (src/src/nfc/mod.rs)

    A handle sends requests with a response channel to a backend and awaits the
    response. The handle sees a request's fate; the fate a request has with the
    MFRC522 backend is computed by its serving loop. *)

From S2P Require Import Prelude Utf8 Ndef NdefTheorems Mfrc522 Mfrc522Theorems.

Local Open Scope Z_scope.

(** [enum NfcReaderError] *)
Inductive NfcReaderError := ReaderDisconnected | ReaderRead (reason : string).

(** What becomes of a request: the backend's end of the channel is gone, the
    response sender was dropped unused, or a response arrived. *)
Inductive Fate (T : Type) := BackendGone | ResponseDropped | Responded (t : T).
Arguments BackendGone {T}.
Arguments ResponseDropped {T}.
Arguments Responded {T} t.

(** [NfcReader::roundtrip] *)
Definition reader_roundtrip {T} (fate : Fate T) : Result T NfcReaderError :=
  match fate with
  | BackendGone => Err ReaderDisconnected
  | ResponseDropped => Err ReaderDisconnected
  | Responded t => Ok t
  end.

(** [NfcReader::wait_for_card] *)
Definition wait_for_card {U} (fate : Fate U) : Result U NfcReaderError := reader_roundtrip fate.

(** [NfcReader::wait_for_removal] *)
Definition wait_for_removal (fate : Fate unit) : Result unit NfcReaderError := reader_roundtrip fate.

(** [NfcReader::read_ndef_text] *)
Definition reader_read_ndef_text (fate : Fate (Result (list Z) string)) : Result (list Z) NfcReaderError :=
  match reader_roundtrip fate with
  | Ok r => map_err ReaderRead r
  | Err e => Err e
  end.

(** ** With the MFRC522 backend *)

Section backend.
Context {D : Type} {DR : Driver D} {CA : Callers D} (usize_max : Z).

(** The fate of a request served by [serve_one]: a panic of the thread drops the
    response sender, and so does moving on without an answer. *)
Definition served_fate (fuel : nat) (request : NfcReaderRequest) (d : D) : option (D * Fate (Reply D)) :=
  match serve_one usize_max fuel request d with
  | None => None
  | Some (Ret (d', [])) => Some (d', ResponseDropped)
  | Some (Ret (d', (_, reply) :: _)) => Some (d', Responded reply)
  | Some _ => Some (d, ResponseDropped)
  end.

Definition card_fate (f : Fate (Reply D)) : Fate NfcUid :=
  match f with
  | Responded (CardReply u) => Responded u
  | Responded _ | ResponseDropped => ResponseDropped
  | BackendGone => BackendGone
  end.

Definition removal_fate (f : Fate (Reply D)) : Fate unit :=
  match f with
  | Responded RemovalReply => Responded tt
  | Responded _ | ResponseDropped => ResponseDropped
  | BackendGone => BackendGone
  end.

Definition text_fate (f : Fate (Reply D)) : Fate (Result (list Z) string) :=
  match f with
  | Responded (TextReply r) => Responded r
  | Responded _ | ResponseDropped => ResponseDropped
  | BackendGone => BackendGone
  end.

(** Reading a tag through the handle gives exactly what the adapter reads: its
    text, or its error wrapped as a read error; with a running backend it is
    always answered and never reported as disconnected. *)
Lemma reader_reads_what_the_adapter_reads {DL : DriverLaws D} fuel c d :
  1024 ≤ usize_max →
  ∃ f, served_fate fuel (ReadNdefText c) d = Some (fst (read_ndef_text usize_max d), f) ∧
    reader_read_ndef_text (text_fate f) =
      match snd (read_ndef_text usize_max d) with
      | Ret t => Ok t
      | Fail e => Err (ReaderRead e)
      | Panic => Err ReaderDisconnected
      end ∧
    reader_read_ndef_text (text_fate f) ≠ Err ReaderDisconnected.
Proof.
  intros Hmax. pose proof (read_never_panics usize_max d Hmax) as Hnp. unfold served_fate, serve_one.
  destruct (read_ndef_text usize_max d) as [d' [t|e|]]; [..|done]; simpl; eexists; by split_and!.
Qed.

(** A wait that some poll ends is answered with the UID the adapter selected. *)
Lemma wait_for_card_answered fuel n c d d' u :
  (n < fuel)%nat → (∀ k, (k < n)%nat → card_pending c (card_poll k d)) →
  is_closed c (card_poll n d) = false → select_target (card_poll n d) = (d', Some (Ret u)) →
  ∃ f, served_fate fuel (WaitForCard c) d = Some (d', f) ∧ wait_for_card (card_fate f) = Ok u.
Proof.
  intros Hn Hp Hc Hs. unfold served_fate, serve_one. replace fuel with (n + S (fuel - n - 1))%nat by lia.
  rewrite poll_card_pending by done. simpl poll_card. rewrite Hc, Hs. simpl. by eexists.
Qed.

End backend.

Lemma reader_reads_what_the_adapter_reads_witness :
  ∃ f, served_fate (DR:=rig_driver) 65535 1 (ReadNdefText 2) 0%nat = Some (0%nat, f) ∧
    reader_read_ndef_text (text_fate f) = Ok [104; 105].
Proof.
  destruct (reader_reads_what_the_adapter_reads (DR:=rig_driver) 65535 1 2 0%nat) as (f & H1 & H2 & _); [lia|].
  exists f. split; [exact H1|]. rewrite H2. vm_compute. reflexivity.
Defined.
