(* ===== verification/Mfrc522Init.v ===== *)
(** * Bringing the MFRC522 backend up (src/src/nfc/mfrc522.rs)

    Opening the SPI device, pulsing the reset line and initializing the chip, the
    thread that does so and then serves, and the async function that awaits it.
    The operating system and the chip are a parameter that answers one operation
    at a time; the operations performed are recorded, each with whether it
    succeeded. *)

From S2P Require Import Prelude Utf8 Ndef NdefTheorems Mfrc522 Mfrc522Theorems NfcReader.

(** [struct Mfrc522Config] *)
Record Mfrc522Config := mkMfrc522Config {
  spi_dev_path : string;
  gpio_dev_path : string;
  reset_pin_line : N
}.

(** [Mfrc522Config::default] *)
Definition Mfrc522Config_default : Mfrc522Config := mkMfrc522Config "/dev/spidev0.0" "/dev/gpiochip0" 25.

(** The operations of [init]. *)
Inductive HwOp :=
| SpiOpen (path : string)
| SpiConfigure (max_speed_hz : N) (mode : N)
| GpioRequestInactive (chip : string) (consumer : string) (line : N)
| SleepMs (n : N)
| GpioSetActive
| ChipInit.

#[export] Instance HwOp_eq_dec : EqDecision HwOp.
Proof. solve_decision. Defined.

(** The machine: performing an operation may fail. [HwIoError] is
    [std::io::Error]; errors of the line and of the chip arrive rendered. *)
Class Hardware (H : Type) := {
  HwIoError : Type;
  io_op : HwOp → H → H * Result unit HwIoError;
  dev_op : HwOp → H → H * Result unit string;
  sleep_op : N → H → H
}.
Arguments HwIoError H {_}.

Section init.
Context {H : Type} {HW : Hardware H}.

(** [enum Mfrc522InitError] *)
Inductive Mfrc522InitError := InitIo (e : HwIoError H) | InitGpio (e : string) | InitChip (e : string).

(** A computation of [init]: the operations it performed, each with whether the
    machine answered with success, the machine after it, its result. *)
Definition Hw : Type := H → list (HwOp * bool) * H * Result unit Mfrc522InitError.

Definition hw_io (op : HwOp) : Hw := λ h,
  let '(h, r) := io_op op h in ([(op, is_ok r)], h, map_err InitIo r).
Definition hw_dev (f : string → Mfrc522InitError) (op : HwOp) : Hw := λ h,
  let '(h, r) := dev_op op h in ([(op, is_ok r)], h, map_err f r).
Definition hw_sleep (n : N) : Hw := λ h, ([(SleepMs n, true)], sleep_op n h, Ok tt).

(** [m?; k] *)
Definition hw_then (m k : Hw) : Hw := λ h,
  match m h with
  | (l, h, Ok _) => let '(l', h, r) := k h in (l ++ l', h, r)
  | (l, h, Err e) => (l, h, Err e)
  end.

(** [fn init]; the adapter and the reset line it returns stay with the machine. *)
Definition init (config : Mfrc522Config) : Hw :=
  hw_then (hw_io (SpiOpen (spi_dev_path config)))
  (hw_then (hw_io (SpiConfigure 1000000 0))
  (hw_then (hw_dev InitGpio
     (GpioRequestInactive (gpio_dev_path config) "bloop-client-framework" (reset_pin_line config)))
  (hw_then (hw_sleep 150)
  (hw_then (hw_dev InitGpio GpioSetActive)
  (hw_then (hw_sleep 50)
  (hw_dev InitChip ChipInit)))))).

(** ** The sequence *)

(** The reset pulse: the line is held inactive for 150 ms, released, and the chip
    is given 50 ms, before it is talked to. *)
Definition init_sequence (config : Mfrc522Config) : list HwOp :=
  [SpiOpen (spi_dev_path config); SpiConfigure 1000000 0;
   GpioRequestInactive (gpio_dev_path config) "bloop-client-framework" (reset_pin_line config);
   SleepMs 150; GpioSetActive; SleepMs 50; ChipInit].

(** All of [ops] were done, with success. *)
Definition all_ok (ops : list HwOp) : list (HwOp * bool) := (., true) <$> ops.

(** The error that reports a failure of [op]. *)
Definition reports (e : Mfrc522InitError) (op : HwOp) : Prop :=
  match e, op with
  | InitIo _, (SpiOpen _ | SpiConfigure _ _) => True
  | InitGpio _, (GpioRequestInactive _ _ _ | GpioSetActive) => True
  | InitChip _, ChipInit => True
  | _, _ => False
  end.

(** [m] performs the operations [ops] in order: all of them with success, or up to
    the first that fails, which it reports. *)
Definition performs (ops : list HwOp) (m : Hw) : Prop := ∀ h,
  match (m h).2 with
  | Ok _ => (m h).1.1 = all_ok ops
  | Err e => ∃ pre op post, ops = pre ++ op :: post ∧
      (m h).1.1 = all_ok pre ++ [(op, false)] ∧ reports e op
  end.

Lemma performs_io op : (∀ e, reports (InitIo e) op) → performs [op] (hw_io op).
Proof.
  intros Hop h. unfold hw_io. destruct (io_op op h) as [h' [[]|e]]; simpl; [done|]. exists [], op, []. split_and!; [done|done|exact (Hop e)].
Qed.

Lemma performs_dev f op : (∀ e, reports (f e) op) → performs [op] (hw_dev f op).
Proof.
  intros Hop h. unfold hw_dev. destruct (dev_op op h) as [h' [[]|e]]; simpl; [done|]. exists [], op, []. split_and!; [done|done|exact (Hop e)].
Qed.

Lemma performs_sleep n : performs [SleepMs n] (hw_sleep n).
Proof. by intros h. Qed.

Lemma performs_then ops ops' m k : performs ops m → performs ops' k → performs (ops ++ ops') (hw_then m k).
Proof.
  intros Hm Hk h. unfold hw_then. specialize (Hm h). destruct (m h) as [[l h1] [u|e]]; simpl in *; subst.
  - specialize (Hk h1). destruct (k h1) as [[l' h2] [u'|e']]; simpl in *.
    + unfold all_ok in *. by rewrite fmap_app, Hk.
    + destruct Hk as (pre & op & post & -> & -> & ?). exists (ops ++ pre), op, post.
      unfold all_ok. rewrite fmap_app, <-!app_assoc. done.
  - destruct Hm as (pre & op & post & -> & -> & ?). exists pre, op, (post ++ ops').
    by rewrite <-app_assoc.
Qed.

Lemma init_performs config : performs (init_sequence config) (init config).
Proof.
  unfold init_sequence, init.
  repeat lazymatch goal with
  | |- performs (?op :: ?op' :: ?ops) _ => apply (performs_then [op] (op' :: ops))
  end; first [by apply performs_io|by apply performs_dev|apply performs_sleep].
Qed.

(** ** The thread *)

Section thread.
Context {D : Type} {DR : Driver D} {CA : Callers D} (usize_max : Z) (adapter : H → D).

(** [fn run]: what it did to the machine, what it sent through [init_tx], and
    what serving the requests gave ([None] as the outcome: it never served). *)
Definition mfrc522_run (config : Mfrc522Config) (fuel : nat) (requests : list NfcReaderRequest) (h : H) :
  list (HwOp * bool) * Result unit Mfrc522InitError * option (option (Comp (D * list (N * Reply D)) string)) :=
  match init config h with
  | (ops, h, Ok _) => (ops, Ok tt, Some (serve usize_max fuel requests (adapter h)))
  | (ops, h, Err error) => (ops, Err error, None)
  end.

(** [fn serve_blocking]: the same on the calling thread. *)
Definition serve_blocking (config : Mfrc522Config) (fuel : nat) (requests : list NfcReaderRequest) (h : H) :
  Result (option (Comp (D * list (N * Reply D)) string)) Mfrc522InitError :=
  match init config h with
  | (_, h, Ok _) => Ok (serve usize_max fuel requests (adapter h))
  | (_, _, Err error) => Err error
  end.

(** [async fn spawn]: whether the thread started, and what arrived from it
    ([None] when it died before sending). *)
Definition spawn (started : Result unit (HwIoError H)) (init_rx : option (Result unit Mfrc522InitError)) :
  Result unit Mfrc522InitError :=
  match started with
  | Err e => Err (InitIo e)
  | Ok _ =>
      match init_rx with
      | Some r => r
      | None => Err (InitChip "reader thread died during initialization")
      end
  end.

Context {DL : DriverLaws D}.

(** C29: starting the backend succeeds exactly when the whole sequence (open and
    configure SPI, hold the chip in reset for 150 ms, release it, wait 50 ms,
    initialize it) was performed in this order and every operation of it
    succeeded, and then requests are served; otherwise one operation failed, those
    before it succeeded, nothing after it was done, the error is the one for that
    operation (SPI, line or chip), and no request is ever served. *)
Theorem backend_starts_or_reports config fuel requests h :
  (1024 ≤ usize_max)%Z →
  let '(log, sent, out) := mfrc522_run config fuel requests h in
  match spawn (Ok tt) (Some sent) with
  | Ok _ => log = all_ok (init_sequence config) ∧
      ∃ h', out = Some (serve usize_max fuel requests (adapter h')) ∧
        serve_blocking config fuel requests h = Ok (serve usize_max fuel requests (adapter h')) ∧
        serving usize_max fuel requests (adapter h')
  | Err e => out = None ∧ serve_blocking config fuel requests h = Err e ∧
      ∃ pre op post, init_sequence config = pre ++ op :: post ∧
        log = all_ok pre ++ [(op, false)] ∧ reports e op
  end.
Proof.
  intros Hmax. unfold mfrc522_run, serve_blocking. pose proof (init_performs config h) as Hr.
  destruct (init config h) as [[log h'] [u|e]]; simpl in *; [|done].
  split; [done|]. exists h'. split_and!; [done|done|by apply serve_serving].
Qed.

End thread.
End init.

Arguments Mfrc522InitError H {_}.

(** ** Witness *)

(** A machine on which everything but the operation [bad] succeeds. *)
Definition demo_hardware (bad : option HwOp) : Hardware unit := {|
  HwIoError := unit;
  io_op op h := (h, if bool_decide (bad = Some op) then Err tt else Ok tt);
  dev_op op h := (h, if bool_decide (bad = Some op) then Err "no answer" else Ok tt);
  sleep_op _ h := h
|}.

Definition demo_start_backend (bad : option HwOp) :=
  mfrc522_run (HW:=demo_hardware bad) (DR:=rig_driver) 65535 (λ _ : unit, 3%nat) Mfrc522Config_default 5
    [WaitForCard 1; ReadNdefText 2] tt.

(** All goes well, and the reset line cannot be driven. *)
Lemma backend_starts_or_reports_witness :
  (demo_start_backend None).1.1 = all_ok (init_sequence Mfrc522Config_default) ∧
  ∃ pre op post, init_sequence Mfrc522Config_default = pre ++ op :: post ∧
    (demo_start_backend (Some GpioSetActive)).1.1 = all_ok pre ++ [(op, false)] ∧
    reports (HW:=demo_hardware (Some GpioSetActive)) (InitGpio (HW:=demo_hardware (Some GpioSetActive)) "no answer") op.
Proof.
  split.
  - exact (proj1 (backend_starts_or_reports (HW:=demo_hardware None) (DR:=rig_driver) 65535 (λ _ : unit, 3%nat)
      Mfrc522Config_default 5 [WaitForCard 1; ReadNdefText 2] tt ltac:(lia))).
  - exact (proj2 (proj2 (backend_starts_or_reports (HW:=demo_hardware (Some GpioSetActive)) (DR:=rig_driver) 65535
      (λ _ : unit, 3%nat) Mfrc522Config_default 5 [WaitForCard 1; ReadNdefText 2] tt ltac:(lia)))).
Defined.
