(* ===== verification/NfcSystem.v ===== *)
(** * Reader handles, channel and backend together (src/src/nfc/mod.rs)

    The system of all [NfcReader] operations, the bounded channel and the serving
    thread, as a step relation in which each poll of the backend is a step, so
    that callers may come, go and cancel in between. *)

From stdpp Require Import relations.
From S2P Require Import Prelude Utf8 Ndef NdefTheorems Mfrc522 Mfrc522Theorems Mfrc522Init NfcReader.

Local Open Scope Z_scope.

(** The response channel of a request. *)
Definition resp (r : NfcReaderRequest) : N :=
  match r with WaitForCard c | WaitForRemoval c | ReadNdefText c => c end.

(** [mpsc::channel(4)] of [NfcReader::channel]. *)
Definition reader_capacity : nat := 4.

Section system.
Context {D : Type} {DR : Driver D} (usize_max : Z).

(** ** One poll *)

(** What one iteration of a request's loop in [serve] comes to: poll again,
    abandon the wait, send a response, or panic. *)
Inductive Polled := Keep | Release | Respond (r : Reply D) | Panicked.

(** One iteration for a request whose response channel is [closed] or not. *)
Definition poll (closed : bool) (r : NfcReaderRequest) (d : D) : D * Polled :=
  match r with
  | WaitForCard _ =>
      if closed then (d, Release)
      else
        match select_target d with
        | (d, Some (Ret u)) => (d, Respond (CardReply u))
        | (d, Some _) => (d, Panicked)
        | (d, None) => (d, Keep)
        end
  | WaitForRemoval _ =>
      if closed then (d, Release)
      else
        match check_for_release d with
        | (d, true) => (d, Respond RemovalReply)
        | (d, false) => (d, Keep)
        end
  | ReadNdefText _ =>
      match read_ndef_text usize_max d with
      | (d, Ret t) => (d, Respond (TextReply (Ok t)))
      | (d, Fail e) => (d, Respond (TextReply (Err e)))
      | (d, Panic) => (d, Panicked)
      end
  end.

(** ** The system *)

(** The life of one operation of a handle. *)
Inductive RCaller :=
| RSending (r : NfcReaderRequest)
| RWaiting (r : NfcReaderRequest)
| RGot (r : NfcReaderRequest) (reply : Reply D)
| RDisconnected
| RDropped.

Inductive Backend := Idle | Serving (r : NfcReaderRequest) | Dead.

(** [r_accepted] and [r_served] record what entered the channel and what the
    backend is done with. *)
Record RSys := mkRSys {
  r_queue : list NfcReaderRequest;
  r_backend : Backend;
  r_dev : D;
  r_callers : gmap N RCaller;
  r_accepted : list NfcReaderRequest;
  r_served : list NfcReaderRequest
}.

(** [response.is_closed()]: the operation's future was dropped. *)
Definition closed (s : RSys) (c : N) : bool :=
  match r_callers s !! c with Some (RWaiting _) => false | _ => true end.

(** [response.send(reply)]: ignored when the caller is gone. *)
Definition respond (r : NfcReaderRequest) (reply : Reply D) (m : gmap N RCaller) : gmap N RCaller :=
  match m !! resp r with Some (RWaiting _) => <[resp r := RGot r reply]> m | _ => m end.

(** The backend is gone: the senders it held and those in the channel drop. *)
Definition disconnect (c : RCaller) : RCaller :=
  match c with RWaiting _ => RDisconnected | c => c end.

Definition r_set_callers (m : gmap N RCaller) (s : RSys) : RSys :=
  mkRSys (r_queue s) (r_backend s) (r_dev s) m (r_accepted s) (r_served s).

Definition die (d : D) (s : RSys) : RSys :=
  mkRSys [] Dead d (disconnect <$> r_callers s) (r_accepted s) (r_served s).

(** What a poll makes of the system. *)
Definition after_poll (s : RSys) (r : NfcReaderRequest) (p : D * Polled) : RSys :=
  match p with
  | (d, Keep) => mkRSys (r_queue s) (Serving r) d (r_callers s) (r_accepted s) (r_served s)
  | (d, Release) => mkRSys (r_queue s) Idle d (r_callers s) (r_accepted s) (r_served s ++ [r])
  | (d, Respond reply) =>
      mkRSys (r_queue s) Idle d (respond r reply (r_callers s)) (r_accepted s) (r_served s ++ [r])
  | (d, Panicked) => die d s
  end.

(** A handle's operation ([NfcReader::roundtrip]) is called, its request enters the
    channel when there is room, or is refused when the backend is gone, and its
    future may be dropped while it waits for either. The backend receives the next
    request and polls it, pausing in between. Cards come and go at any time, and
    the backend may die or be dropped at any time. *)
Inductive r_step : RSys → RSys → Prop :=
| r_call s id r : r_callers s !! id = None → resp r = id →
    r_step s (r_set_callers (<[id := RSending r]> (r_callers s)) s)
| r_enqueue s id r : r_callers s !! id = Some (RSending r) → r_backend s ≠ Dead →
    (length (r_queue s) < reader_capacity)%nat →
    r_step s (mkRSys (r_queue s ++ [r]) (r_backend s) (r_dev s) (<[id := RWaiting r]> (r_callers s))
      (r_accepted s ++ [r]) (r_served s))
| r_refused s id r : r_callers s !! id = Some (RSending r) → r_backend s = Dead →
    r_step s (r_set_callers (<[id := RDisconnected]> (r_callers s)) s)
| r_cancel s id r : r_callers s !! id = Some (RSending r) ∨ r_callers s !! id = Some (RWaiting r) →
    r_step s (r_set_callers (<[id := RDropped]> (r_callers s)) s)
| r_recv s r q : r_backend s = Idle → r_queue s = r :: q →
    r_step s (mkRSys q (Serving r) (r_dev s) (r_callers s) (r_accepted s) (r_served s))
| r_poll s r : r_backend s = Serving r →
    r_step s (after_poll s r (poll (closed s (resp r)) r (r_dev s)))
| r_field s d :
    r_step s (mkRSys (r_queue s) (r_backend s) d (r_callers s) (r_accepted s) (r_served s))
| r_die s : r_backend s ≠ Dead → r_step s (die (r_dev s) s).

(** What an operation returns in the end. *)
Definition fate_of (c : RCaller) : option (Fate (Reply D)) :=
  match c with
  | RGot _ reply => Some (Responded reply)
  | RDisconnected => Some ResponseDropped
  | _ => None
  end.

Definition r_init (d : D) : RSys := mkRSys [] Idle d ∅ [] [].

(** [NfcReader::spawn_mfrc522]: the new channel with its backend, once the thread
    has reported that the hardware is up. *)
Definition spawn_mfrc522 {H} {HW : Hardware H} (started : Result unit (HwIoError H))
    (init_rx : option (Result unit (Mfrc522InitError H))) (d : D) : Result RSys (Mfrc522InitError H) :=
  match spawn started init_rx with Ok _ => Ok (r_init d) | Err e => Err e end.

(** ** The loops of [serve] iterate [poll] *)

Context {CA : Callers D} {DL : DriverLaws D}.

(** Polling every 50 ms until something other than [Keep] comes of it. *)
Fixpoint polls (fuel : nat) (r : NfcReaderRequest) (d : D) : option (D * Polled) :=
  match fuel with
  | O => None
  | S fuel =>
      match poll (is_closed (resp r) d) r d with
      | (d, Keep) => polls fuel r (sleep_50ms d)
      | p => Some p
      end
  end.

Lemma select_target_Ret d d' u : select_target d = (d', Some u) → ∃ x, u = Ret x.
Proof.
  unfold select_target. intros Hs. repeat case_match; simplify_eq. unfold nfc_uid_from_mfrc522.
  destruct (uid_lengths a0) as [x ->]. by exists x.
Qed.

(** A turn of the serving loop is polling: the step relation below takes the
    same decisions as [serve]. *)
Lemma serve_one_is_polling fuel r d :
  1024 ≤ usize_max →
  serve_one usize_max (S fuel) r d =
    match polls (S fuel) r d with
    | None => None
    | Some (d, Release) => Some (Ret (d, []))
    | Some (d, Respond reply) => Some (Ret (d, [(resp r, reply)]))
    | Some (d, _) => Some Panic
    end.
Proof.
  intros Hmax. destruct r as [c|c|c]; unfold serve_one.
  - enough (∀ n d, poll_card n c d ≫= (λ '(d, w), Some (match w with
        | Abandoned _ => Ret (d, []) | Got _ uid => let! u := uid in Ret (d, [(c, CardReply u)]) end)) =
      match polls n (WaitForCard c) d with
      | None => None | Some (d, Release) => Some (Ret (d, []))
      | Some (d, Respond reply) => Some (Ret (d, [(c, reply)])) | Some (d, _) => Some Panic
      end) as Hn by apply Hn.
    induction n as [|n IH]; intros d'; simpl; [done|]. destruct (is_closed c d'); [done|].
    destruct (select_target d') as [d1 [u|]] eqn:Hs; [|apply IH].
    destruct (select_target_Ret _ _ _ Hs) as [x ->]. done.
  - enough (∀ n d, poll_removal n c d ≫= (λ '(d, w), Some (Ret (d, match w with
        | Abandoned _ => [] | Got _ _ => [(c, RemovalReply)] end))) =
      match polls n (WaitForRemoval c) d with
      | None => None | Some (d, Release) => Some (Ret (d, []))
      | Some (d, Respond reply) => Some (Ret (d, [(c, reply)])) | Some (d, _) => Some (Panic (E:=string))
      end) as Hn by apply Hn.
    induction n as [|n IH]; intros d'; simpl; [done|]. destruct (is_closed c d'); [done|].
    by destruct (check_for_release d') as [d1 []].
  - simpl. pose proof (read_never_panics usize_max d Hmax) as Hnp.
    by destruct (read_ndef_text usize_max d) as [d' [t|e|]].
Qed.

End system.

Arguments RSys D {_}.
Arguments RCaller D {_}.
Arguments Polled D {_}.
