(* ===== verification/NfcSystemTheorems.v ===== *)
(** * Theorems about the reader system

    In every interleaving of callers, cancellations and polls: requests are served
    in order, each response reaches the operation that asked for it and has the
    kind it asked for, and an abandoned wait does not block the reader. *)

From stdpp Require Import relations.
From S2P Require Import Prelude Utf8 Ndef NdefTheorems Mfrc522 Mfrc522Theorems NfcReader NfcSystem.

Local Open Scope Z_scope.

Section system.
Context {D : Type} {DR : Driver D} (usize_max : Z).
Implicit Types s : RSys D.
Implicit Types r : NfcReaderRequest.

Abbreviation rstep := (r_step usize_max).

(** The requests the backend still owes something, the one being served first. *)
Definition current s : list NfcReaderRequest := match r_backend s with Serving r => [r] | _ => [] end.
Definition pending s : list NfcReaderRequest := current s ++ r_queue s.

(** The response is one the adapter gave to a request of this kind. *)
Definition answers r (reply : Reply D) : Prop :=
  match r, reply with
  | WaitForCard _, CardReply u => ∃ d d', select_target d = (d', Some (Ret u))
  | WaitForRemoval _, RemovalReply => ∃ d d', check_for_release d = (d', true)
  | ReadNdefText _, TextReply t =>
      ∃ d d', read_ndef_text usize_max d = (d', match t with Ok t => Ret t | Err e => Fail e end)
  | _, _ => False
  end.

Record rinv s : Prop := {
  ri_capacity : (length (r_queue s) ≤ reader_capacity)%nat;
  ri_dead : r_backend s = Dead → r_queue s = [];
  ri_nodup : NoDup (resp <$> pending s);
  ri_waiting id r : r_callers s !! id = Some (RWaiting r) → resp r = id ∧ r ∈ pending s;
  ri_sending id r : r_callers s !! id = Some (RSending r) → resp r = id ∧ id ∉ (resp <$> pending s);
  ri_known r : r ∈ pending s → is_Some (r_callers s !! resp r);
  ri_got id r reply : r_callers s !! id = Some (RGot r reply) → resp r = id ∧ answers r reply;
  ri_disconnected id : r_callers s !! id = Some RDisconnected → r_backend s = Dead;
  ri_fifo : r_backend s ≠ Dead → r_accepted s = r_served s ++ pending s
}.

Lemma rinv_init d : rinv (r_init d).
Proof.
  split; simpl; try done.
  - unfold reader_capacity. lia.
  - apply NoDup_nil_2.
  - intros r Hr. by apply elem_of_nil in Hr.
Qed.

(** Requests pending together have different response channels. *)
Lemma pending_inj s r r' : rinv s → r ∈ pending s → r' ∈ pending s → resp r = resp r' → r = r'.
Proof.
  intros Hs Hr Hr' Heq. pose proof (ri_nodup s Hs) as Hnd.
  apply list_elem_of_lookup in Hr as [i Hi]. apply list_elem_of_lookup in Hr' as [j Hj].
  assert (i = j) as ->; [|congruence].
  eapply NoDup_lookup; [done|rewrite list_lookup_fmap, Hi; done|].
  rewrite list_lookup_fmap, Hj. simpl. by rewrite Heq.
Qed.

Lemma rinv_settle s id x a : rinv s → r_callers s !! id = Some x → (a = RDropped ∨ a = RDisconnected ∧ r_backend s = Dead) →
  rinv (r_set_callers (<[id := a]> (r_callers s)) s).
Proof.
  intros [] Hx Ha. split; try done; simpl.
  - intros id' r. rewrite lookup_insert. case_decide; [naive_solver|auto].
  - intros id' r. rewrite lookup_insert. case_decide; [naive_solver|auto].
  - intros r Hin. rewrite lookup_insert. case_decide; eauto.
  - intros id' r reply. rewrite lookup_insert. case_decide; [naive_solver|auto].
  - intros id'. rewrite lookup_insert. case_decide; [naive_solver|apply ri_disconnected0].
Qed.

Lemma rinv_call s r : rinv s → r_callers s !! resp r = None →
  rinv (r_set_callers (<[resp r := RSending r]> (r_callers s)) s).
Proof.
  intros [] Hnone. split; try done; simpl.
  - intros id' r'. rewrite lookup_insert. case_decide; [naive_solver|auto].
  - intros id' r'. rewrite lookup_insert. case_decide as Heq; [|auto]. subst id'. intros [= <-]. split; [done|].
    intros (r1 & Hr1 & Hin)%list_elem_of_fmap. destruct (ri_known0 _ Hin) as [? ?]. congruence.
  - intros r' Hin. rewrite lookup_insert. case_decide; eauto.
  - intros id' r' reply. rewrite lookup_insert. case_decide; [naive_solver|auto].
  - intros id'. rewrite lookup_insert. case_decide; [naive_solver|apply ri_disconnected0].
Qed.

Lemma rinv_enqueue s id r : rinv s → r_callers s !! id = Some (RSending r) → r_backend s ≠ Dead →
  (length (r_queue s) < reader_capacity)%nat →
  rinv (mkRSys (r_queue s ++ [r]) (r_backend s) (r_dev s) (<[id := RWaiting r]> (r_callers s))
    (r_accepted s ++ [r]) (r_served s)).
Proof.
  intros [] Hid Hal Hroom. destruct (ri_sending0 _ _ Hid) as [<- Hnot].
  set (s' := mkRSys _ _ _ _ _ _).
  assert (pending s' = pending s ++ [r]) as Hp.
  { unfold pending, current. subst s'. simpl. destruct (r_backend s); by rewrite ?app_assoc. }
  split; rewrite ?Hp; subst s'; simpl; try done.
  - rewrite length_app. simpl. lia.
  - rewrite fmap_app. apply NoDup_app. split_and!; [done| |apply NoDup_singleton].
    intros x Hx. simpl. rewrite list_elem_of_singleton. by intros ->.
  - intros id' r'. rewrite lookup_insert. case_decide as Heq.
    + intros [= <-]. split; [done|]. set_solver.
    + intros Hw. destruct (ri_waiting0 _ _ Hw). set_solver.
  - intros id' r'. rewrite lookup_insert. case_decide as Heq; [done|].
    intros Hs. destruct (ri_sending0 _ _ Hs) as [? Hn]. split; [done|]. rewrite fmap_app. set_solver.
  - intros r' Hin. rewrite lookup_insert. case_decide as Heq; [eauto|].
    apply elem_of_app in Hin as [Hin|Hin%list_elem_of_singleton]; [by apply ri_known0|congruence].
  - intros id' r' reply. rewrite lookup_insert. case_decide; [done|auto].
  - intros id'. rewrite lookup_insert. case_decide; [done|apply ri_disconnected0].
  - intros _. rewrite (ri_fifo0 Hal). by rewrite app_assoc.
Qed.

(** The served request leaves, with or without a response. *)
Lemma rinv_done s r d m : rinv s → r_backend s = Serving r →
  (m = r_callers s ∧ closed s (resp r) = true ∨ ∃ reply, m = respond r reply (r_callers s) ∧ answers r reply) →
  rinv (mkRSys (r_queue s) Idle d m (r_accepted s) (r_served s ++ [r])).
Proof.
  intros Hs Hb Hm. pose proof Hs as [].
  assert (pending s = r :: r_queue s) as Hp by (unfold pending, current; by rewrite Hb).
  assert (∀ id, m !! id = r_callers s !! id ∧ (id = resp r → closed s id = true) ∨
    id = resp r ∧ ∃ reply, m !! id = Some (RGot r reply) ∧ answers r reply) as Hlook.
  { intros id. destruct Hm as [[-> Hc]|(reply & -> & Hf)]; [left; split; [done|by intros ->]|].
    unfold respond. destruct (decide (id = resp r)) as [->|Hne].
    - destruct (r_callers s !! resp r) as [[|r'| | |]|] eqn:Hr.
      2:{ right. split; [done|]. exists reply. by rewrite lookup_insert_eq. }
      all: left; split; [done|]; intros _; unfold closed; by rewrite Hr.
    - left. split; [|done]. destruct (r_callers s !! resp r) as [[]|]; try done. by rewrite lookup_insert_ne. }
  rewrite Hp in *. split; simpl; try done.
  - apply NoDup_cons in ri_nodup0 as [_ ?]. done.
  - intros id r' Hw. destruct (Hlook id) as [[Heq Hcl]|(_ & ? & ? & _)]; [|congruence]. rewrite Heq in Hw.
    destruct (ri_waiting0 _ _ Hw) as [Hr Hin]. split; [done|].
    apply elem_of_cons in Hin as [->|?]; [|done]. specialize (Hcl ltac:(done)). unfold closed in Hcl. by rewrite Hw in Hcl.
  - intros id r' Hw. destruct (Hlook id) as [[Heq _]|(_ & ? & ? & _)]; [|congruence]. rewrite Heq in Hw.
    destruct (ri_sending0 _ _ Hw) as [? Hn]. split; [done|]. rewrite fmap_cons in Hn. set_solver.
  - intros r' Hin. destruct (Hlook (resp r')) as [[-> _]|(_ & ? & -> & _)]; [|eauto]. apply ri_known0. set_solver.
  - intros id r' reply Hg. destruct (Hlook id) as [[Heq _]|(-> & reply' & Hr & Hf)].
    + rewrite Heq in Hg. by apply ri_got0.
    + rewrite Hg in Hr. by injection Hr as -> ->.
  - intros id Hg. destruct (Hlook id) as [[Heq _]|(_ & ? & ? & _)]; [|congruence]. rewrite Heq in Hg.
    apply ri_disconnected0 in Hg. congruence.
  - intros _. rewrite ri_fifo0 by (by rewrite Hb). by rewrite <-app_assoc.
Qed.

Lemma rinv_die s d : rinv s → rinv (die d s).
Proof.
  intros []. split; simpl; try done.
  - unfold reader_capacity. lia.
  - apply NoDup_nil_2.
  - intros id r. rewrite lookup_fmap. by destruct (r_callers s !! id) as [[]|].
  - intros id r. rewrite lookup_fmap. destruct (r_callers s !! id) as [[]|] eqn:Hc; simpl; try done.
    intros [= ->]. destruct (ri_sending0 _ _ Hc). split; [done|]. by intros ?%elem_of_nil.
  - intros r Hin. by apply elem_of_nil in Hin.
  - intros id r reply. rewrite lookup_fmap. destruct (r_callers s !! id) as [[]|] eqn:Hc; simpl; try done.
    intros [= -> ->]. by apply ri_got0.
Qed.

(** The responses of a poll fit, and a wait is released only when closed. *)
Lemma poll_fits b r d d' p : poll usize_max b r d = (d', p) →
  match p with Respond reply => answers r reply | Release => b = true | _ => True end.
Proof. destruct r; simpl; intros Hp; repeat case_match; simplify_eq; try done; by do 2 eexists. Qed.

Lemma rinv_step s s' : rinv s → rstep s s' → rinv s'.
Proof.
  intros Hs Hstep. destruct Hstep as [s id r Hn <-|s id r|s id r Hid Hd|s id r Hid|s r q Hb Hq|s r Hb|s d|s Hb].
  - by apply rinv_call.
  - by apply rinv_enqueue.
  - eapply rinv_settle; [done|done|auto].
  - destruct Hid; (eapply rinv_settle; [done|done|by left]).
  - pose proof Hs as []. set (s' := mkRSys _ _ _ _ _ _).
    assert (pending s' = pending s) as Hp by (unfold pending, current; simpl; by rewrite Hb, Hq).
    split; rewrite ?Hp; try done; subst s'; simpl.
    + rewrite Hq in ri_capacity0. simpl in ri_capacity0. lia.
    + intros id Hd%ri_disconnected0. congruence.
    + intros _. apply ri_fifo0. by rewrite Hb.
  - destruct (poll usize_max (closed s (resp r)) r (r_dev s)) as [d' p] eqn:Hp. pose proof (poll_fits _ _ _ _ _ Hp) as Hf.
    destruct p as [| |reply|]; simpl.
    + pose proof Hs as []. split; unfold pending, current in *; simpl; rewrite Hb in *; done.
    + eapply rinv_done; [done..|by left].
    + eapply rinv_done; [done..|right; eauto].
    + by apply rinv_die.
  - pose proof Hs as []. by split.
  - by apply rinv_die.
Qed.

Lemma rinv_steps s s' : rinv s → rtc rstep s s' → rinv s'.
Proof. intros Hs Hr. induction Hr as [|x y z H1 _ IH]; [done|]. by apply IH, (rinv_step x). Qed.

(** C13: in every reachable state of handles, channel and backend: at most 4
    requests are queued; while the backend lives, the accepted requests are the
    served ones followed by the one in service and the queue, in order; a waiting
    operation has its own request among those; what an operation got is a
    response the adapter gave to a request of its kind; and an operation is
    reported as disconnected only when the backend is gone. *)
Theorem reader_requests_routed d s :
  rtc rstep (r_init d) s →
  (length (r_queue s) ≤ reader_capacity)%nat ∧
  (r_backend s ≠ Dead → r_accepted s = r_served s ++ pending s) ∧
  ∀ id c, r_callers s !! id = Some c →
    match c with
    | RWaiting r => resp r = id ∧ r ∈ pending s
    | RGot r reply => resp r = id ∧ answers r reply
    | RDisconnected => r_backend s = Dead
    | RSending r => resp r = id ∧ r ∉ pending s
    | RDropped => True
    end.
Proof.
  intros Hr. destruct (rinv_steps _ _ (rinv_init d) Hr) as []. split_and!; [done|done|].
  intros id [r|r|r reply| |] Hc; eauto.
  destruct (ri_sending0 _ _ Hc) as [<- Hn]. split; [done|]. intros Hin. apply Hn. by apply list_elem_of_fmap_2.
Qed.

(** ** Progress *)

(** What the serving thread does next, left alone. *)
Definition backend_turn s : RSys D :=
  match r_backend s with
  | Idle =>
      match r_queue s with
      | [] => s
      | r :: q => mkRSys q (Serving r) (r_dev s) (r_callers s) (r_accepted s) (r_served s)
      end
  | Serving r => after_poll s r (poll usize_max (closed s (resp r)) r (r_dev s))
  | Dead => s
  end.

Lemma backend_turn_steps s : rtc rstep s (backend_turn s).
Proof.
  unfold backend_turn. destruct (r_backend s) as [|r|] eqn:Hb; [|apply rtc_once; by apply r_poll|done].
  destruct (r_queue s) as [|r q] eqn:Hq; [done|]. apply rtc_once. by eapply r_recv.
Qed.

(** A request that does not hold the backend up: a text read, or a wait whose
    operation was dropped. *)
Definition passes s r : bool :=
  match r with ReadNdefText _ => true | WaitForCard c | WaitForRemoval c => closed s c end.

Context {DL : DriverLaws D} (usize_large : 1024 ≤ usize_max).

(** One turn is enough for such a request; nobody else is touched. *)
Lemma passes_turn s r : r_backend s = Serving r → passes s r = true →
  let s' := backend_turn s in
  r_backend s' = Idle ∧ r_queue s' = r_queue s ∧
  (∀ id, id ≠ resp r → r_callers s' !! id = r_callers s !! id) ∧
  (∀ id, closed s id = true → closed s' id = true) ∧
  (∀ c, r = ReadNdefText c → r_callers s !! c = Some (RWaiting r) →
    ∃ t, r_callers s' !! c = Some (RGot r (TextReply t))).
Proof.
  intros Hb Hp. unfold backend_turn. rewrite Hb. destruct r as [c|c|c]; simpl in *.
  1, 2: rewrite Hp; by split_and!.
  pose proof (read_never_panics usize_max (r_dev s) usize_large) as Hnp.
  assert (∀ d reply, let s' := mkRSys (r_queue s) Idle d
      (respond (ReadNdefText c) reply (r_callers s)) (r_accepted s) (r_served s ++ [ReadNdefText c]) in
    (∀ id, id ≠ c → r_callers s' !! id = r_callers s !! id) ∧
    (∀ id, closed s id = true → closed s' id = true) ∧
    (r_callers s !! c = Some (RWaiting (ReadNdefText c)) → r_callers s' !! c = Some (RGot (ReadNdefText c) reply)))
    as Hres.
  { intros d reply. unfold closed, respond. simpl.
    destruct (r_callers s !! c) as [[]|] eqn:Hc; split_and!; try done.
    - intros id Hid. by rewrite lookup_insert_ne.
    - intros id Hid. rewrite lookup_insert. by case_decide.
    - intros _. by rewrite lookup_insert_eq. }
  destruct (read_ndef_text usize_max (r_dev s)) as [d' [t|e|]]; [..|done]; simpl.
  - destruct (Hres d' (TextReply (Ok t))) as (H1 & H2 & H3). split_and!; try done.
    intros c' [= <-] Hw. eauto.
  - destruct (Hres d' (TextReply (Err e))) as (H1 & H2 & H3). split_and!; try done.
    intros c' [= <-] Hw. eauto.
Qed.

Abbreviation turns n s := (Nat.iter n backend_turn s).

(** An idle backend takes the next request in one turn. *)
Lemma recv_turn s r q : r_backend s = Idle → r_queue s = r :: q →
  backend_turn s = mkRSys q (Serving r) (r_dev s) (r_callers s) (r_accepted s) (r_served s).
Proof. intros Hb Hq. unfold backend_turn. by rewrite Hb, Hq. Qed.

Lemma passes_mono s s' r : (∀ id, closed s id = true → closed s' id = true) → passes s r = true → passes s' r = true.
Proof. intros Hc. destruct r; simpl; auto. Qed.

Lemma reaches_serving pre : ∀ s x r post,
  r_backend s = Serving x → x :: r_queue s = pre ++ r :: post → NoDup (resp <$> pre ++ r :: post) →
  Forall (λ y, passes s y = true) pre →
  ∃ n, (n ≤ 2 * length pre)%nat ∧ r_backend (turns n s) = Serving r ∧ r_queue (turns n s) = post ∧
    r_callers (turns n s) !! resp r = r_callers s !! resp r.
Proof.
  induction pre as [|y pre IH]; intros s x r post Hb Hq Hnd Hp.
  - injection Hq as -> Hq. exists 0%nat. split; [lia|]. by split_and!.
  - injection Hq as -> Hq. apply Forall_cons in Hp as [Hy Hp]. simpl in Hnd. apply NoDup_cons in Hnd as [Hny Hnd].
    destruct (passes_turn s y Hb Hy) as (Hb1 & Hq1 & Hc1 & Hm1 & _).
    destruct (pre ++ r :: post) as [|z q] eqn:Hz; [by destruct pre|].
    assert (turns 2 s = mkRSys q (Serving z) (r_dev (backend_turn s)) (r_callers (backend_turn s))
      (r_accepted (backend_turn s)) (r_served (backend_turn s))) as Hs2.
    { simpl. apply recv_turn; [done|]. by rewrite Hq1. }
    destruct (IH (turns 2 s) z r post) as (n & Hn & Hbn & Hqn & Hcn).
    + by rewrite Hs2.
    + rewrite Hs2. done.
    + by rewrite Hz.
    + rewrite Hs2. eapply Forall_impl; [exact Hp|]. intros w. by apply passes_mono.
    + exists (n + 2)%nat. simpl length. rewrite Nat.iter_add. split_and!; [lia|done|done|].
      rewrite Hcn, Hs2. apply Hc1. intros Heq. apply Hny. rewrite <-Heq, <-Hz, fmap_app. set_solver.
Qed.

Lemma reaches pre s r post :
  rinv s → r_backend s ≠ Dead → pending s = pre ++ r :: post → Forall (λ y, passes s y = true) pre →
  ∃ n, (n ≤ 2 * length pre + 1)%nat ∧ r_backend (turns n s) = Serving r ∧ r_queue (turns n s) = post ∧
    r_callers (turns n s) !! resp r = r_callers s !! resp r.
Proof.
  intros Hs Hal Hpend Hp. pose proof (ri_nodup s Hs) as Hnd. rewrite Hpend in Hnd.
  unfold pending, current in Hpend. destruct (r_backend s) as [|x|] eqn:Hb; [| |done].
  - simpl in Hpend. destruct (pre ++ r :: post) as [|z q] eqn:Hz; [by destruct pre|].
    pose proof (recv_turn _ _ _ Hb Hpend) as Ht.
    destruct (reaches_serving pre (backend_turn s) z r post) as (n & Hn & Hrest).
    + by rewrite Ht.
    + by rewrite Ht, Hz.
    + by rewrite Hz.
    + rewrite Ht. eapply Forall_impl; [exact Hp|]. intros w. by apply passes_mono.
    + exists (n + 1)%nat. rewrite Nat.iter_add. simpl. rewrite Ht in *. split; [lia|done].
  - destruct (reaches_serving pre s x r post Hb Hpend Hnd Hp) as (n & Hn & Hrest). exists n. split; [lia|done].
Qed.

(** C12: a request is never stuck behind waits that were given up: from every
    reachable state with a living backend, when all requests ahead are text reads
    or waits whose operations were dropped, the backend serves it after at most
    two turns per request ahead and one more, and a text read is answered in the
    next turn. *)
Theorem abandoned_waits_do_not_block d s pre r post :
  rtc rstep (r_init d) s → r_backend s ≠ Dead → pending s = pre ++ r :: post →
  Forall (λ y, passes s y = true) pre →
  ∃ n, (n ≤ 2 * length pre + 1)%nat ∧ rtc rstep s (turns n s) ∧
    r_backend (turns n s) = Serving r ∧ r_queue (turns n s) = post ∧
    (∀ c, r = ReadNdefText c → r_callers s !! c = Some (RWaiting r) →
      ∃ t, r_callers (turns (S n) s) !! c = Some (RGot r (TextReply t))).
Proof.
  intros Hr Hal Hpend Hp. pose proof (rinv_steps _ _ (rinv_init d) Hr) as Hs.
  destruct (reaches pre s r post Hs Hal Hpend Hp) as (n & Hn & Hb & Hq & Hc).
  exists n. split_and!; [done| |done|done|].
  - clear. induction n as [|n IH]; [done|]. simpl. etrans; [exact IH|apply backend_turn_steps].
  - intros c -> Hw. assert (passes (turns n s) (ReadNdefText c) = true) as Hpt by done.
    destruct (passes_turn _ _ Hb Hpt) as (_ & _ & _ & _ & Ht). apply (Ht c); [done|]. exact (eq_trans Hc Hw).
Qed.

End system.

(** ** Witnesses, on the rig of the backend's theorems *)

(** A wait for a card, abandoned while it is polled, with a text read behind it. *)
Definition demo_queue : RSys nat :=
  mkRSys [ReadNdefText 2] (Serving (WaitForCard 1)) 3%nat
    (<[1%N := RDropped]> (<[2%N := RWaiting (ReadNdefText 2)]> ∅))
    [WaitForCard 1; ReadNdefText 2] [].

Lemma demo_queue_reachable : rtc (r_step 65535) (r_init 3%nat) demo_queue.
Proof.
  eapply rtc_l; [apply (r_call _ _ 1 (WaitForCard 1)); done|].
  eapply rtc_l; [apply (r_enqueue _ _ 1 (WaitForCard 1)); (done || (simpl; unfold reader_capacity; lia))|].
  eapply rtc_l; [apply (r_recv _ _ (WaitForCard 1) []); done|].
  eapply rtc_l; [apply (r_call _ _ 2 (ReadNdefText 2)); done|].
  eapply rtc_l; [apply (r_enqueue _ _ 2 (ReadNdefText 2)); (done || (simpl; unfold reader_capacity; lia))|].
  eapply rtc_l; [apply (r_cancel _ _ 1 (WaitForCard 1)); by right|].
  apply rtc_refl.
Qed.

Lemma reader_requests_routed_witness : ReadNdefText 2 ∈ pending demo_queue.
Proof.
  destruct (reader_requests_routed 65535 3%nat demo_queue demo_queue_reachable) as (_ & _ & Hc).
  apply (Hc 2%N (RWaiting (ReadNdefText 2))). done.
Defined.

Lemma abandoned_waits_do_not_block_witness :
  ∃ n t, (n ≤ 3)%nat ∧
    r_callers (Nat.iter (S n) (backend_turn 65535) demo_queue) !! 2%N = Some (RGot (ReadNdefText 2) (TextReply t)).
Proof.
  destruct (abandoned_waits_do_not_block 65535 ltac:(lia) 3%nat demo_queue [WaitForCard 1] (ReadNdefText 2) []
    demo_queue_reachable) as (n & Hn & _ & _ & _ & Ht); [done|done|by repeat constructor|].
  destruct (Ht 2%N) as [t Hg]; [done|done|]. exists n, t. by split.
Defined.
