(* ===== verification/Playback.v ===== *)
(** * Audio playback (src/src/audio.rs)

    The blocking task behind a playback and the handle that controls it. The
    sound device and the decoder (crate rodio) act on the state [S] of the
    machine; the cancellation flag is part of it, since the handle may set it at
    any time. *)

From S2P Require Import Prelude.

Class Rodio (S : Type) := {
  IoError : Type;
  DecoderError : Type;
  Sink : Type;
  Player : Type;
  Reader : Type;
  Source : Type;
  Volume : Type;
  (** [cancel_flag.load(Relaxed)] *)
  cancel_flag : S → bool;
  (** [DeviceSinkBuilder::open_default_sink], the error rendered as a string *)
  open_default_sink : S → S * Result Sink string;
  connect_new : Sink → S → S * Player;
  set_volume : Player → Volume → S → S;
  file_open : string → S → S * Result Reader IoError;
  decoder_new : Reader → S → S * Result Source DecoderError;
  append : Player → Source → S → S;
  is_empty : Player → S → bool;
  sleep_50ms : S → S
}.

Section playback.
Context {S : Type} {RO : Rodio S}.

(** [enum PlaybackError] *)
Inductive PlaybackError :=
| PIo (e : IoError)
| POutput (e : string)
| PDecode (e : DecoderError)
| PTask.

(** [struct PlaybackHandle] without the join handle; [cancelled] is the shared flag. *)
Record PlaybackHandle := mkHandle { cancelled : bool; detached : bool }.

(** The handle [play_with] returns. *)
Definition handle_new : PlaybackHandle := mkHandle false false.

(** [impl Drop for PlaybackHandle] *)
Definition drop_handle (h : PlaybackHandle) : PlaybackHandle :=
  if negb (detached h) then mkHandle true (detached h) else h.

(** [PlaybackHandle::detach]: it consumes the handle, hence drops it. *)
Definition detach (h : PlaybackHandle) : PlaybackHandle := drop_handle (mkHandle (cancelled h) true).

(** [Future::poll] once the task has ended; [None] stands for a join error. *)
Definition poll_handle (joined : option (Result unit PlaybackError)) : Result unit PlaybackError :=
  match joined with Some r => r | None => Err PTask end.

(** The [while !player.empty()] loop; [None] when the fuel is used up. *)
Fixpoint play_loop (fuel : nat) (player : Player) (s : S) : option (S * Result unit PlaybackError) :=
  match fuel with
  | O => None
  | Datatypes.S fuel =>
      if negb (is_empty player s) then
        let s := sleep_50ms s in
        if cancel_flag s then Some (s, Ok tt) else play_loop fuel player s
      else Some (s, Ok tt)
  end.

(** The closure [play_with] spawns. *)
Definition play_with (fuel : nat) (volume : Volume) (open : S → S * Result Reader PlaybackError) (s : S) :
  option (S * Result unit PlaybackError) :=
  if cancel_flag s then Some (s, Ok tt)
  else
    match open_default_sink s with
    | (s, Err error) => Some (s, Err (POutput error))
    | (s, Ok device_sink) =>
        let '(s, player) := connect_new device_sink s in
        let s := set_volume player volume s in
        match open s with
        | (s, Err error) => Some (s, Err error)
        | (s, Ok reader) =>
            match decoder_new reader s with
            | (s, Err error) => Some (s, Err (PDecode error))
            | (s, Ok source) =>
                if cancel_flag s then Some (s, Ok tt)
                else play_loop fuel player (append player source s)
            end
        end
    end.

(** [play_file] *)
Definition play_file (fuel : nat) (path : string) (volume : Volume) (s : S) :=
  play_with fuel volume (λ s, let '(s, r) := file_open path s in (s, map_err PIo r)) s.

(** [play_reader] *)
Definition play_reader (fuel : nat) (reader : Reader) (volume : Volume) (s : S) :=
  play_with fuel volume (λ s, (s, Ok reader)) s.

(** ** Cancellation *)

(** The state after [n] sleeps. *)
Definition after_sleeps (n : nat) (s : S) : S := Nat.iter n sleep_50ms s.

Lemma after_sleeps_first n s : after_sleeps n (sleep_50ms s) = after_sleeps (Datatypes.S n) s.
Proof. unfold after_sleeps. induction n as [|n IH]; [done|]. simpl in *. by rewrite IH. Qed.

(** The loop goes on as long as there is sound and nobody cancels. *)
Lemma play_loop_runs n fuel player s :
  (∀ k, (k < n)%nat → is_empty player (after_sleeps k s) = false) →
  (∀ k, (0 < k ≤ n)%nat → cancel_flag (after_sleeps k s) = false) →
  play_loop (n + fuel) player s = play_loop fuel player (after_sleeps n s).
Proof.
  revert s. induction n as [|n IH]; intros s He Hc; [done|]. simpl.
  pose proof (He 0%nat ltac:(lia)) as H0. simpl in H0. rewrite H0. simpl.
  pose proof (Hc 1%nat ltac:(lia)) as H1. simpl in H1. rewrite H1.
  rewrite IH; [by rewrite after_sleeps_first|..].
  - intros k Hk. rewrite after_sleeps_first. apply He. lia.
  - intros k Hk. rewrite after_sleeps_first. apply Hc. lia.
Qed.

(** C40: a playback that was cancelled before it got to run touches nothing: no
    device is opened. One that is running ends at the first of: the sound is
    over, or, one 50 ms sleep after the flag was seen set, it is stopped; in
    both cases with [Ok], so the loop always ends when either happens. *)
Theorem playback_ends fuel n player volume open s0 s :
  (n < fuel)%nat →
  (∀ k, (k < n)%nat → is_empty player (after_sleeps k s) = false) →
  (∀ k, (0 < k ≤ n)%nat → cancel_flag (after_sleeps k s) = false) →
  (cancel_flag s0 = true → play_with fuel volume open s0 = Some (s0, Ok tt)) ∧
  (is_empty player (after_sleeps n s) = true → play_loop fuel player s = Some (after_sleeps n s, Ok tt)) ∧
  (is_empty player (after_sleeps n s) = false → cancel_flag (after_sleeps (Datatypes.S n) s) = true →
    play_loop fuel player s = Some (after_sleeps (Datatypes.S n) s, Ok tt)).
Proof.
  intros Hn He Hc. split; [unfold play_with; by intros ->|].
  replace fuel with (n + Datatypes.S (fuel - n - 1))%nat by lia. rewrite play_loop_runs by done. simpl.
  split; [by intros ->|]. intros ->. simpl. by intros ->.
Qed.

(** Dropping a handle cancels its playback, detaching it does not. *)
Lemma drop_cancels : cancelled (drop_handle handle_new) = true ∧ cancelled (detach handle_new) = false.
Proof. done. Qed.

End playback.

(** ** Witness *)

(** A machine with [fst] sleeps of sound left and the flag set after [snd] sleeps. *)
#[export] Instance demo_rodio : Rodio (nat * nat) := {|
  IoError := unit; DecoderError := unit; Sink := unit; Player := unit; Reader := unit; Source := nat;
  Volume := unit;
  cancel_flag s := (snd s =? 0)%nat;
  open_default_sink s := (s, Ok tt);
  connect_new _ s := (s, tt);
  set_volume _ _ s := s;
  file_open _ s := (s, Ok tt);
  decoder_new _ s := (s, Ok 5%nat);
  append _ n s := (n, snd s);
  is_empty _ s := (fst s =? 0)%nat;
  sleep_50ms s := (pred (fst s), pred (snd s))
|}.

Lemma playback_ends_witness :
  play_with (RO:=demo_rodio) 9 tt (λ s, (s, Ok tt)) (4, 0)%nat = Some ((4, 0)%nat, Ok tt) ∧
  play_loop (RO:=demo_rodio) 9 tt (5, 3)%nat = Some ((2, 0)%nat, Ok tt).
Proof.
  destruct (playback_ends (RO:=demo_rodio) 9 2 tt tt (λ s, (s, Ok tt)) (4, 0)%nat (5, 3)%nat) as (H1 & _ & H2).
  - lia.
  - intros [|[|]] Hk; [reflexivity..|lia].
  - intros [|[|[|]]] Hk; [lia|reflexivity..|lia].
  - split; [apply H1; reflexivity|apply H2; reflexivity].
Defined.
