(* ===== verification/UnitTests.v ===== *)
(** * The repository's unit tests

    Tests of src/src/request.rs, src/src/nfc/ndef.rs, src/src/nfc/mod.rs and
    src/src/audio.rs, run against the definitions of this development. An [unwrap]
    on the wrong variant is a failed test. The tests of a hand-written backend and
    of dropping a playback handle are not among them. *)

From stdpp Require Import relations.
From S2P Require Import Prelude Protocol Request Utf8 Ndef Mfrc522 Mfrc522Theorems NfcReader NfcSystem Playback.

(** ** request.rs *)

Section request_tests.
Context {W : Wire} {P : Protocol}.

Definition success_response_decodes : bool :=
  match encode_message mkPong with
  | Ok raw => is_ok (decode_response Pong raw)
  | Err _ => false
  end.

(** For [ErrorResponse::UnknownNfcUid]; the error response is a parameter. *)
Definition error_response_maps_to_request_error (UnknownNfcUid : ErrorResponse) : Prop :=
  match encode_message UnknownNfcUid with
  | Ok raw => decode_response Pong raw = Err (Error UnknownNfcUid)
  | Err _ => False
  end.

Definition custom_error_code_survives (Custom : Z → ErrorResponse) : Prop :=
  match encode_message (Custom 0x90%Z) with
  | Ok raw => decode_response Pong raw = Err (Error (Custom 0x90%Z))
  | Err _ => False
  end.

(** [new] is [RawMessage::new] with an empty payload. *)
Definition foreign_opcode_is_unexpected (new : Z → RawMessage) : bool :=
  match decode_response Pong (new 0x42%Z) with Err (UnexpectedResponse _) => true | _ => false end.

(** [new] is [RawMessage::new] with the payload [1, 2, 3]. *)
Definition malformed_payload_is_reported (new : Z → RawMessage) : bool :=
  match decode_response Pong (new (OPCODE Pong)) with Err (Malformed _) => true | _ => false end.

(** The tests pass on every protocol that meets its laws, encodes what they
    encode, and refuses three bytes as the payload of a [Pong]. *)
Lemma request_tests_pass `{!PayloadLaws Pong, !PayloadLaws ErrorResponse} u custom new new' :
  OPCODE Pong ≠ OPCODE ErrorResponse → OPCODE Pong ≠ 0x42%Z → OPCODE ErrorResponse ≠ 0x42%Z →
  is_ok (encode_message mkPong) = true → (∀ e : ErrorResponse, is_ok (encode_message e) = true) →
  (∀ op, message_type (new op) = op) → (∀ op, message_type (new' op) = op) →
  is_ok (decode_message (T:=Pong) (new' (OPCODE Pong))) = false →
  success_response_decodes = true ∧ error_response_maps_to_request_error u ∧ custom_error_code_survives custom ∧
  foreign_opcode_is_unexpected new = true ∧ malformed_payload_is_reported new' = true.
Proof.
  intros Hne Hp He Henc Hence Hnew Hnew' Hbad.
  destruct (decode_response_roundtrip Pong Hne) as [Hok Herr]. split_and!.
  - unfold success_response_decodes. destruct (encode_message mkPong) as [raw|] eqn:Hraw; [|done].
    by rewrite (Hok mkPong raw Hraw).
  - unfold error_response_maps_to_request_error. specialize (Hence u).
    destruct (encode_message u) as [raw|] eqn:Hraw; [|done]. by apply Herr.
  - unfold custom_error_code_survives. specialize (Hence (custom 0x90%Z)).
    destruct (encode_message (custom 0x90%Z)) as [raw|] eqn:Hraw; [|done]. by apply Herr.
  - unfold foreign_opcode_is_unexpected, decode_response. rewrite bool_decide_eq_false_2 by (by rewrite Hnew).
    destruct (decode_foreign (T:=Pong) (new 0x42%Z)) as (e & -> & ->); [by rewrite Hnew|done].
  - unfold malformed_payload_is_reported, decode_response. rewrite bool_decide_eq_false_2 by (by rewrite Hnew').
    destruct (decode_message (T:=Pong) (new' (OPCODE Pong))) as [|e] eqn:Hd; [done|].
    by rewrite (decode_own _ _ (Hnew' _) Hd).
Qed.

End request_tests.

(** The tests on the concrete protocol. *)
Example request_tests_pass_toy :
  success_response_decodes (P:=Toy.toy_protocol) = true ∧
  error_response_maps_to_request_error (P:=Toy.toy_protocol) 30%Z ∧
  custom_error_code_survives (P:=Toy.toy_protocol) (λ c, c) ∧
  foreign_opcode_is_unexpected (P:=Toy.toy_protocol) (λ op, (op, [])) = true ∧
  malformed_payload_is_reported (P:=Toy.toy_protocol) (λ op, (op, [1; 2; 3]%Z)) = true.
Proof. by vm_compute. Qed.

(** ** ndef.rs *)

Module NdefTests.

Local Open Scope Z_scope.

(** [usize] on a 64-bit machine. *)
Definition usize_max : Z := 2 ^ 64 - 1.

(** The bytes of an ASCII string literal. *)
Definition bytes (s : string) : list Z := (λ a, Z.of_N (Ascii.N_of_ascii a)) <$> String.list_ascii_of_string s.

(** [fn text_record] *)
Definition text_record (text : string) : list Z :=
  [0xd1; 0x01] ++ [(Z.of_nat (length (bytes text)) + 3) mod 256] ++ [0x54] ++ [0x02] ++ bytes "en" ++ bytes text.

Definition parses_short_text_record : Prop :=
  match parse_ndef_text_record usize_max (text_record "bloop") with
  | Ret record => text usize_max record = Ret (bytes "bloop")
  | _ => False
  end.

Definition hostile_language_code_length_is_an_error : bool :=
  match parse_ndef_text_record usize_max [0xd1; 0x01; 0x01; 0x54; 0x3f] with
  | Ret record => match text usize_max record with Fail (Truncated _) => true | _ => false end
  | _ => false
  end.

Definition rejects_non_text_records : bool :=
  match parse_ndef_text_record usize_max [0xd1; 0x01; 0x01; 0x55; 0x00] with
  | Fail NotTextRecord => true
  | _ => false
  end.

(** [slice.chunks(n)] *)
Fixpoint chunks (fuel n : nat) (l : list Z) : list (list Z) :=
  match fuel, l with
  | S fuel, _ :: _ => take n l :: chunks fuel n (drop n l)
  | _, _ => []
  end.

(** The loop that feeds chunks until the parser is done. *)
Fixpoint feed_until_done (parser : NdefMessageParser) (cs : list (list Z)) : NdefMessageParser :=
  match cs with
  | [] => parser
  | chunk :: cs =>
      let parser := add_data parser chunk in
      if is_done parser then parser else feed_until_done parser cs
  end.

Definition parser_extracts_message_from_tlv_stream : Prop :=
  let record := text_record "hello" in
  let stream := [0x00; 0x00; 0x03; Z.of_nat (length record) mod 256] ++ record ++ [0xfe] in
  let parser := feed_until_done new (chunks (length stream) 4 stream) in
  is_done parser = true ∧ p_data parser = record.

Definition parser_handles_three_byte_length_form : Prop :=
  let message := replicate 300 0x55 in
  let stream := [0x03; 0xff; 0x01; 0x2c] ++ message in
  let parser := add_data new stream in
  is_done parser = true ∧ length (p_data parser) = 300%nat.

Example ndef_tests_pass :
  parses_short_text_record ∧ hostile_language_code_length_is_an_error = true ∧ rejects_non_text_records = true ∧
  parser_extracts_message_from_tlv_stream ∧ parser_handles_three_byte_length_form.
Proof. by vm_compute. Qed.

End NdefTests.

(** ** nfc/mod.rs *)

Section nfc_tests.
Context {D : Type} {DR : Driver D} (usize_max : Z).

(** A wait that was in the channel, was received and is then aborted: its sender
    is closed. *)
Definition dropped_wait_shows_as_closed_response (d : D) : Prop :=
  ∃ s, rtc (r_step usize_max) (r_init d) s ∧ r_backend s = Serving (WaitForCard 0) ∧
    r_callers s !! 0%N = Some RDropped ∧ closed s (resp (WaitForCard 0)) = true.

(** A wait started when the backend is gone. *)
Definition gone_backend_reports_disconnected (d : D) : Prop :=
  ∃ s c f, rtc (r_step usize_max) (die d (r_init d)) s ∧ r_callers s !! 0%N = Some c ∧ fate_of c = Some f ∧
    wait_for_card (card_fate f) = Err ReaderDisconnected.

Lemma nfc_tests_pass d : dropped_wait_shows_as_closed_response d ∧ gone_backend_reports_disconnected d.
Proof.
  split.
  - unfold dropped_wait_shows_as_closed_response. eexists. split.
    { eapply rtc_l; [by apply (r_call _ _ 0 (WaitForCard 0))|].
      eapply rtc_l; [apply (r_enqueue _ _ 0 (WaitForCard 0)); [done|done|simpl; unfold reader_capacity; lia]|].
      eapply rtc_l; [by eapply r_recv|].
      eapply rtc_l; [apply (r_cancel _ _ 0 (WaitForCard 0)); by right|]. apply rtc_refl. }
    by split_and!.
  - unfold gone_backend_reports_disconnected. do 3 eexists. split.
    { eapply rtc_l; [by apply (r_call _ _ 0 (WaitForCard 0))|].
      eapply rtc_l; [by apply (r_refused _ _ 0 (WaitForCard 0))|]. apply rtc_refl. }
    by split_and!.
Qed.

End nfc_tests.

(** ** audio.rs *)

Section audio_tests.
Context {S : Type} {RO : Rodio S}.

(** [path] names no file: opening it fails. *)
Definition missing_file_surfaces_as_error (fuel : nat) (path : string) (volume : Volume) (s : S) : bool :=
  match play_file fuel path volume s with
  | Some (_, Err (PIo _ | POutput _)) => true
  | _ => false
  end.

Lemma audio_tests_pass fuel path volume s :
  cancel_flag s = false → (∀ s, is_ok (file_open path s).2 = false) →
  missing_file_surfaces_as_error fuel path volume s = true.
Proof.
  intros Hc Ho. unfold missing_file_surfaces_as_error, play_file, play_with. rewrite Hc.
  destruct (open_default_sink s) as [s1 [sink|e]]; [|done]. destruct (connect_new sink s1) as [s2 player].
  specialize (Ho (set_volume player volume s2)). by destruct (file_open path _) as [s3 [r|e]].
Qed.

End audio_tests.
